(** * Lightbox presentation engine: a shallow embedding

    The development follows [src/ts/utils/general.ts] (timing primitives, debounce,
    one-shot listeners), [src/ts/utils/timeout-error.ts],
    [src/ts/utils/transition.ts] (CSS transition utilities) and
    [src/ts/components/lightbox-zoom.ts] (buffers, swap chain, load pipeline,
    gallery links, state machine).

    JavaScript objects that are shared and mutated (buffers, timeouts, races,
    image references) live in explicit heaps indexed by identifiers; every
    [async] function is cut at its [await]s into frames, and one event of the
    host (a click, a repaint, a timer, a settled load) runs the resumed code
    to its next suspension point.

    What the model leaves to the host: numbers are exact rationals; layout
    (bounding boxes, scroll offsets, measured transition durations) comes in
    with the events or as arguments; captions, alt texts, source URLs, the
    width and height that [bufferUpdateImageRatio] writes, the transform
    origin and the inline style of the root are not carried in the world;
    [bufferUpdateImageRatio] and [debounce] are modelled on their own, and
    for the engine a [Scroll] or [Resize] event is one call of the handler
    that the debounced listener lets through.
    The reactions that one event sets off run in the order load callback,
    race, cancelled timers; they write different fields, so the order of the
    microtasks among them is not observable in the model.

    What the model takes from the DOM: a class attribute is the ordered set
    of its tokens; [classList.add] and [classList.remove] throw for the empty
    token and for a token with ASCII whitespace, with what was written before
    the throw kept; [querySelectorAll] throws for a string that is no
    selector. The document is taken to follow the markup of the component:
    every gathered picture holds an [<img>], so the TypeError of reading a
    property of a missing image (lines 552-554, 599-601, 851-853, 906-908) is
    not among the rejections of the model. *)

From Stdlib Require Import ZArith QArith Qminmax Qabs Lia.
From stdpp Require Import base gmap strings list.

(** ** JavaScript values and promises *)

(** Values that reach a promise as fulfilment value or rejection reason. *)
Inductive JsValue :=
  | JUndefined
  | JNull
  | JBool (b : bool)
  | JNumber (n : Z)
  | JNaN
  | JString (s : string)
  | JTimeoutError (message : string)   (* an instance of TimeoutError *)
  | JError (name message : string)     (* any other Error instance *)
  | JDOMException (name : string)      (* a DOMException; its message is left to the browser *)
  | JEvent (type : string).            (* a DOM event object *)

(** ToBoolean of the language. *)
Definition truthy (v : JsValue) : bool :=
  match v with
  | JUndefined | JNull | JNaN => false
  | JBool b => b
  | JNumber n => negb (n =? 0)%Z
  | JString s => negb (String.eqb s "")
  | JTimeoutError _ | JError _ _ | JDOMException _ | JEvent _ => true
  end.

(** [e instanceof TimeoutError]. *)
Definition instanceofTimeoutError (v : JsValue) : bool :=
  match v with JTimeoutError _ => true | _ => false end.

(** [new TimeoutError()]: the message defaults to 'Operation timed-out!'
    ([message ?? ...] in the constructor). *)
Definition TimeoutError (message : option string) : JsValue :=
  JTimeoutError (default "Operation timed-out!"%string message).

(** Calling a variable that holds [undefined]. *)
Definition notAFunction (name : string) : JsValue :=
  JError "TypeError" (name ++ " is not a function").

Inductive PromiseState :=
  | Pending
  | Fulfilled
  | Rejected (reason : JsValue).

(** The resolving functions of a promise act once; later calls are ignored. *)
Definition resolve (p : PromiseState) : PromiseState :=
  match p with Pending => Fulfilled | _ => p end.

Definition reject (reason : JsValue) (p : PromiseState) : PromiseState :=
  match p with Pending => Rejected reason | _ => p end.

(** How a synchronous call ends. *)
Inductive Completion :=
  | Normal
  | Throw (e : JsValue).

(** ** Timing primitives (general.ts) *)

(** The closure state of one [waitForTimeout(timeout)] call: the returned
    promise, the variables [innerResolve] and [innerReject] ([true] while they
    hold a function, [false] once they are [undefined]) and whether the
    callback of [window.setTimeout] is still scheduled. *)
Record Timeout := {
  delay : Q;
  promise : PromiseState;
  innerResolve : bool;
  innerReject : bool;
  scheduled : bool;
}.

Definition waitForTimeout (timeout : Q) : Timeout :=
  {| delay := timeout; promise := Pending;
     innerResolve := true; innerReject := true; scheduled := true |}.

(** The callback handed to [window.setTimeout]; a cleared timer never runs. *)
Definition elapse (t : Timeout) : Timeout :=
  if scheduled t then
    {| delay := delay t; promise := resolve (promise t);
       innerResolve := false; innerReject := false; scheduled := false |}
  else t.

(** [cancel(reason)]; [cancel()] is [cancel JUndefined]. The non-null
    assertions [innerReject!] and [innerResolve!] are erased by the compiler,
    so calling a cleared variable throws a TypeError. *)
Definition cancel (reason : JsValue) (t : Timeout) : Timeout * Completion :=
  let cleared := {| delay := delay t; promise := promise t;
                    innerResolve := innerResolve t;
                    innerReject := innerReject t; scheduled := false |} in
  if truthy reason then
    if innerReject t then
      ({| delay := delay t; promise := reject reason (promise t);
          innerResolve := innerResolve t; innerReject := innerReject t;
          scheduled := false |}, Normal)
    else (cleared, Throw (notAFunction "innerReject"))
  else
    if innerResolve t then
      ({| delay := delay t; promise := resolve (promise t);
          innerResolve := innerResolve t; innerReject := innerReject t;
          scheduled := false |}, Normal)
    else (cleared, Throw (notAFunction "innerResolve")).

(** The closure state of one [promiseWithTimeout(promise, timeout)] call: the
    returned promise and whether the [setTimeout] callback is still
    scheduled. *)
Record Race := {
  race_timeout : Q;
  race_promise : PromiseState;
  race_scheduled : bool;
}.

Definition promiseWithTimeout (timeout : Q) : Race :=
  {| race_timeout := timeout; race_promise := Pending; race_scheduled := true |}.

(** [() => reject(new TimeoutError())]. *)
Definition race_onTimer (r : Race) : Race :=
  if race_scheduled r then
    {| race_timeout := race_timeout r;
       race_promise := reject (TimeoutError None) (race_promise r);
       race_scheduled := false |}
  else r.

(** [(value) => { window.clearTimeout(id); resolve(value); }]. *)
Definition race_onFulfilled (r : Race) : Race :=
  {| race_timeout := race_timeout r;
     race_promise := resolve (race_promise r);
     race_scheduled := false |}.

(** [(reason) => { window.clearTimeout(id); reject(reason); }]. *)
Definition race_onRejected (reason : JsValue) (r : Race) : Race :=
  {| race_timeout := race_timeout r;
     race_promise := reject reason (race_promise r);
     race_scheduled := false |}.

(** ** Data model (lightbox-zoom.ts) *)

(** JavaScript numbers are modelled as exact rationals. *)
Definition Qgtb (a b : Q) : bool := negb (Qle_bool a b).

Record Config := {
  galleryMode : bool;
  galleryLoop : bool;
  loadFullResImmediately : bool;
  loadTimeoutBeforePreview : Q;
  closeOnScroll : bool;
  closeOnResize : bool;
  scrollThreshold : Q;
  lightboxClassVisible : string;
  lightboxClassOpen : string;
  bufferClassLoad : string;
  bufferClassActive : string;
  bufferClassFront : string;
  bufferClassZoom : string;
}.

(** The defaults that [init] spreads the options over. *)
Definition defaultConfig : Config :=
  {| galleryMode := true; galleryLoop := true;
     loadFullResImmediately := false; loadTimeoutBeforePreview := 50%Q;
     closeOnScroll := true; closeOnResize := false; scrollThreshold := 20%Q;
     lightboxClassVisible := "visible"; lightboxClassOpen := "open";
     bufferClassLoad := "load"; bufferClassActive := "active";
     bufferClassFront := "front"; bufferClassZoom := "zoom" |}.

(** An image reference. Identity is the index in the scan order; [tag] is
    [wrapper.dataset[dataSelector]], [zoom] the parsed zoom attribute ([None]
    when absent or not a number), [sourceCount] the number of [<source>]
    children of the wrapper, [hasSrcset] whether the [<img>] carries a srcset,
    and [visibilityHidden] is [image.style.visibility === 'hidden']. *)
Record ImageReference := {
  tag : string;
  zoom : option Q;
  sourceCount : nat;
  hasSrcset : bool;
  next : option nat;
  previous : option nat;
  visibilityHidden : bool;
}.

Inductive BufferState := Inactive | Active | Loading.

Inductive LightboxState := Closed | Opening | Open | Closing.

#[global] Instance BufferState_eq_dec : EqDecision BufferState.
Proof. solve_decision. Defined.

#[global] Instance LightboxState_eq_dec : EqDecision LightboxState.
Proof. solve_decision. Defined.

(** [getBoundingClientRect()]. *)
Record Rect := { left : Q; top : Q; width : Q; height : Q }.

(** What the pan closure of [bufferZoomIn] captures. *)
Record PanHandler := { wrapperRect : Rect; zoomPanMulti : Q }.

(** [image.style.transform]. [TGeometry] stands for the
    [scale(sx, sy)] that the open and close handlers compute from layout. *)
Inductive Transform :=
  | TNone
  | TScale (factor : Q)
  | TScaleTranslate (factor x y : Q)
  | TGeometry.

(** A buffer object together with the parts of its DOM subtree that the
    engine writes: the wrapper's class list, hidden attribute, parent and pan
    handler slot; the picture's cursor, click handler and the [sizes] (in vw)
    of its [<source>] children; the image's transform. *)
Record Buffer := {
  state : BufferState;
  hideTransition : option nat;
  isPreview : bool;
  isZoomed : bool;
  zoomFactor : Q;
  className : list string;
  hidden : bool;
  attached : bool;
  onpan : option PanHandler;
  cursor : option string;
  onclick : bool;
  sources : list Q;
  transform : Transform;
}.

Definition set_state (v : BufferState) (b : Buffer) : Buffer :=
  {| state := v; hideTransition := hideTransition b; isPreview := isPreview b;
     isZoomed := isZoomed b; zoomFactor := zoomFactor b;
     className := className b; hidden := hidden b; attached := attached b;
     onpan := onpan b; cursor := cursor b; onclick := onclick b;
     sources := sources b; transform := transform b |}.

Definition set_hideTransition (v : option nat) (b : Buffer) : Buffer :=
  {| state := state b; hideTransition := v; isPreview := isPreview b;
     isZoomed := isZoomed b; zoomFactor := zoomFactor b;
     className := className b; hidden := hidden b; attached := attached b;
     onpan := onpan b; cursor := cursor b; onclick := onclick b;
     sources := sources b; transform := transform b |}.

Definition set_className (v : list string) (b : Buffer) : Buffer :=
  {| state := state b; hideTransition := hideTransition b;
     isPreview := isPreview b; isZoomed := isZoomed b;
     zoomFactor := zoomFactor b; className := v; hidden := hidden b;
     attached := attached b; onpan := onpan b; cursor := cursor b;
     onclick := onclick b; sources := sources b; transform := transform b |}.

Definition set_hidden (v : bool) (b : Buffer) : Buffer :=
  {| state := state b; hideTransition := hideTransition b;
     isPreview := isPreview b; isZoomed := isZoomed b;
     zoomFactor := zoomFactor b; className := className b; hidden := v;
     attached := attached b; onpan := onpan b; cursor := cursor b;
     onclick := onclick b; sources := sources b; transform := transform b |}.

Definition set_attached (v : bool) (b : Buffer) : Buffer :=
  {| state := state b; hideTransition := hideTransition b;
     isPreview := isPreview b; isZoomed := isZoomed b;
     zoomFactor := zoomFactor b; className := className b; hidden := hidden b;
     attached := v; onpan := onpan b; cursor := cursor b;
     onclick := onclick b; sources := sources b; transform := transform b |}.

Definition set_transform (v : Transform) (b : Buffer) : Buffer :=
  {| state := state b; hideTransition := hideTransition b;
     isPreview := isPreview b; isZoomed := isZoomed b;
     zoomFactor := zoomFactor b; className := className b; hidden := hidden b;
     attached := attached b; onpan := onpan b; cursor := cursor b;
     onclick := onclick b; sources := sources b; transform := v |}.

(** ** Class lists (DOMTokenList)

    A class list is the ordered set of the tokens of the [class] attribute. *)

(** ASCII whitespace: tab, line feed, form feed, carriage return, space. *)
Definition isSpace (a : Ascii.ascii) : bool :=
  bool_decide (Ascii.nat_of_ascii a ∈ [9; 10; 12; 13; 32]).

Fixpoint hasSpace (s : string) : bool :=
  match s with
  | EmptyString => false
  | String a s => isSpace a || hasSpace s
  end.

(** What [classList.add(token)] and [classList.remove(token)] throw before
    they do anything: a SyntaxError for the empty string, an
    InvalidCharacterError for a token with ASCII whitespace. *)
Definition tokenError (token : string) : option JsValue :=
  if String.eqb token "" then Some (JDOMException "SyntaxError")
  else if hasSpace token then Some (JDOMException "InvalidCharacterError")
  else None.

(** The pieces of [s] between ASCII whitespace; [token] is the piece read so
    far. *)
Fixpoint splitOnSpace (s token : string) : list string :=
  match s with
  | EmptyString => if String.eqb token "" then [] else [token]
  | String a s =>
      if isSpace a
      then (if String.eqb token "" then [] else [token]) ++ splitOnSpace s ""
      else splitOnSpace s (token ++ String a "")
  end.

(** Appending to an ordered set. *)
Definition appendToken (set : list string) (token : string) : list string :=
  if bool_decide (token ∈ set) then set else set ++ [token].

(** [element.className = s], read through the class list: the tokens of
    [s], each once, in the order of their first occurrence. *)
Definition tokens (s : string) : list string :=
  foldl appendToken [] (splitOnSpace s "").

(** [classList.add(token)] and [classList.remove(token)]: the class list
    after the call and how the call ends. *)
Definition classList_add (token : string) (l : list string) : list string * Completion :=
  match tokenError token with
  | Some e => (l, Throw e)
  | None => (appendToken l token, Normal)
  end.

Definition classList_remove (token : string) (l : list string)
    : list string * Completion :=
  match tokenError token with
  | Some e => (l, Throw e)
  | None => (filter (λ x, x ≠ token) l, Normal)
  end.

(** ** Zoom and pan (bufferZoomIn, bufferZoomOut) *)

(** The event a pan handler receives: a pointer or mouse event carries
    [clientX]/[clientY]; a touch event carries them in [targetTouches]. *)
Inductive PanEvent :=
  | PointerOrMouse (x y : Q)
  | Touch (targetTouches : list (Q * Q)).

Definition clientX (e : PanEvent) : option Q :=
  match e with
  | PointerOrMouse x _ => Some x
  | Touch ((x, _) :: _) => Some x
  | Touch [] => None
  end.

Definition clientY (e : PanEvent) : option Q :=
  match e with
  | PointerOrMouse _ y => Some y
  | Touch ((_, y) :: _) => Some y
  | Touch [] => None
  end.

(** [Math.max(Math.min(v, 0.5), -0.5)]. *)
Definition clamp (v : Q) : Q := Qmax (Qmin v (1 # 2)) (- (1 # 2))%Q.

(** [normalizedX] and [normalizedY] of the pan closure; [screen] is
    [window.screen.width] and [window.screen.height]. A division by a zero
    width or height (NaN or an infinity in the language) is outside the
    model. *)
Definition normalized (h : PanHandler) (screen : Q * Q) (e : PanEvent) : Q * Q :=
  let rect := wrapperRect h in
  let posX := match clientX e with
              | Some x => (x - left rect)%Q
              | None => (screen.1 * (1 # 2))%Q
              end in
  let posY := match clientY e with
              | Some y => (y - top rect)%Q
              | None => (screen.2 * (1 # 2))%Q
              end in
  (clamp ((posX - width rect * (1 # 2)) / width rect)%Q,
   clamp ((posY - height rect * (1 # 2)) / height rect)%Q).

(** The two percentages of [translate(..%,..%)]. *)
Definition panTranslate (h : PanHandler) (screen : Q * Q) (e : PanEvent) : Q * Q :=
  let n := normalized h screen e in
  ((n.1 * zoomPanMulti h * 100)%Q, (n.2 * zoomPanMulti h * 100)%Q).

(** The handler stored in [buffer.wrapper[zoomedPanEvent]]. *)
Definition panMove (screen : Q * Q) (e : PanEvent) (buffer : Buffer) : Buffer :=
  match onpan buffer with
  | None => buffer
  | Some h =>
      let t := panTranslate h screen e in
      set_transform (TScaleTranslate (zoomFactor buffer) t.1 t.2) buffer
  end.

Definition set_onpan (v : option PanHandler) (b : Buffer) : Buffer :=
  {| state := state b; hideTransition := hideTransition b;
     isPreview := isPreview b; isZoomed := isZoomed b;
     zoomFactor := zoomFactor b; className := className b; hidden := hidden b;
     attached := attached b; onpan := v; cursor := cursor b;
     onclick := onclick b; sources := sources b; transform := transform b |}.

Definition set_sources (v : list Q) (b : Buffer) : Buffer :=
  {| state := state b; hideTransition := hideTransition b;
     isPreview := isPreview b; isZoomed := isZoomed b;
     zoomFactor := zoomFactor b; className := className b; hidden := hidden b;
     attached := attached b; onpan := onpan b; cursor := cursor b;
     onclick := onclick b; sources := v; transform := transform b |}.

(** [bufferZoomIn]: the buffer after the call and how the call ends. [rect]
    is what [buffer.wrapper.getBoundingClientRect()] returns at the call.
    Lines 485-494 have run when [classList.add] (line 499) throws; the pan
    handler (line 500) is then not assigned. *)
Definition bufferZoomIn (cfg : Config) (lightbox : LightboxState) (rect : Rect)
    (buffer : Buffer) : Buffer * Completion :=
  if bool_decide (lightbox ≠ Open) || isZoomed buffer then (buffer, Normal)
  else
    let zoomed :=
      {| state := state buffer; hideTransition := hideTransition buffer;
         isPreview := isPreview buffer; isZoomed := true;
         zoomFactor := zoomFactor buffer; className := className buffer;
         hidden := hidden buffer; attached := attached buffer;
         onpan := onpan buffer; cursor := Some "zoom-out"%string;
         onclick := onclick buffer;
         sources := if loadFullResImmediately cfg then sources buffer
                    else (λ _, (zoomFactor buffer * 100)%Q) <$> sources buffer;
         transform := TScale (zoomFactor buffer) |} in
    match classList_add (bufferClassZoom cfg) (className buffer) with
    | (_, Throw e) => (zoomed, Throw e)
    | (classes, Normal) =>
        (set_onpan (Some {| wrapperRect := rect;
                            zoomPanMulti := ((1 - zoomFactor buffer) / zoomFactor buffer)%Q |})
           (set_className classes zoomed), Normal)
    end.

(** [bufferZoomOut]: lines 529-531 have run when [classList.remove]
    (line 532) throws; the pan handler and the sizes are then left as they
    are. *)
Definition bufferZoomOut (cfg : Config) (buffer : Buffer) : Buffer * Completion :=
  if negb (isZoomed buffer) then (buffer, Normal)
  else
    let unzoomed :=
      {| state := state buffer; hideTransition := hideTransition buffer;
         isPreview := isPreview buffer; isZoomed := false;
         zoomFactor := zoomFactor buffer; className := className buffer;
         hidden := hidden buffer; attached := attached buffer;
         onpan := onpan buffer; cursor := Some "zoom-in"%string;
         onclick := onclick buffer; sources := sources buffer;
         transform := TNone |} in
    match classList_remove (bufferClassZoom cfg) (className buffer) with
    | (_, Throw e) => (unzoomed, Throw e)
    | (classes, Normal) =>
        (set_sources (if loadFullResImmediately cfg then sources buffer
                      else (λ _, 100%Q) <$> sources buffer)
           (set_onpan None (set_className classes unzoomed)), Normal)
    end.

(** ** Suspended code *)

(** One frame per [await] of the source; the arguments are the local
    variables that are live across it. *)
Inductive Frame :=
  (* bufferSwap *)
  | SwapRepaint (buffer backBuffer : nat)            (* await waitForNextRepaint() *)
  | SwapHide (backBuffer timeout : nat)              (* await backBuffer.hideTransition?.promise *)
  (* lightboxPresentImage, buffer found Loading *)
  | PresentLoadingRepaint (image retrievedBuffer previewBuffer : nat)
  | PresentLoadingPreview (image retrievedBuffer previewBuffer load : nat)
  | PresentLoadingSwap
  (* lightboxPresentImage, no buffer yet *)
  | PresentNewRepaint (image imageBuffer : nat)
  (* lightboxPresentImage, the race and its catch block *)
  | PresentRace (image imageBuffer load : nat)       (* await promiseWithTimeout(...) *)
  | PresentTimeoutRepaint (image imageBuffer previewBuffer : nat)
  | PresentTimeoutPreview (image imageBuffer previewBuffer load : nat)
  | PresentTimeoutSwap
  (* the callback chained with imageLoadPromise.then *)
  | AfterLoad (image imageBuffer load : nat)
  | AfterLoadSwap
  (* handlers *)
  | NextPresent
  | PreviousPresent
  | OpenPresent
  | OpenRepaint
  | OpenTransition (timeout : nat)
  | CloseZoom (timeout : nat)
  | CloseTransition (timeout : nat).

(** What a frame waits for: a repaint, a load operation, a
    [waitForTimeout] promise, a [promiseWithTimeout] promise (named by the
    load it wraps), or the async function it called. *)
Inductive Wait :=
  | WRepaint
  | WLoad (load : nat)
  | WTimeout (timeout : nat)
  | WRace (load : nat)
  | WCallee.

#[global] Instance Wait_eq_dec : EqDecision Wait.
Proof. solve_decision. Defined.

Definition waits (f : Frame) : Wait :=
  match f with
  | SwapRepaint _ _ | PresentLoadingRepaint _ _ _ | PresentNewRepaint _ _
  | PresentTimeoutRepaint _ _ _ | OpenRepaint => WRepaint
  | SwapHide _ t | OpenTransition t | CloseZoom t | CloseTransition t => WTimeout t
  | PresentLoadingPreview _ _ _ p | PresentTimeoutPreview _ _ _ p
  | AfterLoad _ _ p => WLoad p
  | PresentRace _ _ p => WRace p
  | PresentLoadingSwap | PresentTimeoutSwap | AfterLoadSwap | NextPresent
  | PreviousPresent | OpenPresent => WCallee
  end.

(** How a stretch of code between two suspension points ends: the function
    returned or threw, or it is suspended again with new frames on top. *)
Inductive Result :=
  | Finished (c : Completion)
  | Suspended (frames : list Frame).

(** ** The world: module-level variables and heaps *)

(** The variables [config], [lightbox] (its fields flattened),
    the three transition durations and [anchorScrollPosition]; the heaps of
    image references, buffers, [waitForTimeout] handles, load operations and
    [promiseWithTimeout] races (keyed by the load they wrap); the suspended
    tasks, oldest first, each a stack of frames with the innermost on top;
    the [waitForTimeout] promises resolved by [cancel] whose reactions have
    not run yet; the unhandled rejections, each with the task whose promise
    was rejected; the next fresh identifier. *)
Record World := {
  config : Config;
  lightboxTransitionDuration : Q;
  bufferTransitionDuration : Q;
  zoomTransitionDuration : Q;
  lightboxState : LightboxState;
  presentedImage : option nat;
  frontBuffer : nat;
  swapChain : gmap nat nat;
  rootClassName : list string;
  rootHidden : bool;
  anchorScrollPosition : option (Q * Q);
  bodyOverflowHidden : bool;
  images : list ImageReference;
  buffers : gmap nat Buffer;
  timeouts : gmap nat Timeout;
  loads : gmap nat PromiseState;
  races : gmap nat Race;
  tasks : list (nat * list Frame);
  microtasks : list nat;
  unhandled : list (nat * JsValue);
  fresh : nat;
}.

Definition set_lightboxState (v : LightboxState) (w : World) : World :=
  {| config := config w;
     lightboxTransitionDuration := lightboxTransitionDuration w;
     bufferTransitionDuration := bufferTransitionDuration w;
     zoomTransitionDuration := zoomTransitionDuration w; lightboxState := v;
     presentedImage := presentedImage w; frontBuffer := frontBuffer w;
     swapChain := swapChain w; rootClassName := rootClassName w;
     rootHidden := rootHidden w;
     anchorScrollPosition := anchorScrollPosition w;
     bodyOverflowHidden := bodyOverflowHidden w; images := images w;
     buffers := buffers w; timeouts := timeouts w; loads := loads w;
     races := races w; tasks := tasks w; microtasks := microtasks w;
     unhandled := unhandled w; fresh := fresh w |}.

Definition set_presentedImage (v : option nat) (w : World) : World :=
  {| config := config w;
     lightboxTransitionDuration := lightboxTransitionDuration w;
     bufferTransitionDuration := bufferTransitionDuration w;
     zoomTransitionDuration := zoomTransitionDuration w;
     lightboxState := lightboxState w; presentedImage := v;
     frontBuffer := frontBuffer w; swapChain := swapChain w;
     rootClassName := rootClassName w; rootHidden := rootHidden w;
     anchorScrollPosition := anchorScrollPosition w;
     bodyOverflowHidden := bodyOverflowHidden w; images := images w;
     buffers := buffers w; timeouts := timeouts w; loads := loads w;
     races := races w; tasks := tasks w; microtasks := microtasks w;
     unhandled := unhandled w; fresh := fresh w |}.

Definition set_frontBuffer (v : nat) (w : World) : World :=
  {| config := config w;
     lightboxTransitionDuration := lightboxTransitionDuration w;
     bufferTransitionDuration := bufferTransitionDuration w;
     zoomTransitionDuration := zoomTransitionDuration w;
     lightboxState := lightboxState w; presentedImage := presentedImage w;
     frontBuffer := v; swapChain := swapChain w;
     rootClassName := rootClassName w; rootHidden := rootHidden w;
     anchorScrollPosition := anchorScrollPosition w;
     bodyOverflowHidden := bodyOverflowHidden w; images := images w;
     buffers := buffers w; timeouts := timeouts w; loads := loads w;
     races := races w; tasks := tasks w; microtasks := microtasks w;
     unhandled := unhandled w; fresh := fresh w |}.

Definition set_swapChain (v : gmap nat nat) (w : World) : World :=
  {| config := config w;
     lightboxTransitionDuration := lightboxTransitionDuration w;
     bufferTransitionDuration := bufferTransitionDuration w;
     zoomTransitionDuration := zoomTransitionDuration w;
     lightboxState := lightboxState w; presentedImage := presentedImage w;
     frontBuffer := frontBuffer w; swapChain := v;
     rootClassName := rootClassName w; rootHidden := rootHidden w;
     anchorScrollPosition := anchorScrollPosition w;
     bodyOverflowHidden := bodyOverflowHidden w; images := images w;
     buffers := buffers w; timeouts := timeouts w; loads := loads w;
     races := races w; tasks := tasks w; microtasks := microtasks w;
     unhandled := unhandled w; fresh := fresh w |}.

Definition set_rootClassName (v : list string) (w : World) : World :=
  {| config := config w;
     lightboxTransitionDuration := lightboxTransitionDuration w;
     bufferTransitionDuration := bufferTransitionDuration w;
     zoomTransitionDuration := zoomTransitionDuration w;
     lightboxState := lightboxState w; presentedImage := presentedImage w;
     frontBuffer := frontBuffer w; swapChain := swapChain w;
     rootClassName := v; rootHidden := rootHidden w;
     anchorScrollPosition := anchorScrollPosition w;
     bodyOverflowHidden := bodyOverflowHidden w; images := images w;
     buffers := buffers w; timeouts := timeouts w; loads := loads w;
     races := races w; tasks := tasks w; microtasks := microtasks w;
     unhandled := unhandled w; fresh := fresh w |}.

Definition set_rootHidden (v : bool) (w : World) : World :=
  {| config := config w;
     lightboxTransitionDuration := lightboxTransitionDuration w;
     bufferTransitionDuration := bufferTransitionDuration w;
     zoomTransitionDuration := zoomTransitionDuration w;
     lightboxState := lightboxState w; presentedImage := presentedImage w;
     frontBuffer := frontBuffer w; swapChain := swapChain w;
     rootClassName := rootClassName w; rootHidden := v;
     anchorScrollPosition := anchorScrollPosition w;
     bodyOverflowHidden := bodyOverflowHidden w; images := images w;
     buffers := buffers w; timeouts := timeouts w; loads := loads w;
     races := races w; tasks := tasks w; microtasks := microtasks w;
     unhandled := unhandled w; fresh := fresh w |}.

Definition set_anchorScrollPosition (v : option (Q * Q)) (w : World) : World :=
  {| config := config w;
     lightboxTransitionDuration := lightboxTransitionDuration w;
     bufferTransitionDuration := bufferTransitionDuration w;
     zoomTransitionDuration := zoomTransitionDuration w;
     lightboxState := lightboxState w; presentedImage := presentedImage w;
     frontBuffer := frontBuffer w; swapChain := swapChain w;
     rootClassName := rootClassName w; rootHidden := rootHidden w;
     anchorScrollPosition := v; bodyOverflowHidden := bodyOverflowHidden w;
     images := images w; buffers := buffers w; timeouts := timeouts w;
     loads := loads w; races := races w; tasks := tasks w;
     microtasks := microtasks w; unhandled := unhandled w; fresh := fresh w |}.

Definition set_bodyOverflowHidden (v : bool) (w : World) : World :=
  {| config := config w;
     lightboxTransitionDuration := lightboxTransitionDuration w;
     bufferTransitionDuration := bufferTransitionDuration w;
     zoomTransitionDuration := zoomTransitionDuration w;
     lightboxState := lightboxState w; presentedImage := presentedImage w;
     frontBuffer := frontBuffer w; swapChain := swapChain w;
     rootClassName := rootClassName w; rootHidden := rootHidden w;
     anchorScrollPosition := anchorScrollPosition w; bodyOverflowHidden := v;
     images := images w; buffers := buffers w; timeouts := timeouts w;
     loads := loads w; races := races w; tasks := tasks w;
     microtasks := microtasks w; unhandled := unhandled w; fresh := fresh w |}.

Definition set_images (v : list ImageReference) (w : World) : World :=
  {| config := config w;
     lightboxTransitionDuration := lightboxTransitionDuration w;
     bufferTransitionDuration := bufferTransitionDuration w;
     zoomTransitionDuration := zoomTransitionDuration w;
     lightboxState := lightboxState w; presentedImage := presentedImage w;
     frontBuffer := frontBuffer w; swapChain := swapChain w;
     rootClassName := rootClassName w; rootHidden := rootHidden w;
     anchorScrollPosition := anchorScrollPosition w;
     bodyOverflowHidden := bodyOverflowHidden w; images := v;
     buffers := buffers w; timeouts := timeouts w; loads := loads w;
     races := races w; tasks := tasks w; microtasks := microtasks w;
     unhandled := unhandled w; fresh := fresh w |}.

Definition set_buffers (v : gmap nat Buffer) (w : World) : World :=
  {| config := config w;
     lightboxTransitionDuration := lightboxTransitionDuration w;
     bufferTransitionDuration := bufferTransitionDuration w;
     zoomTransitionDuration := zoomTransitionDuration w;
     lightboxState := lightboxState w; presentedImage := presentedImage w;
     frontBuffer := frontBuffer w; swapChain := swapChain w;
     rootClassName := rootClassName w; rootHidden := rootHidden w;
     anchorScrollPosition := anchorScrollPosition w;
     bodyOverflowHidden := bodyOverflowHidden w; images := images w;
     buffers := v; timeouts := timeouts w; loads := loads w;
     races := races w; tasks := tasks w; microtasks := microtasks w;
     unhandled := unhandled w; fresh := fresh w |}.

Definition set_timeouts (v : gmap nat Timeout) (w : World) : World :=
  {| config := config w;
     lightboxTransitionDuration := lightboxTransitionDuration w;
     bufferTransitionDuration := bufferTransitionDuration w;
     zoomTransitionDuration := zoomTransitionDuration w;
     lightboxState := lightboxState w; presentedImage := presentedImage w;
     frontBuffer := frontBuffer w; swapChain := swapChain w;
     rootClassName := rootClassName w; rootHidden := rootHidden w;
     anchorScrollPosition := anchorScrollPosition w;
     bodyOverflowHidden := bodyOverflowHidden w; images := images w;
     buffers := buffers w; timeouts := v; loads := loads w; races := races w;
     tasks := tasks w; microtasks := microtasks w; unhandled := unhandled w;
     fresh := fresh w |}.

Definition set_loads (v : gmap nat PromiseState) (w : World) : World :=
  {| config := config w;
     lightboxTransitionDuration := lightboxTransitionDuration w;
     bufferTransitionDuration := bufferTransitionDuration w;
     zoomTransitionDuration := zoomTransitionDuration w;
     lightboxState := lightboxState w; presentedImage := presentedImage w;
     frontBuffer := frontBuffer w; swapChain := swapChain w;
     rootClassName := rootClassName w; rootHidden := rootHidden w;
     anchorScrollPosition := anchorScrollPosition w;
     bodyOverflowHidden := bodyOverflowHidden w; images := images w;
     buffers := buffers w; timeouts := timeouts w; loads := v;
     races := races w; tasks := tasks w; microtasks := microtasks w;
     unhandled := unhandled w; fresh := fresh w |}.

Definition set_races (v : gmap nat Race) (w : World) : World :=
  {| config := config w;
     lightboxTransitionDuration := lightboxTransitionDuration w;
     bufferTransitionDuration := bufferTransitionDuration w;
     zoomTransitionDuration := zoomTransitionDuration w;
     lightboxState := lightboxState w; presentedImage := presentedImage w;
     frontBuffer := frontBuffer w; swapChain := swapChain w;
     rootClassName := rootClassName w; rootHidden := rootHidden w;
     anchorScrollPosition := anchorScrollPosition w;
     bodyOverflowHidden := bodyOverflowHidden w; images := images w;
     buffers := buffers w; timeouts := timeouts w; loads := loads w;
     races := v; tasks := tasks w; microtasks := microtasks w;
     unhandled := unhandled w; fresh := fresh w |}.

Definition set_tasks (v : list (nat * list Frame)) (w : World) : World :=
  {| config := config w;
     lightboxTransitionDuration := lightboxTransitionDuration w;
     bufferTransitionDuration := bufferTransitionDuration w;
     zoomTransitionDuration := zoomTransitionDuration w;
     lightboxState := lightboxState w; presentedImage := presentedImage w;
     frontBuffer := frontBuffer w; swapChain := swapChain w;
     rootClassName := rootClassName w; rootHidden := rootHidden w;
     anchorScrollPosition := anchorScrollPosition w;
     bodyOverflowHidden := bodyOverflowHidden w; images := images w;
     buffers := buffers w; timeouts := timeouts w; loads := loads w;
     races := races w; tasks := v; microtasks := microtasks w;
     unhandled := unhandled w; fresh := fresh w |}.

Definition set_microtasks (v : list nat) (w : World) : World :=
  {| config := config w;
     lightboxTransitionDuration := lightboxTransitionDuration w;
     bufferTransitionDuration := bufferTransitionDuration w;
     zoomTransitionDuration := zoomTransitionDuration w;
     lightboxState := lightboxState w; presentedImage := presentedImage w;
     frontBuffer := frontBuffer w; swapChain := swapChain w;
     rootClassName := rootClassName w; rootHidden := rootHidden w;
     anchorScrollPosition := anchorScrollPosition w;
     bodyOverflowHidden := bodyOverflowHidden w; images := images w;
     buffers := buffers w; timeouts := timeouts w; loads := loads w;
     races := races w; tasks := tasks w; microtasks := v;
     unhandled := unhandled w; fresh := fresh w |}.

Definition set_unhandled (v : list (nat * JsValue)) (w : World) : World :=
  {| config := config w;
     lightboxTransitionDuration := lightboxTransitionDuration w;
     bufferTransitionDuration := bufferTransitionDuration w;
     zoomTransitionDuration := zoomTransitionDuration w;
     lightboxState := lightboxState w; presentedImage := presentedImage w;
     frontBuffer := frontBuffer w; swapChain := swapChain w;
     rootClassName := rootClassName w; rootHidden := rootHidden w;
     anchorScrollPosition := anchorScrollPosition w;
     bodyOverflowHidden := bodyOverflowHidden w; images := images w;
     buffers := buffers w; timeouts := timeouts w; loads := loads w;
     races := races w; tasks := tasks w; microtasks := microtasks w;
     unhandled := v; fresh := fresh w |}.

Definition set_fresh (v : nat) (w : World) : World :=
  {| config := config w;
     lightboxTransitionDuration := lightboxTransitionDuration w;
     bufferTransitionDuration := bufferTransitionDuration w;
     zoomTransitionDuration := zoomTransitionDuration w;
     lightboxState := lightboxState w; presentedImage := presentedImage w;
     frontBuffer := frontBuffer w; swapChain := swapChain w;
     rootClassName := rootClassName w; rootHidden := rootHidden w;
     anchorScrollPosition := anchorScrollPosition w;
     bodyOverflowHidden := bodyOverflowHidden w; images := images w;
     buffers := buffers w; timeouts := timeouts w; loads := loads w;
     races := races w; tasks := tasks w; microtasks := microtasks w;
     unhandled := unhandled w; fresh := v |}.

(** ** Heap helpers *)

Definition updBuffer (id : nat) (f : Buffer → Buffer) (w : World) : World :=
  set_buffers (alter f id (buffers w)) w.

Definition stateOf (id : nat) (w : World) : option BufferState :=
  state <$> buffers w !! id.

Definition set_visibilityHidden (v : bool) (i : ImageReference) : ImageReference :=
  {| tag := tag i; zoom := zoom i; sourceCount := sourceCount i;
     hasSrcset := hasSrcset i; next := next i; previous := previous i;
     visibilityHidden := v |}.

(** [lightbox.presentedImage.image.style.visibility = ...]. *)
Definition setVisibility (v : bool) (w : World) : World :=
  match presentedImage w with
  | Some i => set_images (alter (set_visibilityHidden v) i (images w)) w
  | None => w
  end.

(** Reading [lightbox.presentedImage!.image] when the variable holds
    [null]; the message is the one of V8. *)
Definition nullDereference : JsValue :=
  JError "TypeError" "Cannot read properties of null (reading 'image')".

(** [createBuffer(state, isPreview)]: a detached buffer. *)
Definition createBuffer (cfg : Config) (st : BufferState) (preview : bool) : Buffer :=
  {| state := st; hideTransition := None; isPreview := preview;
     isZoomed := false; zoomFactor := 1;
     className := match st with
                  | Active => tokens (bufferClassFront cfg ++ " " ++ bufferClassActive cfg)
                  | Loading => tokens (bufferClassLoad cfg)
                  | Inactive => []
                  end;
     hidden := match st with Inactive => true | _ => false end;
     attached := false; onpan := None; cursor := None; onclick := false;
     sources := []; transform := TNone |}.

(** A new buffer object enters the heap under a fresh identifier. *)
Definition allocBuffer (b : Buffer) (w : World) : nat * World :=
  (fresh w, set_fresh (S (fresh w)) (set_buffers (<[fresh w := b]> (buffers w)) w)).

(** [createBuffer(BufferState.Loading)] followed by
    [lightbox.root.insertBefore(buffer.wrapper, lightbox.buttonNext)]. *)
Definition createAttachedBuffer (w : World) : nat * World :=
  allocBuffer (set_attached true (createBuffer (config w) Loading false)) w.

Definition newTimeout (timeout : Q) (w : World) : nat * World :=
  (fresh w, set_fresh (S (fresh w))
              (set_timeouts (<[fresh w := waitForTimeout timeout]> (timeouts w)) w)).

(** A load operation of the host starts: the load event and decode of a new
    source, or, for a buffer that was loaded before, [image.decode()] (or
    [Promise.resolve()], which the host settles at once). The host settles it
    with a [LoadSettled] event. *)
Definition newLoad (w : World) : nat * World :=
  (fresh w, set_fresh (S (fresh w)) (set_loads (<[fresh w := Pending]> (loads w)) w)).

(** ** Swap chain (bufferSwap) *)

(** [buffer.hideTransition.cancel(); buffer.hideTransition = null]. The
    reactions of the resolved promise run after the current code. *)
Definition cancelHideTransition (buffer : nat) (w : World) : World * Completion :=
  match buffers w !! buffer ≫= hideTransition with
  | None => (w, Normal)
  | Some t =>
      match timeouts w !! t with
      | None => (w, Normal)
      | Some tm =>
          let w := set_timeouts (<[t := (cancel JUndefined tm).1]> (timeouts w)) w in
          match (cancel JUndefined tm).2 with
          | Throw e => (w, Throw e)
          | Normal =>
              (updBuffer buffer (set_hideTransition None)
                 (set_microtasks (microtasks w ++ [t]) w), Normal)
          end
      end
  end.

(** Lines 459-470: the cleanup of the demoted buffer. *)
Definition bufferSwap_cleanup (backBuffer : nat) (w : World) : World * Result :=
  let w := updBuffer backBuffer (set_hideTransition None) w in
  match buffers w !! backBuffer with
  | Some b =>
      if bool_decide (state b = Inactive) then
        if isPreview b then (updBuffer backBuffer (set_attached false) w, Finished Normal)
        else (updBuffer backBuffer (set_hidden true) w, Finished Normal)
      else (w, Finished Normal)
  | None => (w, Finished Normal)
  end.

(** Lines 449-457. [bufferUpdateImageRatio] only writes the width and height
    of the image style, which the model does not carry. *)
Definition bufferSwap_exchange (immediate : bool) (buffer backBuffer : nat)
    (w : World) : World * Result :=
  let cfg := config w in
  let w := updBuffer buffer
             (set_className (tokens (bufferClassFront cfg ++ " " ++ bufferClassActive cfg))) w in
  let w := updBuffer backBuffer (set_className []) w in
  if immediate then bufferSwap_cleanup backBuffer w
  else
    let '(t, w) := newTimeout (bufferTransitionDuration w) w in
    let w := updBuffer backBuffer (set_hideTransition (Some t)) w in
    (w, Suspended [SwapHide backBuffer t]).

(** Lines 415-447. *)
Definition bufferSwap (buffer : nat) (w : World) : World * Result :=
  if bool_decide (stateOf buffer w = Some Active) then (w, Finished Normal)
  else
    let backBuffer := frontBuffer w in
    let w := set_frontBuffer buffer w in
    let w := updBuffer buffer (set_state Active) w in
    let w := updBuffer backBuffer (set_state Inactive) w in
    match cancelHideTransition buffer w with
    | (w, Throw e) => (w, Finished (Throw e))
    | (w, Normal) =>
        let immediate :=
          Qeq_bool (bufferTransitionDuration w) 0
          || negb (default false (attached <$> buffers w !! buffer))
          || bool_decide (lightboxState w ≠ Open) in
        let w := updBuffer buffer (set_hidden false) w in
        if immediate then bufferSwap_exchange true buffer backBuffer w
        else
          let cfg := config w in
          let w := updBuffer buffer (set_className (tokens (bufferClassFront cfg))) w in
          let w := updBuffer backBuffer (set_className (tokens (bufferClassActive cfg))) w in
          (w, Suspended [SwapRepaint buffer backBuffer])
    end.

(** ** Load pipeline *)

(** [await callee] seen from the caller: if the callee is suspended the
    caller's frame goes below the callee's; if it returned, the caller goes
    on with [k]; if it threw, so does the caller (no [try] is around any of
    these calls). *)
Definition await (caller : Frame) (callee : World * Result)
    (k : World → World * Result) : World * Result :=
  match callee with
  | (w, Suspended frames) => (w, Suspended (frames ++ [caller]))
  | (w, Finished Normal) => k w
  | (w, Finished (Throw e)) => (w, Finished (Throw e))
  end.

Definition returns (w : World) : World * Result := (w, Finished Normal).

(** [bufferLoadPreview] up to [await loadPromise]; what follows the await
    only waits for the decode, so the whole call is one load operation. *)
Definition bufferLoadPreview (buffer : nat) (w : World) : nat * World :=
  let w := updBuffer buffer (λ b,
    {| state := state b; hideTransition := hideTransition b; isPreview := true;
       isZoomed := isZoomed b; zoomFactor := zoomFactor b;
       className := className b; hidden := hidden b; attached := attached b;
       onpan := onpan b; cursor := cursor b; onclick := onclick b;
       sources := []; transform := transform b |}) w in
  newLoad w.

(** [zoomFactor > 1] for the parsed attribute; [NaN > 1] is false. *)
Definition zoomEnabled (z : option Q) : bool :=
  match z with Some f => Qgtb f 1 | None => false end.

(** [bufferLoadImage] up to [await loadPromise]. *)
Definition bufferLoadImage (buffer from : nat) (w : World) : nat * World :=
  let cfg := config w in
  let z := images w !! from ≫= zoom in
  let imageSizes := if loadFullResImmediately cfg && zoomEnabled z
                    then (default 1%Q z * 100)%Q else 100%Q in
  let count := default 0 (sourceCount <$> images w !! from)
               + (if default false (hasSrcset <$> images w !! from) then 1 else 0) in
  let w := updBuffer buffer (λ b,
    {| state := state b; hideTransition := hideTransition b; isPreview := false;
       isZoomed := isZoomed b;
       zoomFactor := if zoomEnabled z then default 1%Q z else 1%Q;
       className := className b; hidden := hidden b; attached := attached b;
       onpan := onpan b;
       cursor := if zoomEnabled z then Some "zoom-in"%string else None;
       onclick := zoomEnabled z;
       sources := replicate count imageSizes; transform := transform b |}) w in
  newLoad w.

(** Lines 750-759: the callback chained onto the load operation. *)
Definition afterLoad (image imageBuffer : nat) (w : World) : World * Result :=
  if bool_decide (presentedImage w = Some image)
     && bool_decide (lightboxState w ≠ Closing)
  then await AfterLoadSwap (bufferSwap imageBuffer w) returns
  else
    let w := updBuffer imageBuffer (set_state Inactive) w in
    let w := updBuffer imageBuffer (set_className []) w in
    let w := updBuffer imageBuffer (set_hidden true) w in
    (w, Finished Normal).

(** Lines 750-762: chain [afterLoad] as a task of its own, then start the
    race and wait for it. *)
Definition presentRace (image imageBuffer load : nat) (w : World) : World * Result :=
  let w := set_tasks (tasks w ++ [(fresh w, [AfterLoad image imageBuffer load])])
             (set_fresh (S (fresh w)) w) in
  let w := set_races
             (<[load := promiseWithTimeout (loadTimeoutBeforePreview (config w))]> (races w)) w in
  (w, Suspended [PresentRace image imageBuffer load]).

(** Lines 712-745: up to the first suspension. *)
Definition lightboxPresentImage (image : nat) (w : World) : World * Result :=
  let retrievedBuffer := swapChain w !! image in
  let w := set_presentedImage (Some image) w in
  match retrievedBuffer with
  | Some retrieved =>
      if bool_decide (stateOf retrieved w = Some Loading) then
        let '(previewBuffer, w) := createAttachedBuffer w in
        (w, Suspended [PresentLoadingRepaint image retrieved previewBuffer])
      else
        let '(load, w) := newLoad w in
        presentRace image retrieved load w
  | None =>
      let '(imageBuffer, w) := createAttachedBuffer w in
      let w := set_swapChain (<[image := imageBuffer]> (swapChain w)) w in
      (w, Suspended [PresentNewRepaint image imageBuffer])
  end.

(** Lines 724-728 and 776-780: swap the preview in or throw it away. *)
Definition presentPreview (caller : Frame) (stillWanted : bool) (previewBuffer : nat)
    (w : World) : World * Result :=
  if stillWanted then await caller (bufferSwap previewBuffer w) returns
  else (updBuffer previewBuffer (set_attached false) w, Finished Normal).

(** Lines 763-773: the catch block up to its first suspension. *)
Definition presentCatch (image imageBuffer : nat) (e : JsValue) (w : World)
    : World * Result :=
  if negb (instanceofTimeoutError e) then (w, Finished (Throw e))
  else
    let '(previewBuffer, w) := createAttachedBuffer w in
    (w, Suspended [PresentTimeoutRepaint image imageBuffer previewBuffer]).

(** ** Handlers of the state machine *)

(** [lightbox.presentedImage?.next] and [?.previous]. *)
Definition neighbour (link : ImageReference → option nat) (w : World) : option nat :=
  match presentedImage w with
  | Some i => match images w !! i with Some r => link r | None => None end
  | None => None
  end.

(** [bufferZoomOut(buffer)] on buffer [id] of the heap. *)
Definition zoomOutBuffer (id : nat) (w : World) : World * Completion :=
  (updBuffer id (λ b, (bufferZoomOut (config w) b).1) w,
   match buffers w !! id with
   | Some b => (bufferZoomOut (config w) b).2
   | None => Normal
   end).

(** Lines 800 and 820, after [await lightboxPresentImage(...)]. *)
Definition navigated (w : World) : World * Result :=
  (setVisibility true w, Finished Normal).

(** [lightboxNextHandler] and [lightboxPreviousHandler] differ in the link
    they follow and in the frame they leave. *)
Definition navigate (caller : Frame) (link : ImageReference → option nat)
    (w : World) : World * Result :=
  match neighbour link w with
  | Some target =>
      match zoomOutBuffer (frontBuffer w) w with
      | (w, Throw e) => (w, Finished (Throw e))
      | (w, Normal) =>
          let w := setVisibility false w in
          await caller (lightboxPresentImage target w) navigated
      end
  | None => (w, Finished Normal)
  end.

Definition lightboxNextHandler : World → World * Result :=
  navigate NextPresent next.

Definition lightboxPreviousHandler : World → World * Result :=
  navigate PreviousPresent previous.

(** Lines 882-883. *)
Definition lightboxOpenHandler_finish (w : World) : World * Result :=
  (set_lightboxState Open w, Finished Normal).

(** Lines 872-880. *)
Definition lightboxOpenHandler_repainted (w : World) : World * Result :=
  let cfg := config w in
  let w := set_rootClassName
             (tokens (lightboxClassVisible cfg ++ " " ++ lightboxClassOpen cfg)) w in
  let w := setVisibility true w in
  let w := updBuffer (frontBuffer w) (set_transform TNone) w in
  if Qgtb (lightboxTransitionDuration w) 0 then
    let '(t, w) := newTimeout (lightboxTransitionDuration w) w in
    (w, Suspended [OpenTransition t])
  else lightboxOpenHandler_finish w.

(** Lines 847-869. *)
Definition lightboxOpenHandler_presented (w : World) : World * Result :=
  let w := set_rootHidden false w in
  match presentedImage w with
  | None => (w, Finished (Throw nullDereference))
  | Some _ =>
      let w := updBuffer (frontBuffer w) (set_transform TGeometry) w in
      (w, Suspended [OpenRepaint])
  end.

(** Lines 829-844. *)
Definition lightboxOpenHandler (w : World) : World * Result :=
  let w := set_lightboxState Opening w in
  let w := if closeOnScroll (config w) then w else set_bodyOverflowHidden true w in
  match presentedImage w with
  | None => (w, Finished (Throw nullDereference))
  | Some image =>
      await OpenPresent (lightboxPresentImage image w) lightboxOpenHandler_presented
  end.

(** Lines 937-947. *)
Definition lightboxCloseHandler_finish (w : World) : World * Result :=
  match presentedImage w with
  | None => (w, Finished (Throw nullDereference))
  | Some _ =>
      let w := setVisibility false w in
      let w := updBuffer (frontBuffer w) (set_transform TNone) w in
      let w := set_rootClassName [] w in
      let w := set_rootHidden true w in
      let w := set_lightboxState Closed w in
      let w := if closeOnScroll (config w) then w else set_bodyOverflowHidden false w in
      (w, Finished Normal)
  end.

(** Lines 906-935. *)
Definition lightboxCloseHandler_measured (w : World) : World * Result :=
  match presentedImage w with
  | None => (w, Finished (Throw nullDereference))
  | Some _ =>
      let w := updBuffer (frontBuffer w) (set_transform TGeometry) w in
      let w := set_rootClassName (tokens (lightboxClassVisible (config w))) w in
      if Qgtb (lightboxTransitionDuration w) 0 then
        let '(t, w) := newTimeout (lightboxTransitionDuration w) w in
        (w, Suspended [CloseTransition t])
      else lightboxCloseHandler_finish w
  end.

(** Lines 892-904. *)
Definition lightboxCloseHandler (w : World) : World * Result :=
  let w := set_lightboxState Closing w in
  if default false (isZoomed <$> buffers w !! frontBuffer w) then
    match zoomOutBuffer (frontBuffer w) w with
    | (w, Throw e) => (w, Finished (Throw e))
    | (w, Normal) =>
        let '(t, w) := newTimeout (zoomTransitionDuration w) w in
        (w, Suspended [CloseZoom t])
    end
  else lightboxCloseHandler_measured w.

(** ** Resuming a frame *)

(** The code that follows the [await] of frame [f], run with the completion
    [c] of what was awaited, up to the next suspension point. Only the race
    is awaited inside a [try]. *)
Definition resume (f : Frame) (c : Completion) (w : World) : World * Result :=
  match c, f with
  | Throw e, PresentRace image imageBuffer _ => presentCatch image imageBuffer e w
  | Throw e, _ => (w, Finished (Throw e))
  | Normal, SwapRepaint buffer backBuffer => bufferSwap_exchange false buffer backBuffer w
  | Normal, SwapHide backBuffer _ => bufferSwap_cleanup backBuffer w
  | Normal, PresentLoadingRepaint image retrieved previewBuffer =>
      let '(load, w) := bufferLoadPreview previewBuffer w in
      (w, Suspended [PresentLoadingPreview image retrieved previewBuffer load])
  | Normal, PresentLoadingPreview image retrieved previewBuffer _ =>
      presentPreview PresentLoadingSwap
        (bool_decide (presentedImage w = Some image)
         && bool_decide (stateOf retrieved w = Some Loading))
        previewBuffer w
  | Normal, PresentNewRepaint image imageBuffer =>
      let '(load, w) := bufferLoadImage imageBuffer image w in
      presentRace image imageBuffer load w
  | Normal, PresentRace _ _ _ => (w, Finished Normal)
  | Normal, PresentTimeoutRepaint image imageBuffer previewBuffer =>
      let '(load, w) := bufferLoadPreview previewBuffer w in
      (w, Suspended [PresentTimeoutPreview image imageBuffer previewBuffer load])
  | Normal, PresentTimeoutPreview image imageBuffer previewBuffer _ =>
      presentPreview PresentTimeoutSwap
        (bool_decide (presentedImage w = Some image)
         && bool_decide (stateOf imageBuffer w ≠ Some Active))
        previewBuffer w
  | Normal, AfterLoad image imageBuffer _ => afterLoad image imageBuffer w
  | Normal, (PresentLoadingSwap | PresentTimeoutSwap | AfterLoadSwap) => returns w
  | Normal, (NextPresent | PreviousPresent) => navigated w
  | Normal, OpenPresent => lightboxOpenHandler_presented w
  | Normal, OpenRepaint => lightboxOpenHandler_repainted w
  | Normal, OpenTransition _ => lightboxOpenHandler_finish w
  | Normal, CloseZoom _ => lightboxCloseHandler_measured w
  | Normal, CloseTransition _ => lightboxCloseHandler_finish w
  end.

(** ** Tasks *)

(** The stack of task [tid] becomes [stack]; a task with an empty stack is
    gone. *)
Definition setStack (tid : nat) (stack : list Frame) (w : World) : World :=
  set_tasks
    (match stack with
     | [] => filter (λ t, t.1 ≠ tid) (tasks w)
     | _ => (λ t, if bool_decide (t.1 = tid) then (tid, stack) else t) <$> tasks w
     end) w.

(** Task [tid] runs with completion [c] for its innermost frame: frames are
    resumed from the top until one suspends again or the stack is used up; a
    throw that leaves the outermost frame is an unhandled rejection. *)
Fixpoint unwind (tid : nat) (c : Completion) (stack : list Frame) (w : World) : World :=
  match stack with
  | [] =>
      let w := setStack tid [] w in
      match c with
      | Normal => w
      | Throw e => set_unhandled (unhandled w ++ [(tid, e)]) w
      end
  | f :: rest =>
      match resume f c w with
      | (w, Finished c') => unwind tid c' rest w
      | (w, Suspended frames) => setStack tid (frames ++ rest) w
      end
  end.

(** The task whose innermost frame waits for [target]; every timeout, load
    and race is awaited by the one frame that was created with it. *)
Definition waitsFor (target : Wait) (t : nat * list Frame) : bool :=
  match t.2 with
  | f :: _ => bool_decide (waits f = target)
  | [] => false
  end.

Definition findWaiter (target : Wait) (w : World) : option (nat * list Frame) :=
  List.find (waitsFor target) (tasks w).

Definition deliver (target : Wait) (c : Completion) (w : World) : World :=
  match findWaiter target w with
  | Some (tid, stack) => unwind tid c stack w
  | None => w
  end.

(** A handler called from an event listener: its promise is dropped, so a
    throw is an unhandled rejection. *)
Definition spawn (r : World * Result) : World :=
  match r with
  | (w, Finished Normal) => w
  | (w, Finished (Throw e)) =>
      set_unhandled (unhandled w ++ [(fresh w, e)]) (set_fresh (S (fresh w)) w)
  | (w, Suspended frames) =>
      set_tasks (tasks w ++ [(fresh w, frames)]) (set_fresh (S (fresh w)) w)
  end.

(** ** Events of the host *)

(** Why a load operation fails: the [error] event of the image, or a
    rejected [decode()]. *)
Inductive LoadFailure := ErrorEvent | EncodingError.

Definition failureReason (f : LoadFailure) : JsValue :=
  match f with
  | ErrorEvent => JEvent "error"
  | EncodingError => JError "EncodingError" "The source image cannot be decoded."
  end.

Definition loadCompletion (failure : option LoadFailure) : Completion :=
  match failure with
  | None => Normal
  | Some f => Throw (failureReason f)
  end.

Inductive Event :=
  | ClickImage (image : nat)                 (* click on the wrapper of an image reference *)
  | ClickNext
  | ClickPrevious
  | ClickClose
  | ClickPicture (buffer : nat) (rect : Rect)  (* click on a buffer's picture; [rect] is the wrapper's box *)
  | Pan (buffer : nat) (screen : Q * Q) (e : PanEvent)
  | Scroll (x y : Q)                         (* a dispatched scroll at scroll position (x, y) *)
  | Resize
  | Repaint (task : nat)                     (* the two animation frames task [task] waits for have passed *)
  | LoadSettled (load : nat) (failure : option LoadFailure)
  | TimerElapsed (timeout : nat)             (* the setTimeout callback of waitForTimeout *)
  | RaceTimer (load : nat).                  (* the setTimeout callback of promiseWithTimeout *)

(** Lines 955-976; [x] and [y] are the scroll offsets read from the window. *)
Definition lightboxScrollHandler (x y : Q) (w : World) : World :=
  if bool_decide (lightboxState w ≠ Open) then w
  else
    match anchorScrollPosition w with
    | None => set_anchorScrollPosition (Some (x, y)) w
    | Some (ax, ay) =>
        let deltaX := Qabs (x - ax) in
        let deltaY := Qabs (y - ay) in
        if Qgtb (Qmax deltaX deltaY) (scrollThreshold (config w)) then
          spawn (lightboxCloseHandler (set_anchorScrollPosition None w))
        else w
    end.

(** Lines 984-992. *)
Definition lightboxResizeHandler (w : World) : World :=
  if closeOnResize (config w) && bool_decide (lightboxState w = Open)
  then spawn (lightboxCloseHandler w)
  else w.

(** [buffer.picture.onclick], registered by [bufferLoadImage]. What the
    listener throws is reported by the host and goes nowhere. *)
Definition pictureClick (buffer : nat) (rect : Rect) (w : World) : World :=
  match buffers w !! buffer with
  | Some b =>
      if onclick b then
        if negb (isZoomed b)
        then updBuffer buffer
               (λ b, (bufferZoomIn (config w) (lightboxState w) rect b).1) w
        else (zoomOutBuffer buffer w).1
      else w
  | None => w
  end.

(** The reactions that [promiseWithTimeout] chained onto the load. *)
Definition settleRace (load : nat) (c : Completion) (w : World) : World :=
  match races w !! load with
  | None => w
  | Some r =>
      let r' := match c with
                | Normal => race_onFulfilled r
                | Throw e => race_onRejected e r
                end in
      let w := set_races (<[load := r']> (races w)) w in
      match race_promise r with
      | Pending => deliver (WRace load) c w
      | _ => w
      end
  end.

Definition raceTimer (load : nat) (w : World) : World :=
  match races w !! load with
  | None => w
  | Some r =>
      if race_scheduled r then
        let w := set_races (<[load := race_onTimer r]> (races w)) w in
        match race_promise r, race_promise (race_onTimer r) with
        | Pending, Rejected e => deliver (WRace load) (Throw e) w
        | _, _ => w
        end
      else w
  end.

(** A load operation settles: first the callback chained with [then], then
    the reactions of the race, in the order they were registered. *)
Definition loadSettled (load : nat) (failure : option LoadFailure) (w : World) : World :=
  match loads w !! load with
  | Some Pending =>
      let c := loadCompletion failure in
      let w := set_loads (<[load := match c with
                                    | Normal => Fulfilled
                                    | Throw e => Rejected e
                                    end]> (loads w)) w in
      settleRace load c (deliver (WLoad load) c w)
  | _ => w
  end.

Definition timerElapsed (t : nat) (w : World) : World :=
  match timeouts w !! t with
  | Some tm =>
      if scheduled tm
      then deliver (WTimeout t) Normal (set_timeouts (<[t := elapse tm]> (timeouts w)) w)
      else w
  | None => w
  end.

Definition repaint (tid : nat) (w : World) : World :=
  match List.find (λ t, bool_decide (t.1 = tid)) (tasks w) with
  | Some (_, stack) =>
      if waitsFor WRepaint (tid, stack) then unwind tid Normal stack w else w
  | None => w
  end.

Definition handle (ev : Event) (w : World) : World :=
  match ev with
  | ClickImage image => spawn (lightboxOpenHandler (set_presentedImage (Some image) w))
  | ClickNext => spawn (lightboxNextHandler w)
  | ClickPrevious => spawn (lightboxPreviousHandler w)
  | ClickClose => spawn (lightboxCloseHandler w)
  | ClickPicture buffer rect => pictureClick buffer rect w
  | Pan buffer screen e => updBuffer buffer (panMove screen e) w
  | Scroll x y => if closeOnScroll (config w) then lightboxScrollHandler x y w else w
  | Resize => lightboxResizeHandler w
  | Repaint task => repaint task w
  | LoadSettled load failure => loadSettled load failure w
  | TimerElapsed t => timerElapsed t w
  | RaceTimer load => raceTimer load w
  end.

(** The reactions of the [waitForTimeout] promises that [cancel] resolved
    run once the event's own code is through. *)
Definition drain (w : World) : World :=
  foldl (λ w t, deliver (WTimeout t) Normal w) (set_microtasks [] w) (microtasks w).

Definition step (w : World) (ev : Event) : World := drain (handle ev w).

Definition run (w : World) (evs : list Event) : World := foldl step w evs.

(** ** Construction (createLightbox, init) *)

(** "Add some leeway to the transition timings": [if (d) d += 100]. *)
Definition leeway (d : Q) : Q := if Qeq_bool d 0 then d else (d + 100)%Q.

(** [createLightbox()]; the three arguments are what [getTransitionDuration]
    measures on the root, on the front buffer's wrapper and on its image. The
    front buffer is appended to the root, the root starts hidden and ends
    with an empty class name. *)
Definition createLightbox (cfg : Config) (measuredLightbox measuredBuffer measuredZoom : Q)
    : World :=
  {| config := cfg;
     lightboxTransitionDuration := leeway measuredLightbox;
     bufferTransitionDuration := leeway measuredBuffer;
     zoomTransitionDuration := measuredZoom;
     lightboxState := Closed; presentedImage := None; frontBuffer := 0;
     swapChain := ∅; rootClassName := []; rootHidden := true;
     anchorScrollPosition := None; bodyOverflowHidden := false; images := [];
     buffers := {[ 0 := set_attached true (createBuffer cfg Active true) ]};
     timeouts := ∅; loads := ∅; races := ∅; tasks := []; microtasks := [];
     unhandled := []; fresh := 1 |}.

(** What the document scan reads from one gathered element. *)
Record ScannedImage := {
  scanTag : string;
  scanZoom : option Q;
  scanSources : nat;
  scanSrcset : bool;
}.

Definition set_next (v : option nat) (i : ImageReference) : ImageReference :=
  {| tag := tag i; zoom := zoom i; sourceCount := sourceCount i;
     hasSrcset := hasSrcset i; next := v; previous := previous i;
     visibilityHidden := visibilityHidden i |}.

Definition set_previous (v : option nat) (i : ImageReference) : ImageReference :=
  {| tag := tag i; zoom := zoom i; sourceCount := sourceCount i;
     hasSrcset := hasSrcset i; next := next i; previous := v;
     visibilityHidden := visibilityHidden i |}.

(** [setupGalleryMap.get(key)] on the insertion-ordered map from gallery tag
    to the pair [head, tail]. *)
Fixpoint gallery_get (key : string) (m : list (string * (nat * nat))) : option (nat * nat) :=
  match m with
  | [] => None
  | (k, v) :: m => if String.eqb k key then Some v else gallery_get key m
  end.

(** [galleryReferences[1] = image] on the array stored under [key]. *)
Fixpoint gallery_setTail (key : string) (newTail : nat) (m : list (string * (nat * nat)))
    : list (string * (nat * nat)) :=
  match m with
  | [] => []
  | (k, (h, t)) :: m =>
      if String.eqb k key then (k, (h, newTail)) :: m
      else (k, (h, t)) :: gallery_setTail key newTail m
  end.

(** The body of the loop over the gathered elements (lines 1047-1072): the
    new reference gets the next index; an empty tag is falsy. *)
Definition scanImage (cfg : Config)
    (acc : list ImageReference * list (string * (nat * nat))) (s : ScannedImage)
    : list ImageReference * list (string * (nat * nat)) :=
  let image := {| tag := scanTag s; zoom := scanZoom s; sourceCount := scanSources s;
                  hasSrcset := scanSrcset s; next := None; previous := None;
                  visibilityHidden := false |} in
  let id := length acc.1 in
  if galleryMode cfg && negb (String.eqb (scanTag s) "") then
    match gallery_get (scanTag s) acc.2 with
    | Some (_, tail) =>
        (alter (set_next (Some id)) tail (acc.1 ++ [set_previous (Some tail) image]),
         gallery_setTail (scanTag s) id acc.2)
    | None => (acc.1 ++ [image], acc.2 ++ [(scanTag s, (id, id))])
    end
  else (acc.1 ++ [image], acc.2).

(** The callback of [setupGalleryMap.forEach] (lines 1088-1093). *)
Definition closeLoop (refs : list ImageReference) (entry : string * (nat * nat))
    : list ImageReference :=
  let '(_, (head, tail)) := entry in
  if bool_decide (head ≠ tail)
  then alter (set_next (Some head)) tail (alter (set_previous (Some tail)) head refs)
  else refs.

(** The image references that [init] builds from the scanned document. *)
Definition gatherImages (cfg : Config) (scan : list ScannedImage) : list ImageReference :=
  let acc := foldl (scanImage cfg) ([], []) scan in
  if galleryMode cfg && galleryLoop cfg then foldl closeLoop acc.1 acc.2 else acc.1.

(** [init(options)] on a fresh page. *)
Definition init (cfg : Config) (measuredLightbox measuredBuffer measuredZoom : Q)
    (scan : list ScannedImage) : World :=
  set_images (gatherImages cfg scan)
    (createLightbox cfg measuredLightbox measuredBuffer measuredZoom).

(** ** Gallery groups *)

(** The indices, in scan order, of the scanned images that carry tag [g]. *)
Definition members (g : string) (scan : list ScannedImage) : list nat :=
  filter (λ i, scanTag <$> scan !! i = Some g) (seq 0 (length scan)).

(** [refs[i].next] and [refs[i].previous], [None] for [null]. *)
Definition nextOf (refs : list ImageReference) (i : nat) : option nat :=
  refs !! i ≫= next.

Definition previousOf (refs : list ImageReference) (i : nat) : option nat :=
  refs !! i ≫= previous.

(** What holds once the images [l] have been gathered into the references
    [refs] and the map [m]: every tagged group has its head and tail in the
    map, its members are linked in scan order, and its two ends are open. *)
Record Scanned (l : list ScannedImage) (refs : list ImageReference)
    (m : list (string * (nat * nat))) : Prop := {
  scanned_length : length refs = length l;
  scanned_keys : NoDup m.*1;
  scanned_get : ∀ g,
    gallery_get g m
    = if decide (g = ""%string) then None
      else match members g l with
           | [] => None
           | h :: tl => Some (h, default h (last tl))
           end;
  scanned_chain : ∀ g k x y,
    g ≠ ""%string → members g l !! k = Some x → members g l !! S k = Some y →
    nextOf refs x = Some y ∧ previousOf refs y = Some x;
  scanned_head : ∀ g h,
    g ≠ ""%string → head (members g l) = Some h → previous <$> refs !! h = Some None;
  scanned_last : ∀ g t,
    g ≠ ""%string → last (members g l) = Some t → next <$> refs !! t = Some None;
}.

(** ** Accounting *)

(** Whether a completion is a thrown TimeoutError. *)
Definition isTimeout (c : Completion) : bool :=
  match c with
  | Throw e => instanceofTimeoutError e
  | Normal => false
  end.

Definition resultTimeout (r : Result) : bool :=
  match r with
  | Finished c => isTimeout c
  | Suspended _ => false
  end.

(** The buffers that exist and the rejections nobody handled. *)
Definition footprint (w : World) : gset nat * list (nat * JsValue) :=
  (dom (buffers w), unhandled w).

(** A stretch of code is quiet when it creates no buffer, leaves no
    rejection unhandled and does not end in a TimeoutError; it is calm when
    it may create buffers. *)
Definition quiet (w : World) (x : World * Result) : Prop :=
  footprint x.1 = footprint w ∧ resultTimeout x.2 = false.


(** No unhandled rejection carries a TimeoutError. *)
Definition noTimeouts (w : World) : Prop :=
  Forall (λ entry, instanceofTimeoutError entry.2 = false) (unhandled w).

(** The front buffer is Active. *)
Definition frontActive (w : World) : Prop :=
  stateOf (frontBuffer w) w = Some Active.

(** ** The placeholder buffer *)

(** The buffer into which a frame, once resumed, starts a load (which
    overwrites its [isPreview] flag). *)
Definition loadTarget (f : Frame) : option nat :=
  match f with
  | PresentLoadingRepaint _ _ previewBuffer
  | PresentTimeoutRepaint _ _ previewBuffer => Some previewBuffer
  | PresentNewRepaint _ imageBuffer => Some imageBuffer
  | _ => None
  end.

(** [createLightbox] gives the initial front buffer the identifier 0. *)
Definition sparesPlaceholder (f : Frame) : Prop := loadTarget f ≠ Some 0.

(** The placeholder still carries its preview flag, and nothing that is
    suspended will load into it. *)
Definition placeholderSafe (w : World) : Prop :=
  isPreview <$> buffers w !! 0 = Some true
  ∧ 0 < fresh w
  ∧ Forall (λ t, Forall sparesPlaceholder t.2) (tasks w).

Definition resultSpares (r : Result) : Prop :=
  match r with
  | Finished _ => True
  | Suspended frames => Forall sparesPlaceholder frames
  end.

Definition safely (x : World * Result) : Prop :=
  placeholderSafe x.1 ∧ resultSpares x.2.

(** ** A sample page *)

(** Three images in one gallery ["g"], each with zoom factor 2 and two
    sources; the style sheet gives the root a transition of 300 ms, the
    buffers one of 200 ms and the image one of 100 ms. *)
Definition sampleImage : ScannedImage :=
  {| scanTag := "g"; scanZoom := Some 2%Q; scanSources := 2; scanSrcset := false |}.

Definition page : World :=
  init defaultConfig 300 200 100 [sampleImage; sampleImage; sampleImage].

(** Image 0 is clicked, its buffer (1) is created and loads within the
    preview delay, and the open transition runs to its end. *)
Definition openFirst : list Event :=
  [ClickImage 0; Repaint 2; LoadSettled 3 None; Repaint 2; TimerElapsed 5].

Definition sampleRect : Rect :=
  {| left := 100; top := 50; width := 800; height := 600 |}.

(** The front buffer of the opened page is then zoomed in by a click. *)
Definition zoomedFirst : list Event := openFirst ++ [ClickPicture 1 sampleRect].

(** Buffer 1 as [bufferLoadImage] and the first swap leave it. *)
Definition loadedBuffer : Buffer :=
  {| state := Active; hideTransition := None; isPreview := false;
     isZoomed := false; zoomFactor := 2; className := ["front"; "active"];
     hidden := false; attached := true; onpan := None;
     cursor := Some "zoom-in"%string; onclick := true;
     sources := [100%Q; 100%Q]; transform := TNone |}.

(** "Next" is clicked on the opened page, the load of image 1 into its
    buffer (6) starts, and "next" is clicked again before that load (8) has
    settled: image 2 is now the target. *)
Definition retargeted : list Event :=
  openFirst ++ [ClickNext; Repaint 7; ClickNext].

(** On the opened page "close" is clicked and, while the closing
    transition runs, "next" and then "previous": image 0, whose buffer (1) is
    the front buffer, is presented again, and its load (10) settles at once. *)
Definition navigatedWhileClosing : list Event :=
  openFirst ++ [ClickClose; ClickNext; ClickPrevious; LoadSettled 10 None].

(** "Next" is clicked on the opened page; the load (8) of image 1 is slower
    than the preview delay, so the preview (buffer 10, load 11) is swapped in;
    then the load fails. *)
Definition failedAfterTimeout : list Event :=
  openFirst ++ [ClickNext; Repaint 7; RaceTimer 8; Repaint 7; LoadSettled 11 None;
                Repaint 7; TimerElapsed 12; LoadSettled 8 (Some ErrorEvent)].

(** The same, but the load fails before the preview delay is over. *)
Definition failedBeforeTimeout : list Event :=
  openFirst ++ [ClickNext; Repaint 7; LoadSettled 8 (Some ErrorEvent)].

(** "Next" is clicked on the opened page and the load (8) of image 1 into
    its buffer (6) has started: the handler's task (7) waits for the race. *)
Definition racing : list Event := openFirst ++ [ClickNext; Repaint 7].


(** The load of the preview itself fails. *)
Definition previewFailed : list Event :=
  racing ++ [RaceTimer 8; Repaint 7; LoadSettled 11 (Some ErrorEvent)].

(** The sample page configured with a zoom class that holds a space. *)
Definition spacedZoomConfig : Config :=
  {| galleryMode := true; galleryLoop := true;
     loadFullResImmediately := false; loadTimeoutBeforePreview := 50%Q;
     closeOnScroll := true; closeOnResize := false; scrollThreshold := 20%Q;
     lightboxClassVisible := "visible"; lightboxClassOpen := "open";
     bufferClassLoad := "load"; bufferClassActive := "active";
     bufferClassFront := "front"; bufferClassZoom := "zoom big" |}.

Definition spacedZoomPage : World :=
  init spacedZoomConfig 300 200 100 [sampleImage; sampleImage; sampleImage].

(** The opened page is scrolled (first event at (0, 0), then to (0, 15)) and
    closed with the button; the closed page is scrolled to (0, 500); image 0
    is opened again. *)
Definition reopened : list Event :=
  openFirst ++ [Scroll 0 0; Scroll 0 15; ClickClose; TimerElapsed 6; Scroll 0 500;
                ClickImage 0; LoadSettled 8 None; Repaint 10; TimerElapsed 11].

(** Image 0 has been clicked and its buffer (1) is loading; the placeholder
    is still the front buffer. *)
Definition loadingFirst : list Event := [ClickImage 0; Repaint 2].

(** ** debounce (general.ts) *)

(** The closure state of one [debounce(func, delay)] call: the variables
    [timeout] (-1, or the id of the timer set last) and [mustDispatch]; the
    timers of the host that are scheduled with [evaluateCall] and have not
    fired (each is set with the same [delay]); the id that the next
    [window.setTimeout] returns; and the argument lists that [func] has been
    applied to, oldest first. *)
Record Debounce := {
  timeout : Z;
  mustDispatch : bool;
  timers : list Z;
  nextTimer : Z;
  dispatched : list (list JsValue);
}.

(** [debounce(func, delay)]; the host numbers its timers from [firstTimer]
    (an integer greater than zero). *)
Definition debounce (firstTimer : Z) : Debounce :=
  {| timeout := -1; mustDispatch := false; timers := []; nextTimer := firstTimer;
     dispatched := [] |}.

(** [evaluateCall], called with [arguments]. Whether [func] returns or
    throws may depend on the applications before and on its arguments; when
    it throws, the two assignments after it are not reached. *)
Definition evaluateCall (func : list (list JsValue) → list JsValue → Completion)
    (arguments : list JsValue) (d : Debounce) : Debounce * Completion :=
  if mustDispatch d then
    match func (dispatched d) arguments with
    | Normal =>
        ({| timeout := nextTimer d; mustDispatch := false;
            timers := timers d ++ [nextTimer d]; nextTimer := (nextTimer d + 1)%Z;
            dispatched := dispatched d ++ [arguments] |}, Normal)
    | Throw e =>
        ({| timeout := timeout d; mustDispatch := mustDispatch d;
            timers := timers d; nextTimer := nextTimer d;
            dispatched := dispatched d ++ [arguments] |}, Throw e)
    end
  else
    ({| timeout := -1; mustDispatch := mustDispatch d; timers := timers d;
        nextTimer := nextTimer d; dispatched := dispatched d |}, Normal).

(** The returned [wrapper], called with [arguments]. *)
Definition wrapper (func : list (list JsValue) → list JsValue → Completion)
    (arguments : list JsValue) (d : Debounce) : Debounce * Completion :=
  let d := {| timeout := timeout d; mustDispatch := true; timers := timers d;
              nextTimer := nextTimer d; dispatched := dispatched d |} in
  if (timeout d =? -1)%Z then evaluateCall func arguments d else (d, Normal).

(** The host runs the callback of timer [id]: [evaluateCall] without
    arguments. A timer that is not scheduled does not fire; what the callback
    throws is reported by the host and goes nowhere. *)
Definition timerFires (func : list (list JsValue) → list JsValue → Completion)
    (id : Z) (d : Debounce) : Debounce :=
  if bool_decide (id ∈ timers d) then
    (evaluateCall func []
       {| timeout := timeout d; mustDispatch := mustDispatch d;
          timers := filter (λ t, t ≠ id) (timers d); nextTimer := nextTimer d;
          dispatched := dispatched d |}).1
  else d.

Inductive DebounceEvent :=
  | Invoke (arguments : list JsValue)   (* the debounced function is called *)
  | TimerFires (id : Z).

Definition debounceStep (func : list (list JsValue) → list JsValue → Completion)
    (d : Debounce) (ev : DebounceEvent) : Debounce :=
  match ev with
  | Invoke arguments => (wrapper func arguments d).1
  | TimerFires id => timerFires func id d
  end.

Definition debounceRun (func : list (list JsValue) → list JsValue → Completion)
    (d : Debounce) (evs : list DebounceEvent) : Debounce :=
  foldl (debounceStep func) d evs.

Definition isInvoke (ev : DebounceEvent) : bool :=
  match ev with Invoke _ => true | TimerFires _ => false end.

(** How many of the events are calls, and how many are timers. *)
Definition invocations (evs : list DebounceEvent) : nat :=
  length (filter (λ ev, isInvoke ev = true) evs).

Definition firings (evs : list DebounceEvent) : nat :=
  length (filter (λ ev, isInvoke ev = false) evs).

(** ** Sequences of operations on the timing primitives *)

(** What can happen to a [waitForTimeout] handle: its timer elapses, or
    [cancel(reason)] is called. *)
Inductive TimeoutOp :=
  | Elapse
  | Cancel (reason : JsValue).

Definition timeoutStep (t : Timeout) (op : TimeoutOp) : Timeout :=
  match op with
  | Elapse => elapse t
  | Cancel reason => (cancel reason t).1
  end.

(** What can happen to a [promiseWithTimeout] race: its timer fires, or the
    wrapped promise is fulfilled or rejected. *)
Inductive RaceOp :=
  | RaceTimerFires
  | RaceFulfilled
  | RaceRejected (reason : JsValue).

Definition raceStep (r : Race) (op : RaceOp) : Race :=
  match op with
  | RaceTimerFires => race_onTimer r
  | RaceFulfilled => race_onFulfilled r
  | RaceRejected reason => race_onRejected reason r
  end.

(** ** dispatchOnceHandler (general.ts) *)

(** An entry of an event target's listener list. The callbacks are the
    [handler] closures that calls of [dispatchOnceHandler] returned, named by
    a number. *)
Record Listener := {
  listenerType : string;
  listenerCallback : nat;
  listenerCapture : bool;
}.

#[global] Instance Listener_eq_dec : EqDecision Listener.
Proof. solve_decision. Defined.

(** The listener list of the target and the applications of the wrapped
    functions: [(h, type)] when the [func] of handler [h] was applied to an
    event of type [type]. *)
Record EventTarget := {
  listeners : list Listener;
  applied : list (nat * string);
}.

(** [addEventListener(type, callback, capture)]: a listener with the same
    type, callback and capture flag is not added twice. *)
Definition addEventListener (type : string) (callback : nat) (capture : bool)
    (target : EventTarget) : EventTarget :=
  let l := {| listenerType := type; listenerCallback := callback;
              listenerCapture := capture |} in
  {| listeners := if bool_decide (l ∈ listeners target) then listeners target
                  else listeners target ++ [l];
     applied := applied target |}.

(** [removeEventListener(type, callback, capture)]: removes the listener
    with the same type, callback and capture flag. *)
Definition removeEventListener (type : string) (callback : nat) (capture : bool)
    (target : EventTarget) : EventTarget :=
  {| listeners := filter (λ l, l ≠ {| listenerType := type; listenerCallback := callback;
                                      listenerCapture := capture |})
                    (listeners target);
     applied := applied target |}.

(** The [handler] that [dispatchOnceHandler(func)] returned as callback [h],
    called with an event of type [type]:
    [this.removeEventListener(event.type, handler)] (no third argument: a
    non-capturing listener), then [func.apply(this, [event])]. *)
Definition handler (h : nat) (type : string) (target : EventTarget) : EventTarget :=
  let target := removeEventListener type h false target in
  {| listeners := listeners target; applied := applied target ++ [(h, type)] |}.

(** An event of type [type] is dispatched at the target: the listeners that
    are registered for the type when the dispatch starts are called in order,
    each only if it is still registered when its turn comes. *)
Definition dispatchEvent (type : string) (target : EventTarget) : EventTarget :=
  foldl (λ target l,
           if bool_decide (l ∈ listeners target)
           then handler (listenerCallback l) type target else target)
    target (filter (λ l, listenerType l = type) (listeners target)).

(** How often the [func] of handler [h] has been applied. *)
Definition applications (h : nat) (target : EventTarget) : nat :=
  length (filter (λ a, a.1 = h) (applied target)).

(** ** CSS transitions (transition.ts) *)

(** The two properties of a computed style that the utilities read. *)
Record CSSStyleDeclaration := {
  transition : string;
  transitionDuration : string;
}.

(** An element with what [window.getComputedStyle] returns for it and its
    element children. *)
#[warnings="-register-all"] Inductive Element :=
  | element (computedStyle : CSSStyleDeclaration) (children : list Element).

Definition getComputedStyle (e : Element) : CSSStyleDeclaration :=
  match e with element computedStyle _ => computedStyle end.

Definition children (e : Element) : list Element :=
  match e with element _ children => children end.

(** What the utilities call in the browser: [parseFloat] ([None] is NaN; an
    infinity is outside the model) and [querySelectorAll], which throws a
    SyntaxError ([None]) for a string that is not a valid selector. *)
Class Browser := {
  parseFloat : string → option Q;
  querySelectorAll : Element → string → option (list Element);
}.

(** How a call that returns a value ends. *)
Inductive Outcome (A : Type) :=
  | Returns (value : A)
  | Throws (e : JsValue).

Arguments Returns {A} value.
Arguments Throws {A} e.

(** [s.endsWith(suffix)]. *)
Definition endsWith (s suffix : string) : bool :=
  (String.length suffix <=? String.length s)
  && String.eqb (String.substring (String.length s - String.length suffix)
                   (String.length suffix) s) suffix.

Definition extractTransitionDuration `{Browser} (computedStyles : CSSStyleDeclaration) : Q :=
  if negb (String.eqb (transition computedStyles) "")
     && negb (String.eqb (transition computedStyles) "none")
  then
    match parseFloat (transitionDuration computedStyles) with
    | None => 0
    | Some duration =>
        if negb (endsWith (transitionDuration computedStyles) "ms")
        then (duration * 1000)%Q else duration
    end
  else 0.

(** The body of the loop of [getTransitionDurationElements] for one element
    of the collection. The call for the children of the element passes no
    third argument, so [recursive] is [false] in it. *)
Fixpoint inspect `{Browser} (recursive : bool) (currentDuration : Q) (e : Element) : Q :=
  let transitionDuration := extractTransitionDuration (getComputedStyle e) in
  let currentDuration :=
    if Qgtb transitionDuration currentDuration then transitionDuration
    else currentDuration in
  match e with
  | element _ children =>
      if recursive && (0 <? length children)
      then foldl (inspect false) currentDuration children
      else currentDuration
  end.

Definition getTransitionDurationElements `{Browser} (collection : list Element)
    (currentDuration : Q) (recursive : bool) : Q :=
  foldl (inspect recursive) currentDuration collection.

(** The argument [recursive: boolean | string]. *)
Inductive Recursive :=
  | RecursiveBool (b : bool)
  | RecursiveSelector (selector : string).

Definition getTransitionDuration `{Browser} (e : Element) (recursive : Recursive)
    (computedStyle : option CSSStyleDeclaration) : Outcome Q :=
  let computedStyle := default (getComputedStyle e) computedStyle in
  let currentDuration := extractTransitionDuration computedStyle in
  match recursive with
  | RecursiveBool false => Returns currentDuration
  | RecursiveBool true =>
      Returns (getTransitionDurationElements (children e) currentDuration true)
  | RecursiveSelector selector =>
      if String.eqb selector "" then Returns currentDuration
      else
        match querySelectorAll e selector with
        | Some collection =>
            Returns (getTransitionDurationElements collection currentDuration false)
        | None => Throws (JDOMException "SyntaxError")
        end
  end.

Definition hasTransition `{Browser} (e : Element) (recursive : Recursive)
    (computedStyle : option CSSStyleDeclaration) : Outcome bool :=
  match getTransitionDuration e recursive computedStyle with
  | Returns duration => Returns (Qgtb duration 0)
  | Throws e => Throws e
  end.

(** What an [ontransitionend] or [ontransitioncancel] slot holds. *)
Inductive TransitionHandler :=
  | Resolve (promise : nat)                   (* the [resolve] of waitForTransitionEnd *)
  | End (toClass : string) (promise : nat).   (* the [end] closure of transitionRoutine *)

(** One element with its class list and its two handler slots, and the
    promises that the utilities created (a promise is named by its index). *)
Record Transitioning := {
  classList : list string;
  ontransitionend : option TransitionHandler;
  ontransitioncancel : option TransitionHandler;
  promises : list PromiseState;
}.

Definition waitForTransitionEnd (w : Transitioning) : nat * Transitioning :=
  (length (promises w),
   {| classList := classList w;
      ontransitionend := Some (Resolve (length (promises w)));
      ontransitioncancel := Some (Resolve (length (promises w)));
      promises := promises w ++ [Pending] |}).

Definition set_classList (v : list string) (w : Transitioning) : Transitioning :=
  {| classList := v; ontransitionend := ontransitionend w;
     ontransitioncancel := ontransitioncancel w; promises := promises w |}.

(** [element.classList.remove(a); element.classList.add(b)]: the second
    call is not reached when the first throws. *)
Definition removeThenAdd (a b : string) (w : Transitioning) : Transitioning * Completion :=
  match classList_remove a (classList w) with
  | (_, Throw e) => (w, Throw e)
  | (l, Normal) =>
      match classList_add b l with
      | (_, Throw e) => (set_classList l w, Throw e)
      | (l, Normal) => (set_classList l w, Normal)
      end
  end.

(** [transitionRoutine] up to [await waitForNextRepaint()]: with [Throw] the
    promise of the routine is rejected and nothing else of it runs. *)
Definition transitionRoutine (fromClass toClass : string) (w : Transitioning)
    : Transitioning * Completion :=
  removeThenAdd toClass fromClass w.

(** [transitionRoutine] after the repaint, up to the second [await]: the
    promise that is awaited there, or what was thrown before it was made.
    The routine is through when that promise is fulfilled. *)
Definition transitionRoutine_repainted (fromClass toClass : string) (w : Transitioning)
    : Transitioning * Outcome nat :=
  match removeThenAdd fromClass toClass w with
  | (w, Throw e) => (w, Throws e)
  | (w, Normal) =>
      ({| classList := classList w;
          ontransitionend := Some (End toClass (length (promises w)));
          ontransitioncancel := Some (End toClass (length (promises w)));
          promises := promises w ++ [Pending] |},
       Returns (length (promises w)))
  end.

(** The host calls the handler of a slot; what [end] throws is reported by
    the host, and [resolve] is then not reached. *)
Definition callTransitionHandler (h : option TransitionHandler) (w : Transitioning)
    : Transitioning :=
  match h with
  | None => w
  | Some (Resolve p) =>
      {| classList := classList w; ontransitionend := ontransitionend w;
         ontransitioncancel := ontransitioncancel w;
         promises := alter resolve p (promises w) |}
  | Some (End toClass p) =>
      match classList_remove toClass (classList w) with
      | (_, Throw _) => w
      | (l, Normal) =>
          {| classList := l; ontransitionend := ontransitionend w;
             ontransitioncancel := ontransitioncancel w;
             promises := alter resolve p (promises w) |}
      end
  end.

Inductive TransitionEvent := transitionend | transitioncancel.

Definition dispatchTransition (w : Transitioning) (ev : TransitionEvent) : Transitioning :=
  match ev with
  | transitionend => callTransitionHandler (ontransitionend w) w
  | transitioncancel => callTransitionHandler (ontransitioncancel w) w
  end.

(** ** Image ratio (bufferUpdateImageRatio) *)

(** The two values the function writes: ['100%'] and ['auto']. *)
Inductive CssSize := Full | Auto.

(** [bufferUpdateImageRatio]: the pair is [(style.width, style.height)];
    [clientWidth] and [clientHeight] are the picture's, [naturalWidth] and
    [naturalHeight] the image's. A zero height (NaN or an infinity in the
    language) is outside the model. *)
Definition bufferUpdateImageRatio (clientWidth clientHeight naturalWidth naturalHeight : Q)
    : CssSize * CssSize :=
  let containerRatio := (clientWidth / clientHeight)%Q in
  let imageRatio := (naturalWidth / naturalHeight)%Q in
  if Qgtb imageRatio containerRatio then (Full, Auto) else (Auto, Full).

(** Image [i] is followed by image [j] in its gallery: both carry the same
    non-empty tag and [j] is the next image with that tag in scan order or,
    with [loop], [i] is the last and [j] the first of at least two. *)
Definition follows (loop : bool) (scan : list ScannedImage) (i j : nat) : Prop :=
  ∃ g k, g ≠ ""%string ∧ members g scan !! k = Some i
    ∧ (members g scan !! S k = Some j
       ∨ (loop = true ∧ S k = length (members g scan) ∧ 2 ≤ length (members g scan)
          ∧ members g scan !! 0 = Some j)).

(** Following a link [n] times from image [i]. *)
Fixpoint walk (link : ImageReference → option nat) (refs : list ImageReference)
    (n : nat) (i : nat) : option nat :=
  match n with
  | 0 => Some i
  | S n =>
      match refs !! i ≫= link with
      | Some j => walk link refs n j
      | None => None
      end
  end.

(** ** What the engine never rewrites *)

(** The parts of an image reference that [init] sets and that are
    [readonly] afterwards: everything but the visibility of the image. *)
Definition reference (i : ImageReference)
    : string * option Q * nat * bool * option nat * option nat :=
  (tag i, zoom i, sourceCount i, hasSrcset i, next i, previous i).

(** The configuration, the measured durations and the image references. *)
Definition blueprint (w : World) :=
  (config w, lightboxTransitionDuration w, bufferTransitionDuration w,
   zoomTransitionDuration w, reference <$> images w).

(** World [w'] is a later stage of [w]: the blueprint is the same, no
    identifier is handed out twice, and the swap chain has only gained
    entries, each for a buffer that was created after [w]. *)
Definition extends (w w' : World) : Prop :=
  blueprint w' = blueprint w
  ∧ fresh w ≤ fresh w'
  ∧ (∀ image id, swapChain w !! image = Some id → swapChain w' !! image = Some id)
  ∧ (∀ image id, swapChain w' !! image = Some id →
       swapChain w !! image = Some id ∨ fresh w ≤ id).

(** Every Active buffer is the front buffer. *)
Definition activeIsFront (w : World) : Prop :=
  ∀ id, stateOf id w = Some Active → id = frontBuffer w.

(** ** Cached buffers *)

(** The preview buffer that a suspended [lightboxPresentImage] holds. *)
Definition previewOf (f : Frame) : option nat :=
  match f with
  | PresentLoadingRepaint _ _ previewBuffer
  | PresentLoadingPreview _ _ previewBuffer _
  | PresentTimeoutRepaint _ _ previewBuffer
  | PresentTimeoutPreview _ _ previewBuffer _ => Some previewBuffer
  | _ => None
  end.

(** The preview buffer of a frame exists and is no entry of the swap chain. *)
Definition apart (w : World) (f : Frame) : Prop :=
  ∀ p, previewOf f = Some p → p < fresh w ∧ ∀ image, swapChain w !! image ≠ Some p.

(** The swap chain maps every image to a buffer of its own that is in the
    document and holds no preview; the preview buffers in use are apart from
    it. *)
Definition cached (w : World) : Prop :=
  (∀ image id, swapChain w !! image = Some id →
     id < fresh w
     ∧ ∃ b, buffers w !! id = Some b ∧ isPreview b = false ∧ attached b = true)
  ∧ (∀ i j id, swapChain w !! i = Some id → swapChain w !! j = Some id → i = j)
  ∧ Forall (λ t, Forall (apart w) t.2) (tasks w).

Definition resultApart (w : World) (r : Result) : Prop :=
  match r with
  | Finished _ => True
  | Suspended frames => Forall (apart w) frames
  end.

Definition soundly (x : World * Result) : Prop :=
  cached x.1 ∧ resultApart x.1 x.2.

(** ** Hide transitions in progress *)

(** The identifier in what a frame waits for. *)
Definition waitId (target : Wait) : nat :=
  match target with
  | WLoad p | WTimeout p | WRace p => p
  | WRepaint | WCallee => 0
  end.

(** The timeout or the race that the frame on top of a stack waits for. *)
Definition awaited (stack : list Frame) : option Wait :=
  match stack with
  | f :: _ =>
      match waits f with
      | WTimeout t => Some (WTimeout t)
      | WRace p => Some (WRace p)
      | _ => None
      end
  | [] => None
  end.

(** [buffer.hideTransition], as the identifier of its timeout. *)
Definition hideTransitionOf (buffer : nat) (w : World) : option nat :=
  buffers w !! buffer ≫= hideTransition.

(** The timer of timeout [t] has not elapsed: [cancel] finds its resolving
    functions. *)
Definition pendingTimer (t : nat) (w : World) : Prop :=
  ∃ tm, timeouts w !! t = Some tm ∧ innerResolve tm = true.

(** Every task has an identifier of its own, no two tasks wait for the
    same timeout or for the same race, and every identifier in use has been
    handed out. *)
Definition orderly (w : World) : Prop :=
  NoDup (tasks w).*1
  ∧ (∀ x, x ∈ tasks w → x.1 < fresh w)
  ∧ (∀ x target, x ∈ tasks w → awaited x.2 = Some target → waitId target < fresh w)
  ∧ (∀ x y target, x ∈ tasks w → y ∈ tasks w →
       awaited x.2 = Some target → awaited y.2 = Some target → x = y)
  ∧ (∀ load, is_Some (races w !! load) → load < fresh w).

(** A rejection reason other than the TypeError of calling a resolving
    function that [waitForTimeout] has cleared. *)
Definition benign (e : JsValue) : Prop := ∀ name, e ≠ notAFunction name.

Definition benignCompletion (c : Completion) : Prop :=
  match c with Normal => True | Throw e => benign e end.

(** Every hide transition in progress has a timer that has not elapsed and
    is awaited by the [bufferSwap] that started it: one suspended in a task
    other than [tid], or the one whose frame is [own]. *)
Definition hiding (tid : nat) (own : option Frame) (w : World) : Prop :=
  ∀ b t, hideTransitionOf b w = Some t →
    t < fresh w ∧ pendingTimer t w
    ∧ ((∃ tid' rest, tid' ≠ tid ∧ (tid', SwapHide b t :: rest) ∈ tasks w)
       ∨ own = Some (SwapHide b t)).

(** The state in which code of task [tid] leaves the world, with the frames
    it suspends with. *)
Definition timely (tid : nat) (x : World * Result) : Prop :=
  orderly x.1
  ∧ Forall (λ entry, benign entry.2) (unhandled x.1)
  ∧ match x.2 with
    | Finished c => benignCompletion c ∧ hiding tid None x.1
    | Suspended frames =>
        frames ≠ [] ∧ hiding tid (head frames) x.1
        ∧ ∀ target, awaited frames = Some target →
            waitId target < fresh x.1
            ∧ ∀ y, y ∈ tasks x.1 → y.1 ≠ tid → awaited y.2 ≠ Some target
    end.

(** The state between two events. *)
Definition settled (w : World) : Prop :=
  orderly w
  ∧ Forall (λ entry, benign entry.2) (unhandled w)
  ∧ ∀ b t, hideTransitionOf b w = Some t →
      t < fresh w ∧ pendingTimer t w
      ∧ ∃ tid rest, (tid, SwapHide b t :: rest) ∈ tasks w.

(** The state in which code of task [tid] runs. *)
Definition poised (tid : nat) (w : World) : Prop :=
  orderly w ∧ Forall (λ entry, benign entry.2) (unhandled w) ∧ hiding tid None w.

(** ** The race of one [lightboxPresentImage] call *)

(** The worlds a page goes through: [init], then the events of the host. *)
Definition reachable (w : World) : Prop :=
  ∃ cfg measuredLightbox measuredBuffer measuredZoom scan evs,
    w = run (init cfg measuredLightbox measuredBuffer measuredZoom scan) evs.

(** The race of load [load] has settled and its timer is cleared. *)
Definition raceOver (load : nat) (w : World) : Prop :=
  ∃ r, races w !! load = Some r ∧ race_scheduled r = false ∧ race_promise r ≠ Pending.

(* ===================================================================== *)
(** * Theorems *)

(** ** Timing primitives *)

Lemma cancel_after_elapse_throws timeout reason :
  (cancel reason (elapse (waitForTimeout timeout))).2
  = Throw (notAFunction (if truthy reason then "innerReject" else "innerResolve")).
Proof. unfold cancel; simpl. by destruct (truthy reason). Qed.

(** C4, as stated, fails: [cancel(0)] passes a reason, and the pending
    completion is resolved instead of rejected with it, because the reason is
    tested for truthiness. (And [cancel()] after the delay has elapsed is no
    no-op for its caller: it throws a TypeError, while the completion stays
    resolved.) *)
Lemma cancel_falsy_reason_resolves :
  promise (cancel (JNumber 0) (waitForTimeout 50)).1 = Fulfilled
  ∧ promise (cancel (JNumber 0) (waitForTimeout 50)).1 ≠ Rejected (JNumber 0)
  ∧ (cancel JUndefined (elapse (waitForTimeout 50))).2
    = Throw (JError "TypeError" "innerResolve is not a function").
Proof. split; [reflexivity | split; [discriminate | reflexivity]]. Qed.

(** C4 (amended): on the handle returned by [waitForTimeout], a [cancel]
    before the delay has elapsed returns normally and settles the completion:
    with a truthy reason it rejects with that reason, with no reason or a
    falsy one it resolves; after the delay has elapsed the completion stays
    resolved whatever [cancel] is called with. *)
Theorem waitForTimeout_cancel (timeout : Q) (reason : JsValue) :
  promise (cancel reason (waitForTimeout timeout)).1
    = (if truthy reason then Rejected reason else Fulfilled)
  ∧ (cancel reason (waitForTimeout timeout)).2 = Normal
  ∧ promise (cancel JUndefined (waitForTimeout timeout)).1 = Fulfilled
  ∧ promise (elapse (waitForTimeout timeout)) = Fulfilled
  ∧ promise (cancel reason (elapse (waitForTimeout timeout))).1 = Fulfilled.
Proof.
  unfold cancel; simpl.
  destruct (truthy reason); simpl; auto.
Qed.

(** ** Zoom and pan *)

Lemma clamp_bounds (v : Q) : (- (1 # 2) <= clamp v <= 1 # 2)%Q.
Proof.
  unfold clamp; split.
  - apply Q.le_max_r.
  - apply Q.max_lub; [apply Q.le_min_r | discriminate].
Qed.

Lemma clamp_inside (v : Q) : (- (1 # 2) <= v)%Q → (v <= 1 # 2)%Q → (clamp v == v)%Q.
Proof.
  intros Hlo Hhi. unfold clamp.
  rewrite Q.max_l.
  - by apply Q.min_l.
  - apply Q.min_glb; [done | discriminate].
Qed.

(** C7, as stated, fails for [bufferZoomOut]: the close handler zooms the
    front buffer out after it has set the session to [Closing]. *)
Lemma zoomOut_while_closing :
  lightboxState (run page zoomedFirst) = Open
  ∧ isZoomed <$> buffers (run page zoomedFirst) !! 1 = Some true
  ∧ lightboxState (step (run page zoomedFirst) ClickClose) = Closing
  ∧ isZoomed <$> buffers (step (run page zoomedFirst) ClickClose) !! 1 = Some false.
Proof. vm_compute. done. Qed.

(** C7 (amended): [bufferZoomIn] leaves the buffer as it is when the session
    is not [Open] or the buffer is already zoomed; [bufferZoomOut] leaves the
    buffer as it is when the buffer is not zoomed, and zooms a zoomed buffer
    out whatever the state of the session. *)
Theorem zoom_noop_guards (cfg : Config) (lightbox : LightboxState) (rect : Rect)
    (b : Buffer) :
  (lightbox ≠ Open ∨ isZoomed b = true → bufferZoomIn cfg lightbox rect b = (b, Normal))
  ∧ (isZoomed b = false → bufferZoomOut cfg b = (b, Normal))
  ∧ (isZoomed b = true → isZoomed (bufferZoomOut cfg b).1 = false).
Proof.
  unfold bufferZoomIn, bufferZoomOut. repeat split.
  - intros [H | H].
    + by rewrite bool_decide_eq_true_2.
    + rewrite H. by rewrite orb_true_r.
  - by intros ->.
  - intros ->. simpl. by destruct (classList_remove _ _) as [l [| e]].
Qed.

Lemma zoom_noop_guards_witness :
  bufferZoomIn defaultConfig Closing sampleRect (createBuffer defaultConfig Active false)
    = (createBuffer defaultConfig Active false, Normal)
  ∧ bufferZoomOut defaultConfig (createBuffer defaultConfig Active false)
    = (createBuffer defaultConfig Active false, Normal).
Proof.
  destruct (zoom_noop_guards defaultConfig Closing sampleRect
              (createBuffer defaultConfig Active false)) as (Hin & Hout & _).
  split.
  - apply Hin. left. discriminate.
  - apply Hout. reflexivity.
Defined.

(** The handler that a zoom-in of an open session registers when the zoom
    class of the configuration is a token that [classList.add] accepts. *)
Lemma bufferZoomIn_handler (cfg : Config) (rect : Rect) (b : Buffer) :
  isZoomed b = false → tokenError (bufferClassZoom cfg) = None →
  (bufferZoomIn cfg Open rect b).2 = Normal
  ∧ onpan (bufferZoomIn cfg Open rect b).1
    = Some {| wrapperRect := rect;
              zoomPanMulti := ((1 - zoomFactor b) / zoomFactor b)%Q |}
  ∧ zoomFactor (bufferZoomIn cfg Open rect b).1 = zoomFactor b.
Proof.
  intros Hz Htoken. unfold bufferZoomIn, classList_add. rewrite Hz, Htoken.
  rewrite bool_decide_eq_false_2 by (intros H; by apply H). done.
Qed.

(** With a zoom class that is empty or holds white space, [classList.add]
    throws: the buffer is marked zoomed and scaled, and keeps the pan handler
    slot and the class list it had. *)
Lemma bufferZoomIn_invalid_class (cfg : Config) (rect : Rect) (b : Buffer) (e : JsValue) :
  isZoomed b = false → tokenError (bufferClassZoom cfg) = Some e →
  (bufferZoomIn cfg Open rect b).2 = Throw e
  ∧ isZoomed (bufferZoomIn cfg Open rect b).1 = true
  ∧ onpan (bufferZoomIn cfg Open rect b).1 = onpan b
  ∧ className (bufferZoomIn cfg Open rect b).1 = className b.
Proof.
  intros Hz Htoken. unfold bufferZoomIn, classList_add. rewrite Hz, Htoken.
  rewrite bool_decide_eq_false_2 by (intros H; by apply H). done.
Qed.

Lemma translate_bound (n m : Q) :
  (- (1 # 2) <= n <= 1 # 2)%Q → (Qabs (n * m * 100) <= 50 * Qabs m)%Q.
Proof.
  intros [Hlo Hhi].
  rewrite !Qabs_Qmult.
  assert (Hn : (Qabs n <= 1 # 2)%Q) by (apply Qabs_Qle_condition; done).
  assert (Hm : (0 <= Qabs m)%Q) by apply Qabs_nonneg.
  assert (E : (50 * Qabs m == (1 # 2) * Qabs m * Qabs 100)%Q)
    by (change (Qabs 100) with 100%Q; ring).
  rewrite E.
  apply Qmult_le_compat_r; [| discriminate].
  by apply Qmult_le_compat_r.
Qed.

(** C8: the handler registered by zooming in (with a zoom class that
    [classList.add] accepts) pans by the pointer position
    normalized to the wrapper's box (of positive width and height): the
    normalized offsets always lie in [-1/2, 1/2], the translate is the offset
    times (1 - zoomFactor) / zoomFactor times 100, hence at most
    50 * |(1 - zoomFactor) / zoomFactor| in absolute value; with zoom factor 2
    the centre of the box gives (0%, 0%), and the top-left corner gives the
    offsets -1/2 and the translate -50 * (1 - 2) / 2 = 25 on both axes, which
    attains that bound. *)
Theorem zoom_pan_transform (cfg : Config) (rect : Rect) (screen : Q * Q) (b : Buffer) :
  (0 < width rect)%Q → (0 < height rect)%Q → isZoomed b = false →
  tokenError (bufferClassZoom cfg) = None →
  ∃ h, onpan (bufferZoomIn cfg Open rect b).1 = Some h
    ∧ zoomPanMulti h = ((1 - zoomFactor b) / zoomFactor b)%Q
    ∧ (∀ e,
         (- (1 # 2) <= (normalized h screen e).1 <= 1 # 2)%Q
         ∧ (- (1 # 2) <= (normalized h screen e).2 <= 1 # 2)%Q
         ∧ panTranslate h screen e
           = (((normalized h screen e).1 * ((1 - zoomFactor b) / zoomFactor b) * 100)%Q,
              ((normalized h screen e).2 * ((1 - zoomFactor b) / zoomFactor b) * 100)%Q)
         ∧ (Qabs (panTranslate h screen e).1
              <= 50 * Qabs ((1 - zoomFactor b) / zoomFactor b))%Q
         ∧ (Qabs (panTranslate h screen e).2
              <= 50 * Qabs ((1 - zoomFactor b) / zoomFactor b))%Q
         ∧ transform (panMove screen e (bufferZoomIn cfg Open rect b).1)
           = TScaleTranslate (zoomFactor b)
               (panTranslate h screen e).1 (panTranslate h screen e).2)
    ∧ ((zoomFactor b == 2)%Q →
         ((panTranslate h screen
             (PointerOrMouse (left rect + width rect * (1 # 2))
                             (top rect + height rect * (1 # 2)))).1 == 0)%Q
         ∧ ((panTranslate h screen
               (PointerOrMouse (left rect + width rect * (1 # 2))
                               (top rect + height rect * (1 # 2)))).2 == 0)%Q
         ∧ ((normalized h screen (PointerOrMouse (left rect) (top rect))).1
              == - (1 # 2))%Q
         ∧ ((normalized h screen (PointerOrMouse (left rect) (top rect))).2
              == - (1 # 2))%Q
         ∧ ((panTranslate h screen (PointerOrMouse (left rect) (top rect))).1 == 25)%Q
         ∧ ((panTranslate h screen (PointerOrMouse (left rect) (top rect))).2 == 25)%Q
         ∧ (50 * Qabs ((1 - zoomFactor b) / zoomFactor b) == 25)%Q).
Proof.
  intros Hw Hh Hz Htoken.
  destruct (bufferZoomIn_handler cfg rect b Hz Htoken) as (_ & Hpan & Hfactor).
  eexists. split; [exact Hpan |]. split; [reflexivity |].
  split.
  - intros e. repeat split; try apply clamp_bounds.
    + apply translate_bound, clamp_bounds.
    + apply translate_bound, clamp_bounds.
    + unfold panMove. rewrite Hpan. simpl. by rewrite Hfactor.
  - intros Htwo.
    assert (Hw' : ¬ (width rect == 0)%Q) by (intros E; rewrite E in Hw; discriminate).
    assert (Hh' : ¬ (height rect == 0)%Q) by (intros E; rewrite E in Hh; discriminate).
    assert (Hm : ((1 - zoomFactor b) / zoomFactor b == - (1 # 2))%Q)
      by (rewrite Htwo; reflexivity).
    assert (Hb : (50 * Qabs ((1 - zoomFactor b) / zoomFactor b) == 25)%Q)
      by (rewrite (Qabs_wd _ _ Hm); reflexivity).
    unfold panTranslate, normalized; simpl.
    assert (Hcx : ((left rect + width rect * (1 # 2) - left rect - width rect * (1 # 2))
                     / width rect == 0)%Q) by (field; done).
    assert (Hcy : ((top rect + height rect * (1 # 2) - top rect - height rect * (1 # 2))
                     / height rect == 0)%Q) by (field; done).
    assert (Hkx : ((left rect - left rect - width rect * (1 # 2)) / width rect
                     == - (1 # 2))%Q) by (field; done).
    assert (Hky : ((top rect - top rect - height rect * (1 # 2)) / height rect
                     == - (1 # 2))%Q) by (field; done).
    assert (Hc0 : (clamp 0 == 0)%Q) by reflexivity.
    assert (Hch : (clamp (- (1 # 2)) == - (1 # 2))%Q) by reflexivity.
    assert (Hclamp : ∀ u v, (u == v)%Q → (clamp u == clamp v)%Q).
    { intros u v E. unfold clamp. by rewrite E. }
    rewrite (Hclamp _ _ Hcx), (Hclamp _ _ Hcy), (Hclamp _ _ Hkx), (Hclamp _ _ Hky).
    rewrite Hc0, Hch, Hm.
    repeat split; try reflexivity. exact Hb.
Qed.

Lemma zoom_pan_transform_witness :
  ∃ h, onpan (bufferZoomIn defaultConfig Open sampleRect loadedBuffer).1 = Some h
    ∧ ((panTranslate h (1920, 1080)%Q
          (PointerOrMouse (left sampleRect + width sampleRect * (1 # 2))
                          (top sampleRect + height sampleRect * (1 # 2)))).1 == 0)%Q
    ∧ ((panTranslate h (1920, 1080)%Q
          (PointerOrMouse (left sampleRect) (top sampleRect))).1 == 25)%Q.
Proof.
  destruct (zoom_pan_transform defaultConfig sampleRect (1920, 1080)%Q loadedBuffer)
    as (h & Hh & _ & _ & Hc); [reflexivity | reflexivity | reflexivity | reflexivity |].
  exists h. split; [exact Hh |].
  destruct Hc as (H0 & _ & _ & _ & H25 & _); [reflexivity |].
  split; [exact H0 | exact H25].
Defined.

(** ** Load pipeline *)

Lemma tokenError_exception token e :
  tokenError token = Some e → ∃ name, e = JDOMException name.
Proof. unfold tokenError. intros H. repeat case_match; simplify_eq; by eexists. Qed.

Lemma bufferZoomOut_throw cfg b e :
  (bufferZoomOut cfg b).2 = Throw e → tokenError (bufferClassZoom cfg) = Some e.
Proof.
  unfold bufferZoomOut, classList_remove. destruct (negb (isZoomed b)); [done |].
  destruct (tokenError (bufferClassZoom cfg)); simpl; congruence.
Qed.

(** The zoom functions leave the bookkeeping of the swap chain alone. *)
Lemma bufferZoomOut_kept cfg b :
  state (bufferZoomOut cfg b).1 = state b
  ∧ hideTransition (bufferZoomOut cfg b).1 = hideTransition b
  ∧ isPreview (bufferZoomOut cfg b).1 = isPreview b
  ∧ attached (bufferZoomOut cfg b).1 = attached b.
Proof. unfold bufferZoomOut. by repeat case_match. Qed.

Lemma bufferZoomIn_kept cfg lightbox rect b :
  state (bufferZoomIn cfg lightbox rect b).1 = state b
  ∧ hideTransition (bufferZoomIn cfg lightbox rect b).1 = hideTransition b
  ∧ isPreview (bufferZoomIn cfg lightbox rect b).1 = isPreview b
  ∧ attached (bufferZoomIn cfg lightbox rect b).1 = attached b.
Proof. unfold bufferZoomIn. by repeat case_match. Qed.

Lemma zoomOutBuffer_world id w w' c :
  zoomOutBuffer id w = (w', c) →
  w' = updBuffer id (λ b, (bufferZoomOut (config w) b).1) w.
Proof. unfold zoomOutBuffer. by intros [= <- _]. Qed.

Lemma zoomOutBuffer_throw id w w' e :
  zoomOutBuffer id w = (w', Throw e) → ∃ name, e = JDOMException name.
Proof.
  unfold zoomOutBuffer. intros [= _ H]. destruct (buffers w !! id) as [b |]; [| done].
  by apply bufferZoomOut_throw, tokenError_exception in H.
Qed.

Lemma lookup_updBuffer_eq (id : nat) (f : Buffer → Buffer) (w : World) :
  buffers (updBuffer id f w) !! id = f <$> buffers w !! id.
Proof. apply lookup_alter_eq. Qed.

Lemma lookup_updBuffer_ne (id other : nat) (f : Buffer → Buffer) (w : World) :
  id ≠ other → buffers (updBuffer id f w) !! other = buffers w !! other.
Proof. apply lookup_alter_ne. Qed.

(** Invoking [present(b)] makes [b] the session target at once. *)
Lemma lightboxPresentImage_target (b : nat) (w : World) :
  presentedImage (lightboxPresentImage b w).1 = Some b.
Proof.
  unfold lightboxPresentImage.
  destruct (swapChain w !! b) as [retrieved |]; simpl; [| done].
  case_bool_decide; done.
Qed.

(** C1: when the continuation chained onto the load of image [a] runs while
    the session target is another image [b], it returns without a swap: the
    front buffer, the swap-chain mapping, the tasks and the timers are as
    before, and the buffer of [a] is the same object (still attached) with
    state [Inactive], no classes and the hidden attribute. *)
Theorem stale_continuation (w : World) (a b imageBuffer load : nat) (x : Buffer) :
  a ≠ b → presentedImage w = Some b → buffers w !! imageBuffer = Some x →
  ∃ w', resume (AfterLoad a imageBuffer load) Normal w = (w', Finished Normal)
    ∧ frontBuffer w' = frontBuffer w
    ∧ swapChain w' = swapChain w
    ∧ presentedImage w' = Some b
    ∧ lightboxState w' = lightboxState w
    ∧ tasks w' = tasks w
    ∧ timeouts w' = timeouts w
    ∧ buffers w' !! imageBuffer
      = Some (set_hidden true (set_className [] (set_state Inactive x)))
    ∧ attached <$> buffers w' !! imageBuffer = Some (attached x)
    ∧ (∀ other, other ≠ imageBuffer → buffers w' !! other = buffers w !! other).
Proof.
  intros Hab Htarget Hx. simpl. unfold afterLoad.
  rewrite Htarget.
  rewrite bool_decide_eq_false_2 by congruence. simpl.
  eexists. split; [reflexivity |]. simpl.
  repeat split; try done.
  - rewrite !lookup_alter_eq. by rewrite Hx.
  - rewrite !lookup_alter_eq. by rewrite Hx.
  - intros other Hne. by rewrite !lookup_alter_ne by done.
Qed.

Lemma stale_continuation_witness :
  ∃ w', resume (AfterLoad 1 6 8) Normal (run page retargeted) = (w', Finished Normal)
    ∧ frontBuffer w' = 1
    ∧ swapChain w' !! 1 = Some 6
    ∧ state <$> buffers w' !! 6 = Some Inactive.
Proof.
  assert (Hx : ∃ x, buffers (run page retargeted) !! 6 = Some x)
    by (vm_compute; eauto).
  destruct Hx as [x Hx].
  destruct (stale_continuation (run page retargeted) 1 2 6 8 x)
    as (w' & Hrun & Hfront & Hchain & _ & _ & _ & _ & Hbuf & _);
    [lia | vm_compute; reflexivity | exact Hx |].
  exists w'. split; [exact Hrun |].
  split; [rewrite Hfront; vm_compute; reflexivity |].
  split; [rewrite Hchain; vm_compute; reflexivity |].
  rewrite Hbuf. reflexivity.
Defined.

(** ** Accounting for buffers and rejections *)

Lemma footprint_updBuffer id f w : footprint (updBuffer id f w) = footprint w.
Proof. unfold footprint, updBuffer; simpl. by rewrite dom_alter_L. Qed.

Lemma quiet_here w w' r :
  footprint w' = footprint w → resultTimeout r = false → quiet w (w', r).
Proof. by split. Qed.

Lemma quiet_from w w' x : footprint w' = footprint w → quiet w' x → quiet w x.
Proof. intros E [H1 H2]. split; [by rewrite H1 | done]. Qed.

Lemma cancelHideTransition_quiet buffer w :
  footprint (cancelHideTransition buffer w).1 = footprint w
  ∧ isTimeout (cancelHideTransition buffer w).2 = false.
Proof.
  unfold cancelHideTransition.
  destruct (buffers w !! buffer ≫= hideTransition) as [t |]; [| done].
  destruct (timeouts w !! t) as [tm |]; [| done].
  destruct (cancel JUndefined tm) as [tm' [| e]] eqn:E; simpl.
  - split; [| done]. by rewrite footprint_updBuffer.
  - split; [done |]. unfold cancel in E. simpl in E. destruct (innerResolve tm); by simplify_eq.
Qed.

Lemma bufferSwap_cleanup_quiet backBuffer w : quiet w (bufferSwap_cleanup backBuffer w).
Proof.
  unfold bufferSwap_cleanup.
  repeat case_match; apply quiet_here; rewrite ?footprint_updBuffer; done.
Qed.

Lemma bufferSwap_exchange_quiet immediate buffer backBuffer w :
  quiet w (bufferSwap_exchange immediate buffer backBuffer w).
Proof.
  unfold bufferSwap_exchange. destruct immediate.
  - eapply quiet_from; [| apply bufferSwap_cleanup_quiet].
    by rewrite !footprint_updBuffer.
  - simpl. apply quiet_here; [| done]. 
    rewrite footprint_updBuffer. unfold footprint; simpl. by rewrite !dom_alter_L.
Qed.

Lemma await_quiet caller callee k w :
  quiet w callee → (∀ w', quiet w' (k w')) → quiet w (await caller callee k).
Proof.
  intros [Hf Hr] Hk. destruct callee as [w' [[| e] | frames]]; simpl in *.
  - eapply quiet_from; [exact Hf | apply Hk].
  - by apply quiet_here.
  - by apply quiet_here.
Qed.

Lemma returns_quiet w : quiet w (returns w).
Proof. by apply quiet_here. Qed.

Lemma bufferSwap_quiet buffer w : quiet w (bufferSwap buffer w).
Proof.
  unfold bufferSwap. case_bool_decide; [by apply quiet_here |].
  match goal with |- context [cancelHideTransition ?b ?w1] =>
    destruct (cancelHideTransition_quiet b w1) as [Hf Hc];
    destruct (cancelHideTransition b w1) as [w2 [| e]] end; cbn [fst snd] in *.
  - assert (Hw2 : footprint w2 = footprint w)
      by (rewrite Hf, !footprint_updBuffer; done).
    case_match.
    + eapply quiet_from; [| apply bufferSwap_exchange_quiet].
      by rewrite footprint_updBuffer.
    + apply quiet_here; [| done]. by rewrite !footprint_updBuffer.
  - apply quiet_here; [| done]. rewrite Hf, !footprint_updBuffer. done.
Qed.

Lemma footprint_setVisibility v w : footprint (setVisibility v w) = footprint w.
Proof. unfold setVisibility. by destruct (presentedImage w). Qed.

Lemma footprint_newTimeout d w : footprint (newTimeout d w).2 = footprint w.
Proof. done. Qed.

Lemma footprint_newLoad w : footprint (newLoad w).2 = footprint w.
Proof. done. Qed.

Lemma footprint_bufferLoadPreview buffer w :
  footprint (bufferLoadPreview buffer w).2 = footprint w.
Proof. unfold bufferLoadPreview. by rewrite footprint_newLoad, footprint_updBuffer. Qed.

Lemma footprint_bufferLoadImage buffer from w :
  footprint (bufferLoadImage buffer from w).2 = footprint w.
Proof. unfold bufferLoadImage. by rewrite footprint_newLoad, footprint_updBuffer. Qed.

Lemma afterLoad_quiet image imageBuffer w : quiet w (afterLoad image imageBuffer w).
Proof.
  unfold afterLoad. case_match.
  - apply await_quiet; [apply bufferSwap_quiet | apply returns_quiet].
  - apply quiet_here; [| done]. by rewrite !footprint_updBuffer.
Qed.

Lemma presentPreview_quiet caller stillWanted previewBuffer w :
  quiet w (presentPreview caller stillWanted previewBuffer w).
Proof.
  unfold presentPreview. destruct stillWanted.
  - apply await_quiet; [apply bufferSwap_quiet | apply returns_quiet].
  - apply quiet_here; [| done]. by rewrite footprint_updBuffer.
Qed.

Lemma presentRace_quiet image imageBuffer load w :
  quiet w (presentRace image imageBuffer load w).
Proof. by apply quiet_here. Qed.

Lemma navigated_quiet w : quiet w (navigated w).
Proof. apply quiet_here; [apply footprint_setVisibility | done]. Qed.

Lemma lightboxOpenHandler_finish_quiet w : quiet w (lightboxOpenHandler_finish w).
Proof. by apply quiet_here. Qed.

Lemma footprint_set_lightboxState v w : footprint (set_lightboxState v w) = footprint w.
Proof. done. Qed.

Lemma footprint_set_presentedImage v w : footprint (set_presentedImage v w) = footprint w.
Proof. done. Qed.

Lemma footprint_set_frontBuffer v w : footprint (set_frontBuffer v w) = footprint w.
Proof. done. Qed.

Lemma footprint_set_swapChain v w : footprint (set_swapChain v w) = footprint w.
Proof. done. Qed.

Lemma footprint_set_rootClassName v w : footprint (set_rootClassName v w) = footprint w.
Proof. done. Qed.

Lemma footprint_set_rootHidden v w : footprint (set_rootHidden v w) = footprint w.
Proof. done. Qed.

Lemma footprint_set_anchorScrollPosition v w : footprint (set_anchorScrollPosition v w) = footprint w.
Proof. done. Qed.

Lemma footprint_set_bodyOverflowHidden v w : footprint (set_bodyOverflowHidden v w) = footprint w.
Proof. done. Qed.

Lemma footprint_set_images v w : footprint (set_images v w) = footprint w.
Proof. done. Qed.

Lemma footprint_set_timeouts v w : footprint (set_timeouts v w) = footprint w.
Proof. done. Qed.

Lemma footprint_set_loads v w : footprint (set_loads v w) = footprint w.
Proof. done. Qed.

Lemma footprint_set_races v w : footprint (set_races v w) = footprint w.
Proof. done. Qed.

Lemma footprint_set_tasks v w : footprint (set_tasks v w) = footprint w.
Proof. done. Qed.

Lemma footprint_set_microtasks v w : footprint (set_microtasks v w) = footprint w.
Proof. done. Qed.

Lemma footprint_set_fresh v w : footprint (set_fresh v w) = footprint w.
Proof. done. Qed.

Create Rewrite HintDb footprint.
#[local] Hint Rewrite footprint_updBuffer footprint_setVisibility
  footprint_set_lightboxState footprint_set_presentedImage footprint_set_frontBuffer
  footprint_set_swapChain footprint_set_rootClassName footprint_set_rootHidden
  footprint_set_anchorScrollPosition footprint_set_bodyOverflowHidden footprint_set_images
  footprint_set_timeouts footprint_set_loads footprint_set_races
  footprint_set_tasks footprint_set_microtasks footprint_set_fresh : footprint.

Ltac account :=
  unfold newTimeout, newLoad; cbv beta iota zeta; cbn [fst snd];
  autorewrite with footprint; try done.

Lemma lightboxOpenHandler_repainted_quiet w : quiet w (lightboxOpenHandler_repainted w).
Proof.
  unfold lightboxOpenHandler_repainted. cbv zeta. case_match.
  - apply quiet_here; account.
  - eapply quiet_from; [| apply lightboxOpenHandler_finish_quiet]. account.
Qed.

Lemma lightboxOpenHandler_presented_quiet w : quiet w (lightboxOpenHandler_presented w).
Proof.
  unfold lightboxOpenHandler_presented. cbv zeta. case_match; apply quiet_here; account.
Qed.

Lemma lightboxCloseHandler_finish_quiet w : quiet w (lightboxCloseHandler_finish w).
Proof.
  unfold lightboxCloseHandler_finish. cbv zeta.
  repeat case_match; apply quiet_here; account.
Qed.

Lemma lightboxCloseHandler_measured_quiet w : quiet w (lightboxCloseHandler_measured w).
Proof.
  unfold lightboxCloseHandler_measured. cbv zeta. case_match; [| by apply quiet_here].
  case_match.
  - apply quiet_here; account.
  - eapply quiet_from; [| apply lightboxCloseHandler_finish_quiet]. account.
Qed.

Lemma resume_quiet f c w : isTimeout c = false → quiet w (resume f c w).
Proof.
  intros Hc. destruct c as [| e].
  - destruct f; unfold resume; cbv beta iota.
    + apply bufferSwap_exchange_quiet.
    + apply bufferSwap_cleanup_quiet.
    + pose proof (footprint_bufferLoadPreview previewBuffer w) as Hf.
      destruct (bufferLoadPreview previewBuffer w) as [load w']. by apply quiet_here.
    + apply presentPreview_quiet.
    + apply returns_quiet.
    + pose proof (footprint_bufferLoadImage imageBuffer image w) as Hf.
      destruct (bufferLoadImage imageBuffer image w) as [load w'].
      eapply quiet_from; [exact Hf | apply presentRace_quiet].
    + by apply quiet_here.
    + pose proof (footprint_bufferLoadPreview previewBuffer w) as Hf.
      destruct (bufferLoadPreview previewBuffer w) as [load w']. by apply quiet_here.
    + apply presentPreview_quiet.
    + apply returns_quiet.
    + apply afterLoad_quiet.
    + apply returns_quiet.
    + apply navigated_quiet.
    + apply navigated_quiet.
    + apply lightboxOpenHandler_presented_quiet.
    + apply lightboxOpenHandler_repainted_quiet.
    + apply lightboxOpenHandler_finish_quiet.
    + apply lightboxCloseHandler_measured_quiet.
    + apply lightboxCloseHandler_finish_quiet.
  - simpl in Hc. destruct f; unfold resume; cbv beta iota; try by apply quiet_here.
    unfold presentCatch. rewrite Hc. by apply quiet_here.
Qed.

Lemma footprint_setStack tid stack w : footprint (setStack tid stack w) = footprint w.
Proof. done. Qed.

Lemma noTimeouts_footprint w w' : footprint w' = footprint w → noTimeouts w → noTimeouts w'.
Proof. unfold noTimeouts, footprint. intros E. injection E as _ ->. done. Qed.

Lemma dom_footprint w w' : footprint w' = footprint w → dom (buffers w') = dom (buffers w).
Proof. unfold footprint. intros E. by injection E. Qed.

(** A completion that is no TimeoutError unwinds a whole stack without
    creating a buffer and without leaving a TimeoutError unhandled. *)
Lemma unwind_quiet tid c stack w :
  isTimeout c = false →
  dom (buffers (unwind tid c stack w)) = dom (buffers w)
  ∧ (noTimeouts w → noTimeouts (unwind tid c stack w)).
Proof.
  revert c w. induction stack as [| f rest IH]; intros c w Hc.
  - destruct c as [| e]; simpl; (split; [done |]); intros Hw; [done |].
    apply Forall_app; split; [done |]. by constructor.
  - simpl. destruct (resume_quiet f c w Hc) as [Hf Hr].
    destruct (resume f c w) as [w' [c' | frames]]; cbn [fst snd] in *.
    + destruct (IH c' w' Hr) as [Hd Hn]. split.
      * rewrite Hd. by apply dom_footprint.
      * intros Hw. apply Hn. by apply (noTimeouts_footprint w).
    + split; [by apply dom_footprint | by apply noTimeouts_footprint].
Qed.

Lemma deliver_quiet target c w :
  isTimeout c = false →
  dom (buffers (deliver target c w)) = dom (buffers w)
  ∧ (noTimeouts w → noTimeouts (deliver target c w)).
Proof.
  intros Hc. unfold deliver. destruct (findWaiter target w) as [[tid stack] |]; [| done].
  by apply unwind_quiet.
Qed.










Lemma settleRace_quiet load c w :
  isTimeout c = false →
  dom (buffers (settleRace load c w)) = dom (buffers w)
  ∧ (noTimeouts w → noTimeouts (settleRace load c w)).
Proof.
  intros Hc. unfold settleRace. destruct (races w !! load) as [r |]; [| done].
  cbv zeta. destruct (race_promise r); [| done..].
  match goal with |- context [deliver ?t c ?w1] =>
    destruct (deliver_quiet t c w1 Hc) as [Hd Hn] end.
  split; [by rewrite Hd | done].
Qed.

Lemma loadSettled_quiet load failure w :
  dom (buffers (loadSettled load failure w)) = dom (buffers w)
  ∧ (noTimeouts w → noTimeouts (loadSettled load failure w)).
Proof.
  assert (Hc : isTimeout (loadCompletion failure) = false)
    by (by destruct failure as [[] |]).
  unfold loadSettled. destruct (loads w !! load) as [[] |]; [| done..].
  cbv zeta.
  match goal with |- context [settleRace load ?c (deliver ?t ?c ?w1)] =>
    destruct (deliver_quiet t c w1 Hc) as [Hd Hn];
    destruct (settleRace_quiet load c (deliver t c w1) Hc) as [Hd' Hn'] end.
  split; [by rewrite Hd', Hd | auto].
Qed.




Lemma drain_quiet w :
  dom (buffers (drain w)) = dom (buffers w) ∧ (noTimeouts w → noTimeouts (drain w)).
Proof.
  unfold drain.
  assert (H : ∀ ts w0, dom (buffers (foldl (λ w t, deliver (WTimeout t) Normal w) w0 ts))
                       = dom (buffers w0)
                     ∧ (noTimeouts w0 →
                        noTimeouts (foldl (λ w t, deliver (WTimeout t) Normal w) w0 ts))).
  { induction ts as [| t ts IH]; intros w0; [done |]. simpl.
    destruct (deliver_quiet (WTimeout t) Normal w0 eq_refl) as [Hd Hn].
    destruct (IH (deliver (WTimeout t) Normal w0)) as [Hd' Hn'].
    split; [by rewrite Hd', Hd | auto]. }
  apply (H (microtasks w) (set_microtasks [] w)).
Qed.





(** A settling load creates no buffer, whatever is suspended. *)
Lemma step_loadSettled_buffers w load failure :
  dom (buffers (step w (LoadSettled load failure))) = dom (buffers w).
Proof.
  unfold step; simpl.
  destruct (drain_quiet (loadSettled load failure w)) as [Hd _].
  destruct (loadSettled_quiet load failure w) as [Hd' _].
  by rewrite Hd, Hd'.
Qed.

(** ** Swap chain *)

Lemma stateOf_updBuffer (id other : nat) (f : Buffer → Buffer) (w : World) :
  (∀ b, state (f b) = state b) → stateOf other (updBuffer id f w) = stateOf other w.
Proof.
  intros Hf. unfold stateOf, updBuffer; simpl.
  destruct (decide (id = other)) as [-> | Hne].
  - rewrite lookup_alter_eq. destruct (buffers w !! other); simpl; [| done].
    by rewrite Hf.
  - by rewrite lookup_alter_ne.
Qed.

Lemma stateOf_set_state_eq (id : nat) (s : BufferState) (w : World) :
  is_Some (buffers w !! id) → stateOf id (updBuffer id (set_state s) w) = Some s.
Proof.
  intros [b Hb]. unfold stateOf, updBuffer; simpl.
  by rewrite lookup_alter_eq, Hb.
Qed.

Lemma stateOf_set_state_ne (id other : nat) (s : BufferState) (w : World) :
  id ≠ other → stateOf other (updBuffer id (set_state s) w) = stateOf other w.
Proof.
  intros Hne. unfold stateOf, updBuffer; simpl. by rewrite lookup_alter_ne.
Qed.

Lemma cancelHideTransition_states buffer w :
  frontBuffer (cancelHideTransition buffer w).1 = frontBuffer w
  ∧ ∀ id, stateOf id (cancelHideTransition buffer w).1 = stateOf id w.
Proof.
  unfold cancelHideTransition.
  destruct (buffers w !! buffer ≫= hideTransition) as [t |]; [| done].
  destruct (timeouts w !! t) as [tm |]; [| done].
  destruct (cancel JUndefined tm).2; simpl; [| done].
  split; [done |]. intros id. by rewrite stateOf_updBuffer.
Qed.

Lemma bufferSwap_cleanup_states backBuffer w :
  frontBuffer (bufferSwap_cleanup backBuffer w).1 = frontBuffer w
  ∧ ∀ id, stateOf id (bufferSwap_cleanup backBuffer w).1 = stateOf id w.
Proof.
  unfold bufferSwap_cleanup. repeat case_match; simpl; (split; [done |]);
    intros id; by rewrite ?stateOf_updBuffer.
Qed.

Lemma bufferSwap_exchange_states immediate buffer backBuffer w :
  frontBuffer (bufferSwap_exchange immediate buffer backBuffer w).1 = frontBuffer w
  ∧ ∀ id, stateOf id (bufferSwap_exchange immediate buffer backBuffer w).1 = stateOf id w.
Proof.
  unfold bufferSwap_exchange. destruct immediate.
  - match goal with |- context [bufferSwap_cleanup ?b ?w1] =>
      destruct (bufferSwap_cleanup_states b w1) as [Hf Hs] end.
    split; [by rewrite Hf |]. intros id. by rewrite Hs, !stateOf_updBuffer.
  - unfold newTimeout. cbv beta iota zeta. cbn [fst snd]. split; [done |].
    intros id. rewrite stateOf_updBuffer by done.
    match goal with |- stateOf id (set_fresh _ (set_timeouts _ ?w1)) = _ =>
      change (stateOf id w1 = stateOf id w) end.
    by rewrite !stateOf_updBuffer.
Qed.

(** The swap itself keeps the invariant: a buffer that is swapped to the
    front is Active when [bufferSwap] suspends or returns. *)
Lemma bufferSwap_frontActive buffer w :
  is_Some (buffers w !! buffer) → frontActive w → frontActive (bufferSwap buffer w).1.
Proof.
  intros Hb Hfront. unfold bufferSwap. case_bool_decide as Hactive; [done |].
  assert (Hne : frontBuffer w ≠ buffer) by (intros E; apply Hactive; by rewrite <- E).
  set (w1 := updBuffer (frontBuffer w) (set_state Inactive)
               (updBuffer buffer (set_state Active) (set_frontBuffer buffer w))).
  assert (H1 : frontBuffer w1 = buffer ∧ stateOf buffer w1 = Some Active).
  { split; [done |]. unfold w1.
    rewrite stateOf_set_state_ne by done. by apply stateOf_set_state_eq. }
  destruct H1 as [Hf1 Hs1].
  destruct (cancelHideTransition_states buffer w1) as [Hf2 Hs2].
  destruct (cancelHideTransition buffer w1) as [w2 [| e]]; cbn [fst snd] in *.
  - case_match.
    + match goal with |- context [bufferSwap_exchange true ?b ?bb ?w3] =>
        destruct (bufferSwap_exchange_states true b bb w3) as [Hf3 Hs3] end.
      unfold frontActive. rewrite Hf3, Hs3. simpl.
      rewrite stateOf_updBuffer by done. by rewrite Hf2, Hf1, Hs2.
    + unfold frontActive. cbn [fst]. rewrite !stateOf_updBuffer by done.
      change (frontBuffer _) with (frontBuffer w2). by rewrite Hf2, Hf1, Hs2.
  - unfold frontActive. by rewrite Hf2, Hf1, Hs2.
Qed.

(** The other branch of the chained callback breaks it when the buffer it
    marks is the front buffer. *)
Lemma afterLoad_front_inactive image w :
  is_Some (buffers w !! frontBuffer w) →
  presentedImage w ≠ Some image ∨ lightboxState w = Closing →
  frontBuffer (afterLoad image (frontBuffer w) w).1 = frontBuffer w
  ∧ stateOf (frontBuffer w) (afterLoad image (frontBuffer w) w).1 = Some Inactive.
Proof.
  intros Hb Hstale. unfold afterLoad.
  assert (Hguard : bool_decide (presentedImage w = Some image)
                   && bool_decide (lightboxState w ≠ Closing) = false).
  { destruct Hstale as [H | H].
    - by rewrite bool_decide_eq_false_2.
    - rewrite (bool_decide_eq_false_2 (lightboxState w ≠ Closing)) by (by intros E).
      apply andb_false_r. }
  rewrite Hguard. cbn [fst]. split; [done |].
  rewrite !stateOf_updBuffer by done. by apply stateOf_set_state_eq.
Qed.

(** C3 (code defect): on the sample page the front buffer is Active after
    every event up to the click on "previous" during the closing transition;
    when the load chained by that [present] settles, the callback finds the
    session [Closing] and marks the buffer of image 0 Inactive and hidden,
    although it is the front buffer. *)
Theorem front_buffer_marked_inactive :
  frontActive (run page openFirst)
  ∧ frontActive (run page (openFirst ++ [ClickClose; ClickNext; ClickPrevious]))
  ∧ lightboxState (run page navigatedWhileClosing) = Closing
  ∧ presentedImage (run page navigatedWhileClosing) = Some 0
  ∧ swapChain (run page navigatedWhileClosing) !! 0 = Some 1
  ∧ frontBuffer (run page navigatedWhileClosing) = 1
  ∧ stateOf 1 (run page navigatedWhileClosing) = Some Inactive
  ∧ hidden <$> buffers (run page navigatedWhileClosing) !! 1 = Some true
  ∧ ¬ frontActive (run page navigatedWhileClosing).
Proof. vm_compute. repeat split; try done. Qed.

(** ** Scroll handler *)

Lemma Qgtb_false (a b : Q) : (a <= b)%Q → Qgtb a b = false.
Proof. intros H. unfold Qgtb. by rewrite (proj2 (Qle_bool_iff a b) H). Qed.

Lemma Qgtb_true (a b : Q) : (b < a)%Q → Qgtb a b = true.
Proof.
  intros H. unfold Qgtb. destruct (Qle_bool a b) eqn:E; [| done].
  apply Qle_bool_iff in E. exfalso. by apply (Qlt_not_le b a).
Qed.

(** With no anchor, a scroll of the open session only records one. *)
Lemma scroll_records_anchor x y w :
  lightboxState w = Open → anchorScrollPosition w = None →
  lightboxScrollHandler x y w = set_anchorScrollPosition (Some (x, y)) w.
Proof.
  intros Hopen Hanchor. unfold lightboxScrollHandler.
  rewrite bool_decide_eq_false_2 by (by rewrite Hopen; intros E; apply E).
  by rewrite Hanchor.
Qed.

(** A position within the threshold of the anchor on both axes changes
    nothing. *)
Lemma scroll_within_threshold x y ax ay w :
  lightboxState w = Open → anchorScrollPosition w = Some (ax, ay) →
  (Qabs (x - ax) <= scrollThreshold (config w))%Q →
  (Qabs (y - ay) <= scrollThreshold (config w))%Q →
  lightboxScrollHandler x y w = w.
Proof.
  intros Hopen Hanchor Hx Hy. unfold lightboxScrollHandler.
  rewrite bool_decide_eq_false_2 by (by rewrite Hopen; intros E; apply E).
  rewrite Hanchor. rewrite Qgtb_false; [done |]. by apply Q.max_lub.
Qed.

(** Hence no sequence of such positions ever triggers the close. *)
Lemma scroll_sequence_within_threshold positions ax ay w :
  lightboxState w = Open → anchorScrollPosition w = Some (ax, ay) →
  Forall (λ p, (Qabs (p.1 - ax) <= scrollThreshold (config w))%Q
               ∧ (Qabs (p.2 - ay) <= scrollThreshold (config w))%Q) positions →
  foldl (λ w p, lightboxScrollHandler p.1 p.2 w) w positions = w.
Proof.
  intros Hopen Hanchor Hall. induction Hall as [| [x y] ps [Hx Hy] _ IH]; [done |].
  simpl. by rewrite (scroll_within_threshold x y ax ay w).
Qed.

(** A position beyond the threshold on either axis clears the anchor and
    calls the close handler. *)
Lemma scroll_beyond_threshold x y ax ay w :
  lightboxState w = Open → anchorScrollPosition w = Some (ax, ay) →
  (scrollThreshold (config w) < Qabs (x - ax))%Q
  ∨ (scrollThreshold (config w) < Qabs (y - ay))%Q →
  lightboxScrollHandler x y w
  = spawn (lightboxCloseHandler (set_anchorScrollPosition None w)).
Proof.
  intros Hopen Hanchor Hfar. unfold lightboxScrollHandler.
  rewrite bool_decide_eq_false_2 by (by rewrite Hopen; intros E; apply E).
  rewrite Hanchor. rewrite Qgtb_true; [done |].
  destruct Hfar as [H | H].
  - eapply Qlt_le_trans; [exact H | apply Q.le_max_l].
  - eapply Qlt_le_trans; [exact H | apply Q.le_max_r].
Qed.

(** On the sample page (threshold 20) opened for the first time: the first
    scroll records the anchor, positions within 20 of it do nothing, a jump
    by 21 closes. *)
Lemma scroll_close_first_session :
  anchorScrollPosition (run page (openFirst ++ [Scroll 3 7])) = Some (3, 7)%Q
  ∧ run page (openFirst ++ [Scroll 3 7; Scroll 23 7; Scroll 3 27; Scroll 0 0])
    = run page (openFirst ++ [Scroll 3 7])
  ∧ lightboxState (run page (openFirst ++ [Scroll 3 7; Scroll 3 28])) = Closing
  ∧ anchorScrollPosition (run page (openFirst ++ [Scroll 3 7; Scroll 3 28])) = None.
Proof. vm_compute. done. Qed.

(** C6 (code defect): the anchor is cleared only when the threshold is
    exceeded. After the session that recorded the anchor (0, 0) was closed
    with the button, the reopened session still holds it; its first scroll
    event, at (0, 500), does not record an anchor but closes the lightbox. *)
Theorem scroll_anchor_survives_close :
  lightboxState (run page reopened) = Open
  ∧ anchorScrollPosition (run page reopened) = Some (0, 0)%Q
  ∧ lightboxState (step (run page reopened) (Scroll 0 500)) = Closing
  ∧ anchorScrollPosition (step (run page reopened) (Scroll 0 500)) = None
  ∧ tasks (step (run page reopened) (Scroll 0 500)) = [(13, [CloseTransition 12])].
Proof. vm_compute. done. Qed.

(** ** Gallery links *)

Lemma filter_ext_in {A} (P Q : A → Prop) `{!∀ x, Decision (P x), !∀ x, Decision (Q x)}
    (l : list A) :
  (∀ x, x ∈ l → P x ↔ Q x) → filter P l = filter Q l.
Proof.
  induction l as [| a l IH]; intros Hext; [done |].
  rewrite !filter_cons.
  rewrite IH by (intros x Hx; apply Hext; by right).
  destruct (decide (P a)) as [HP | HP], (decide (Q a)) as [HQ | HQ]; try done.
  - exfalso. apply HQ, Hext; [by left | done].
  - exfalso. apply HP, Hext; [by left | done].
Qed.

Lemma members_snoc g l s :
  members g (l ++ [s])
  = members g l ++ (if decide (scanTag s = g) then [length l] else []).
Proof.
  unfold members. rewrite length_app. simpl. rewrite Nat.add_1_r, seq_S, filter_app.
  f_equal.
  - apply filter_ext_in. intros i Hi. apply elem_of_seq in Hi.
    by rewrite lookup_app_l by lia.
  - simpl. rewrite filter_cons, filter_nil.
    rewrite lookup_app_r by lia. rewrite Nat.sub_diag. simpl.
    destruct (decide (Some (scanTag s) = Some g)), (decide (scanTag s = g));
      congruence.
Qed.

Lemma members_elem g l i :
  i ∈ members g l ↔ i < length l ∧ scanTag <$> l !! i = Some g.
Proof.
  unfold members. rewrite list_elem_of_filter, elem_of_seq. intuition lia.
Qed.

Lemma members_NoDup g l : NoDup (members g l).
Proof. apply NoDup_filter, NoDup_seq. Qed.

Lemma members_disjoint g g' l i : i ∈ members g l → i ∈ members g' l → g = g'.
Proof. rewrite !members_elem. intros [_ H] [_ H']. congruence. Qed.

Lemma gallery_get_elem k v m : gallery_get k m = Some v → (k, v) ∈ m.
Proof.
  induction m as [| [k' v'] m IH]; simpl; [done |].
  destruct (String.eqb_spec k' k) as [-> | Hne].
  - intros [= ->]. by left.
  - intros H. right. by apply IH.
Qed.

Lemma gallery_get_None k m : gallery_get k m = None ↔ k ∉ m.*1.
Proof.
  induction m as [| [k' v'] m IH]; simpl.
  - split; [intros _; apply not_elem_of_nil | done].
  - rewrite not_elem_of_cons. destruct (String.eqb_spec k' k) as [-> | Hne].
    + split; [done | by intros [? _]].
    + rewrite IH. split; [intros H; split; [congruence | done] | by intros [_ H]].
Qed.

Lemma gallery_get_NoDup k v m : NoDup m.*1 → (k, v) ∈ m → gallery_get k m = Some v.
Proof.
  induction m as [| [k' v'] m IH]; simpl; intros Hnd Hin.
  - by apply elem_of_nil in Hin.
  - apply NoDup_cons in Hnd as [Hk' Hnd].
    destruct (String.eqb_spec k' k) as [-> | Hne].
    + apply elem_of_cons in Hin as [[= ->] | Hin]; [done |].
      exfalso. apply Hk'. apply list_elem_of_fmap. by exists (k, v).
    + apply elem_of_cons in Hin as [[= -> ->] | Hin]; [done |]. by apply IH.
Qed.

Lemma gallery_get_snoc k key v m :
  gallery_get k (m ++ [(key, v)])
  = match gallery_get k m with
    | Some x => Some x
    | None => if decide (key = k) then Some v else None
    end.
Proof.
  induction m as [| [k' v'] m IH]; simpl.
  - destruct (String.eqb_spec key k), (decide (key = k)); congruence.
  - by destruct (String.eqb_spec k' k).
Qed.

Lemma gallery_setTail_keys key t m : (gallery_setTail key t m).*1 = m.*1.
Proof.
  induction m as [| [k' [h' t']] m IH]; simpl; [done |].
  destruct (String.eqb_spec k' key); simpl; [done | f_equal; exact IH].
Qed.

Lemma gallery_get_setTail k key t m :
  gallery_get k (gallery_setTail key t m)
  = if decide (k = key) then (λ v, (v.1, t)) <$> gallery_get key m
    else gallery_get k m.
Proof.
  induction m as [| [k' [h' t']] m IH]; simpl; [by destruct (decide (k = key)) |].
  destruct (String.eqb_spec k' key) as [-> | Hne]; simpl.
  - destruct (String.eqb_spec key k) as [-> | Hne'].
    + by rewrite decide_True.
    + by rewrite decide_False.
  - destruct (String.eqb_spec k' k) as [-> | Hne'].
    + by rewrite decide_False.
    + exact IH.
Qed.

Lemma Scanned_nil : Scanned [] [] [].
Proof.
  split; try done.
  - constructor.
  - intros g. simpl. by destruct (decide (g = ""%string)).
Qed.

Lemma last_cons_default {A} (h : A) tl : last (h :: tl) = Some (default h (last tl)).
Proof.
  destruct tl as [| a tl]; [done |].
  change (last (h :: a :: tl)) with (last (a :: tl)).
  destruct (last (a :: tl)) eqn:E; [done |]. by apply last_None in E.
Qed.

(** The references after [alter (set_next (Some id)) t (refs ++ [img])]: the
    step that appends image [id] to the gallery whose tail is [t]. *)
Lemma linked_other refs img t id i :
  i ≠ t → i < length refs →
  alter (set_next (Some id)) t (refs ++ [img]) !! i = refs !! i.
Proof.
  intros Hne Hi. rewrite list_lookup_alter_ne by done. by apply lookup_app_l.
Qed.

Lemma linked_tail refs img t id :
  t < length refs →
  alter (set_next (Some id)) t (refs ++ [img]) !! t = set_next (Some id) <$> refs !! t.
Proof. intros Ht. rewrite list_lookup_alter_eq. by rewrite lookup_app_l. Qed.

Lemma linked_new refs img t id :
  t < length refs →
  alter (set_next (Some id)) t (refs ++ [img]) !! length refs = Some img.
Proof.
  intros Ht. rewrite list_lookup_alter_ne by lia.
  rewrite lookup_app_r by lia. by rewrite Nat.sub_diag.
Qed.

Lemma linked_previous refs img t id i :
  t < length refs → i < length refs →
  previous <$> alter (set_next (Some id)) t (refs ++ [img]) !! i
  = previous <$> refs !! i.
Proof.
  intros Ht Hi. destruct (decide (i = t)) as [-> | Hne].
  - rewrite linked_tail by done. by destruct (refs !! t).
  - by rewrite linked_other.
Qed.

Lemma linked_previousOf refs img t id i :
  t < length refs → i < length refs →
  previousOf (alter (set_next (Some id)) t (refs ++ [img])) i = previousOf refs i.
Proof.
  intros Ht Hi. unfold previousOf. destruct (decide (i = t)) as [-> | Hne].
  - rewrite linked_tail by done. by destruct (refs !! t).
  - by rewrite linked_other.
Qed.

Lemma linked_nextOf_tail refs img t id :
  t < length refs → nextOf (alter (set_next (Some id)) t (refs ++ [img])) t = Some id.
Proof.
  intros Ht. unfold nextOf. rewrite linked_tail by done.
  destruct (lookup_lt_is_Some_2 refs t Ht) as [r ->]. done.
Qed.

Lemma members_lt g l i : i ∈ members g l → i < length l.
Proof. rewrite members_elem. by intros [? _]. Qed.

Lemma Scanned_step cfg l refs m s :
  galleryMode cfg = true → Scanned l refs m →
  Scanned (l ++ [s]) (scanImage cfg (refs, m) s).1 (scanImage cfg (refs, m) s).2.
Proof.
  intros Hmode [Hlen Hkeys Hget Hchain Hhead Hlast].
  assert (Hold : ∀ g i, i ∈ members g l → i < length refs)
    by (intros g i Hi; rewrite Hlen; by eapply members_lt).
  unfold scanImage. cbn [fst snd]. rewrite Hmode. cbn [andb]. cbv zeta.
  destruct (String.eqb_spec (scanTag s) "") as [Hempty | Hne]; cbn [negb fst snd].
  - (* no gallery tag *)
    assert (Hsame : ∀ g, g ≠ ""%string → members g (l ++ [s]) = members g l).
    { intros g Hg. rewrite members_snoc, decide_False by congruence. apply app_nil_r. }
    split.
    + rewrite !length_app. simpl. lia.
    + done.
    + intros g. rewrite Hget. destruct (decide (g = ""%string)); [done |].
      by rewrite Hsame.
    + intros g k x y Hg. rewrite Hsame by done. intros Hx Hy.
      destruct (Hchain g k x y Hg Hx Hy) as [Hn Hp].
      unfold nextOf, previousOf in *.
      rewrite !lookup_app_l; [done | ..];
        eapply Hold, list_elem_of_lookup_2; eassumption.
    + intros g h Hg. rewrite Hsame by done. intros Hh.
      rewrite lookup_app_l; [by eapply Hhead |].
      apply (Hold g). rewrite head_lookup in Hh. by eapply list_elem_of_lookup_2.
    + intros g t Hg. rewrite Hsame by done. intros Ht.
      rewrite lookup_app_l; [by eapply Hlast |].
      apply (Hold g). rewrite last_lookup in Ht. by eapply list_elem_of_lookup_2.
  - rewrite Hget, decide_False by done.
    destruct (members (scanTag s) l) as [| h tl] eqn:Hms; cbn [fst snd].
    + (* a new gallery *)
      assert (Hsame : ∀ g, g ≠ scanTag s → members g (l ++ [s]) = members g l).
      { intros g Hg. rewrite members_snoc, decide_False by congruence. apply app_nil_r. }
      assert (Hnew : members (scanTag s) (l ++ [s]) = [length refs]).
      { by rewrite members_snoc, decide_True, Hms, Hlen by done. }
      split.
      * rewrite !length_app. simpl. lia.
      * rewrite fmap_app. apply NoDup_app. split; [done |]. split.
        -- intros k Hk Hk'. apply list_elem_of_singleton in Hk'. simpl in Hk'. subst k.
           revert Hk. apply gallery_get_None. rewrite Hget, decide_False by done.
           by rewrite Hms.
        -- apply NoDup_singleton.
      * intros g. rewrite gallery_get_snoc, Hget.
        destruct (decide (g = ""%string)) as [-> | Hg].
        { by rewrite decide_False. }
        destruct (decide (scanTag s = g)) as [<- | Hother].
        { by rewrite Hms, Hnew. }
        rewrite Hsame by done. by destruct (members g l).
      * intros g k x y Hg. destruct (decide (g = scanTag s)) as [-> | Hother].
        { rewrite Hnew. by destruct k. }
        rewrite Hsame by done. intros Hx Hy.
        destruct (Hchain g k x y Hg Hx Hy) as [Hn Hp].
        unfold nextOf, previousOf in *.
        rewrite !lookup_app_l; [done | ..];
          eapply Hold, list_elem_of_lookup_2; eassumption.
      * intros g h' Hg. destruct (decide (g = scanTag s)) as [-> | Hother].
        { rewrite Hnew. intros [= <-].
          rewrite lookup_app_r by lia. by rewrite Nat.sub_diag. }
        rewrite Hsame by done. intros Hh.
        rewrite lookup_app_l; [by eapply Hhead |].
        apply (Hold g). rewrite head_lookup in Hh. by eapply list_elem_of_lookup_2.
      * intros g t Hg. destruct (decide (g = scanTag s)) as [-> | Hother].
        { rewrite Hnew. intros [= <-].
          rewrite lookup_app_r by lia. by rewrite Nat.sub_diag. }
        rewrite Hsame by done. intros Ht.
        rewrite lookup_app_l; [by eapply Hlast |].
        apply (Hold g). rewrite last_lookup in Ht. by eapply list_elem_of_lookup_2.
    + (* one more image of an existing gallery *)
      cbn [fst snd].
      set (t := default h (last tl)).
      assert (Htail : last (members (scanTag s) l) = Some t)
        by (rewrite Hms; apply last_cons_default).
      assert (Htin : t ∈ members (scanTag s) l)
        by (rewrite last_lookup in Htail; by eapply list_elem_of_lookup_2).
      assert (Ht : t < length refs) by (by eapply Hold).
      assert (Hsame : ∀ g, g ≠ scanTag s → members g (l ++ [s]) = members g l).
      { intros g Hg. rewrite members_snoc, decide_False by congruence. apply app_nil_r. }
      assert (Hnew : members (scanTag s) (l ++ [s])
                     = members (scanTag s) l ++ [length refs]).
      { by rewrite members_snoc, decide_True, Hlen by done. }
      assert (Hapart : ∀ g i, g ≠ scanTag s → i ∈ members g l → i ≠ t).
      { intros g i Hg Hi ->. apply Hg. by eapply members_disjoint. }
      split.
      * rewrite length_alter, !length_app. simpl. lia.
      * by rewrite gallery_setTail_keys.
      * intros g. rewrite gallery_get_setTail, !Hget.
        destruct (decide (g = ""%string)) as [-> | Hg].
        { by rewrite decide_False. }
        destruct (decide (g = scanTag s)) as [-> | Hother].
        { rewrite decide_False by done. rewrite Hnew, Hms. simpl.
          by rewrite last_snoc. }
        by rewrite Hsame.
      * intros g k x y Hg. destruct (decide (g = scanTag s)) as [-> | Hother].
        { rewrite Hnew. intros Hx Hy.
          assert (Hk : S k < length (members (scanTag s) l ++ [length refs]))
            by (by eapply lookup_lt_Some).
          rewrite length_app in Hk. simpl in Hk.
          destruct (decide (S k < length (members (scanTag s) l))) as [Hin | Hend].
          - rewrite lookup_app_l in Hx by lia. rewrite lookup_app_l in Hy by lia.
            destruct (Hchain _ k x y Hg Hx Hy) as [Hn Hp].
            assert (Hxt : x ≠ t).
            { intros ->. rewrite last_lookup in Htail.
              pose proof (NoDup_lookup _ _ _ _ (members_NoDup _ _) Hx Htail). lia. }
            split.
            + unfold nextOf. rewrite linked_other; [done | done |].
              eapply Hold, list_elem_of_lookup_2; eassumption.
            + rewrite linked_previousOf; [done | done |].
              eapply Hold, list_elem_of_lookup_2; eassumption.
          - assert (Hlast' : S k = length (members (scanTag s) l)) by lia.
            rewrite lookup_app_l in Hx by lia.
            rewrite lookup_app_r in Hy by lia.
            rewrite Hlast', Nat.sub_diag in Hy. injection Hy as <-.
            assert (x = t) as ->.
            { rewrite last_lookup, <- Hlast' in Htail. simpl in Htail. congruence. }
            split; [by apply linked_nextOf_tail |].
            unfold previousOf. by rewrite linked_new. }
        rewrite Hsame by done. intros Hx Hy.
        destruct (Hchain g k x y Hg Hx Hy) as [Hn Hp].
        split.
        -- unfold nextOf. rewrite linked_other; [done | |].
           ++ eapply Hapart; [done |]. by eapply list_elem_of_lookup_2.
           ++ eapply Hold, list_elem_of_lookup_2; eassumption.
        -- rewrite linked_previousOf; [done | done |].
           eapply Hold, list_elem_of_lookup_2; eassumption.
      * intros g h' Hg Hh.
        assert (Hh' : head (members g l) = Some h').
        { destruct (decide (g = scanTag s)) as [-> | Hother].
          - rewrite Hnew, Hms in Hh. by rewrite Hms.
          - by rewrite Hsame in Hh. }
        rewrite linked_previous; [by eapply Hhead | done |].
        apply (Hold g). rewrite head_lookup in Hh'. by eapply list_elem_of_lookup_2.
      * intros g t' Hg. destruct (decide (g = scanTag s)) as [-> | Hother].
        { rewrite Hnew, last_snoc. intros [= <-]. by rewrite linked_new. }
        rewrite Hsame by done. intros Ht'.
        assert (Hin : t' ∈ members g l)
          by (rewrite last_lookup in Ht'; by eapply list_elem_of_lookup_2).
        rewrite linked_other; [by eapply Hlast | by eapply Hapart | by eapply Hold].
Qed.

Lemma Scanned_foldl cfg l :
  galleryMode cfg = true →
  ∀ l0 acc, Scanned l0 acc.1 acc.2 →
    Scanned (l0 ++ l) (foldl (scanImage cfg) acc l).1 (foldl (scanImage cfg) acc l).2.
Proof.
  intros Hmode. induction l as [| s l IH]; intros l0 [refs m] H.
  - by rewrite app_nil_r.
  - simpl. rewrite (assoc_L _ l0 [s] l : l0 ++ s :: l = (l0 ++ [s]) ++ l).
    apply IH. by apply Scanned_step.
Qed.

Lemma closeLoop_length refs entry : length (closeLoop refs entry) = length refs.
Proof.
  destruct entry as [k [h t]]. unfold closeLoop. case_bool_decide; [| done].
  by rewrite !length_alter.
Qed.

Lemma closeLoop_nextOf refs k h t i :
  nextOf (closeLoop refs (k, (h, t))) i
  = if decide (h ≠ t ∧ t = i ∧ i < length refs) then Some h else nextOf refs i.
Proof.
  unfold closeLoop, nextOf. case_bool_decide as Hht.
  - destruct (decide (t = i)) as [-> | Hti].
    + rewrite list_lookup_alter_eq.
      destruct (decide (i < length refs)) as [Hi | Hi].
      * rewrite decide_True by done.
        assert (is_Some (alter (set_previous (Some i)) h refs !! i)) as [r ->]
          by (apply lookup_lt_is_Some_2; by rewrite length_alter).
        done.
      * rewrite decide_False by tauto.
        rewrite (lookup_ge_None_2 refs) by lia.
        by rewrite lookup_ge_None_2 by (rewrite length_alter; lia).
    + rewrite decide_False by tauto. rewrite list_lookup_alter_ne by done.
      destruct (decide (h = i)) as [-> | Hhi].
      * rewrite list_lookup_alter_eq. by destruct (refs !! i).
      * by rewrite list_lookup_alter_ne.
  - by rewrite decide_False by tauto.
Qed.

Lemma closeLoop_previousOf refs k h t i :
  previousOf (closeLoop refs (k, (h, t))) i
  = if decide (h ≠ t ∧ h = i ∧ i < length refs) then Some t else previousOf refs i.
Proof.
  unfold closeLoop, previousOf. case_bool_decide as Hht.
  - destruct (decide (t = i)) as [-> | Hti].
    + rewrite decide_False by (intros (? & ? & ?); congruence).
      rewrite list_lookup_alter_eq, list_lookup_alter_ne by done.
      by destruct (refs !! i).
    + rewrite list_lookup_alter_ne by done.
      destruct (decide (h = i)) as [-> | Hhi].
      * rewrite list_lookup_alter_eq.
        destruct (decide (i < length refs)) as [Hi | Hi].
        -- rewrite decide_True by done.
           by destruct (lookup_lt_is_Some_2 refs i Hi) as [r ->].
        -- rewrite decide_False by tauto. by rewrite (lookup_ge_None_2 refs) by lia.
      * rewrite decide_False by tauto. by rewrite list_lookup_alter_ne.
  - by rewrite decide_False by tauto.
Qed.

(** A link that no other gallery's ring touches survives the closing of
    all rings; the ring of a gallery is closed by its own entry. *)
Lemma closeLoops_nextOf m refs i :
  (∀ k h t, (k, (h, t)) ∈ m → h ≠ t → t ≠ i) →
  nextOf (foldl closeLoop refs m) i = nextOf refs i.
Proof.
  revert refs. induction m as [| [k [h t]] m IH]; intros refs Hm; [done |].
  cbn [foldl]. rewrite IH by (intros k' h' t' Hin; apply (Hm k' h' t'); by right).
  rewrite closeLoop_nextOf. rewrite decide_False; [done |].
  intros (Hht & Hti & _). by apply (Hm k h t); [left | |].
Qed.

Lemma closeLoops_previousOf m refs i :
  (∀ k h t, (k, (h, t)) ∈ m → h ≠ t → h ≠ i) →
  previousOf (foldl closeLoop refs m) i = previousOf refs i.
Proof.
  revert refs. induction m as [| [k [h t]] m IH]; intros refs Hm; [done |].
  cbn [foldl]. rewrite IH by (intros k' h' t' Hin; apply (Hm k' h' t'); by right).
  rewrite closeLoop_previousOf. rewrite decide_False; [done |].
  intros (Hht & Hhi & _). by apply (Hm k h t); [left | |].
Qed.

Lemma closeLoops_ring m refs g h t :
  (g, (h, t)) ∈ m → h ≠ t → h < length refs → t < length refs →
  (∀ k h' t', (k, (h', t')) ∈ m → (h', t') = (h, t) ∨ (h' ≠ h ∧ t' ≠ t)) →
  previousOf (foldl closeLoop refs m) h = Some t
  ∧ nextOf (foldl closeLoop refs m) t = Some h.
Proof.
  intros Hin Hht Hh Ht Hm.
  apply list_elem_of_split in Hin as (m1 & m2 & ->).
  rewrite foldl_app. cbn [foldl].
  assert (Hlen : length (foldl closeLoop refs m1) = length refs).
  { clear. revert refs. induction m1 as [| e m1 IH]; intros refs; [done |].
    cbn [foldl]. by rewrite IH, closeLoop_length. }
  assert (Hkeep : ∀ m' refs',
            (∀ k h' t', (k, (h', t')) ∈ m' → (h', t') = (h, t) ∨ (h' ≠ h ∧ t' ≠ t)) →
            previousOf refs' h = Some t → nextOf refs' t = Some h →
            previousOf (foldl closeLoop refs' m') h = Some t
            ∧ nextOf (foldl closeLoop refs' m') t = Some h).
  { induction m' as [| [k [h' t']] m' IH]; intros refs' Hm' Hp Hn; [done |].
    cbn [foldl]. apply IH.
    - intros k0 h0 t0 Hin0. apply (Hm' k0). by right.
    - rewrite closeLoop_previousOf. case_decide as Hd; [| done].
      destruct (Hm' k h' t') as [[= -> ->] | [? ?]]; [by left | done | tauto].
    - rewrite closeLoop_nextOf. case_decide as Hd; [| done].
      destruct (Hm' k h' t') as [[= -> ->] | [? ?]]; [by left | done | tauto]. }
  apply Hkeep.
  - intros k h' t' Hin'. apply (Hm k). apply elem_of_app. right. by right.
  - rewrite closeLoop_previousOf, decide_True; [done |]. by rewrite Hlen.
  - rewrite closeLoop_nextOf, decide_True; [done |]. by rewrite Hlen.
Qed.

Lemma Scanned_entry l refs m k h t :
  Scanned l refs m → (k, (h, t)) ∈ m →
  k ≠ ""%string ∧ head (members k l) = Some h ∧ last (members k l) = Some t.
Proof.
  intros [_ Hkeys Hget _ _ _] Hin.
  apply (gallery_get_NoDup _ _ _ Hkeys) in Hin. rewrite Hget in Hin.
  destruct (decide (k = ""%string)); [done |].
  destruct (members k l) as [| h' tl] eqn:Hms; [done |].
  injection Hin as -> <-. split; [done |]. split; [done |]. apply last_cons_default.
Qed.

Lemma gatherImages_Scanned cfg scan :
  galleryMode cfg = true →
  Scanned scan (foldl (scanImage cfg) ([], []) scan).1
    (foldl (scanImage cfg) ([], []) scan).2.
Proof.
  intros Hmode. apply (Scanned_foldl cfg scan Hmode [] ([], [])). apply Scanned_nil.
Qed.

(** C9: after [init] with gallery mode enabled, the three members of a
    gallery group (in scan order: first, middle, final; the tag is not empty,
    other images may lie between them) are linked first <-> middle <-> final;
    with looping enabled the first's previous is the final and the final's
    next is the first, with looping disabled both are null. *)
Theorem gallery_linkage (cfg : Config) (measuredLightbox measuredBuffer measuredZoom : Q)
    (scan : list ScannedImage) (g : string) (first middle final : nat) :
  galleryMode cfg = true → g ≠ ""%string → members g scan = [first; middle; final] →
  nextOf (images (init cfg measuredLightbox measuredBuffer measuredZoom scan)) first
    = Some middle
  ∧ previousOf (images (init cfg measuredLightbox measuredBuffer measuredZoom scan)) middle
    = Some first
  ∧ nextOf (images (init cfg measuredLightbox measuredBuffer measuredZoom scan)) middle
    = Some final
  ∧ previousOf (images (init cfg measuredLightbox measuredBuffer measuredZoom scan)) final
    = Some middle
  ∧ (if galleryLoop cfg
     then previousOf (images (init cfg measuredLightbox measuredBuffer measuredZoom scan))
            first = Some final
          ∧ nextOf (images (init cfg measuredLightbox measuredBuffer measuredZoom scan))
              final = Some first
     else previous <$> images (init cfg measuredLightbox measuredBuffer measuredZoom scan)
                         !! first = Some None
          ∧ next <$> images (init cfg measuredLightbox measuredBuffer measuredZoom scan)
                       !! final = Some None).
Proof.
  intros Hmode Hg Hms.
  change (images (init cfg measuredLightbox measuredBuffer measuredZoom scan))
    with (gatherImages cfg scan).
  unfold gatherImages. cbv zeta. rewrite Hmode. cbn [andb].
  pose proof (gatherImages_Scanned cfg scan Hmode) as HS.
  destruct (foldl (scanImage cfg) ([], []) scan) as [refs m]. cbn [fst snd] in *.
  pose proof HS as [Hlen Hkeys Hget Hchain Hhead Hlast].
  destruct (Hchain g 0 first middle Hg) as [Hn1 Hp2]; [by rewrite Hms.. |].
  destruct (Hchain g 1 middle final Hg) as [Hn2 Hp3]; [by rewrite Hms.. |].
  assert (Hdistinct : first ≠ middle ∧ first ≠ final ∧ middle ≠ final).
  { pose proof (members_NoDup g scan) as Hnd. rewrite Hms in Hnd.
    apply NoDup_cons in Hnd as [H1 Hnd]. apply NoDup_cons in Hnd as [H2 _].
    rewrite not_elem_of_cons in H2. rewrite !not_elem_of_cons in H1.
    destruct H1 as (? & ? & _), H2 as (? & _). done. }
  destruct Hdistinct as (H12 & H13 & H23).
  assert (Hfirst : first ∈ members g scan) by (rewrite Hms; by left).
  assert (Hmiddle : middle ∈ members g scan) by (rewrite Hms; right; by left).
  assert (Hfinal : final ∈ members g scan) by (rewrite Hms; do 2 right; by left).
  assert (Hentry : ∀ k h t i, (k, (h, t)) ∈ m → i ∈ members g scan →
            (h = i → h = first) ∧ (t = i → t = final)).
  { intros k h t i Hk Hi.
    destruct (Scanned_entry _ _ _ _ _ _ HS Hk) as (Hk0 & Hhd & Htl).
    destruct (decide (k = g)) as [-> | Hkg].
    - rewrite Hms in Hhd, Htl. simpl in Hhd, Htl. split; congruence.
    - split; intros ->; exfalso; apply Hkg.
      + eapply (members_disjoint k g scan i); [| done].
        rewrite head_lookup in Hhd. by eapply list_elem_of_lookup_2.
      + eapply (members_disjoint k g scan i); [| done].
        rewrite last_lookup in Htl. by eapply list_elem_of_lookup_2. }
  destruct (galleryLoop cfg).
  - assert (Hn1' : nextOf (foldl closeLoop refs m) first = Some middle).
    { rewrite closeLoops_nextOf; [done |]. intros k h t Hk _ ->.
      destruct (Hentry k h first first Hk Hfirst) as [_ H]. by specialize (H eq_refl). }
    assert (Hp2' : previousOf (foldl closeLoop refs m) middle = Some first).
    { rewrite closeLoops_previousOf; [done |]. intros k h t Hk _ ->.
      destruct (Hentry k middle t middle Hk Hmiddle) as [H _]. by specialize (H eq_refl). }
    assert (Hn2' : nextOf (foldl closeLoop refs m) middle = Some final).
    { rewrite closeLoops_nextOf; [done |]. intros k h t Hk _ ->.
      destruct (Hentry k h middle middle Hk Hmiddle) as [_ H]. by specialize (H eq_refl). }
    assert (Hp3' : previousOf (foldl closeLoop refs m) final = Some middle).
    { rewrite closeLoops_previousOf; [done |]. intros k h t Hk _ ->.
      destruct (Hentry k final t final Hk Hfinal) as [H _]. by specialize (H eq_refl). }
    repeat (split; [done |]).
    apply (closeLoops_ring m refs g first final).
    + apply gallery_get_elem. rewrite Hget, decide_False, Hms by done. done.
    + done.
    + rewrite Hlen. by eapply members_lt.
    + rewrite Hlen. by eapply members_lt.
    + intros k h t Hk.
      destruct (Scanned_entry _ _ _ _ _ _ HS Hk) as (Hk0 & Hhd & Htl).
      destruct (decide (k = g)) as [-> | Hkg].
      * left. rewrite Hms in Hhd, Htl. simpl in Hhd, Htl. congruence.
      * right. split; intros ->; apply Hkg.
        -- eapply (members_disjoint k g scan first); [| done].
           rewrite head_lookup in Hhd. by eapply list_elem_of_lookup_2.
        -- eapply (members_disjoint k g scan final); [| done].
           rewrite last_lookup in Htl. by eapply list_elem_of_lookup_2.
  - repeat (split; [done |]). split.
    + apply (Hhead g); [done |]. by rewrite Hms.
    + apply (Hlast g); [done |]. by rewrite Hms.
Qed.

Lemma gallery_linkage_witness :
  nextOf (images page) 0 = Some 1
  ∧ previousOf (images page) 1 = Some 0
  ∧ nextOf (images page) 1 = Some 2
  ∧ previousOf (images page) 2 = Some 1
  ∧ previousOf (images page) 0 = Some 2
  ∧ nextOf (images page) 2 = Some 0.
Proof.
  apply (gallery_linkage defaultConfig 300 200 100
           [sampleImage; sampleImage; sampleImage] "g" 0 1 2);
    [reflexivity | discriminate | vm_compute; reflexivity].
Defined.

(** ** The placeholder survives until it is demoted *)

Lemma safe_updBuffer id f w :
  (∀ b, isPreview (f b) = isPreview b) → placeholderSafe w →
  placeholderSafe (updBuffer id f w).
Proof.
  intros Hf (Hp & Hfresh & Htasks). split; [| done].
  unfold updBuffer; simpl. destruct (decide (id = 0)) as [-> | Hne].
  - rewrite lookup_alter_eq. destruct (buffers w !! 0); simpl in *; [| done].
    by rewrite Hf.
  - by rewrite lookup_alter_ne.
Qed.

Lemma safe_updBuffer_other id f w :
  id ≠ 0 → placeholderSafe w → placeholderSafe (updBuffer id f w).
Proof.
  intros Hne (Hp & Hfresh & Htasks). split; [| done].
  unfold updBuffer; simpl. by rewrite lookup_alter_ne.
Qed.

Lemma safe_setVisibility v w : placeholderSafe w → placeholderSafe (setVisibility v w).
Proof. unfold setVisibility. by destruct (presentedImage w). Qed.

Lemma safe_newTimeout d w : placeholderSafe w → placeholderSafe (newTimeout d w).2.
Proof. intros (Hp & Hfresh & Htasks). split; [done |]. split; [simpl; lia | done]. Qed.

Lemma safe_newLoad w : placeholderSafe w → placeholderSafe (newLoad w).2.
Proof. intros (Hp & Hfresh & Htasks). split; [done |]. split; [simpl; lia | done]. Qed.

Lemma safe_createAttachedBuffer w :
  placeholderSafe w →
  placeholderSafe (createAttachedBuffer w).2 ∧ (createAttachedBuffer w).1 ≠ 0.
Proof.
  intros (Hp & Hfresh & Htasks). split; [| simpl; lia].
  split; [| split; [simpl; lia | done]].
  simpl. by rewrite lookup_insert_ne by lia.
Qed.

Lemma safely_here w r : placeholderSafe w → resultSpares r → safely (w, r).
Proof. by split. Qed.

Lemma cancelHideTransition_safe buffer w :
  placeholderSafe w → placeholderSafe (cancelHideTransition buffer w).1.
Proof.
  intros Hw. unfold cancelHideTransition.
  destruct (buffers w !! buffer ≫= hideTransition) as [t |]; [| done].
  destruct (timeouts w !! t) as [tm |]; [| done].
  destruct (cancel JUndefined tm).2; simpl; [| done].
  by apply safe_updBuffer.
Qed.

Lemma bufferSwap_cleanup_safe backBuffer w :
  placeholderSafe w → safely (bufferSwap_cleanup backBuffer w).
Proof.
  intros Hw. unfold bufferSwap_cleanup.
  assert (placeholderSafe (updBuffer backBuffer (set_hideTransition None) w))
    by (by apply safe_updBuffer).
  repeat case_match; apply safely_here; try done; by apply safe_updBuffer.
Qed.

Lemma bufferSwap_exchange_safe immediate buffer backBuffer w :
  placeholderSafe w → safely (bufferSwap_exchange immediate buffer backBuffer w).
Proof.
  intros Hw. unfold bufferSwap_exchange. cbv zeta.
  assert (placeholderSafe
            (updBuffer backBuffer (set_className [])
               (updBuffer buffer
                  (set_className
                     (tokens (bufferClassFront (config w) ++ " " ++ bufferClassActive (config w))))
                  w))) as Hw'
    by (do 2 (apply safe_updBuffer; [done |]); done).
  destruct immediate; [by apply bufferSwap_cleanup_safe |].
  apply safely_here.
  - apply safe_updBuffer; [done |]. by apply safe_newTimeout.
  - repeat constructor. done.
Qed.

Lemma bufferSwap_safe buffer w : placeholderSafe w → safely (bufferSwap buffer w).
Proof.
  intros Hw. unfold bufferSwap. case_bool_decide; [by apply safely_here |]. cbv zeta.
  match goal with |- context [cancelHideTransition ?b ?w1] =>
    assert (placeholderSafe w1) as Hw1
      by (do 2 (apply safe_updBuffer; [done |]); done);
    pose proof (cancelHideTransition_safe b w1 Hw1) as Hw2;
    destruct (cancelHideTransition b w1) as [w2 [| e]] end; cbn [fst snd] in *.
  - case_match.
    + apply bufferSwap_exchange_safe. by apply safe_updBuffer.
    + apply safely_here; [| repeat constructor; done].
      do 3 (apply safe_updBuffer; [done |]). done.
  - by apply safely_here.
Qed.

Lemma await_safe caller callee k :
  sparesPlaceholder caller → safely callee →
  (∀ w, placeholderSafe w → safely (k w)) → safely (await caller callee k).
Proof.
  intros Hcaller [Hw Hr] Hk. destruct callee as [w [[| e] | frames]]; simpl in *.
  - by apply Hk.
  - by apply safely_here.
  - apply safely_here; [done |]. apply Forall_app. split; [done |]. by constructor.
Qed.

Lemma returns_safe w : placeholderSafe w → safely (returns w).
Proof. intros. by apply safely_here. Qed.

Lemma afterLoad_safe image imageBuffer w :
  placeholderSafe w → safely (afterLoad image imageBuffer w).
Proof.
  intros Hw. unfold afterLoad. case_match.
  - apply await_safe; [done | by apply bufferSwap_safe | apply returns_safe].
  - apply safely_here; [| done]. do 3 (apply safe_updBuffer; [done |]). done.
Qed.

Lemma presentPreview_safe caller stillWanted previewBuffer w :
  sparesPlaceholder caller → placeholderSafe w →
  safely (presentPreview caller stillWanted previewBuffer w).
Proof.
  intros Hcaller Hw. unfold presentPreview. destruct stillWanted.
  - apply await_safe; [done | by apply bufferSwap_safe | apply returns_safe].
  - apply safely_here; [| done]. by apply safe_updBuffer.
Qed.

Lemma presentRace_safe image imageBuffer load w :
  placeholderSafe w → safely (presentRace image imageBuffer load w).
Proof.
  intros (Hp & Hfresh & Htasks). apply safely_here; [| by repeat constructor].
  split; [done |]. split; [simpl; lia |]. simpl.
  apply Forall_app. split; [done |]. by repeat constructor.
Qed.

Lemma presentCatch_safe image imageBuffer e w :
  placeholderSafe w → safely (presentCatch image imageBuffer e w).
Proof.
  intros Hw. unfold presentCatch. case_match; [by apply safely_here |].
  destruct (safe_createAttachedBuffer w Hw) as [Hw' Hne].
  destruct (createAttachedBuffer w) as [previewBuffer w']. cbn [fst snd] in *.
  apply safely_here; [done |]. repeat constructor. unfold sparesPlaceholder. simpl. congruence.
Qed.

Lemma bufferLoadPreview_safe buffer w :
  buffer ≠ 0 → placeholderSafe w → placeholderSafe (bufferLoadPreview buffer w).2.
Proof.
  intros Hne Hw. unfold bufferLoadPreview. cbv zeta.
  apply safe_newLoad. by apply safe_updBuffer_other.
Qed.

Lemma bufferLoadImage_safe buffer from w :
  buffer ≠ 0 → placeholderSafe w → placeholderSafe (bufferLoadImage buffer from w).2.
Proof.
  intros Hne Hw. unfold bufferLoadImage. cbv zeta.
  apply safe_newLoad. by apply safe_updBuffer_other.
Qed.

Lemma navigated_safe w : placeholderSafe w → safely (navigated w).
Proof. intros Hw. apply safely_here; [by apply safe_setVisibility | done]. Qed.

Lemma lightboxOpenHandler_finish_safe w :
  placeholderSafe w → safely (lightboxOpenHandler_finish w).
Proof. intros Hw. by apply safely_here. Qed.

Lemma lightboxOpenHandler_repainted_safe w :
  placeholderSafe w → safely (lightboxOpenHandler_repainted w).
Proof.
  intros Hw. unfold lightboxOpenHandler_repainted. cbv zeta.
  match goal with |- context [Qgtb (lightboxTransitionDuration ?w1) 0] =>
    assert (placeholderSafe w1) as Hw1
      by (apply safe_updBuffer; [done |]; apply safe_setVisibility; done) end.
  case_match.
  - apply safely_here; [by apply safe_newTimeout | by repeat constructor].
  - by apply lightboxOpenHandler_finish_safe.
Qed.

Lemma lightboxOpenHandler_presented_safe w :
  placeholderSafe w → safely (lightboxOpenHandler_presented w).
Proof.
  intros Hw. unfold lightboxOpenHandler_presented. cbv zeta. case_match.
  - apply safely_here; [| by repeat constructor]. by apply safe_updBuffer.
  - by apply safely_here.
Qed.

Lemma lightboxCloseHandler_finish_safe w :
  placeholderSafe w → safely (lightboxCloseHandler_finish w).
Proof.
  intros Hw. unfold lightboxCloseHandler_finish. cbv zeta.
  case_match; [| by apply safely_here].
  apply safely_here; [| done].
  assert (placeholderSafe
            (updBuffer (frontBuffer (setVisibility false w)) (set_transform TNone)
               (setVisibility false w))) as Hw1
    by (apply safe_updBuffer; [done |]; by apply safe_setVisibility).
  by case_match.
Qed.

Lemma lightboxCloseHandler_measured_safe w :
  placeholderSafe w → safely (lightboxCloseHandler_measured w).
Proof.
  intros Hw. unfold lightboxCloseHandler_measured. cbv zeta.
  case_match; [| by apply safely_here].
  assert (placeholderSafe
            (set_rootClassName
               (tokens (lightboxClassVisible
                          (config (updBuffer (frontBuffer w) (set_transform TGeometry) w))))
               (updBuffer (frontBuffer w) (set_transform TGeometry) w))) as Hw1
    by (by apply (safe_updBuffer (frontBuffer w) (set_transform TGeometry) w)).
  case_match.
  - apply safely_here; [by apply safe_newTimeout | by repeat constructor].
  - by apply lightboxCloseHandler_finish_safe.
Qed.

Lemma resume_safe f c w :
  sparesPlaceholder f → placeholderSafe w → safely (resume f c w).
Proof.
  intros Hf Hw. destruct c as [| e].
  - destruct f; unfold resume; cbv beta iota.
    + by apply bufferSwap_exchange_safe.
    + by apply bufferSwap_cleanup_safe.
    + assert (previewBuffer ≠ 0) as Hne by (intros ->; by apply Hf).
      pose proof (bufferLoadPreview_safe previewBuffer w Hne Hw) as Hw'.
      destruct (bufferLoadPreview previewBuffer w) as [load w'].
      apply safely_here; [done | by repeat constructor].
    + by apply presentPreview_safe.
    + by apply returns_safe.
    + assert (imageBuffer ≠ 0) as Hne by (intros ->; by apply Hf).
      pose proof (bufferLoadImage_safe imageBuffer image w Hne Hw) as Hw'.
      destruct (bufferLoadImage imageBuffer image w) as [load w'].
      by apply presentRace_safe.
    + by apply safely_here.
    + assert (previewBuffer ≠ 0) as Hne by (intros ->; by apply Hf).
      pose proof (bufferLoadPreview_safe previewBuffer w Hne Hw) as Hw'.
      destruct (bufferLoadPreview previewBuffer w) as [load w'].
      apply safely_here; [done | by repeat constructor].
    + by apply presentPreview_safe.
    + by apply returns_safe.
    + by apply afterLoad_safe.
    + by apply returns_safe.
    + by apply navigated_safe.
    + by apply navigated_safe.
    + by apply lightboxOpenHandler_presented_safe.
    + by apply lightboxOpenHandler_repainted_safe.
    + by apply lightboxOpenHandler_finish_safe.
    + by apply lightboxCloseHandler_measured_safe.
    + by apply lightboxCloseHandler_finish_safe.
  - destruct f; unfold resume; cbv beta iota; try by apply safely_here.
    by apply presentCatch_safe.
Qed.

Lemma safe_setStack tid stack w :
  Forall sparesPlaceholder stack → placeholderSafe w →
  placeholderSafe (setStack tid stack w).
Proof.
  intros Hstack (Hp & Hfresh & Htasks). split; [done |]. split; [done |].
  unfold setStack; simpl. destruct stack as [| f rest].
  - apply Forall_forall. intros x Hx. apply list_elem_of_filter in Hx as [_ Hx].
    rewrite Forall_forall in Htasks. by apply Htasks.
  - apply Forall_fmap. eapply Forall_impl; [exact Htasks |].
    intros [tid' stack'] Hok. simpl. by case_bool_decide.
Qed.

Lemma unwind_safe tid c stack w :
  Forall sparesPlaceholder stack → placeholderSafe w →
  placeholderSafe (unwind tid c stack w).
Proof.
  revert c w. induction stack as [| f rest IH]; intros c w Hstack Hw.
  - simpl. pose proof (safe_setStack tid [] w Hstack Hw) as Hw'.
    by destruct c.
  - apply Forall_cons in Hstack as [Hf Hrest]. simpl.
    destruct (resume_safe f c w Hf Hw) as [Hw' Hr].
    destruct (resume f c w) as [w' [c' | frames]]; cbn [fst snd] in *.
    + by apply IH.
    + apply safe_setStack; [| done]. by apply Forall_app.
Qed.

Lemma findWaiter_elem target w tid stack :
  findWaiter target w = Some (tid, stack) → (tid, stack) ∈ tasks w.
Proof.
  unfold findWaiter. intros H. apply find_some in H as [H _].
  by apply list_elem_of_In.
Qed.

Lemma deliver_safe target c w : placeholderSafe w → placeholderSafe (deliver target c w).
Proof.
  intros Hw. unfold deliver.
  destruct (findWaiter target w) as [[tid stack] |] eqn:E; [| done].
  apply unwind_safe; [| done].
  destruct Hw as (_ & _ & Htasks). rewrite Forall_forall in Htasks.
  apply findWaiter_elem in E. by apply (Htasks (tid, stack)).
Qed.

Lemma spawn_safe x : safely x → placeholderSafe (spawn x).
Proof.
  intros [(Hp & Hfresh & Htasks) Hr]. destruct x as [w [[| e] | frames]]; simpl in *.
  - done.
  - split; [done |]. split; [simpl; lia | done].
  - split; [done |]. split; [simpl; lia |]. simpl.
    apply Forall_app. split; [done |]. by constructor.
Qed.

Lemma lightboxPresentImage_safe image w :
  placeholderSafe w → safely (lightboxPresentImage image w).
Proof.
  intros Hw. unfold lightboxPresentImage. cbv zeta.
  assert (placeholderSafe (set_presentedImage (Some image) w)) as Hw1 by done.
  destruct (safe_createAttachedBuffer _ Hw1) as [Hw2 Hne].
  destruct (swapChain w !! image) as [retrieved |].
  - case_bool_decide.
    + destruct (createAttachedBuffer (set_presentedImage (Some image) w))
        as [previewBuffer w2]. cbn [fst snd] in *.
      apply safely_here; [done |]. repeat constructor. unfold sparesPlaceholder; simpl.
      congruence.
    + pose proof (safe_newLoad _ Hw1) as Hw3.
      destruct (newLoad (set_presentedImage (Some image) w)) as [load w3].
      by apply presentRace_safe.
  - destruct (createAttachedBuffer (set_presentedImage (Some image) w))
      as [imageBuffer w2]. cbn [fst snd] in *.
    apply safely_here; [done |]. repeat constructor. unfold sparesPlaceholder; simpl.
    congruence.
Qed.

Lemma navigate_safe caller link w :
  sparesPlaceholder caller → placeholderSafe w → safely (navigate caller link w).
Proof.
  intros Hcaller Hw. unfold navigate. case_match; [| by apply safely_here].
  assert (placeholderSafe (zoomOutBuffer (frontBuffer w) w).1) as Hz
    by (apply safe_updBuffer; [| done]; intros b; apply bufferZoomOut_kept).
  destruct (zoomOutBuffer (frontBuffer w) w) as [w1 [| e]]; [| by apply safely_here].
  cbv zeta. apply await_safe; [done | | apply navigated_safe].
  by apply lightboxPresentImage_safe, safe_setVisibility.
Qed.

Lemma lightboxOpenHandler_safe w : placeholderSafe w → safely (lightboxOpenHandler w).
Proof.
  intros Hw. unfold lightboxOpenHandler. cbv zeta.
  destruct (closeOnScroll (config (set_lightboxState Opening w)));
    (case_match; [| by apply safely_here]);
    (apply await_safe;
       [done | by apply lightboxPresentImage_safe
       | apply lightboxOpenHandler_presented_safe]).
Qed.

Lemma lightboxCloseHandler_safe w : placeholderSafe w → safely (lightboxCloseHandler w).
Proof.
  intros Hw. unfold lightboxCloseHandler. cbv zeta. case_match.
  - match goal with |- context [zoomOutBuffer ?id ?w1] =>
      assert (placeholderSafe (zoomOutBuffer id w1).1) as Hz
        by (apply safe_updBuffer; [| done]; intros b; apply bufferZoomOut_kept);
      destruct (zoomOutBuffer id w1) as [w2 [| e]] end; [| by apply safely_here].
    apply safely_here; [| by repeat constructor]. by apply safe_newTimeout.
  - by apply lightboxCloseHandler_measured_safe.
Qed.

Lemma settleRace_safe load c w :
  placeholderSafe w → placeholderSafe (settleRace load c w).
Proof.
  intros Hw. unfold settleRace. destruct (races w !! load) as [r |]; [| done].
  cbv zeta. destruct (race_promise r); [by apply deliver_safe | done..].
Qed.

Lemma loadSettled_safe load failure w :
  placeholderSafe w → placeholderSafe (loadSettled load failure w).
Proof.
  intros Hw. unfold loadSettled. destruct (loads w !! load) as [[] |]; try done.
  cbv zeta. by apply settleRace_safe, deliver_safe.
Qed.

Lemma handle_safe ev w : placeholderSafe w → placeholderSafe (handle ev w).
Proof.
  intros Hw. destruct ev; simpl.
  - by apply spawn_safe, lightboxOpenHandler_safe.
  - by apply spawn_safe, navigate_safe.
  - by apply spawn_safe, navigate_safe.
  - by apply spawn_safe, lightboxCloseHandler_safe.
  - unfold pictureClick. repeat case_match; try done.
    + apply safe_updBuffer; [| done]. intros b0. apply bufferZoomIn_kept.
    + apply safe_updBuffer; [| done]. intros b0. apply bufferZoomOut_kept.
  - apply safe_updBuffer; [| done]. intros b. unfold panMove. by case_match.
  - case_match; [| done]. unfold lightboxScrollHandler. repeat case_match; try done.
    by apply spawn_safe, lightboxCloseHandler_safe.
  - unfold lightboxResizeHandler. case_match; [| done].
    by apply spawn_safe, lightboxCloseHandler_safe.
  - unfold repaint. repeat case_match; try done. apply unwind_safe; [| done].
    destruct Hw as (_ & _ & Htasks). rewrite Forall_forall in Htasks.
    match goal with H : List.find _ _ = Some _ |- _ => apply find_some in H as [Hin Hid] end.
    apply bool_decide_eq_true in Hid. simpl in Hid. subst.
    match goal with H : In (?t, ?l) _ |- _ =>
      by apply (Htasks (t, l)), list_elem_of_In end.
  - by apply loadSettled_safe.
  - unfold timerElapsed. repeat case_match; try done. by apply deliver_safe.
  - unfold raceTimer. repeat case_match; try done. by apply deliver_safe.
Qed.

Lemma drain_safe w : placeholderSafe w → placeholderSafe (drain w).
Proof.
  intros Hw. unfold drain.
  assert (H : ∀ ts w0, placeholderSafe w0 →
            placeholderSafe (foldl (λ w t, deliver (WTimeout t) Normal w) w0 ts)).
  { induction ts as [| t ts IH]; intros w0 Hw0; [done |]. simpl.
    by apply IH, deliver_safe. }
  by apply H.
Qed.

Lemma step_safe w ev : placeholderSafe w → placeholderSafe (step w ev).
Proof. intros Hw. by apply drain_safe, handle_safe. Qed.

Lemma run_safe w evs : placeholderSafe w → placeholderSafe (run w evs).
Proof.
  revert w. induction evs as [| ev evs IH]; intros w Hw; [done |].
  by apply IH, step_safe.
Qed.

Lemma init_safe cfg measuredLightbox measuredBuffer measuredZoom scan :
  placeholderSafe (init cfg measuredLightbox measuredBuffer measuredZoom scan).
Proof. split; [done |]. split; [simpl; lia | constructor]. Qed.

Lemma bufferSwap_states buffer w :
  stateOf buffer w ≠ Some Active →
  frontBuffer (bufferSwap buffer w).1 = buffer
  ∧ ∀ id, stateOf id (bufferSwap buffer w).1
          = stateOf id (updBuffer (frontBuffer w) (set_state Inactive)
                          (updBuffer buffer (set_state Active) w)).
Proof.
  intros Hactive. unfold bufferSwap. rewrite bool_decide_eq_false_2 by done. cbv zeta.
  set (w1 := updBuffer (frontBuffer w) (set_state Inactive)
               (updBuffer buffer (set_state Active) (set_frontBuffer buffer w))).
  destruct (cancelHideTransition_states buffer w1) as [Hf2 Hs2].
  destruct (cancelHideTransition buffer w1) as [w2 [| e]]; cbn [fst snd] in *.
  - case_match.
    + match goal with |- context [bufferSwap_exchange true ?b ?bb ?w3] =>
        destruct (bufferSwap_exchange_states true b bb w3) as [Hf3 Hs3] end.
      rewrite Hf3. split; [change (frontBuffer w2 = buffer); by rewrite Hf2 |].
      intros id. rewrite Hs3, stateOf_updBuffer by done. by rewrite Hs2.
    + cbn [fst]. split; [change (frontBuffer w2 = buffer); by rewrite Hf2 |].
      intros id. rewrite !stateOf_updBuffer by done. by rewrite Hs2.
  - split; [by rewrite Hf2 |]. intros id. by rewrite Hs2.
Qed.

(** C10: [createLightbox] makes the initial front buffer (identifier 0) an
    Active buffer with [isPreview] set; whatever events follow [init], that
    flag stays set; the first buffer that is swapped to the front (while the
    placeholder is still the front buffer) becomes the front buffer and
    leaves the placeholder Inactive; and the cleanup of the placeholder, run
    while it is Inactive, detaches its wrapper and does not touch its hidden
    attribute. *)
Theorem placeholder_is_disposable (cfg : Config)
    (measuredLightbox measuredBuffer measuredZoom : Q) (scan : list ScannedImage) :
  frontBuffer (init cfg measuredLightbox measuredBuffer measuredZoom scan) = 0
  ∧ buffers (init cfg measuredLightbox measuredBuffer measuredZoom scan) !! 0
    = Some (set_attached true (createBuffer cfg Active true))
  ∧ isPreview (createBuffer cfg Active true) = true
  ∧ state (createBuffer cfg Active true) = Active
  ∧ (∀ evs,
       isPreview <$> buffers (run (init cfg measuredLightbox measuredBuffer
                                     measuredZoom scan) evs) !! 0 = Some true)
  ∧ (∀ w buffer,
       frontBuffer w = 0 → is_Some (buffers w !! 0) → buffer ≠ 0 →
       stateOf buffer w ≠ Some Active →
       frontBuffer (bufferSwap buffer w).1 = buffer
       ∧ stateOf 0 (bufferSwap buffer w).1 = Some Inactive)
  ∧ (∀ w p,
       buffers w !! 0 = Some p → isPreview p = true → state p = Inactive →
       buffers (bufferSwap_cleanup 0 w).1 !! 0
       = Some (set_attached false (set_hideTransition None p))).
Proof.
  repeat (split; [done |]). split; [| split].
  - intros evs. by apply run_safe, init_safe.
  - intros w buffer Hfront Hplace Hne Hactive.
    destruct (bufferSwap_states buffer w Hactive) as [Hf Hs].
    split; [done |]. rewrite Hs, Hfront. apply stateOf_set_state_eq.
    unfold updBuffer; simpl. by rewrite lookup_alter_ne.
  - intros w p Hp Hpreview Hstate. unfold bufferSwap_cleanup. cbv zeta.
    rewrite lookup_updBuffer_eq, Hp. simpl.
    rewrite Hstate, Hpreview. simpl.
    by rewrite !lookup_alter_eq, Hp.
Qed.

Lemma placeholder_is_disposable_witness :
  frontBuffer (bufferSwap 1 (run page loadingFirst)).1 = 1
  ∧ stateOf 0 (bufferSwap 1 (run page loadingFirst)).1 = Some Inactive
  ∧ attached <$> buffers (bufferSwap_cleanup 0
                            (updBuffer 0 (set_state Inactive) page)).1 !! 0
    = Some false
  ∧ hidden <$> buffers (bufferSwap_cleanup 0
                          (updBuffer 0 (set_state Inactive) page)).1 !! 0
    = Some false.
Proof.
  destruct (placeholder_is_disposable defaultConfig 300 200 100
              [sampleImage; sampleImage; sampleImage])
    as (_ & _ & _ & _ & _ & Hswap & Hcleanup).
  destruct (Hswap (run page loadingFirst) 1) as [Hf Hs];
    [vm_compute; reflexivity | vm_compute; eauto | lia | vm_compute; discriminate |].
  split; [exact Hf |]. split; [exact Hs |].
  rewrite (Hcleanup (updBuffer 0 (set_state Inactive) page)
             (set_state Inactive
                (set_attached true (createBuffer defaultConfig Active true))));
    [split; reflexivity | reflexivity..].
Defined.

(** ** debounce *)

Lemma filter_ne_singleton (id : Z) : filter (λ t, t ≠ id) [id] = [].
Proof. rewrite filter_cons, decide_False by (intros H; by apply H). done. Qed.

(** Whatever [func] does, at most the timer named by [timeout] is pending. *)
Lemma debounceStep_timers func d ev :
  (timers d = [] ∨ (timers d = [timeout d] ∧ (0 < timeout d)%Z)) ∧ (0 < nextTimer d)%Z →
  (timers (debounceStep func d ev) = []
   ∨ (timers (debounceStep func d ev) = [timeout (debounceStep func d ev)]
      ∧ (0 < timeout (debounceStep func d ev))%Z))
  ∧ (0 < nextTimer (debounceStep func d ev))%Z.
Proof.
  intros [Ht Hn]. destruct ev as [arguments | id]; simpl.
  - unfold wrapper. cbv zeta. cbn [timeout]. destruct (Z.eqb_spec (timeout d) (-1)) as [E | E].
    + assert (timers d = []) as Hnil by (destruct Ht as [? | [_ ?]]; [done | lia]).
      unfold evaluateCall. cbn [mustDispatch dispatched]. destruct (func _ _); simpl.
      * rewrite Hnil. split; [right; split; [done | lia] | lia].
      * rewrite Hnil. split; [by left | done].
    + simpl. split; [exact Ht | done].
  - unfold timerFires. case_bool_decide as Hin; [| by split].
    destruct Ht as [Hnil | [Hone Hpos]]; [rewrite Hnil in Hin; by apply elem_of_nil in Hin |].
    rewrite Hone in Hin. apply list_elem_of_singleton in Hin. subst id.
    rewrite Hone, filter_ne_singleton. unfold evaluateCall. cbn [mustDispatch dispatched].
    destruct (mustDispatch d); [destruct (func _ _) |]; simpl.
    + split; [right; split; [done | lia] | lia].
    + split; [by left | done].
    + split; [by left | done].
Qed.

Lemma debounceRun_timers func d evs :
  (timers d = [] ∨ (timers d = [timeout d] ∧ (0 < timeout d)%Z)) ∧ (0 < nextTimer d)%Z →
  (timers (debounceRun func d evs) = []
   ∨ (timers (debounceRun func d evs) = [timeout (debounceRun func d evs)]
      ∧ (0 < timeout (debounceRun func d evs))%Z))
  ∧ (0 < nextTimer (debounceRun func d evs))%Z.
Proof.
  revert d. induction evs as [| ev evs IH]; intros d Hd; [done |].
  apply IH. by apply debounceStep_timers.
Qed.

(** With a [func] that returns, the debouncer is idle ([timeout] is -1,
    nothing staged, no timer) or armed (the timer named by [timeout] is
    pending). *)
Lemma debounceStep_armed func d ev :
  (∀ history arguments, func history arguments = Normal) →
  ((timeout d = (-1)%Z ∧ timers d = [] ∧ mustDispatch d = false)
   ∨ (timers d = [timeout d] ∧ (0 < timeout d)%Z)) ∧ (0 < nextTimer d)%Z →
  ((timeout (debounceStep func d ev) = (-1)%Z ∧ timers (debounceStep func d ev) = []
    ∧ mustDispatch (debounceStep func d ev) = false)
   ∨ (timers (debounceStep func d ev) = [timeout (debounceStep func d ev)]
      ∧ (0 < timeout (debounceStep func d ev))%Z))
  ∧ (0 < nextTimer (debounceStep func d ev))%Z.
Proof.
  intros Hfunc [Hd Hn]. destruct ev as [arguments | id]; simpl.
  - unfold wrapper. cbv zeta. cbn [timeout]. destruct (Z.eqb_spec (timeout d) (-1)) as [E | E].
    + destruct Hd as [(_ & Hnil & _) | [_ ?]]; [| lia].
      unfold evaluateCall. cbn [mustDispatch dispatched]. rewrite Hfunc. simpl.
      rewrite Hnil. split; [right; split; [done | lia] | lia].
    + simpl. destruct Hd as [(? & _) | Harmed]; [done |]. split; [by right | done].
  - unfold timerFires. case_bool_decide as Hin; [| by split].
    destruct Hd as [(_ & Hnil & _) | [Hone Hpos]];
      [rewrite Hnil in Hin; by apply elem_of_nil in Hin |].
    rewrite Hone in Hin. apply list_elem_of_singleton in Hin. subst id.
    rewrite Hone, filter_ne_singleton. unfold evaluateCall. cbn [mustDispatch dispatched].
    destruct (mustDispatch d) eqn:Hm; [rewrite Hfunc |]; simpl.
    + split; [right; split; [done | lia] | lia].
    + split; [by left | done].
Qed.

(** X1: a staged call is never left without a timer. *)
Theorem debounce_staged_call_has_timer
    (func : list (list JsValue) → list JsValue → Completion) (firstTimer : Z)
    (evs : list DebounceEvent) :
  (0 < firstTimer)%Z → (∀ history arguments, func history arguments = Normal) →
  (mustDispatch (debounceRun func (debounce firstTimer) evs) = true →
   timers (debounceRun func (debounce firstTimer) evs)
   = [timeout (debounceRun func (debounce firstTimer) evs)])
  ∧ (timeout (debounceRun func (debounce firstTimer) evs) = (-1)%Z
     ↔ timers (debounceRun func (debounce firstTimer) evs) = [])
  ∧ length (timers (debounceRun func (debounce firstTimer) evs)) ≤ 1.
Proof.
  intros Hfirst Hfunc.
  assert (H : ∀ evs d,
            ((timeout d = (-1)%Z ∧ timers d = [] ∧ mustDispatch d = false)
             ∨ (timers d = [timeout d] ∧ (0 < timeout d)%Z)) ∧ (0 < nextTimer d)%Z →
            ((timeout (debounceRun func d evs) = (-1)%Z ∧ timers (debounceRun func d evs) = []
              ∧ mustDispatch (debounceRun func d evs) = false)
             ∨ (timers (debounceRun func d evs) = [timeout (debounceRun func d evs)]
                ∧ (0 < timeout (debounceRun func d evs))%Z))
            ∧ (0 < nextTimer (debounceRun func d evs))%Z).
  { clear evs. induction evs as [| ev evs IH]; intros d Hd; [done |].
    apply IH. by apply debounceStep_armed. }
  destruct (H evs (debounce firstTimer)) as [[(Ht & Hnil & Hm) | [Hone Hpos]] _].
  { split; [| done]. left. by repeat split. }
  - rewrite Hm, Hnil, Ht. split; [done |]. split; [done | simpl; lia].
  - rewrite Hone. split; [done |]. split; [| simpl; lia]. split; [lia | done].
Qed.

Lemma invocations_cons ev evs :
  invocations (ev :: evs) = (if isInvoke ev then 1 else 0) + invocations evs.
Proof. unfold invocations. rewrite filter_cons. by destruct ev. Qed.

Lemma firings_cons ev evs :
  firings (ev :: evs) = (if isInvoke ev then 0 else 1) + firings evs.
Proof. unfold firings. rewrite filter_cons. by destruct ev. Qed.

(** Every application of [func] is paid for by a call: the applications
    made, plus the one a pending timer owes when a call is staged. *)
Lemma debounceStep_calls func d ev :
  (timers d = [] ∨ (timers d = [timeout d] ∧ (0 < timeout d)%Z)) ∧ (0 < nextTimer d)%Z →
  length (dispatched (debounceStep func d ev))
  + (if mustDispatch (debounceStep func d ev)
     then length (timers (debounceStep func d ev)) else 0)
  ≤ length (dispatched d) + (if mustDispatch d then length (timers d) else 0)
    + (if isInvoke ev then 1 else 0).
Proof.
  intros [Ht Hn]. destruct ev as [arguments | id]; simpl.
  - unfold wrapper. cbv zeta. cbn [timeout]. destruct (Z.eqb_spec (timeout d) (-1)) as [E | E].
    + assert (timers d = []) as Hnil by (destruct Ht as [? | [_ ?]]; [done | lia]).
      unfold evaluateCall. cbn [mustDispatch dispatched]. destruct (func _ _); simpl;
        rewrite ?length_app, Hnil; simpl; destruct (mustDispatch d); lia.
    + simpl. destruct Ht as [-> | [-> _]]; simpl; destruct (mustDispatch d); lia.
  - unfold timerFires. case_bool_decide as Hin; [| lia].
    destruct Ht as [Hnil | [Hone Hpos]]; [rewrite Hnil in Hin; by apply elem_of_nil in Hin |].
    rewrite Hone in Hin. apply list_elem_of_singleton in Hin. subst id.
    rewrite Hone, filter_ne_singleton. unfold evaluateCall. cbn [mustDispatch dispatched].
    destruct (mustDispatch d); [destruct (func _ _) |]; simpl; rewrite ?length_app; simpl; lia.
Qed.

(** With a [func] that returns, every application but the first needs a
    timer to have fired. *)
Lemma debounceStep_firings func d ev :
  (∀ history arguments, func history arguments = Normal) →
  ((timeout d = (-1)%Z ∧ timers d = [] ∧ mustDispatch d = false)
   ∨ (timers d = [timeout d] ∧ (0 < timeout d)%Z)) ∧ (0 < nextTimer d)%Z →
  length (dispatched (debounceStep func d ev)) + 1
  ≤ length (dispatched d) + 1 + length (timers (debounceStep func d ev))
    + (if isInvoke ev then 0 else 1) - length (timers d)
  ∧ length (timers d) ≤ 1.
Proof.
  intros Hfunc [Hd Hn]. destruct ev as [arguments | id]; simpl.
  - unfold wrapper. cbv zeta. cbn [timeout]. destruct (Z.eqb_spec (timeout d) (-1)) as [E | E].
    + destruct Hd as [(_ & Hnil & _) | [_ ?]]; [| lia].
      unfold evaluateCall. cbn [mustDispatch dispatched]. rewrite Hfunc. simpl.
      rewrite Hnil, length_app. simpl. lia.
    + simpl. destruct Hd as [(? & _) | [-> _]]; [done |]. simpl. lia.
  - unfold timerFires. case_bool_decide as Hin.
    + destruct Hd as [(_ & Hnil & _) | [Hone Hpos]];
        [rewrite Hnil in Hin; by apply elem_of_nil in Hin |].
      rewrite Hone in Hin. apply list_elem_of_singleton in Hin. subst id.
      rewrite Hone, filter_ne_singleton. unfold evaluateCall. cbn [mustDispatch dispatched].
      destruct (mustDispatch d) eqn:Hm; [rewrite Hfunc |]; simpl;
        rewrite ?length_app; simpl; lia.
    + destruct Hd as [(_ & -> & _) | [-> _]]; simpl; lia.
Qed.

(** X2: the debounced function is applied at most as often as the
    wrapper is called and, when it returns, at most once more than timers have
    fired. *)
Theorem debounce_rate_limit
    (func : list (list JsValue) → list JsValue → Completion) (firstTimer : Z)
    (evs : list DebounceEvent) :
  (0 < firstTimer)%Z →
  length (dispatched (debounceRun func (debounce firstTimer) evs)) ≤ invocations evs
  ∧ ((∀ history arguments, func history arguments = Normal) →
     length (dispatched (debounceRun func (debounce firstTimer) evs)) ≤ 1 + firings evs).
Proof.
  intros Hfirst. split.
  - assert (H : ∀ evs d,
              (timers d = [] ∨ (timers d = [timeout d] ∧ (0 < timeout d)%Z))
              ∧ (0 < nextTimer d)%Z →
              length (dispatched (debounceRun func d evs))
              ≤ length (dispatched d) + (if mustDispatch d then length (timers d) else 0)
                + invocations evs).
    { clear evs. induction evs as [| ev evs IH]; intros d Hd; [simpl; lia |].
      rewrite invocations_cons. cbn [debounceRun foldl].
      pose proof (debounceStep_calls func d ev Hd) as Hstep.
      pose proof (IH _ (debounceStep_timers func d ev Hd)) as Hrest.
      unfold debounceRun in Hrest. lia. }
    specialize (H evs (debounce firstTimer)). simpl in H. apply H. split; [by left | done].
  - intros Hfunc.
    assert (H : ∀ evs d,
              ((timeout d = (-1)%Z ∧ timers d = [] ∧ mustDispatch d = false)
               ∨ (timers d = [timeout d] ∧ (0 < timeout d)%Z)) ∧ (0 < nextTimer d)%Z →
              length (dispatched (debounceRun func d evs)) + length (timers d)
              ≤ length (dispatched d) + 1 + firings evs).
    { clear evs. induction evs as [| ev evs IH]; intros d Hd.
      - simpl. destruct Hd as [[(_ & -> & _) | [-> _]] _]; simpl; lia.
      - rewrite firings_cons. cbn [debounceRun foldl].
        pose proof (debounceStep_firings func d ev Hfunc Hd) as [Hstep Hone].
        pose proof (IH _ (debounceStep_armed func d ev Hfunc Hd)) as Hrest.
        unfold debounceRun in Hrest. lia. }
    specialize (H evs (debounce firstTimer)). simpl in H. 
    assert (length (dispatched (debounceRun func (debounce firstTimer) evs)) + 0
            ≤ 0 + 1 + firings evs) as H'.
    { apply H. split; [| done]. left. by repeat split. }
    lia.
Qed.

Lemma debounce_rate_limit_witness :
  length (dispatched (debounceRun (λ _ _, Normal) (debounce 1)
            [Invoke [JEvent "scroll"]; Invoke [JEvent "scroll"]; TimerFires 1;
             Invoke [JEvent "scroll"]; TimerFires 2; TimerFires 3])) ≤ 3
  ∧ length (dispatched (debounceRun (λ _ _, Normal) (debounce 1)
              [Invoke [JEvent "scroll"]; Invoke [JEvent "scroll"]; TimerFires 1;
               Invoke [JEvent "scroll"]; TimerFires 2; TimerFires 3])) ≤ 1 + 3.
Proof.
  destruct (debounce_rate_limit (λ _ _, Normal) 1
              [Invoke [JEvent "scroll"]; Invoke [JEvent "scroll"]; TimerFires 1;
               Invoke [JEvent "scroll"]; TimerFires 2; TimerFires 3]) as [H1 H2];
    [lia |].
  split; [exact H1 | apply H2; reflexivity].
Defined.

Lemma debounceRun_staged func d rest :
  timeout d ≠ (-1)%Z →
  debounceRun func d (Invoke <$> rest)
  = {| timeout := timeout d;
       mustDispatch := match rest with [] => mustDispatch d | _ => true end;
       timers := timers d; nextTimer := nextTimer d; dispatched := dispatched d |}.
Proof.
  intros Ht. unfold debounceRun. revert d Ht.
  induction rest as [| b rest IH]; intros d Ht.
  - by destruct d.
  - rewrite fmap_cons. cbn [foldl].
    assert (Hstep : debounceStep func d (Invoke b)
                    = {| timeout := timeout d; mustDispatch := true; timers := timers d;
                         nextTimer := nextTimer d; dispatched := dispatched d |}).
    { simpl. unfold wrapper. cbv zeta. cbn [timeout].
      by rewrite (proj2 (Z.eqb_neq _ _) Ht). }
    rewrite Hstep, IH by done. simpl. by destruct rest.
Qed.

(** X3: the leading call is applied at once with its own arguments;
    the calls that follow while the timer runs are applied together, once, when
    the timer fires, and that application receives no arguments. *)
Theorem debounce_burst
    (func : list (list JsValue) → list JsValue → Completion) (d : Debounce)
    (arguments : list JsValue) (rest : list (list JsValue)) :
  timeout d = (-1)%Z → timers d = [] → mustDispatch d = false → (0 < nextTimer d)%Z →
  func (dispatched d) arguments = Normal →
  dispatched (debounceRun func d (Invoke arguments :: (Invoke <$> rest)))
  = dispatched d ++ [arguments]
  ∧ timers (debounceRun func d (Invoke arguments :: (Invoke <$> rest))) = [nextTimer d]
  ∧ dispatched (debounceRun func d
                  (Invoke arguments :: (Invoke <$> rest) ++ [TimerFires (nextTimer d)]))
    = dispatched d ++ [arguments] ++ match rest with [] => [] | _ => [[]] end
  ∧ (rest = [] →
     timeout (debounceRun func d
                (Invoke arguments :: (Invoke <$> rest) ++ [TimerFires (nextTimer d)]))
     = (-1)%Z).
Proof.
  intros Ht Hnil Hm Hn Hfunc.
  assert (H1 : debounceStep func d (Invoke arguments)
               = {| timeout := nextTimer d; mustDispatch := false;
                    timers := [nextTimer d]; nextTimer := (nextTimer d + 1)%Z;
                    dispatched := dispatched d ++ [arguments] |}).
  { simpl. unfold wrapper. cbv zeta. cbn [timeout]. rewrite Ht. simpl.
    unfold evaluateCall. cbn [mustDispatch dispatched]. rewrite Hfunc. simpl.
    by rewrite Hnil. }
  assert (H2 : debounceRun func d (Invoke arguments :: (Invoke <$> rest))
               = {| timeout := nextTimer d;
                    mustDispatch := match rest with [] => false | _ => true end;
                    timers := [nextTimer d]; nextTimer := (nextTimer d + 1)%Z;
                    dispatched := dispatched d ++ [arguments] |}).
  { unfold debounceRun. cbn [foldl]. rewrite H1.
    change (foldl (debounceStep func) ?x ?l) with (debounceRun func x l).
    rewrite debounceRun_staged by (simpl; lia). done. }
  split; [by rewrite H2 |]. split; [by rewrite H2 |].
  assert (H3 : debounceRun func d
                 (Invoke arguments :: (Invoke <$> rest) ++ [TimerFires (nextTimer d)])
               = timerFires func (nextTimer d)
                   (debounceRun func d (Invoke arguments :: (Invoke <$> rest)))).
  { unfold debounceRun. by rewrite app_comm_cons, foldl_app. }
  rewrite H3, H2. unfold timerFires. cbn [timers timeout mustDispatch nextTimer dispatched].
  rewrite bool_decide_eq_true_2 by (by apply list_elem_of_singleton).
  rewrite filter_ne_singleton. unfold evaluateCall. cbn [mustDispatch dispatched].
  destruct rest as [| b rest]; simpl.
  - by split.
  - split; [| done].
    destruct (func (dispatched d ++ [arguments]) []); simpl; by rewrite <- app_assoc.
Qed.

Lemma debounce_burst_witness :
  dispatched (debounceRun (λ _ _, Normal) (debounce 1)
                (Invoke [JEvent "scroll"]
                 :: (Invoke <$> [[JEvent "scroll"]; [JEvent "scroll"]])
                 ++ [TimerFires 1]))
  = [[JEvent "scroll"]; []].
Proof.
  destruct (debounce_burst (λ _ _, Normal) (debounce 1) [JEvent "scroll"]
              [[JEvent "scroll"]; [JEvent "scroll"]]) as (_ & _ & H & _);
    [reflexivity | reflexivity | reflexivity | reflexivity | reflexivity |].
  exact H.
Defined.

(** Without a timer, with [timeout] set and a call staged, nothing that
    happens changes the debouncer. *)
Lemma debounceRun_wedged func d evs :
  timers d = [] → timeout d ≠ (-1)%Z → mustDispatch d = true →
  debounceRun func d evs = d.
Proof.
  intros Hnil Ht Hm. induction evs as [| ev evs IH]; [done |].
  unfold debounceRun. cbn [foldl].
  change (foldl (debounceStep func) ?x ?l) with (debounceRun func x l).
  assert (debounceStep func d ev = d) as ->; [| done].
  destruct ev as [arguments | id]; simpl.
  - unfold wrapper. cbv zeta. cbn [timeout]. rewrite (proj2 (Z.eqb_neq _ _) Ht). cbn [fst].
    destruct d; simpl in *. by subst.
  - unfold timerFires. by rewrite Hnil, bool_decide_eq_false_2 by apply not_elem_of_nil.
Qed.

(** X4: when [func] throws in an application that a timer callback makes
    (a call is staged when a pending timer fires), [timeout] keeps the id of
    the timer that has fired and [mustDispatch] stays set: whatever calls and
    timers follow, [func] is not applied again. *)
Theorem debounce_wedged_by_throw
    (func : list (list JsValue) → list JsValue → Completion) (firstTimer : Z)
    (before : list DebounceEvent) (id : Z) (e : JsValue) (evs : list DebounceEvent) :
  (0 < firstTimer)%Z →
  id ∈ timers (debounceRun func (debounce firstTimer) before) →
  mustDispatch (debounceRun func (debounce firstTimer) before) = true →
  func (dispatched (debounceRun func (debounce firstTimer) before)) [] = Throw e →
  dispatched (debounceRun func (debounce firstTimer) (before ++ TimerFires id :: evs))
  = dispatched (debounceRun func (debounce firstTimer) before) ++ [[]]
  ∧ timeout (debounceRun func (debounce firstTimer) (before ++ TimerFires id :: evs)) = id
  ∧ id ≠ (-1)%Z
  ∧ mustDispatch (debounceRun func (debounce firstTimer) (before ++ TimerFires id :: evs))
    = true
  ∧ timers (debounceRun func (debounce firstTimer) (before ++ TimerFires id :: evs)) = [].
Proof.
  intros Hfirst Hin Hstaged Hthrow.
  destruct (debounceRun_timers func (debounce firstTimer) before) as [Ht _];
    [split; [by left | done] |].
  unfold debounceRun at 1 3 4 5. rewrite foldl_app. cbn [foldl].
  change (foldl (debounceStep func) (debounce firstTimer) before)
    with (debounceRun func (debounce firstTimer) before).
  set (d := debounceRun func (debounce firstTimer) before) in *.
  destruct Ht as [Hnil | [Hone Hpos]]; [rewrite Hnil in Hin; by apply elem_of_nil in Hin |].
  rewrite Hone in Hin. apply list_elem_of_singleton in Hin. subst id.
  assert (debounceStep func d (TimerFires (timeout d))
          = {| timeout := timeout d; mustDispatch := true; timers := [];
               nextTimer := nextTimer d; dispatched := dispatched d ++ [[]] |}) as ->.
  { simpl. unfold timerFires. rewrite Hone.
    rewrite bool_decide_eq_true_2 by (by apply list_elem_of_singleton).
    rewrite filter_ne_singleton. unfold evaluateCall. cbn [mustDispatch dispatched].
    by rewrite Hstaged, Hthrow. }
  change (foldl (debounceStep func) ?x ?l) with (debounceRun func x l).
  rewrite debounceRun_wedged; simpl; [| done | lia | done].
  repeat split; try done. lia.
Qed.

Lemma debounce_wedged_by_throw_witness :
  dispatched (debounceRun (λ _ arguments, match arguments with
                                          | [] => Throw (JError "TypeError" "event is undefined")
                                          | _ => Normal
                                          end)
                (debounce 1)
                ([Invoke [JEvent "resize"]; Invoke [JEvent "resize"]]
                 ++ TimerFires 1
                    :: [Invoke [JEvent "resize"]; TimerFires 2; Invoke [JEvent "resize"]]))
  = [[JEvent "resize"]; []].
Proof.
  destruct (debounce_wedged_by_throw
              (λ _ arguments, match arguments with
                              | [] => Throw (JError "TypeError" "event is undefined")
                              | _ => Normal
                              end)
              1 [Invoke [JEvent "resize"]; Invoke [JEvent "resize"]] 1
              (JError "TypeError" "event is undefined")
              [Invoke [JEvent "resize"]; TimerFires 2; Invoke [JEvent "resize"]])
    as [H _]; [lia | | reflexivity | reflexivity | exact H].
  vm_compute. apply list_elem_of_here.
Defined.

Lemma debounce_staged_call_has_timer_witness :
  timers (debounceRun (λ _ _, Normal) (debounce 1)
            [Invoke [JEvent "scroll"]; Invoke [JEvent "scroll"]])
  = [timeout (debounceRun (λ _ _, Normal) (debounce 1)
                [Invoke [JEvent "scroll"]; Invoke [JEvent "scroll"]])].
Proof.
  destruct (debounce_staged_call_has_timer (λ _ _, Normal) 1
              [Invoke [JEvent "scroll"]; Invoke [JEvent "scroll"]]) as (H & _);
    [lia | reflexivity |].
  apply H. reflexivity.
Defined.

(** ** Timing primitives settle once *)

Lemma timeoutStep_settled t op :
  scheduled t = false → promise t ≠ Pending → timeoutStep t op = t.
Proof.
  intros Hs Hp. destruct t as [d p ir ij s]. simpl in *. subst s.
  destruct op as [| reason]; unfold timeoutStep, elapse, cancel; simpl; [done |].
  destruct (truthy reason), ir, ij, p; done.
Qed.

Lemma timeoutRun_settled t ops :
  scheduled t = false → promise t ≠ Pending → foldl timeoutStep t ops = t.
Proof.
  intros Hs Hp. induction ops as [| op ops IH]; [done |].
  simpl. by rewrite timeoutStep_settled.
Qed.

(** X5: the first thing that happens to a [waitForTimeout] handle
    settles its promise for good, and decides whether [cancel] throws from
    then on: never after a cancel, always after the timer has elapsed. *)
Theorem waitForTimeout_settles_once (delay : Q) (op : TimeoutOp) (ops : list TimeoutOp)
    (reason : JsValue) :
  promise (foldl timeoutStep (waitForTimeout delay) (op :: ops))
  = match op with
    | Elapse => Fulfilled
    | Cancel r => if truthy r then Rejected r else Fulfilled
    end
  ∧ (cancel reason (foldl timeoutStep (waitForTimeout delay) (op :: ops))).2
    = match op with
      | Elapse => Throw (notAFunction (if truthy reason then "innerReject" else "innerResolve"))
      | Cancel _ => Normal
      end.
Proof.
  cbn [foldl]. rewrite timeoutRun_settled.
  - destruct op as [| r]; simpl.
    + split; [done |]. unfold cancel. simpl. by destruct (truthy reason).
    + unfold cancel. simpl. destruct (truthy r); simpl; by destruct (truthy reason).
  - destruct op as [| r]; [done |]. unfold timeoutStep, cancel. simpl.
    by destruct (truthy r).
  - destruct op as [| r]; [done |]. unfold timeoutStep, cancel. simpl.
    by destruct (truthy r).
Qed.

Lemma raceRun_settled r ops :
  race_scheduled r = false → race_promise r ≠ Pending → foldl raceStep r ops = r.
Proof.
  intros Hs Hp. induction ops as [| op ops IH]; [done |].
  simpl. destruct r as [t p s]. simpl in *. subst s.
  destruct op; unfold raceStep, race_onTimer, race_onFulfilled, race_onRejected; simpl;
    destruct p; try done.
Qed.

(** X6: [promiseWithTimeout] settles with whatever comes first, the
    timer (a TimeoutError) or the outcome of the wrapped promise; nothing that
    comes later changes it, and it leaves no timer behind. *)
Theorem promiseWithTimeout_first_wins (delay : Q) (op : RaceOp) (ops : list RaceOp) :
  race_promise (foldl raceStep (promiseWithTimeout delay) (op :: ops))
  = match op with
    | RaceTimerFires => Rejected (JTimeoutError "Operation timed-out!")
    | RaceFulfilled => Fulfilled
    | RaceRejected reason => Rejected reason
    end
  ∧ race_scheduled (foldl raceStep (promiseWithTimeout delay) (op :: ops)) = false.
Proof.
  cbn [foldl]. rewrite raceRun_settled; by destruct op.
Qed.

(** ** dispatchOnceHandler *)

Lemma applications_snoc h target a :
  length (filter (λ x : nat * string, x.1 = h) (applied target ++ [a]))
  = applications h target + (if decide (a.1 = h) then 1 else 0).
Proof.
  unfold applications. rewrite filter_app, length_app, filter_cons, filter_nil.
  by destruct (decide (a.1 = h)).
Qed.

(** Calling a listener of another handler leaves the listeners of handler
    [h] where they are and does not apply its [func]. *)
Lemma handler_other h g type target :
  g ≠ h →
  filter (λ l, listenerCallback l = h) (listeners (handler g type target))
  = filter (λ l, listenerCallback l = h) (listeners target)
  ∧ applications h (handler g type target) = applications h target.
Proof.
  intros Hne. unfold handler, removeEventListener. cbn [listeners applied]. split.
  - rewrite list_filter_filter. apply filter_ext_in. intros l _. split; [tauto |].
    intros Hl. split; [done |]. intros ->. simpl in Hl. congruence.
  - unfold applications at 1. cbn [applied]. rewrite applications_snoc. simpl.
    rewrite decide_False by done. lia.
Qed.

(** The listeners of handler [h] and the applications of its [func] after
    the calls for a snapshot [snapshot] of the listener list, when the only
    listener of [h] is the one registered for [type] with capture flag
    [capture]. *)
Lemma dispatch_snapshot h type capture ty snapshot target :
  filter (λ l, listenerCallback l = h) (listeners target)
  = [{| listenerType := type; listenerCallback := h; listenerCapture := capture |}] →
  (filter (λ l, listenerCallback l = h) snapshot
   = if decide (ty = type)
     then [{| listenerType := type; listenerCallback := h; listenerCapture := capture |}]
     else []) →
  let target' :=
    foldl (λ target l,
             if bool_decide (l ∈ listeners target)
             then handler (listenerCallback l) ty target else target) target snapshot in
  filter (λ l, listenerCallback l = h) (listeners target')
  = (if decide (ty = type) then if capture then
       [{| listenerType := type; listenerCallback := h; listenerCapture := capture |}]
     else [] else
       [{| listenerType := type; listenerCallback := h; listenerCapture := capture |}])
  ∧ applications h target'
    = applications h target + (if decide (ty = type) then 1 else 0).
Proof.
  set (L := {| listenerType := type; listenerCallback := h; listenerCapture := capture |}).
  revert target. induction snapshot as [| l snapshot IH]; intros target Hone Hsnap.
  - simpl in *. destruct (decide (ty = type)); [done |]. split; [done | lia].
  - cbn [foldl]. rewrite filter_cons in Hsnap.
    destruct (decide (listenerCallback l = h)) as [Hl | Hl].
    + (* the listener of [h] itself *)
      destruct (decide (ty = type)) as [-> | Hty]; [| done].
      injection Hsnap as -> Hrest.
      assert (HL : L ∈ listeners target).
      { assert (L ∈ filter (λ l, listenerCallback l = h) (listeners target)) as Hin
          by (rewrite Hone; by left).
        by apply list_elem_of_filter in Hin as [_ ?]. }
      rewrite bool_decide_eq_true_2 by done. cbn [listenerCallback L].
      (* after its call, the remaining snapshot holds no listener of [h] *)
      assert (Hafter : ∀ xs t0,
                filter (λ l, listenerCallback l = h) xs = [] →
                filter (λ l, listenerCallback l = h)
                  (listeners (foldl (λ target l,
                                if bool_decide (l ∈ listeners target)
                                then handler (listenerCallback l) type target else target)
                             t0 xs))
                = filter (λ l, listenerCallback l = h) (listeners t0)
                ∧ applications h (foldl (λ target l,
                                if bool_decide (l ∈ listeners target)
                                then handler (listenerCallback l) type target else target)
                             t0 xs)
                  = applications h t0).
      { clear. induction xs as [| x xs IHxs]; intros t0 Hxs; [done |].
        cbn [foldl]. rewrite filter_cons in Hxs.
        destruct (decide (listenerCallback x = h)) as [| Hx]; [done |].
        destruct (IHxs (if bool_decide (x ∈ listeners t0)
                        then handler (listenerCallback x) type t0 else t0) Hxs)
          as [-> ->].
        case_bool_decide; [| done]. by apply handler_other. }
      destruct (Hafter snapshot (handler h type target) Hrest) as [-> ->].
      split.
      * unfold handler, removeEventListener. cbn [listeners].
        rewrite list_filter_filter.
        destruct capture.
        -- rewrite <- Hone. apply filter_ext_in. intros x Hxin. split; [tauto |].
           intros Hx. split; [done |]. intros ->.
           assert ({| listenerType := type; listenerCallback := h;
                      listenerCapture := false |}
                   ∈ filter (λ l, listenerCallback l = h) (listeners target)) as Hin
             by (by apply list_elem_of_filter).
           rewrite Hone in Hin. apply list_elem_of_singleton in Hin. discriminate.
        -- transitivity (filter (λ x, x ≠ L)
                           (filter (λ l, listenerCallback l = h) (listeners target))).
           { rewrite list_filter_filter. apply filter_ext_in. intros x _. tauto. }
           rewrite Hone. rewrite filter_cons, decide_False by (intros H; by apply H). done.
      * unfold handler. unfold applications at 1. cbn [applied].
        rewrite applications_snoc. simpl. rewrite decide_True by done.
        unfold removeEventListener, applications. done.
    + (* a listener of another handler *)
      assert (Hone' : filter (λ l0, listenerCallback l0 = h)
                        (listeners (if bool_decide (l ∈ listeners target)
                                    then handler (listenerCallback l) ty target
                                    else target)) = [L]).
      { case_bool_decide; [| done].
        by rewrite (proj1 (handler_other h (listenerCallback l) ty target Hl)). }
      destruct (IH _ Hone' Hsnap) as [-> ->]. split; [done |].
      case_bool_decide; [| done].
      by rewrite (proj2 (handler_other h (listenerCallback l) ty target Hl)).
Qed.

Lemma dispatchEvent_handler h type capture ty target :
  filter (λ l, listenerCallback l = h) (listeners target)
  = [{| listenerType := type; listenerCallback := h; listenerCapture := capture |}] →
  filter (λ l, listenerCallback l = h) (listeners (dispatchEvent ty target))
  = (if decide (ty = type) then if capture then
       [{| listenerType := type; listenerCallback := h; listenerCapture := capture |}]
     else [] else
       [{| listenerType := type; listenerCallback := h; listenerCapture := capture |}])
  ∧ applications h (dispatchEvent ty target)
    = applications h target + (if decide (ty = type) then 1 else 0).
Proof.
  intros Hone. unfold dispatchEvent. apply dispatch_snapshot; [done |].
  rewrite list_filter_filter.
  transitivity (filter (λ l, listenerType l = ty)
                  (filter (λ l, listenerCallback l = h) (listeners target))).
  { rewrite list_filter_filter. apply filter_ext_in. intros x _. tauto. }
  rewrite Hone, filter_cons, filter_nil. simpl.
  destruct (decide (type = ty)), (decide (ty = type)); congruence.
Qed.

Lemma dispatchEvent_absent h ty target :
  filter (λ l, listenerCallback l = h) (listeners target) = [] →
  filter (λ l, listenerCallback l = h) (listeners (dispatchEvent ty target)) = []
  ∧ applications h (dispatchEvent ty target) = applications h target.
Proof.
  intros Hnone. unfold dispatchEvent.
  assert (Hsnap : filter (λ l, listenerCallback l = h)
                    (filter (λ l, listenerType l = ty) (listeners target)) = []).
  { rewrite list_filter_filter.
    transitivity (filter (λ l, listenerType l = ty)
                    (filter (λ l, listenerCallback l = h) (listeners target))).
    { rewrite list_filter_filter. apply filter_ext_in. intros x _. tauto. }
    by rewrite Hnone. }
  revert Hsnap. generalize (filter (λ l, listenerType l = ty) (listeners target)).
  intros xs. revert target Hnone. induction xs as [| x xs IH]; intros target Hnone Hxs.
  - done.
  - cbn [foldl]. rewrite filter_cons in Hxs.
    destruct (decide (listenerCallback x = h)) as [| Hx]; [done |].
    assert (Hnone' : filter (λ l, listenerCallback l = h)
                       (listeners (if bool_decide (x ∈ listeners target)
                                   then handler (listenerCallback x) ty target
                                   else target)) = []).
    { case_bool_decide; [| done].
      by rewrite (proj1 (handler_other h (listenerCallback x) ty target Hx)). }
    destruct (IH _ Hnone' Hxs) as [-> ->]. split; [done |].
    case_bool_decide; [| done].
    by rewrite (proj2 (handler_other h (listenerCallback x) ty target Hx)).
Qed.

Lemma filter_none {A} (P : A → Prop) `{!∀ x, Decision (P x)} (l : list A) :
  (∀ x, x ∈ l → ¬ P x) → filter P l = [].
Proof.
  induction l as [| a l IH]; intros Hl; [done |].
  rewrite filter_cons_False by (apply Hl; by left).
  apply IH. intros x Hx. apply Hl. by right.
Qed.

Lemma addEventListener_fresh h type capture target :
  (∀ l, l ∈ listeners target → listenerCallback l ≠ h) →
  filter (λ l, listenerCallback l = h)
    (listeners (addEventListener type h capture target))
  = [{| listenerType := type; listenerCallback := h; listenerCapture := capture |}]
  ∧ applications h (addEventListener type h capture target) = applications h target.
Proof.
  intros Hfresh. unfold addEventListener. cbn [listeners]. split; [| done].
  rewrite bool_decide_eq_false_2 by (intros Hin; by apply (Hfresh _ Hin)).
  rewrite filter_app, filter_cons, filter_nil, decide_True by done.
  by rewrite (filter_none _ _ Hfresh).
Qed.

(** X7: registered without the capture flag, the function wrapped by
    [dispatchOnceHandler] is applied at the first event of its type and never
    again; registered with the capture flag it is never removed, and is applied
    at every event of its type. *)
Theorem dispatchOnceHandler_once (h : nat) (type : string) (target : EventTarget)
    (types : list string) :
  (∀ l, l ∈ listeners target → listenerCallback l ≠ h) →
  applications h (foldl (flip dispatchEvent) (addEventListener type h false target) types)
  = applications h target + (if decide (type ∈ types) then 1 else 0)
  ∧ applications h (foldl (flip dispatchEvent) (addEventListener type h true target) types)
    = applications h target + length (filter (λ ty, ty = type) types).
Proof.
  intros Hfresh. split.
  - destruct (addEventListener_fresh h type false target Hfresh) as [Hone <-].
    revert Hone. generalize (addEventListener type h false target). clear.
    induction types as [| ty types IH]; intros t0 Hone; cbn [foldl flip].
    + rewrite decide_False by apply not_elem_of_nil. lia.
    + destruct (dispatchEvent_handler h type false ty t0 Hone) as [Hl Ha].
      destruct (decide (ty = type)) as [-> | Hty].
      * rewrite decide_True by (by left).
        assert (Hgone : ∀ tys t1,
                  filter (λ l, listenerCallback l = h) (listeners t1) = [] →
                  applications h (foldl (flip dispatchEvent) t1 tys) = applications h t1).
        { clear. induction tys as [| ty tys IHt]; intros t1 Hnone; [done |].
          cbn [foldl flip]. destruct (dispatchEvent_absent h ty t1 Hnone) as [Hn' Ha'].
          by rewrite IHt, Ha'. }
        by rewrite Hgone, Ha.
      * rewrite (IH _ Hl), Ha.
        destruct (decide (type ∈ types)) as [Hin | Hin].
        -- rewrite decide_True by (by right). lia.
        -- rewrite decide_False; [lia |]. rewrite not_elem_of_cons. by split.
  - destruct (addEventListener_fresh h type true target Hfresh) as [Hone <-].
    revert Hone. generalize (addEventListener type h true target). clear.
    induction types as [| ty types IH]; intros t0 Hone; cbn [foldl flip].
    + simpl. lia.
    + destruct (dispatchEvent_handler h type true ty t0 Hone) as [Hl Ha].
      assert (Hone' : filter (λ l, listenerCallback l = h) (listeners (dispatchEvent ty t0))
                      = [{| listenerType := type; listenerCallback := h;
                            listenerCapture := true |}])
        by (rewrite Hl; by destruct (decide (ty = type))).
      rewrite (IH _ Hone'), Ha, filter_cons.
      destruct (decide (ty = type)); simpl; lia.
Qed.

Lemma dispatchOnceHandler_once_witness :
  applications 0 (foldl (flip dispatchEvent)
                    (addEventListener "click" 0 false {| listeners := []; applied := [] |})
                    ["click"; "click"; "click"]%string) = 1
  ∧ applications 0 (foldl (flip dispatchEvent)
                      (addEventListener "click" 0 true {| listeners := []; applied := [] |})
                      ["click"; "click"; "click"]%string) = 3.
Proof.
  apply (dispatchOnceHandler_once 0 "click" {| listeners := []; applied := [] |}
           ["click"; "click"; "click"]%string).
  intros l Hl. by apply elem_of_nil in Hl.
Defined.

(** ** CSS transitions *)

(** [if (currentDuration < transitionDuration) currentDuration = transitionDuration]. *)
Lemma longer_cases (transitionDuration currentDuration : Q) :
  ((if Qgtb transitionDuration currentDuration then transitionDuration
    else currentDuration) = transitionDuration
   ∧ (currentDuration <= transitionDuration)%Q)
  ∨ ((if Qgtb transitionDuration currentDuration then transitionDuration
      else currentDuration) = currentDuration
     ∧ (transitionDuration <= currentDuration)%Q).
Proof.
  destruct (Qlt_le_dec currentDuration transitionDuration) as [Hlt | Hle].
  - left. rewrite Qgtb_true by done. split; [done | by apply Qlt_le_weak].
  - right. by rewrite Qgtb_false.
Qed.

Lemma inspect_flat `{Browser} currentDuration e :
  inspect false currentDuration e
  = if Qgtb (extractTransitionDuration (getComputedStyle e)) currentDuration
    then extractTransitionDuration (getComputedStyle e) else currentDuration.
Proof. by destruct e. Qed.

Lemma inspect_deep `{Browser} currentDuration e :
  inspect true currentDuration e
  = foldl (inspect false)
      (if Qgtb (extractTransitionDuration (getComputedStyle e)) currentDuration
       then extractTransitionDuration (getComputedStyle e) else currentDuration)
      (children e).
Proof. destruct e as [style [| c cs]]; done. Qed.

(** A collection inspected without recursion: the result is the initial
    duration or the duration of a member, and no smaller than any of them. *)
Lemma flat_max `{Browser} collection currentDuration :
  (foldl (inspect false) currentDuration collection = currentDuration
   ∨ ∃ x, x ∈ collection
          ∧ foldl (inspect false) currentDuration collection
            = extractTransitionDuration (getComputedStyle x))
  ∧ (currentDuration <= foldl (inspect false) currentDuration collection)%Q
  ∧ ∀ x, x ∈ collection →
      (extractTransitionDuration (getComputedStyle x)
       <= foldl (inspect false) currentDuration collection)%Q.
Proof.
  revert currentDuration. induction collection as [| e collection IH]; intros cur.
  - simpl. split; [by left |]. split; [apply Qle_refl |].
    intros x Hx. by apply elem_of_nil in Hx.
  - cbn [foldl]. rewrite inspect_flat.
    destruct (IH (if Qgtb (extractTransitionDuration (getComputedStyle e)) cur
                  then extractTransitionDuration (getComputedStyle e) else cur))
      as (Hpick & Hfloor & Hall).
    destruct (longer_cases (extractTransitionDuration (getComputedStyle e)) cur)
      as [[E Hle] | [E Hle]]; rewrite E in *.
    + split; [| split].
      * right. destruct Hpick as [-> | (x & Hx & ->)].
        -- exists e. split; [by left | done].
        -- exists x. split; [by right | done].
      * by eapply Qle_trans.
      * intros x [-> | Hx]%elem_of_cons; [done | by apply Hall].
    + split; [| split].
      * destruct Hpick as [-> | (x & Hx & ->)]; [by left |].
        right. exists x. split; [by right | done].
      * done.
      * intros x [-> | Hx]%elem_of_cons; [by eapply Qle_trans | by apply Hall].
Qed.

(** The same for a collection inspected with [recursive = true]: the
    members and their children count, nothing below. *)
Lemma deep_max `{Browser} collection currentDuration :
  (foldl (inspect true) currentDuration collection = currentDuration
   ∨ ∃ x, x ∈ collection ++ mjoin (children <$> collection)
          ∧ foldl (inspect true) currentDuration collection
            = extractTransitionDuration (getComputedStyle x))
  ∧ (currentDuration <= foldl (inspect true) currentDuration collection)%Q
  ∧ ∀ x, x ∈ collection ++ mjoin (children <$> collection) →
      (extractTransitionDuration (getComputedStyle x)
       <= foldl (inspect true) currentDuration collection)%Q.
Proof.
  revert currentDuration. induction collection as [| e collection IH]; intros cur.
  - simpl. split; [by left |]. split; [apply Qle_refl |].
    intros x Hx. by apply elem_of_nil in Hx.
  - cbn [foldl]. rewrite inspect_deep.
    set (own := if Qgtb (extractTransitionDuration (getComputedStyle e)) cur
                then extractTransitionDuration (getComputedStyle e) else cur).
    destruct (flat_max (children e) own) as (Hpick1 & Hfloor1 & Hall1).
    destruct (IH (foldl (inspect false) own (children e))) as (Hpick & Hfloor & Hall).
    assert (Hmem : ∀ x, x ∈ (e :: collection) ++ mjoin (children <$> e :: collection)
                   ↔ x = e ∨ x ∈ children e
                     ∨ x ∈ collection ++ mjoin (children <$> collection)).
    { intros x. rewrite fmap_cons. cbn [mjoin list_join].
      rewrite !elem_of_app, elem_of_cons. tauto. }
    assert (Hown : (cur <= own)%Q ∧ (extractTransitionDuration (getComputedStyle e) <= own)%Q
                   ∧ (own = cur ∨ own = extractTransitionDuration (getComputedStyle e))).
    { unfold own.
      destruct (longer_cases (extractTransitionDuration (getComputedStyle e)) cur)
        as [[-> Hle] | [-> Hle]].
      - split; [done |]. split; [apply Qle_refl | by right].
      - split; [apply Qle_refl |]. split; [done | by left]. }
    destruct Hown as (Hcur & He & Hwhich).
    split; [| split].
    + destruct Hpick as [-> | (x & Hx & ->)].
      * destruct Hpick1 as [-> | (x & Hx & ->)].
        -- destruct Hwhich as [-> | ->]; [by left |].
           right. exists e. split; [apply Hmem; by left | done].
        -- right. exists x. split; [apply Hmem; right; by left | done].
      * right. exists x. split; [apply Hmem; by do 2 right | done].
    + eapply Qle_trans; [exact Hcur |]. by eapply Qle_trans.
    + intros x [-> | [Hx | Hx]]%Hmem.
      * eapply Qle_trans; [exact He |]. by eapply Qle_trans.
      * eapply Qle_trans; [by apply Hall1 | done].
      * by apply Hall.
Qed.

(** X8: with [recursive = true], [getTransitionDuration] returns the
    longest duration among the element (or the style passed for it), its
    children and its grandchildren; what lies deeper is not inspected, because
    the call for the children of a child does not pass [recursive] on. *)
Theorem getTransitionDuration_depth `{Browser} (e : Element)
    (computedStyle : option CSSStyleDeclaration) :
  ∃ duration,
    getTransitionDuration e (RecursiveBool true) computedStyle = Returns duration
    ∧ (duration = extractTransitionDuration (default (getComputedStyle e) computedStyle)
       ∨ ∃ x, x ∈ children e ++ mjoin (children <$> children e)
              ∧ duration = extractTransitionDuration (getComputedStyle x))
    ∧ (extractTransitionDuration (default (getComputedStyle e) computedStyle)
       <= duration)%Q
    ∧ ∀ x, x ∈ children e ++ mjoin (children <$> children e) →
        (extractTransitionDuration (getComputedStyle x) <= duration)%Q.
Proof. eexists. split; [reflexivity |]. apply deep_max. Qed.

(** X9: with a selector that the browser accepts, the result is the
    longest duration among the element and the elements the selector matches
    below it (their children are not inspected); with a string that is not a
    selector the SyntaxError of [querySelectorAll] leaves the function; the
    empty string is falsy, so with it only the element itself is looked at
    and [querySelectorAll] is not called. *)
Theorem getTransitionDuration_selector `{Browser} (e : Element) (selector : string)
    (computedStyle : option CSSStyleDeclaration) :
  (selector = ""%string →
   getTransitionDuration e (RecursiveSelector selector) computedStyle
   = Returns (extractTransitionDuration (default (getComputedStyle e) computedStyle)))
  ∧ (selector ≠ ""%string → querySelectorAll e selector = None →
     getTransitionDuration e (RecursiveSelector selector) computedStyle
     = Throws (JDOMException "SyntaxError"))
  ∧ (∀ collection,
       selector ≠ ""%string → querySelectorAll e selector = Some collection →
       ∃ duration,
         getTransitionDuration e (RecursiveSelector selector) computedStyle
         = Returns duration
         ∧ (duration = extractTransitionDuration (default (getComputedStyle e) computedStyle)
            ∨ ∃ x, x ∈ collection
                   ∧ duration = extractTransitionDuration (getComputedStyle x))
         ∧ (extractTransitionDuration (default (getComputedStyle e) computedStyle)
            <= duration)%Q
         ∧ ∀ x, x ∈ collection →
             (extractTransitionDuration (getComputedStyle x) <= duration)%Q).
Proof.
  unfold getTransitionDuration. cbv zeta. split; [by intros -> |]. split.
  - intros Hne Hq. destruct (String.eqb_spec selector "") as [-> | _]; [done |].
    by rewrite Hq.
  - intros collection Hne Hq.
    destruct (String.eqb_spec selector "") as [-> | _]; [done |].
    rewrite Hq. eexists. split; [reflexivity |]. apply flat_max.
Qed.

Lemma classList_remove_valid token l :
  tokenError token = None → classList_remove token l = (filter (λ x, x ≠ token) l, Normal).
Proof. intros H. unfold classList_remove. by rewrite H. Qed.

Lemma classList_add_valid token l :
  tokenError token = None → classList_add token l = (appendToken l token, Normal).
Proof. intros H. unfold classList_add. by rewrite H. Qed.

Lemma filter_appendToken c l :
  filter (λ x, x ≠ c) (appendToken l c) = filter (λ x, x ≠ c) l.
Proof.
  unfold appendToken. case_bool_decide; [done |].
  rewrite filter_app, filter_cons, decide_False by (intros E; by apply E).
  by rewrite filter_nil, app_nil_r.
Qed.

Lemma elem_of_appendToken c l : c ∈ appendToken l c.
Proof.
  unfold appendToken. case_bool_decide; [done |]. apply elem_of_app. right. by left.
Qed.

Lemma removeThenAdd_valid a b w :
  tokenError a = None → tokenError b = None →
  removeThenAdd a b w
  = (set_classList (appendToken (filter (λ x, x ≠ a) (classList w)) b) w, Normal).
Proof.
  intros Ha Hb. unfold removeThenAdd.
  by rewrite (classList_remove_valid a) by done; rewrite (classList_add_valid b) by done.
Qed.

(** X10: with two class tokens that the class list accepts, the element
    carries [toClass] while the transition of [transitionRoutine] runs and
    the promise awaited is pending; at the first transition event the promise
    is fulfilled and the element carries neither [fromClass] nor [toClass]
    (also when it carried one of them before), its other classes being as
    they were. With a token that is empty or holds white space the routine
    is rejected before the repaint is awaited: at once and without a change
    for [toClass], after [toClass] has been removed for [fromClass]. *)
Theorem transitionRoutine_classes (fromClass toClass : string) (w : Transitioning)
    (ev : TransitionEvent) :
  (tokenError fromClass = None → tokenError toClass = None →
   ∃ w1 w2 p,
     transitionRoutine fromClass toClass w = (w1, Normal)
     ∧ transitionRoutine_repainted fromClass toClass w1 = (w2, Returns p)
     ∧ toClass ∈ classList w2
     ∧ promises w2 !! p = Some Pending
     ∧ classList (dispatchTransition w2 ev)
       = filter (λ c, c ≠ fromClass ∧ c ≠ toClass) (classList w)
     ∧ promises (dispatchTransition w2 ev) !! p = Some Fulfilled)
  ∧ (∀ e, tokenError toClass = Some e →
       transitionRoutine fromClass toClass w = (w, Throw e))
  ∧ (∀ e, tokenError toClass = None → tokenError fromClass = Some e →
       transitionRoutine fromClass toClass w
       = (set_classList (filter (λ c, c ≠ toClass) (classList w)) w, Throw e)).
Proof.
  split; [| split].
  - intros Hfrom Hto. unfold transitionRoutine.
    rewrite (removeThenAdd_valid toClass fromClass) by done.
    eexists _, _, _. split; [reflexivity |].
    unfold transitionRoutine_repainted.
    rewrite (removeThenAdd_valid fromClass toClass) by done.
    split; [reflexivity |].
    cbn [classList promises set_classList].
    split; [apply elem_of_appendToken |].
    split; [rewrite lookup_app_r by done; by rewrite Nat.sub_diag |].
    destruct ev; cbn [dispatchTransition callTransitionHandler ontransitionend
                      ontransitioncancel classList promises];
      rewrite (classList_remove_valid toClass) by done;
      cbn [classList promises];
      (split;
       [rewrite !filter_appendToken, !list_filter_filter;
        apply filter_ext_in; intros c _; tauto
       | rewrite list_lookup_alter_eq, lookup_app_r by done; by rewrite Nat.sub_diag]).
  - intros e He. unfold transitionRoutine, removeThenAdd, classList_remove. by rewrite He.
  - intros e Hto Hfrom. unfold transitionRoutine, removeThenAdd.
    rewrite (classList_remove_valid toClass) by done.
    unfold classList_add. by rewrite Hfrom.
Qed.

Lemma transitionRoutine_classes_witness :
  ∃ w2,
    transitionRoutine_repainted "from" "to"
      (transitionRoutine "from" "to"
         {| classList := ["box"; "to"]; ontransitionend := None;
            ontransitioncancel := None; promises := [] |}).1
    = (w2, Returns 0)
    ∧ classList (dispatchTransition w2 transitionend) = ["box"].
Proof.
  destruct (transitionRoutine_classes "from" "to"
              {| classList := ["box"; "to"]; ontransitionend := None;
                 ontransitioncancel := None; promises := [] |} transitionend)
    as (H & _ & _).
  destruct H as (w1 & w2 & p & E1 & E2 & _ & _ & Hc & _); [reflexivity | reflexivity |].
  exists w2. rewrite E1. simpl. split; [| exact Hc].
  rewrite E2. vm_compute in E1. injection E1 as <-. vm_compute in E2.
  injection E2 as _ <-. reflexivity.
Defined.

Lemma dispatchTransition_orphan p w ev :
  ontransitionend w ≠ Some (Resolve p) → ontransitioncancel w ≠ Some (Resolve p) →
  (∀ c, ontransitionend w ≠ Some (End c p)) → (∀ c, ontransitioncancel w ≠ Some (End c p)) →
  ontransitionend (dispatchTransition w ev) = ontransitionend w
  ∧ ontransitioncancel (dispatchTransition w ev) = ontransitioncancel w
  ∧ promises (dispatchTransition w ev) !! p = promises w !! p.
Proof.
  intros H1 H2 H3 H4. destruct ev; simpl.
  - destruct (ontransitionend w) as [[q | c q] |] eqn:E; simpl;
      try destruct (classList_remove c (classList w)) as [l [| e]]; simpl; rewrite ?E;
      try done; (split; [done |]; split; [done |]);
      apply list_lookup_alter_ne; intros ->; [by apply H1 | by apply (H3 c)].
  - destruct (ontransitioncancel w) as [[q | c q] |] eqn:E; simpl;
      try destruct (classList_remove c (classList w)) as [l [| e]]; simpl; rewrite ?E;
      try done; (split; [done |]; split; [done |]);
      apply list_lookup_alter_ne; intros ->; [by apply H2 | by apply (H4 c)].
Qed.

Lemma dispatchTransition_orphans p evs w :
  ontransitionend w ≠ Some (Resolve p) → ontransitioncancel w ≠ Some (Resolve p) →
  (∀ c, ontransitionend w ≠ Some (End c p)) → (∀ c, ontransitioncancel w ≠ Some (End c p)) →
  promises (foldl dispatchTransition w evs) !! p = promises w !! p.
Proof.
  revert w. induction evs as [| ev evs IH]; intros w0 H1 H2 H3 H4; [done |].
  cbn [foldl]. destruct (dispatchTransition_orphan p w0 ev H1 H2 H3 H4) as (E1 & E2 & E3).
  rewrite IH; [done | by rewrite E1 | by rewrite E2 | | ].
  - intros c. by rewrite E1.
  - intros c. by rewrite E2.
Qed.

Lemma dispatchTransition_fulfilled p evs w :
  promises w !! p = Some Fulfilled →
  promises (foldl dispatchTransition w evs) !! p = Some Fulfilled.
Proof.
  revert w. induction evs as [| ev evs IH]; intros w0 Hp; [done |].
  cbn [foldl]. apply IH.
  destruct ev; simpl;
    [destruct (ontransitionend w0) as [[q | c q] |]
    | destruct (ontransitioncancel w0) as [[q | c q] |]]; simpl; try done;
    try (destruct (classList_remove c (classList w0)) as [l [| e]]; simpl; try done);
    (destruct (decide (q = p)) as [-> | Hq];
     [rewrite list_lookup_alter_eq, Hp; done
     | rewrite list_lookup_alter_ne by done; done]).
Qed.

(** X11: the two handler slots hold one waiter. A second
    [waitForTransitionEnd], or a [transitionRoutine] with class tokens that
    the class list accepts, on an element that is being waited for overwrites
    the handlers: the promise of the first wait stays pending whatever
    transition events follow, while the second wait is over at the first
    event. A [transitionRoutine] with a token that is empty or holds white
    space is rejected before it touches the handlers, and the first wait is
    then over at the first event. *)
Theorem transition_wait_overwritten (w : Transitioning) (fromClass toClass : string)
    (evs : list TransitionEvent) :
  promises (foldl dispatchTransition
              (waitForTransitionEnd (waitForTransitionEnd w).2).2 evs)
    !! (waitForTransitionEnd w).1 = Some Pending
  ∧ (tokenError fromClass = None → tokenError toClass = None →
     ∃ w1 w2 p,
       transitionRoutine fromClass toClass (waitForTransitionEnd w).2 = (w1, Normal)
       ∧ transitionRoutine_repainted fromClass toClass w1 = (w2, Returns p)
       ∧ promises (foldl dispatchTransition w2 evs) !! (waitForTransitionEnd w).1
         = Some Pending)
  ∧ (evs ≠ [] →
     promises (foldl dispatchTransition
                 (waitForTransitionEnd (waitForTransitionEnd w).2).2 evs)
       !! (waitForTransitionEnd (waitForTransitionEnd w).2).1 = Some Fulfilled)
  ∧ (tokenError fromClass ≠ None ∨ tokenError toClass ≠ None → evs ≠ [] →
     ∃ w1 e,
       transitionRoutine fromClass toClass (waitForTransitionEnd w).2 = (w1, Throw e)
       ∧ promises (foldl dispatchTransition w1 evs) !! (waitForTransitionEnd w).1
         = Some Fulfilled).
Proof.
  split; [| split; [| split]].
  - rewrite dispatchTransition_orphans; simpl.
    + rewrite lookup_app_l by (rewrite length_app; simpl; lia).
      rewrite lookup_app_r by done. by rewrite Nat.sub_diag.
    + rewrite length_app. simpl. intros [= E]. lia.
    + rewrite length_app. simpl. intros [= E]. lia.
    + done.
    + done.
  - intros Hfrom Hto. unfold transitionRoutine.
    rewrite (removeThenAdd_valid toClass fromClass) by done.
    eexists _, _, _. split; [reflexivity |].
    unfold transitionRoutine_repainted.
    rewrite (removeThenAdd_valid fromClass toClass) by done.
    split; [reflexivity |].
    rewrite dispatchTransition_orphans; simpl.
    + rewrite lookup_app_l by (rewrite length_app; simpl; lia).
      rewrite lookup_app_r by done. by rewrite Nat.sub_diag.
    + done.
    + done.
    + rewrite length_app. simpl. intros c [= _ E]. lia.
    + rewrite length_app. simpl. intros c [= _ E]. lia.
  - intros Hev. destruct evs as [| ev evs]; [done |]. cbn [foldl].
    apply dispatchTransition_fulfilled. destruct ev; simpl;
      rewrite list_lookup_alter_eq, lookup_app_r by done; by rewrite Nat.sub_diag.
  - intros Hbad Hev.
    assert (∃ w1 e,
              transitionRoutine fromClass toClass (waitForTransitionEnd w).2 = (w1, Throw e)
              ∧ ontransitionend w1 = Some (Resolve (length (promises w)))
              ∧ ontransitioncancel w1 = Some (Resolve (length (promises w)))
              ∧ promises w1 = promises w ++ [Pending]) as (w1 & e & E & He & Hc & Hp).
    { unfold transitionRoutine, removeThenAdd, classList_remove, classList_add.
      destruct (tokenError toClass) as [e |] eqn:Hto; [by eexists _, _ |].
      destruct (tokenError fromClass) as [e |] eqn:Hfrom; [by eexists _, _ |].
      by destruct Hbad. }
    exists w1, e. split; [done |]. destruct evs as [| ev evs]; [done |]. cbn [foldl].
    apply dispatchTransition_fulfilled. simpl.
    destruct ev; simpl; rewrite ?He, ?Hc; simpl; rewrite Hp;
      rewrite list_lookup_alter_eq, lookup_app_r by done; by rewrite Nat.sub_diag.
Qed.

Lemma transition_wait_overwritten_witness :
  promises (foldl dispatchTransition
              (waitForTransitionEnd
                 (waitForTransitionEnd
                    {| classList := []; ontransitionend := None;
                       ontransitioncancel := None; promises := [] |}).2).2
              [transitionend; transitioncancel]) !! 1 = Some Fulfilled.
Proof.
  destruct (transition_wait_overwritten
              {| classList := []; ontransitionend := None;
                 ontransitioncancel := None; promises := [] |} "from" "to"
              [transitionend; transitioncancel]) as (_ & _ & H & _).
  apply H. discriminate.
Defined.

Lemma getTransitionDuration_selector_witness :
  @getTransitionDuration
    {| parseFloat := λ s, if String.eqb s "0.3s" then Some (3 # 10) else None;
       querySelectorAll := λ e selector,
         if String.eqb selector "div" then Some (children e) else None |}
    (element {| transition := "none"; transitionDuration := "0s" |}
       [element {| transition := "opacity 0.3s"; transitionDuration := "0.3s" |} []])
    (RecursiveSelector "") None
  = Returns 0%Q
  ∧ @getTransitionDuration
      {| parseFloat := λ s, if String.eqb s "0.3s" then Some (3 # 10) else None;
         querySelectorAll := λ e selector,
           if String.eqb selector "div" then Some (children e) else None |}
      (element {| transition := "none"; transitionDuration := "0s" |}
         [element {| transition := "opacity 0.3s"; transitionDuration := "0.3s" |} []])
      (RecursiveSelector "div >") None
    = Throws (JDOMException "SyntaxError").
Proof.
  destruct (@getTransitionDuration_selector
              {| parseFloat := λ s, if String.eqb s "0.3s" then Some (3 # 10) else None;
                 querySelectorAll := λ e selector,
                   if String.eqb selector "div" then Some (children e) else None |}
              (element {| transition := "none"; transitionDuration := "0s" |}
                 [element {| transition := "opacity 0.3s"; transitionDuration := "0.3s" |} []])
              "" None) as [H _].
  destruct (@getTransitionDuration_selector
              {| parseFloat := λ s, if String.eqb s "0.3s" then Some (3 # 10) else None;
                 querySelectorAll := λ e selector,
                   if String.eqb selector "div" then Some (children e) else None |}
              (element {| transition := "none"; transitionDuration := "0s" |}
                 [element {| transition := "opacity 0.3s"; transitionDuration := "0.3s" |} []])
              "div >" None) as (_ & H' & _).
  split; [by rewrite H | by apply H'].
Defined.

(** ** Image ratio *)

(** X12: with positive sizes, [bufferUpdateImageRatio] sets to 100%
    the axis on which the image, scaled by its own ratio, reaches the picture
    first: the other axis then stays within the picture. *)
Theorem bufferUpdateImageRatio_fits (clientWidth clientHeight naturalWidth naturalHeight : Q) :
  (0 < clientWidth)%Q → (0 < clientHeight)%Q → (0 < naturalWidth)%Q → (0 < naturalHeight)%Q →
  (bufferUpdateImageRatio clientWidth clientHeight naturalWidth naturalHeight = (Full, Auto)
   ∧ (clientWidth * (naturalHeight / naturalWidth) < clientHeight)%Q)
  ∨ (bufferUpdateImageRatio clientWidth clientHeight naturalWidth naturalHeight = (Auto, Full)
     ∧ (clientHeight * (naturalWidth / naturalHeight) <= clientWidth)%Q).
Proof.
  intros Hcw Hch Hnw Hnh. unfold bufferUpdateImageRatio. cbv zeta.
  destruct (Qlt_le_dec (clientWidth / clientHeight) (naturalWidth / naturalHeight))
    as [Hlt | Hle].
  - left. rewrite Qgtb_true by done. split; [done |].
    assert (Hpos : (0 < clientHeight * naturalHeight)%Q)
      by (apply Qmult_lt_0_compat; done).
    apply (Qmult_lt_compat_r _ _ _ Hpos) in Hlt.
    assert (E1 : (clientWidth / clientHeight * (clientHeight * naturalHeight)
                  == clientWidth * naturalHeight)%Q)
      by (field; apply Qnot_eq_sym, Qlt_not_eq; done).
    assert (E2 : (naturalWidth / naturalHeight * (clientHeight * naturalHeight)
                  == clientHeight * naturalWidth)%Q)
      by (field; apply Qnot_eq_sym, Qlt_not_eq; done).
    rewrite E1, E2 in Hlt.
    assert (E : (clientWidth * (naturalHeight / naturalWidth)
                 == clientWidth * naturalHeight / naturalWidth)%Q)
      by (field; apply Qnot_eq_sym, Qlt_not_eq; done).
    rewrite E. by apply Qlt_shift_div_r.
  - right. rewrite Qgtb_false by done. split; [done |].
    assert (Hpos : (0 <= clientHeight * naturalHeight)%Q)
      by (apply Qlt_le_weak, Qmult_lt_0_compat; done).
    apply (Qmult_le_compat_r _ _ _ Hle) in Hpos.
    assert (E1 : (clientWidth / clientHeight * (clientHeight * naturalHeight)
                  == clientWidth * naturalHeight)%Q)
      by (field; apply Qnot_eq_sym, Qlt_not_eq; done).
    assert (E2 : (naturalWidth / naturalHeight * (clientHeight * naturalHeight)
                  == clientHeight * naturalWidth)%Q)
      by (field; apply Qnot_eq_sym, Qlt_not_eq; done).
    rewrite E1, E2 in Hpos.
    assert (E : (clientHeight * (naturalWidth / naturalHeight)
                 == clientHeight * naturalWidth / naturalHeight)%Q)
      by (field; apply Qnot_eq_sym, Qlt_not_eq; done).
    rewrite E. by apply Qle_shift_div_r.
Qed.

Lemma bufferUpdateImageRatio_fits_witness :
  bufferUpdateImageRatio 800 600 1600 900 = (Full, Auto)
  ∧ (800 * (900 / 1600) < 600)%Q.
Proof.
  destruct (bufferUpdateImageRatio_fits 800 600 1600 900) as [H | [H _]];
    [reflexivity | reflexivity | reflexivity | reflexivity | exact H | discriminate H].
Defined.

(** ** Zooming in and out again *)

Lemma filter_appendToken_fresh c l : c ∉ l → filter (λ x, x ≠ c) (appendToken l c) = l.
Proof.
  intros Hc. rewrite filter_appendToken.
  induction l as [| a l IH]; [done |].
  apply not_elem_of_cons in Hc as [Hne Hc].
  rewrite filter_cons, decide_True by done. f_equal. by apply IH.
Qed.

(** Panning only moves the image: zooming out afterwards gives the same. *)
Lemma bufferZoomOut_panned cfg (pans : list (Q * Q * PanEvent)) b :
  isZoomed b = true →
  bufferZoomOut cfg (foldl (λ b p, panMove p.1 p.2 b) b pans) = bufferZoomOut cfg b.
Proof.
  revert b. induction pans as [| [screen e] pans IH]; intros b Hb; [done |].
  cbn [foldl fst snd]. rewrite IH.
  - unfold panMove. destruct (onpan b) eqn:E; [| done].
    unfold bufferZoomOut. simpl. by rewrite Hb, E.
  - unfold panMove. by destruct (onpan b).
Qed.

(** X13: with a zoom class that the class list accepts and that is not
    among the classes of the buffer, zooming in, panning around and zooming
    out again leaves a buffer exactly as [bufferLoadImage] set it up: not
    zoomed, without the zoom class, pan handler and transform, with the
    zoom-in cursor and sources of 100vw; neither call throws. *)
Theorem zoom_round_trip (cfg : Config) (rect : Rect) (b : Buffer)
    (pans : list (Q * Q * PanEvent)) :
  tokenError (bufferClassZoom cfg) = None →
  isZoomed b = false → onpan b = None → transform b = TNone →
  cursor b = Some "zoom-in"%string → bufferClassZoom cfg ∉ className b →
  loadFullResImmediately cfg = true ∨ Forall (λ s, s = 100%Q) (sources b) →
  (bufferZoomIn cfg Open rect b).2 = Normal
  ∧ isZoomed (foldl (λ b p, panMove p.1 p.2 b) (bufferZoomIn cfg Open rect b).1 pans) = true
  ∧ bufferZoomOut cfg
      (foldl (λ b p, panMove p.1 p.2 b) (bufferZoomIn cfg Open rect b).1 pans)
    = (b, Normal).
Proof.
  intros Htoken Hz Hpan Htransform Hcursor Hclass Hsources.
  assert (Hzoom : bufferZoomIn cfg Open rect b
                  = (set_onpan (Some {| wrapperRect := rect;
                                        zoomPanMulti := ((1 - zoomFactor b) / zoomFactor b)%Q |})
                       (set_className (appendToken (className b) (bufferClassZoom cfg))
                          {| state := state b; hideTransition := hideTransition b;
                             isPreview := isPreview b; isZoomed := true;
                             zoomFactor := zoomFactor b; className := className b;
                             hidden := hidden b; attached := attached b;
                             onpan := onpan b; cursor := Some "zoom-out"%string;
                             onclick := onclick b;
                             sources := if loadFullResImmediately cfg then sources b
                                        else (λ _, (zoomFactor b * 100)%Q) <$> sources b;
                             transform := TScale (zoomFactor b) |}), Normal)).
  { unfold bufferZoomIn. rewrite Hz.
    rewrite (bool_decide_eq_false_2 (Open ≠ Open)) by (intros E; by apply E).
    cbn [orb]. by rewrite classList_add_valid. }
  rewrite Hzoom. clear Hzoom. cbn [fst snd]. split; [done |]. split.
  - match goal with |- isZoomed (foldl _ ?b0 _) = true =>
      assert (isZoomed b0 = true) as Hin by done; revert Hin; generalize b0 end.
    clear. induction pans as [| [screen e] pans IH]; intros b0 Hb0; [done |].
    cbn [foldl fst snd]. apply IH. unfold panMove. by destruct (onpan b0).
  - rewrite bufferZoomOut_panned by done.
    unfold bufferZoomOut.
    cbn [negb set_onpan set_className isZoomed state hideTransition isPreview zoomFactor
           className hidden attached onpan cursor onclick sources transform].
    rewrite classList_remove_valid by done.
    rewrite filter_appendToken_fresh by done.
    destruct b as [st ht ip iz zf cl hd at_ op cu oc so tr]. simpl in *. subst.
    unfold set_sources, set_onpan, set_className; simpl.
    f_equal. f_equal. destruct (loadFullResImmediately cfg); [done |].
    destruct Hsources as [? | Hall]; [done |].
    rewrite <- list_fmap_compose.
    induction so as [| s so IH]; [done |].
    apply Forall_cons in Hall as [-> Hall]. simpl. f_equal. by apply IH.
Qed.

Lemma zoom_round_trip_witness :
  bufferZoomOut defaultConfig
    (foldl (λ b p, panMove p.1 p.2 b)
       (bufferZoomIn defaultConfig Open sampleRect loadedBuffer).1
       [((1920 : Q, 1080 : Q), PointerOrMouse 100 50);
        ((1920 : Q, 1080 : Q), Touch [])])
  = (loadedBuffer, Normal).
Proof.
  destruct (zoom_round_trip defaultConfig sampleRect loadedBuffer
              [((1920 : Q, 1080 : Q), PointerOrMouse 100 50);
               ((1920 : Q, 1080 : Q), Touch [])]) as (_ & _ & H);
    [reflexivity | reflexivity | reflexivity | reflexivity | reflexivity | | |].
  3: exact H.
  - vm_compute. intros H. repeat (apply elem_of_cons in H as [H | H]; [discriminate |]).
    by apply elem_of_nil in H.
  - right. repeat constructor.
Defined.

(** X14: an image whose zoom attribute is absent, not a number, or
    not greater than 1 gets a buffer with zoom factor 1 and without click
    handler: clicks on its picture change nothing, it is never zoomed. *)
Theorem images_without_zoom (w : World) (buffer from : nat) (rect : Rect) :
  images w !! from ≫= zoom = None
  ∨ (∃ z, images w !! from ≫= zoom = Some z ∧ (z <= 1)%Q) →
  pictureClick buffer rect (bufferLoadImage buffer from w).2
  = (bufferLoadImage buffer from w).2
  ∧ ∀ b, buffers (bufferLoadImage buffer from w).2 !! buffer = Some b →
         zoomFactor b = 1%Q ∧ onclick b = false ∧ cursor b = None.
Proof.
  intros Hzoom.
  assert (Hoff : zoomEnabled (images w !! from ≫= zoom) = false).
  { destruct Hzoom as [-> | (z & -> & Hz)]; [done |]. simpl. by apply Qgtb_false. }
  assert (Hb : ∀ b, buffers (bufferLoadImage buffer from w).2 !! buffer = Some b →
            zoomFactor b = 1%Q ∧ onclick b = false ∧ cursor b = None).
  { intros b. unfold bufferLoadImage. cbv zeta. unfold newLoad. cbn [snd].
    unfold updBuffer. simpl. rewrite lookup_alter_eq.
    destruct (buffers w !! buffer) as [b0 |]; simpl; [| done].
    intros [= <-]. simpl. by rewrite Hoff. }
  split; [| done]. unfold pictureClick.
  destruct (buffers (bufferLoadImage buffer from w).2 !! buffer) as [b |] eqn:E; [| done].
  destruct (Hb b eq_refl) as (_ & -> & _). done.
Qed.

Lemma images_without_zoom_witness :
  pictureClick 1 sampleRect
    (bufferLoadImage 1 0
       (run (init defaultConfig 300 200 100
               [{| scanTag := "g"; scanZoom := Some (1 # 2); scanSources := 2;
                   scanSrcset := false |}]) [ClickImage 0])).2
  = (bufferLoadImage 1 0
       (run (init defaultConfig 300 200 100
               [{| scanTag := "g"; scanZoom := Some (1 # 2); scanSources := 2;
                   scanSrcset := false |}]) [ClickImage 0])).2.
Proof.
  apply (images_without_zoom
           (run (init defaultConfig 300 200 100
                   [{| scanTag := "g"; scanZoom := Some (1 # 2); scanSources := 2;
                       scanSrcset := false |}]) [ClickImage 0]) 1 0 sampleRect).
  right. exists (1 # 2)%Q. split; [vm_compute; reflexivity | discriminate].
Defined.

(** ** Galleries of any size *)

(** Images without a gallery tag are not linked by the scan. *)
Lemma scanImage_untagged cfg l refs m s :
  galleryMode cfg = true → Scanned l refs m →
  (∀ i, scanTag <$> l !! i = Some ""%string →
        nextOf refs i = None ∧ previousOf refs i = None) →
  ∀ i, scanTag <$> (l ++ [s]) !! i = Some ""%string →
       nextOf (scanImage cfg (refs, m) s).1 i = None
       ∧ previousOf (scanImage cfg (refs, m) s).1 i = None.
Proof.
  intros Hmode HS Hun i Hi.
  pose proof HS as [Hlen Hkeys Hget Hchain Hhead Hlast].
  assert (Hcases : (i < length l ∧ scanTag <$> l !! i = Some ""%string)
                   ∨ (i = length l ∧ scanTag s = ""%string)).
  { destruct (decide (i < length l)) as [Hlt | Hge].
    - left. split; [done |]. by rewrite lookup_app_l in Hi.
    - right. destruct (decide (i = length l)) as [-> | Hne].
      + split; [done |]. rewrite lookup_app_r, Nat.sub_diag in Hi by lia.
        simpl in Hi. congruence.
      + rewrite lookup_ge_None_2 in Hi; [done |]. rewrite length_app. simpl. lia. }
  unfold scanImage. cbn [fst snd]. rewrite Hmode. cbn [andb]. cbv zeta.
  destruct (String.eqb_spec (scanTag s) "") as [Hempty | Hne]; cbn [negb fst snd].
  - unfold nextOf, previousOf. destruct Hcases as [[Hlt Ht] | [-> _]].
    + rewrite lookup_app_l by lia. by apply Hun.
    + rewrite lookup_app_r, Hlen, Nat.sub_diag by lia. done.
  - destruct Hcases as [[Hlt Ht] | [_ ?]]; [| done].
    rewrite Hget, decide_False by done.
    destruct (members (scanTag s) l) as [| h tl] eqn:Hms; cbn [fst snd].
    + unfold nextOf, previousOf. rewrite lookup_app_l by lia. by apply Hun.
    + set (t := default h (last tl)).
      assert (Htail : last (members (scanTag s) l) = Some t)
        by (rewrite Hms; apply last_cons_default).
      assert (Htin : t ∈ members (scanTag s) l)
        by (rewrite last_lookup in Htail; by eapply list_elem_of_lookup_2).
      assert (Hit : i ≠ t).
      { intros ->. apply members_elem in Htin as [_ Htag]. congruence. }
      unfold nextOf, previousOf. rewrite linked_other by lia. by apply Hun.
Qed.

Lemma scan_untagged cfg scan :
  galleryMode cfg = true →
  ∀ i, scanTag <$> scan !! i = Some ""%string →
       nextOf (foldl (scanImage cfg) ([], []) scan).1 i = None
       ∧ previousOf (foldl (scanImage cfg) ([], []) scan).1 i = None.
Proof.
  intros Hmode.
  assert (H : ∀ l l0 acc,
            Scanned l0 acc.1 acc.2 →
            (∀ i, scanTag <$> l0 !! i = Some ""%string →
                  nextOf acc.1 i = None ∧ previousOf acc.1 i = None) →
            ∀ i, scanTag <$> (l0 ++ l) !! i = Some ""%string →
                 nextOf (foldl (scanImage cfg) acc l).1 i = None
                 ∧ previousOf (foldl (scanImage cfg) acc l).1 i = None).
  { induction l as [| s l IH]; intros l0 [refs m] HS Hun i Hi.
    - rewrite app_nil_r in Hi. by apply Hun.
    - cbn [foldl]. rewrite (assoc_L _ l0 [s] l : l0 ++ s :: l = (l0 ++ [s]) ++ l) in Hi.
      apply (IH (l0 ++ [s])); [| | done].
      + by apply Scanned_step.
      + by apply scanImage_untagged. }
  intros i Hi. apply (H scan [] ([], [])); [apply Scanned_nil | | done].
  intros j Hj. done.
Qed.

(** Without gallery mode the scan links nothing and records no gallery. *)
Lemma scan_plain cfg scan :
  galleryMode cfg = false →
  ∀ i, nextOf (gatherImages cfg scan) i = None
       ∧ previousOf (gatherImages cfg scan) i = None.
Proof.
  intros Hmode. unfold gatherImages. rewrite Hmode. cbn [andb]. cbv zeta.
  assert (H : ∀ l acc,
            (∀ i, nextOf acc.1 i = None ∧ previousOf acc.1 i = None) →
            ∀ i, nextOf (foldl (scanImage cfg) acc l).1 i = None
                 ∧ previousOf (foldl (scanImage cfg) acc l).1 i = None).
  { induction l as [| s l IH]; intros [refs m] Hacc i; [apply Hacc |].
    cbn [foldl]. apply IH. intros j. unfold scanImage. rewrite Hmode. cbn [andb fst snd].
    unfold nextOf, previousOf.
    destruct (decide (j < length refs)) as [Hlt | Hge].
    - rewrite lookup_app_l by done. apply Hacc.
    - destruct (decide (j = length refs)) as [-> | Hne].
      + rewrite lookup_app_r, Nat.sub_diag by lia. done.
      + rewrite lookup_ge_None_2; [done |]. rewrite length_app. simpl. lia. }
  intros i. apply H. intros j. unfold nextOf, previousOf. simpl. done.
Qed.

Lemma closeLoops_length m refs : length (foldl closeLoop refs m) = length refs.
Proof.
  revert refs. induction m as [| e m IH]; intros refs; [done |].
  cbn [foldl]. by rewrite IH, closeLoop_length.
Qed.

Lemma head_last_distinct {A} (l : list A) h t :
  NoDup l → head l = Some h → last l = Some t → h ≠ t ↔ 2 ≤ length l.
Proof.
  intros Hnd Hh Ht. rewrite head_lookup in Hh. rewrite last_lookup in Ht. split.
  - intros Hne. destruct l as [| a [| b l]]; simpl in *; [done | congruence | lia].
  - intros Hlen ->. pose proof (NoDup_lookup _ _ _ _ Hnd Hh Ht). lia.
Qed.

(** What [init] has linked, for every gallery at once: consecutive members
    are linked both ways; the two ends are linked to each other when the
    gallery loops and has two members or more, and are null otherwise; and an
    image without a tag has no links. *)
Lemma gathered_links cfg scan :
  galleryMode cfg = true →
  length (gatherImages cfg scan) = length scan
  ∧ (∀ g k x y, g ≠ ""%string →
       members g scan !! k = Some x → members g scan !! S k = Some y →
       nextOf (gatherImages cfg scan) x = Some y
       ∧ previousOf (gatherImages cfg scan) y = Some x)
  ∧ (∀ g h t, g ≠ ""%string →
       head (members g scan) = Some h → last (members g scan) = Some t →
       if galleryLoop cfg && bool_decide (h ≠ t)
       then previousOf (gatherImages cfg scan) h = Some t
            ∧ nextOf (gatherImages cfg scan) t = Some h
       else previousOf (gatherImages cfg scan) h = None
            ∧ nextOf (gatherImages cfg scan) t = None)
  ∧ (∀ i, scanTag <$> scan !! i = Some ""%string →
       nextOf (gatherImages cfg scan) i = None
       ∧ previousOf (gatherImages cfg scan) i = None).
Proof.
  intros Hmode.
  pose proof (gatherImages_Scanned cfg scan Hmode) as HS.
  pose proof (scan_untagged cfg scan Hmode) as Hun.
  unfold gatherImages. cbv zeta. rewrite Hmode. cbn [andb].
  destruct (foldl (scanImage cfg) ([], []) scan) as [refs m]. cbn [fst snd] in *.
  pose proof HS as [Hlen Hkeys Hget Hchain Hhead Hlast].
  assert (Hends : ∀ g h t, g ≠ ""%string →
            head (members g scan) = Some h → last (members g scan) = Some t →
            previousOf refs h = None ∧ nextOf refs t = None).
  { intros g h t Hg Hh Ht. unfold previousOf, nextOf.
    pose proof (Hhead g h Hg Hh) as Hp. pose proof (Hlast g t Hg Ht) as Hn.
    destruct (refs !! h), (refs !! t); simpl in *; split; congruence. }
  destruct (galleryLoop cfg); cbn [andb]; [| by auto].
  (* the entries of the map are the galleries *)
  assert (Hentry : ∀ k h t, (k, (h, t)) ∈ m →
            k ≠ ""%string ∧ head (members k scan) = Some h
            ∧ last (members k scan) = Some t)
    by (intros k h t; apply (Scanned_entry _ _ _ _ _ _ HS)).
  assert (Hhin : ∀ g h, head (members g scan) = Some h → h ∈ members g scan)
    by (intros g h Hh; rewrite head_lookup in Hh; by eapply list_elem_of_lookup_2).
  assert (Htin : ∀ g t, last (members g scan) = Some t → t ∈ members g scan)
    by (intros g t Ht; rewrite last_lookup in Ht; by eapply list_elem_of_lookup_2).
  split; [by rewrite closeLoops_length |]. split; [| split].
  - intros g k x y Hg Hx Hy. destruct (Hchain g k x y Hg Hx Hy) as [Hn Hp].
    assert (Hxin : x ∈ members g scan) by (by eapply list_elem_of_lookup_2).
    assert (Hyin : y ∈ members g scan) by (by eapply list_elem_of_lookup_2).
    split.
    + rewrite closeLoops_nextOf; [done |]. intros k' h t Hk _ ->.
      destruct (Hentry k' h x Hk) as (_ & _ & Hl).
      assert (k' = g) as -> by (eapply members_disjoint; [by apply Htin | done]).
      rewrite last_lookup in Hl.
      pose proof (NoDup_lookup _ _ _ _ (members_NoDup _ _) Hx Hl) as E.
      apply lookup_lt_Some in Hy. lia.
    + rewrite closeLoops_previousOf; [done |]. intros k' h t Hk _ ->.
      destruct (Hentry k' y t Hk) as (_ & Hh & _).
      assert (k' = g) as -> by (eapply members_disjoint; [by apply Hhin | done]).
      rewrite head_lookup in Hh.
      pose proof (NoDup_lookup _ _ _ _ (members_NoDup _ _) Hy Hh) as E. lia.
  - intros g h t Hg Hh Ht. case_bool_decide as Hht; cbn [andb].
    + apply (closeLoops_ring m refs g h t).
      * apply gallery_get_elem. rewrite Hget, decide_False by done.
        destruct (members g scan) as [| h' tl] eqn:Hms; [done |].
        simpl in Hh. injection Hh as ->.
        rewrite last_cons_default in Ht. by injection Ht as ->.
      * done.
      * rewrite Hlen. eapply members_lt. by apply Hhin.
      * rewrite Hlen. eapply members_lt. by apply Htin.
      * intros k h' t' Hk. destruct (Hentry k h' t' Hk) as (Hk0 & Hh' & Ht').
        destruct (decide (k = g)) as [-> | Hkg]; [left; congruence |].
        right. split; intros ->; apply Hkg.
        -- eapply (members_disjoint k g scan h); [by apply Hhin | by apply Hhin].
        -- eapply (members_disjoint k g scan t); [by apply Htin | by apply Htin].
    + subst h.
      destruct (Hends g t t Hg Hh Ht) as [Hp Hn]. split.
      * rewrite closeLoops_previousOf; [done |]. intros k h' t' Hk Hne ->.
        destruct (Hentry k t t' Hk) as (_ & Hh' & Ht').
        assert (k = g) as -> by (eapply members_disjoint; [by apply Hhin | by apply Hhin]).
        congruence.
      * rewrite closeLoops_nextOf; [done |]. intros k h' t' Hk Hne ->.
        destruct (Hentry k h' t Hk) as (_ & Hh' & Ht').
        assert (k = g) as -> by (eapply members_disjoint; [by apply Htin | by apply Htin]).
        congruence.
  - intros i Hi. destruct (Hun i Hi) as [Hn Hp]. split.
    + rewrite closeLoops_nextOf; [done |]. intros k h t Hk _ ->.
      destruct (Hentry k h i Hk) as (Hk0 & _ & Hl).
      apply Htin, members_elem in Hl as [_ Htag]. congruence.
    + rewrite closeLoops_previousOf; [done |]. intros k h t Hk _ ->.
      destruct (Hentry k i t Hk) as (Hk0 & Hh & _).
      apply Hhin, members_elem in Hh as [_ Htag]. congruence.
Qed.

(** ** Later stages *)

Lemma extends_refl w : extends w w.
Proof. split; [done |]. split; [done |]. split; [done |]. intros; by left. Qed.

Lemma extends_trans w1 w2 w3 : extends w1 w2 → extends w2 w3 → extends w1 w3.
Proof.
  intros (Hb & Hf & Hm & Hn) (Hb' & Hf' & Hm' & Hn').
  split; [congruence |]. split; [lia |]. split; [by auto |].
  intros image id H. destruct (Hn' image id H) as [H' | H']; [| right; lia].
  by apply Hn.
Qed.

(** A step that leaves the swap chain alone. *)
Lemma extends_same w w' :
  blueprint w' = blueprint w → fresh w ≤ fresh w' → swapChain w' = swapChain w →
  extends w w'.
Proof.
  intros Hb Hf Hs. split; [done |]. split; [done |]. rewrite Hs.
  split; [done |]. intros; by left.
Qed.

Lemma extends_from w w' w'' : extends w w' → extends w' w'' → extends w w''.
Proof. apply extends_trans. Qed.

Lemma extends_updBuffer id f w : extends w (updBuffer id f w).
Proof. by apply extends_same. Qed.

Lemma reference_setVisibility v (l : list ImageReference) i :
  reference <$> alter (set_visibilityHidden v) i l = reference <$> l.
Proof.
  revert i. induction l as [| a l IH]; intros i; [done |].
  destruct i as [| i]; simpl; [done |]. f_equal. apply IH.
Qed.

Lemma extends_setVisibility v w : extends w (setVisibility v w).
Proof.
  unfold setVisibility. destruct (presentedImage w) as [i |]; [| apply extends_refl].
  apply extends_same; [| done..]. unfold blueprint; simpl.
  by rewrite reference_setVisibility.
Qed.

Lemma extends_cancelHideTransition buffer w :
  extends w (cancelHideTransition buffer w).1.
Proof.
  unfold cancelHideTransition.
  destruct (buffers w !! buffer ≫= hideTransition) as [t |]; [| apply extends_refl].
  destruct (timeouts w !! t) as [tm |]; [| apply extends_refl].
  destruct (cancel JUndefined tm).2; by apply extends_same.
Qed.

Lemma extends_bufferSwap_cleanup backBuffer w :
  extends w (bufferSwap_cleanup backBuffer w).1.
Proof. unfold bufferSwap_cleanup. repeat case_match; by apply extends_same. Qed.

Lemma extends_bufferSwap_exchange immediate buffer backBuffer w :
  extends w (bufferSwap_exchange immediate buffer backBuffer w).1.
Proof.
  unfold bufferSwap_exchange. destruct immediate.
  - eapply extends_trans; [| apply extends_bufferSwap_cleanup]. by apply extends_same.
  - apply extends_same; simpl; [done | lia | done].
Qed.

Lemma extends_await caller callee k w :
  extends w callee.1 → (∀ w', extends w' (k w').1) → extends w (await caller callee k).1.
Proof.
  intros Hc Hk. destruct callee as [w' [[| e] | frames]]; simpl in *; [| done..].
  eapply extends_trans; [exact Hc | apply Hk].
Qed.

Lemma extends_bufferSwap buffer w : extends w (bufferSwap buffer w).1.
Proof.
  unfold bufferSwap. case_bool_decide; [apply extends_refl |]. cbv zeta.
  match goal with |- context [cancelHideTransition ?b ?w1] =>
    assert (extends w w1) as H1 by (by apply extends_same);
    pose proof (extends_cancelHideTransition b w1) as H2;
    destruct (cancelHideTransition b w1) as [w2 [| e]] end; cbn [fst snd] in *.
  - assert (extends w w2) as H3 by exact (extends_trans _ _ _ H1 H2).
    case_match.
    + eapply extends_trans; [| apply extends_bufferSwap_exchange].
      eapply extends_trans; [exact H3 | apply extends_updBuffer].
    + cbn [fst]. eapply extends_trans; [exact H3 |]. by apply extends_same.
  - exact (extends_trans _ _ _ H1 H2).
Qed.

Lemma extends_newTimeout d w : extends w (newTimeout d w).2.
Proof. apply extends_same; simpl; [done | lia | done]. Qed.

Lemma extends_newLoad w : extends w (newLoad w).2.
Proof. apply extends_same; simpl; [done | lia | done]. Qed.

Lemma extends_bufferLoadPreview buffer w : extends w (bufferLoadPreview buffer w).2.
Proof. apply extends_same; simpl; [done | lia | done]. Qed.

Lemma extends_bufferLoadImage buffer from w : extends w (bufferLoadImage buffer from w).2.
Proof. apply extends_same; simpl; [done | lia | done]. Qed.

Lemma extends_createAttachedBuffer w : extends w (createAttachedBuffer w).2.
Proof. apply extends_same; simpl; [done | lia | done]. Qed.

Lemma extends_afterLoad image imageBuffer w : extends w (afterLoad image imageBuffer w).1.
Proof.
  unfold afterLoad. case_match.
  - apply extends_await; [apply extends_bufferSwap | intros; apply extends_refl].
  - by apply extends_same.
Qed.

Lemma extends_presentPreview caller stillWanted previewBuffer w :
  extends w (presentPreview caller stillWanted previewBuffer w).1.
Proof.
  unfold presentPreview. destruct stillWanted.
  - apply extends_await; [apply extends_bufferSwap | intros; apply extends_refl].
  - by apply extends_same.
Qed.

Lemma extends_presentRace image imageBuffer load w :
  extends w (presentRace image imageBuffer load w).1.
Proof. apply extends_same; simpl; [done | lia | done]. Qed.

Lemma extends_presentCatch image imageBuffer e w :
  extends w (presentCatch image imageBuffer e w).1.
Proof.
  unfold presentCatch. case_match; [apply extends_refl |].
  apply extends_same; simpl; [done | lia | done].
Qed.

Lemma extends_lightboxPresentImage image w : extends w (lightboxPresentImage image w).1.
Proof.
  unfold lightboxPresentImage. cbv zeta.
  destruct (swapChain w !! image) as [retrieved |] eqn:Hchain.
  - case_bool_decide.
    + apply extends_same; simpl; [done | lia | done].
    + apply extends_same; simpl; [done | lia | done].
  - simpl. split; [done |]. split; [simpl; lia |]. simpl. split.
    + intros image' id H. rewrite lookup_insert_ne; [done |]. intros ->. congruence.
    + intros image' id. destruct (decide (image = image')) as [-> | Hne].
      * rewrite lookup_insert_eq. intros [= <-]. right. lia.
      * rewrite lookup_insert_ne by done. by left.
Qed.

Lemma extends_navigated w : extends w (navigated w).1.
Proof. apply extends_setVisibility. Qed.

Lemma extends_navigate caller link w : extends w (navigate caller link w).1.
Proof.
  unfold navigate. case_match; [| apply extends_refl].
  assert (extends w (zoomOutBuffer (frontBuffer w) w).1) as Hz by apply extends_updBuffer.
  destruct (zoomOutBuffer (frontBuffer w) w) as [w1 [| e]]; [| done]. cbv zeta.
  apply extends_await; [| intros; apply extends_navigated].
  eapply extends_trans; [| apply extends_lightboxPresentImage].
  eapply extends_trans; [exact Hz | apply extends_setVisibility].
Qed.

Lemma extends_lightboxOpenHandler_finish w : extends w (lightboxOpenHandler_finish w).1.
Proof. by apply extends_same. Qed.

Lemma extends_lightboxOpenHandler_repainted w :
  extends w (lightboxOpenHandler_repainted w).1.
Proof.
  unfold lightboxOpenHandler_repainted. cbv zeta.
  match goal with |- context [Qgtb (lightboxTransitionDuration ?w1) 0] =>
    assert (extends w w1) as H1 end.
  { eapply extends_trans; [| apply extends_updBuffer].
    eapply extends_trans; [| apply extends_setVisibility]. by apply extends_same. }
  case_match.
  - eapply extends_trans; [exact H1 | apply extends_newTimeout].
  - eapply extends_trans; [exact H1 | apply extends_lightboxOpenHandler_finish].
Qed.

Lemma extends_lightboxOpenHandler_presented w :
  extends w (lightboxOpenHandler_presented w).1.
Proof.
  unfold lightboxOpenHandler_presented. cbv zeta. case_match; by apply extends_same.
Qed.

Lemma extends_lightboxOpenHandler w : extends w (lightboxOpenHandler w).1.
Proof.
  unfold lightboxOpenHandler. cbv zeta.
  destruct (closeOnScroll (config (set_lightboxState Opening w)));
    (case_match; [| by apply extends_same]);
    (apply extends_await; [| intros; apply extends_lightboxOpenHandler_presented]);
    (eapply extends_trans; [| apply extends_lightboxPresentImage]);
    by apply extends_same.
Qed.

Lemma extends_lightboxCloseHandler_finish w :
  extends w (lightboxCloseHandler_finish w).1.
Proof.
  unfold lightboxCloseHandler_finish. cbv zeta. case_match; [| apply extends_refl].
  match goal with |- context [closeOnScroll (config ?w1)] =>
    assert (extends w w1) as H1 end.
  { eapply extends_trans; [apply extends_setVisibility |].
    eapply extends_trans; [apply extends_updBuffer |]. by apply extends_same. }
  case_match; [done |]. eapply extends_trans; [exact H1 |]. by apply extends_same.
Qed.

Lemma extends_lightboxCloseHandler_measured w :
  extends w (lightboxCloseHandler_measured w).1.
Proof.
  unfold lightboxCloseHandler_measured. cbv zeta. case_match; [| apply extends_refl].
  match goal with |- context [Qgtb (lightboxTransitionDuration ?w1) 0] =>
    assert (extends w w1) as H1 by (by apply extends_same) end.
  case_match.
  - eapply extends_trans; [exact H1 | apply extends_newTimeout].
  - eapply extends_trans; [exact H1 | apply extends_lightboxCloseHandler_finish].
Qed.

Lemma extends_lightboxCloseHandler w : extends w (lightboxCloseHandler w).1.
Proof.
  unfold lightboxCloseHandler. cbv zeta. case_match.
  - match goal with |- context [zoomOutBuffer ?id ?w1] =>
      assert (extends w (zoomOutBuffer id w1).1) as Hz by (by apply extends_same);
      destruct (zoomOutBuffer id w1) as [w2 [| e]] end; [| done].
    eapply extends_trans; [exact Hz |]. apply extends_same; simpl; [done | lia | done].
  - eapply extends_trans; [| apply extends_lightboxCloseHandler_measured].
    by apply extends_same.
Qed.

Lemma extends_resume f c w : extends w (resume f c w).1.
Proof.
  destruct c as [| e].
  - destruct f; unfold resume; cbv beta iota.
    + apply extends_bufferSwap_exchange.
    + apply extends_bufferSwap_cleanup.
    + pose proof (extends_bufferLoadPreview previewBuffer w) as H.
      by destruct (bufferLoadPreview previewBuffer w).
    + apply extends_presentPreview.
    + apply extends_refl.
    + pose proof (extends_bufferLoadImage imageBuffer image w) as H.
      destruct (bufferLoadImage imageBuffer image w) as [load w'].
      eapply extends_trans; [exact H | apply extends_presentRace].
    + apply extends_refl.
    + pose proof (extends_bufferLoadPreview previewBuffer w) as H.
      by destruct (bufferLoadPreview previewBuffer w).
    + apply extends_presentPreview.
    + apply extends_refl.
    + apply extends_afterLoad.
    + apply extends_refl.
    + apply extends_navigated.
    + apply extends_navigated.
    + apply extends_lightboxOpenHandler_presented.
    + apply extends_lightboxOpenHandler_repainted.
    + apply extends_lightboxOpenHandler_finish.
    + apply extends_lightboxCloseHandler_measured.
    + apply extends_lightboxCloseHandler_finish.
  - destruct f; unfold resume; cbv beta iota; try apply extends_refl.
    apply extends_presentCatch.
Qed.

Lemma extends_setStack tid stack w : extends w (setStack tid stack w).
Proof. by apply extends_same. Qed.

Lemma extends_unwind tid c stack w : extends w (unwind tid c stack w).
Proof.
  revert c w. induction stack as [| f rest IH]; intros c w.
  - simpl. destruct c; by apply extends_same.
  - simpl. pose proof (extends_resume f c w) as H.
    destruct (resume f c w) as [w' [c' | frames]]; cbn [fst] in H.
    + eapply extends_trans; [exact H | apply IH].
    + eapply extends_trans; [exact H | apply extends_setStack].
Qed.

Lemma extends_deliver target c w : extends w (deliver target c w).
Proof.
  unfold deliver. destruct (findWaiter target w) as [[tid stack] |];
    [apply extends_unwind | apply extends_refl].
Qed.

Lemma extends_spawn x : extends x.1 (spawn x).
Proof.
  destruct x as [w [[| e] | frames]]; simpl; [apply extends_refl | ..];
    apply extends_same; simpl; [done | lia | done | done | lia | done].
Qed.

Lemma extends_settleRace load c w : extends w (settleRace load c w).
Proof.
  unfold settleRace. destruct (races w !! load) as [r |]; [| apply extends_refl].
  cbv zeta. destruct (race_promise r); [| by apply extends_same..].
  eapply extends_trans; [| apply extends_deliver]. by apply extends_same.
Qed.

Lemma extends_loadSettled load failure w : extends w (loadSettled load failure w).
Proof.
  unfold loadSettled. destruct (loads w !! load) as [[] |]; try apply extends_refl.
  cbv zeta. eapply extends_trans; [| apply extends_settleRace].
  eapply extends_trans; [| apply extends_deliver]. by apply extends_same.
Qed.

Lemma extends_handle ev w : extends w (handle ev w).
Proof.
  destruct ev; simpl.
  - eapply extends_trans; [| apply extends_spawn].
    eapply extends_trans; [| apply extends_lightboxOpenHandler]. by apply extends_same.
  - eapply extends_trans; [apply extends_navigate | apply extends_spawn].
  - eapply extends_trans; [apply extends_navigate | apply extends_spawn].
  - eapply extends_trans; [apply extends_lightboxCloseHandler | apply extends_spawn].
  - unfold pictureClick. repeat case_match; try apply extends_refl; apply extends_updBuffer.
  - apply extends_updBuffer.
  - case_match; [| apply extends_refl]. unfold lightboxScrollHandler.
    repeat case_match; try apply extends_refl; [| by apply extends_same].
    eapply extends_trans; [| apply extends_spawn].
    eapply extends_trans; [| apply extends_lightboxCloseHandler]. by apply extends_same.
  - unfold lightboxResizeHandler. case_match; [| apply extends_refl].
    eapply extends_trans; [apply extends_lightboxCloseHandler | apply extends_spawn].
  - unfold repaint. repeat case_match; try apply extends_refl. apply extends_unwind.
  - apply extends_loadSettled.
  - unfold timerElapsed. repeat case_match; try apply extends_refl.
    eapply extends_trans; [| apply extends_deliver]. by apply extends_same.
  - unfold raceTimer. repeat case_match; try apply extends_refl;
      try (by apply extends_same).
    eapply extends_trans; [| apply extends_deliver]. by apply extends_same.
Qed.

Lemma extends_drain w : extends w (drain w).
Proof.
  unfold drain.
  assert (H : ∀ ts w0, extends w0 (foldl (λ w t, deliver (WTimeout t) Normal w) w0 ts)).
  { induction ts as [| t ts IH]; intros w0; [apply extends_refl |]. simpl.
    eapply extends_trans; [apply extends_deliver | apply IH]. }
  eapply extends_trans; [| apply H]. by apply extends_same.
Qed.

Lemma extends_step w ev : extends w (step w ev).
Proof. eapply extends_trans; [apply extends_handle | apply extends_drain]. Qed.

Lemma extends_run w evs : extends w (run w evs).
Proof.
  revert w. induction evs as [| ev evs IH]; intros w; [apply extends_refl |].
  simpl. eapply extends_trans; [apply extends_step | apply IH].
Qed.

(** ** No Active buffer but the front buffer *)

(** A step that moves no buffer to Active and keeps the front buffer. *)
Lemma active_calm w w' :
  frontBuffer w' = frontBuffer w →
  (∀ id, stateOf id w' = Some Active → stateOf id w = Some Active) →
  activeIsFront w → activeIsFront w'.
Proof. intros Hf Hs Hw id Hid. rewrite Hf. by apply Hw, Hs. Qed.

Lemma active_updBuffer id f w :
  (∀ b, state (f b) = state b) → activeIsFront w → activeIsFront (updBuffer id f w).
Proof.
  intros Hf. apply active_calm; [done |]. intros id'. by rewrite stateOf_updBuffer.
Qed.

Lemma active_setVisibility v w : activeIsFront w → activeIsFront (setVisibility v w).
Proof. unfold setVisibility. by destruct (presentedImage w). Qed.

Lemma active_cancelHideTransition buffer w :
  activeIsFront w → activeIsFront (cancelHideTransition buffer w).1.
Proof.
  destruct (cancelHideTransition_states buffer w) as [Hf Hs].
  apply active_calm; [done |]. intros id. by rewrite Hs.
Qed.

Lemma active_bufferSwap_cleanup backBuffer w :
  activeIsFront w → activeIsFront (bufferSwap_cleanup backBuffer w).1.
Proof.
  destruct (bufferSwap_cleanup_states backBuffer w) as [Hf Hs].
  apply active_calm; [done |]. intros id. by rewrite Hs.
Qed.

Lemma active_bufferSwap_exchange immediate buffer backBuffer w :
  activeIsFront w → activeIsFront (bufferSwap_exchange immediate buffer backBuffer w).1.
Proof.
  destruct (bufferSwap_exchange_states immediate buffer backBuffer w) as [Hf Hs].
  apply active_calm; [done |]. intros id. by rewrite Hs.
Qed.

(** The swap moves the one Active state from the old front buffer to the
    new one. *)
Lemma active_bufferSwap buffer w : activeIsFront w → activeIsFront (bufferSwap buffer w).1.
Proof.
  intros Hw. destruct (decide (stateOf buffer w = Some Active)) as [Hactive | Hactive].
  { unfold bufferSwap. by rewrite bool_decide_eq_true_2. }
  destruct (bufferSwap_states buffer w Hactive) as [Hf Hs].
  intros id Hid. rewrite Hf. rewrite Hs in Hid.
  destruct (decide (id = buffer)) as [| Hne]; [done |]. exfalso.
  destruct (decide (id = frontBuffer w)) as [-> | Hfront].
  - unfold stateOf, updBuffer in Hid; simpl in Hid. rewrite lookup_alter_eq in Hid.
    destruct (alter (set_state Active) buffer (buffers w) !! frontBuffer w); done.
  - rewrite stateOf_set_state_ne, stateOf_set_state_ne in Hid by done.
    by apply Hfront, Hw.
Qed.

Lemma active_await caller callee k :
  activeIsFront callee.1 → (∀ w, activeIsFront w → activeIsFront (k w).1) →
  activeIsFront (await caller callee k).1.
Proof.
  intros Hc Hk. destruct callee as [w [[| e] | frames]]; simpl in *; [by apply Hk | done..].
Qed.

Lemma active_afterLoad image imageBuffer w :
  activeIsFront w → activeIsFront (afterLoad image imageBuffer w).1.
Proof.
  intros Hw. unfold afterLoad. case_match.
  - apply active_await; [by apply active_bufferSwap | done].
  - cbn [fst]. do 2 (apply active_updBuffer; [done |]).
    revert Hw. apply active_calm; [done |]. intros id.
    destruct (decide (id = imageBuffer)) as [-> | Hne].
    + unfold stateOf, updBuffer; simpl. rewrite lookup_alter_eq.
      by destruct (buffers w !! imageBuffer).
    + by rewrite stateOf_set_state_ne.
Qed.

Lemma active_presentPreview caller stillWanted previewBuffer w :
  activeIsFront w → activeIsFront (presentPreview caller stillWanted previewBuffer w).1.
Proof.
  intros Hw. unfold presentPreview. destruct stillWanted.
  - apply active_await; [by apply active_bufferSwap | done].
  - by apply active_updBuffer.
Qed.

(** A buffer is created Loading. *)
Lemma active_createAttachedBuffer w :
  activeIsFront w → activeIsFront (createAttachedBuffer w).2.
Proof.
  apply active_calm; [done |]. intros id. unfold stateOf; simpl.
  destruct (decide (id = fresh w)) as [-> | Hne].
  - by rewrite lookup_insert_eq.
  - by rewrite lookup_insert_ne.
Qed.

Lemma active_bufferLoadPreview buffer w :
  activeIsFront w → activeIsFront (bufferLoadPreview buffer w).2.
Proof. intros Hw. unfold bufferLoadPreview. cbv zeta. by apply (active_updBuffer buffer). Qed.

Lemma active_bufferLoadImage buffer from w :
  activeIsFront w → activeIsFront (bufferLoadImage buffer from w).2.
Proof. intros Hw. unfold bufferLoadImage. cbv zeta. by apply (active_updBuffer buffer). Qed.

Lemma active_presentCatch image imageBuffer e w :
  activeIsFront w → activeIsFront (presentCatch image imageBuffer e w).1.
Proof.
  intros Hw. unfold presentCatch. case_match; [done |].
  pose proof (active_createAttachedBuffer w Hw) as H'.
  by destruct (createAttachedBuffer w).
Qed.

Lemma active_lightboxPresentImage image w :
  activeIsFront w → activeIsFront (lightboxPresentImage image w).1.
Proof.
  intros Hw. unfold lightboxPresentImage. cbv zeta.
  pose proof (active_createAttachedBuffer (set_presentedImage (Some image) w) Hw) as H'.
  destruct (swapChain w !! image) as [retrieved |].
  - case_bool_decide.
    + by destruct (createAttachedBuffer (set_presentedImage (Some image) w)).
    + done.
  - by destruct (createAttachedBuffer (set_presentedImage (Some image) w)).
Qed.

Lemma active_navigate caller link w :
  activeIsFront w → activeIsFront (navigate caller link w).1.
Proof.
  intros Hw. unfold navigate. case_match; [| done].
  assert (activeIsFront (zoomOutBuffer (frontBuffer w) w).1) as Hz
    by (apply active_updBuffer; [| done]; intros b; apply bufferZoomOut_kept).
  destruct (zoomOutBuffer (frontBuffer w) w) as [w1 [| e]]; [| done]. cbv zeta.
  apply active_await; [| intros; by apply active_setVisibility].
  by apply active_lightboxPresentImage, active_setVisibility.
Qed.

Lemma active_lightboxOpenHandler_repainted w :
  activeIsFront w → activeIsFront (lightboxOpenHandler_repainted w).1.
Proof.
  intros Hw. unfold lightboxOpenHandler_repainted. cbv zeta.
  match goal with |- context [Qgtb (lightboxTransitionDuration ?w1) 0] =>
    assert (activeIsFront w1) as Hw1
      by (apply active_updBuffer; [done |]; apply active_setVisibility; done) end.
  by case_match.
Qed.

Lemma active_lightboxOpenHandler_presented w :
  activeIsFront w → activeIsFront (lightboxOpenHandler_presented w).1.
Proof.
  intros Hw. unfold lightboxOpenHandler_presented. cbv zeta. case_match; [| done].
  by apply active_updBuffer.
Qed.

Lemma active_lightboxOpenHandler w :
  activeIsFront w → activeIsFront (lightboxOpenHandler w).1.
Proof.
  intros Hw. unfold lightboxOpenHandler. cbv zeta.
  destruct (closeOnScroll (config (set_lightboxState Opening w)));
    (case_match; [| done]);
    (apply active_await; [| apply active_lightboxOpenHandler_presented]);
    by apply active_lightboxPresentImage.
Qed.

Lemma active_lightboxCloseHandler_finish w :
  activeIsFront w → activeIsFront (lightboxCloseHandler_finish w).1.
Proof.
  intros Hw. unfold lightboxCloseHandler_finish. cbv zeta. case_match; [| done].
  assert (activeIsFront
            (updBuffer (frontBuffer (setVisibility false w)) (set_transform TNone)
               (setVisibility false w))) as Hw1
    by (apply active_updBuffer; [done |]; by apply active_setVisibility).
  by case_match.
Qed.

Lemma active_lightboxCloseHandler_measured w :
  activeIsFront w → activeIsFront (lightboxCloseHandler_measured w).1.
Proof.
  intros Hw. unfold lightboxCloseHandler_measured. cbv zeta. case_match; [| done].
  assert (activeIsFront (updBuffer (frontBuffer w) (set_transform TGeometry) w)) as Hw1
    by (by apply active_updBuffer).
  case_match; [done |]. by apply active_lightboxCloseHandler_finish.
Qed.

Lemma active_lightboxCloseHandler w :
  activeIsFront w → activeIsFront (lightboxCloseHandler w).1.
Proof.
  intros Hw. unfold lightboxCloseHandler. cbv zeta. case_match.
  - match goal with |- context [zoomOutBuffer ?id ?w1] =>
      assert (activeIsFront (zoomOutBuffer id w1).1) as Hz
        by (apply (active_updBuffer id _ w); [| done]; intros b; apply bufferZoomOut_kept);
      destruct (zoomOutBuffer id w1) as [w2 [| e]] end; done.
  - by apply active_lightboxCloseHandler_measured.
Qed.

Lemma active_resume f c w : activeIsFront w → activeIsFront (resume f c w).1.
Proof.
  intros Hw. destruct c as [| e].
  - destruct f; unfold resume; cbv beta iota.
    + by apply active_bufferSwap_exchange.
    + by apply active_bufferSwap_cleanup.
    + pose proof (active_bufferLoadPreview previewBuffer w Hw) as H'.
      by destruct (bufferLoadPreview previewBuffer w).
    + by apply active_presentPreview.
    + done.
    + pose proof (active_bufferLoadImage imageBuffer image w Hw) as H'.
      by destruct (bufferLoadImage imageBuffer image w).
    + done.
    + pose proof (active_bufferLoadPreview previewBuffer w Hw) as H'.
      by destruct (bufferLoadPreview previewBuffer w).
    + by apply active_presentPreview.
    + done.
    + by apply active_afterLoad.
    + done.
    + by apply active_setVisibility.
    + by apply active_setVisibility.
    + by apply active_lightboxOpenHandler_presented.
    + by apply active_lightboxOpenHandler_repainted.
    + done.
    + by apply active_lightboxCloseHandler_measured.
    + by apply active_lightboxCloseHandler_finish.
  - destruct f; unfold resume; cbv beta iota; try done.
    by apply active_presentCatch.
Qed.

Lemma active_unwind tid c stack w : activeIsFront w → activeIsFront (unwind tid c stack w).
Proof.
  revert c w. induction stack as [| f rest IH]; intros c w Hw.
  - simpl. by destruct c.
  - simpl. pose proof (active_resume f c w Hw) as H'.
    destruct (resume f c w) as [w' [c' | frames]]; cbn [fst] in H'; [by apply IH | done].
Qed.

Lemma active_deliver target c w : activeIsFront w → activeIsFront (deliver target c w).
Proof.
  intros Hw. unfold deliver.
  destruct (findWaiter target w) as [[tid stack] |]; [by apply active_unwind | done].
Qed.

Lemma active_spawn x : activeIsFront x.1 → activeIsFront (spawn x).
Proof. by destruct x as [w [[| e] | frames]]. Qed.

Lemma active_handle ev w : activeIsFront w → activeIsFront (handle ev w).
Proof.
  intros Hw. destruct ev; simpl.
  - by apply active_spawn, active_lightboxOpenHandler.
  - by apply active_spawn, active_navigate.
  - by apply active_spawn, active_navigate.
  - by apply active_spawn, active_lightboxCloseHandler.
  - unfold pictureClick. repeat case_match; try done.
    + apply active_updBuffer; [| done]. intros b0. apply bufferZoomIn_kept.
    + apply active_updBuffer; [| done]. intros b0. apply bufferZoomOut_kept.
  - apply active_updBuffer; [| done]. intros b. unfold panMove. by case_match.
  - case_match; [| done]. unfold lightboxScrollHandler. repeat case_match; try done.
    by apply active_spawn, active_lightboxCloseHandler.
  - unfold lightboxResizeHandler. case_match; [| done].
    by apply active_spawn, active_lightboxCloseHandler.
  - unfold repaint. repeat case_match; try done. by apply active_unwind.
  - unfold loadSettled. destruct (loads w !! load) as [[] |]; try done. cbv zeta.
    unfold settleRace.
    match goal with |- context [deliver (WLoad load) ?c ?w1] =>
      pose proof (active_deliver (WLoad load) c w1 Hw) as H';
      destruct (races (deliver (WLoad load) c w1) !! load) as [r |]; [| done] end.
    cbv zeta. destruct (race_promise r); [by apply active_deliver | done..].
  - unfold timerElapsed. repeat case_match; try done. by apply active_deliver.
  - unfold raceTimer. repeat case_match; try done. by apply active_deliver.
Qed.

Lemma active_drain w : activeIsFront w → activeIsFront (drain w).
Proof.
  intros Hw. unfold drain.
  assert (H : ∀ ts w0, activeIsFront w0 →
            activeIsFront (foldl (λ w t, deliver (WTimeout t) Normal w) w0 ts)).
  { induction ts as [| t ts IH]; intros w0 Hw0; [done |]. simpl.
    by apply IH, active_deliver. }
  by apply H.
Qed.

Lemma active_run w evs : activeIsFront w → activeIsFront (run w evs).
Proof.
  revert w. induction evs as [| ev evs IH]; intros w Hw; [done |].
  simpl. apply IH. unfold step. by apply active_drain, active_handle.
Qed.

Lemma active_init cfg measuredLightbox measuredBuffer measuredZoom scan :
  activeIsFront (init cfg measuredLightbox measuredBuffer measuredZoom scan).
Proof.
  intros id. unfold stateOf; simpl. destruct (decide (id = 0)) as [-> | Hne]; [done |].
  by rewrite lookup_singleton_ne.
Qed.

(** ** The swap chain holds image buffers only *)

Lemma apart_extends w w' f : extends w w' → apart w f → apart w' f.
Proof.
  intros (_ & Hf & _ & Hn) Hw p Hp. destruct (Hw p Hp) as [Hlt Hout].
  split; [lia |]. intros image H. destruct (Hn image p H) as [H' | H']; [| lia].
  by apply (Hout image).
Qed.

Lemma stack_single w f : previewOf f = None → Forall (apart w) [f].
Proof. intros Hf. constructor; [| done]. intros p Hp. congruence. Qed.

Lemma stack_extends w w' (stack : list Frame) :
  extends w w' → Forall (apart w) stack → Forall (apart w') stack.
Proof.
  intros He H. eapply Forall_impl; [exact H |]. intros f. by apply apart_extends.
Qed.

Lemma aparts_extends w w' (ts : list (nat * list Frame)) :
  extends w w' → Forall (λ t, Forall (apart w) t.2) ts →
  Forall (λ t, Forall (apart w') t.2) ts.
Proof.
  intros He H. eapply Forall_impl; [exact H |]. intros t. by apply stack_extends.
Qed.

Lemma cached_updBuffer id f w :
  (∀ b, isPreview b = false → attached b = true →
        isPreview (f b) = false ∧ attached (f b) = true) →
  cached w → cached (updBuffer id f w).
Proof.
  intros Hf (Hc & Hi & Ht). split; [| by split].
  intros image id' Hid. destruct (Hc image id' Hid) as (Hlt & b & Hb & Hp & Ha).
  split; [done |]. unfold updBuffer; simpl.
  destruct (decide (id = id')) as [-> | Hne].
  - rewrite lookup_alter_eq, Hb. simpl. exists (f b). split; [done |]. by apply Hf.
  - rewrite lookup_alter_ne by done. by exists b.
Qed.

Lemma cached_updBuffer_apart id f w :
  (∀ image, swapChain w !! image ≠ Some id) → cached w → cached (updBuffer id f w).
Proof.
  intros Hout (Hc & Hi & Ht). split; [| by split].
  intros image id' Hid. destruct (Hc image id' Hid) as (Hlt & b & Hb & Hp & Ha).
  split; [done |]. unfold updBuffer; simpl.
  rewrite lookup_alter_ne by (intros ->; by apply (Hout image)). by exists b.
Qed.

Lemma cached_setVisibility v w : cached w → cached (setVisibility v w).
Proof. unfold setVisibility. by destruct (presentedImage w). Qed.

Lemma cached_fresh n w : fresh w ≤ n → cached w → cached (set_fresh n w).
Proof.
  intros Hn (Hc & Hi & Ht). split; [| split; [done |]].
  - intros image id Hid. destruct (Hc image id Hid) as [Hlt Hb]. split; [simpl; lia | done].
  - revert Ht. apply aparts_extends. by apply extends_same.
Qed.

Lemma cached_newTimeout d w : cached w → cached (newTimeout d w).2.
Proof. intros Hw. apply (cached_fresh (S (fresh w))); [simpl; lia | done]. Qed.

Lemma cached_newLoad w : cached w → cached (newLoad w).2.
Proof. intros Hw. apply (cached_fresh (S (fresh w))); [simpl; lia | done]. Qed.

Lemma cached_tasks ts w :
  Forall (λ t, Forall (apart w) t.2) ts → cached w → cached (set_tasks ts w).
Proof. intros Hts (Hc & Hi & _). by split. Qed.

(** A new buffer is attached, holds no preview and is in no entry. *)
Lemma cached_createAttachedBuffer w :
  cached w →
  cached (createAttachedBuffer w).2
  ∧ (createAttachedBuffer w).1 = fresh w
  ∧ fresh (createAttachedBuffer w).2 = S (fresh w)
  ∧ swapChain (createAttachedBuffer w).2 = swapChain w
  ∧ tasks (createAttachedBuffer w).2 = tasks w
  ∧ buffers (createAttachedBuffer w).2 !! fresh w
    = Some (set_attached true (createBuffer (config w) Loading false)).
Proof.
  intros (Hc & Hi & Ht).
  split; [| split; [done |]; split; [done |]; split; [done |]; split; [done |]].
  - split; [| split; [done |]].
    + intros image id Hid. destruct (Hc image id Hid) as (Hlt & b & Hb & Hp & Ha).
      split; [simpl; lia |]. simpl. rewrite lookup_insert_ne by lia. by exists b.
    + revert Ht. apply aparts_extends. apply extends_createAttachedBuffer.
  - simpl. by rewrite lookup_insert_eq.
Qed.

Lemma soundly_here w r : cached w → resultApart w r → soundly (w, r).
Proof. by split. Qed.

Lemma cached_cancelHideTransition buffer w :
  cached w → cached (cancelHideTransition buffer w).1.
Proof.
  intros Hw. unfold cancelHideTransition.
  destruct (buffers w !! buffer ≫= hideTransition) as [t |]; [| done].
  destruct (timeouts w !! t) as [tm |]; [| done].
  destruct (cancel JUndefined tm).2; simpl; [| done].
  by apply cached_updBuffer.
Qed.

(** The cleanup removes the wrapper of a preview only, and a buffer of the
    swap chain is none. *)
Lemma cached_bufferSwap_cleanup backBuffer w :
  cached w → soundly (bufferSwap_cleanup backBuffer w).
Proof.
  intros Hw. unfold bufferSwap_cleanup. cbv zeta.
  assert (cached (updBuffer backBuffer (set_hideTransition None) w)) as Hw1
    by (by apply cached_updBuffer).
  destruct (buffers (updBuffer backBuffer (set_hideTransition None) w) !! backBuffer)
    as [b |] eqn:Hb; [| by apply soundly_here].
  case_bool_decide; [| by apply soundly_here].
  destruct (isPreview b) eqn:Hp; apply soundly_here; try done.
  - apply cached_updBuffer_apart; [| done]. intros image Hin.
    destruct Hw1 as (Hc & _ & _).
    destruct (Hc image backBuffer Hin) as (_ & b' & Hb' & Hp' & _). congruence.
  - by apply cached_updBuffer.
Qed.

Lemma cached_bufferSwap_exchange immediate buffer backBuffer w :
  cached w → soundly (bufferSwap_exchange immediate buffer backBuffer w).
Proof.
  intros Hw. unfold bufferSwap_exchange. cbv zeta.
  assert (cached
            (updBuffer backBuffer (set_className [])
               (updBuffer buffer
                  (set_className
                     (tokens (bufferClassFront (config w) ++ " " ++ bufferClassActive (config w))))
                  w))) as Hw'
    by (do 2 (apply cached_updBuffer; [done |]); done).
  destruct immediate; [by apply cached_bufferSwap_cleanup |].
  apply soundly_here.
  - apply cached_updBuffer; [done |]. by apply cached_newTimeout.
  - by apply stack_single.
Qed.

Lemma cached_bufferSwap buffer w : cached w → soundly (bufferSwap buffer w).
Proof.
  intros Hw. unfold bufferSwap. case_bool_decide; [by apply soundly_here |]. cbv zeta.
  match goal with |- context [cancelHideTransition ?b ?w1] =>
    assert (cached w1) as Hw1
      by (do 2 (apply cached_updBuffer; [done |]); done);
    pose proof (cached_cancelHideTransition b w1 Hw1) as Hw2;
    destruct (cancelHideTransition b w1) as [w2 [| e]] end; cbn [fst snd] in *.
  - case_match.
    + apply cached_bufferSwap_exchange. by apply cached_updBuffer.
    + apply soundly_here; [| by apply stack_single].
      do 3 (apply cached_updBuffer; [done |]). done.
  - by apply soundly_here.
Qed.

Lemma await_soundly caller callee k :
  previewOf caller = None → soundly callee →
  (∀ w, cached w → soundly (k w)) → soundly (await caller callee k).
Proof.
  intros Hcaller [Hw Hr] Hk. destruct callee as [w [[| e] | frames]]; simpl in *.
  - by apply Hk.
  - by apply soundly_here.
  - apply soundly_here; [done |]. apply Forall_app. split; [done |].
    constructor; [| done]. intros p Hp. congruence.
Qed.

Lemma returns_soundly w : cached w → soundly (returns w).
Proof. intros. by apply soundly_here. Qed.

Lemma cached_afterLoad image imageBuffer w :
  cached w → soundly (afterLoad image imageBuffer w).
Proof.
  intros Hw. unfold afterLoad. case_match.
  - apply await_soundly; [done | by apply cached_bufferSwap | apply returns_soundly].
  - apply soundly_here; [| done]. do 3 (apply cached_updBuffer; [done |]). done.
Qed.

Lemma cached_presentPreview caller stillWanted previewBuffer w :
  previewOf caller = None →
  (∀ image, swapChain w !! image ≠ Some previewBuffer) → cached w →
  soundly (presentPreview caller stillWanted previewBuffer w).
Proof.
  intros Hcaller Hout Hw. unfold presentPreview. destruct stillWanted.
  - apply await_soundly; [done | by apply cached_bufferSwap | apply returns_soundly].
  - apply soundly_here; [| done]. by apply cached_updBuffer_apart.
Qed.

Lemma cached_presentRace image imageBuffer load w :
  cached w → soundly (presentRace image imageBuffer load w).
Proof.
  intros Hw. unfold presentRace. cbv zeta.
  apply soundly_here; [| by apply stack_single].
  assert (cached (set_fresh (S (fresh w)) w)) as Hw1 by (apply cached_fresh; [lia | done]).
  destruct Hw1 as (Hc & Hi & Ht). split; [done |]. split; [done |]. simpl.
  apply Forall_app. split; [done |]. constructor; [| done]. by apply stack_single.
Qed.

Lemma cached_presentCatch image imageBuffer e w :
  cached w → soundly (presentCatch image imageBuffer e w).
Proof.
  intros Hw. unfold presentCatch. case_match; [by apply soundly_here |].
  destruct (cached_createAttachedBuffer w Hw) as (Hw' & Hid & Hfresh & Hchain & _ & _).
  destruct (createAttachedBuffer w) as [previewBuffer w']. cbn [fst snd] in *.
  apply soundly_here; [done |]. constructor; [| done]. intros p [= <-]. subst previewBuffer.
  split; [lia |]. intros image' Hin. rewrite Hchain in Hin.
  destruct Hw as (Hc & _ & _). destruct (Hc image' (fresh w) Hin) as [Hlt _]. lia.
Qed.

Lemma cached_bufferLoadPreview buffer w :
  (∀ image, swapChain w !! image ≠ Some buffer) → cached w →
  cached (bufferLoadPreview buffer w).2.
Proof.
  intros Hout Hw. unfold bufferLoadPreview. cbv zeta.
  apply cached_newLoad. by apply cached_updBuffer_apart.
Qed.

Lemma cached_bufferLoadImage buffer from w :
  cached w → cached (bufferLoadImage buffer from w).2.
Proof.
  intros Hw. unfold bufferLoadImage. cbv zeta.
  apply cached_newLoad. apply cached_updBuffer; [| done]. intros b Hp Ha. by split.
Qed.

Lemma cached_lightboxOpenHandler_repainted w :
  cached w → soundly (lightboxOpenHandler_repainted w).
Proof.
  intros Hw. unfold lightboxOpenHandler_repainted. cbv zeta.
  match goal with |- context [Qgtb (lightboxTransitionDuration ?w1) 0] =>
    assert (cached w1) as Hw1
      by (apply cached_updBuffer; [done |]; apply cached_setVisibility; done) end.
  case_match.
  - apply soundly_here; [by apply cached_newTimeout |].
    by apply stack_single.
  - by apply soundly_here.
Qed.

Lemma cached_lightboxOpenHandler_presented w :
  cached w → soundly (lightboxOpenHandler_presented w).
Proof.
  intros Hw. unfold lightboxOpenHandler_presented. cbv zeta. case_match.
  - apply soundly_here; [by apply cached_updBuffer |].
    by apply stack_single.
  - by apply soundly_here.
Qed.

Lemma cached_lightboxCloseHandler_finish w :
  cached w → soundly (lightboxCloseHandler_finish w).
Proof.
  intros Hw. unfold lightboxCloseHandler_finish. cbv zeta.
  case_match; [| by apply soundly_here].
  apply soundly_here; [| done].
  assert (cached
            (updBuffer (frontBuffer (setVisibility false w)) (set_transform TNone)
               (setVisibility false w))) as Hw1
    by (apply cached_updBuffer; [done |]; by apply cached_setVisibility).
  by case_match.
Qed.

Lemma cached_lightboxCloseHandler_measured w :
  cached w → soundly (lightboxCloseHandler_measured w).
Proof.
  intros Hw. unfold lightboxCloseHandler_measured. cbv zeta.
  case_match; [| by apply soundly_here].
  assert (cached (updBuffer (frontBuffer w) (set_transform TGeometry) w)) as Hw1
    by (by apply cached_updBuffer).
  case_match.
  - apply soundly_here; [apply cached_newTimeout; exact Hw1 |].
    by apply stack_single.
  - by apply cached_lightboxCloseHandler_finish.
Qed.

Lemma cached_resume f c w : apart w f → cached w → soundly (resume f c w).
Proof.
  intros Hf Hw. destruct c as [| e].
  - destruct f; unfold resume; cbv beta iota.
    + by apply cached_bufferSwap_exchange.
    + by apply cached_bufferSwap_cleanup.
    + destruct (Hf previewBuffer eq_refl) as [Hlt Hout].
      pose proof (cached_bufferLoadPreview previewBuffer w Hout Hw) as Hw'.
      pose proof (extends_bufferLoadPreview previewBuffer w) as He.
      destruct (bufferLoadPreview previewBuffer w) as [load w']. cbn [snd] in *.
      apply soundly_here; [done |]. constructor; [| done].
      apply (apart_extends w); [done |]. intros p [= <-]. by split.
    + destruct (Hf previewBuffer eq_refl) as [Hlt Hout]. by apply cached_presentPreview.
    + by apply returns_soundly.
    + pose proof (cached_bufferLoadImage imageBuffer image w Hw) as Hw'.
      destruct (bufferLoadImage imageBuffer image w) as [load w'].
      by apply cached_presentRace.
    + by apply soundly_here.
    + destruct (Hf previewBuffer eq_refl) as [Hlt Hout].
      pose proof (cached_bufferLoadPreview previewBuffer w Hout Hw) as Hw'.
      pose proof (extends_bufferLoadPreview previewBuffer w) as He.
      destruct (bufferLoadPreview previewBuffer w) as [load w']. cbn [snd] in *.
      apply soundly_here; [done |]. constructor; [| done].
      apply (apart_extends w); [done |]. intros p [= <-]. by split.
    + destruct (Hf previewBuffer eq_refl) as [Hlt Hout]. by apply cached_presentPreview.
    + by apply returns_soundly.
    + by apply cached_afterLoad.
    + by apply returns_soundly.
    + apply soundly_here; [by apply cached_setVisibility | done].
    + apply soundly_here; [by apply cached_setVisibility | done].
    + by apply cached_lightboxOpenHandler_presented.
    + by apply cached_lightboxOpenHandler_repainted.
    + by apply soundly_here.
    + by apply cached_lightboxCloseHandler_measured.
    + by apply cached_lightboxCloseHandler_finish.
  - destruct f; unfold resume; cbv beta iota; try by apply soundly_here.
    by apply cached_presentCatch.
Qed.

Lemma cached_setStack tid stack w :
  Forall (apart w) stack → cached w → cached (setStack tid stack w).
Proof.
  intros Hstack Hw. unfold setStack. apply cached_tasks; [| done].
  destruct Hw as (_ & _ & Htasks). destruct stack as [| f rest].
  - apply Forall_forall. intros x Hx. apply list_elem_of_filter in Hx as [_ Hx].
    rewrite Forall_forall in Htasks. by apply Htasks.
  - apply Forall_fmap. eapply Forall_impl; [exact Htasks |].
    intros [tid' stack'] Hok. simpl. by case_bool_decide.
Qed.

Lemma cached_unwind tid c stack w :
  Forall (apart w) stack → cached w → cached (unwind tid c stack w).
Proof.
  revert c w. induction stack as [| f rest IH]; intros c w Hstack Hw.
  - simpl. pose proof (cached_setStack tid [] w Hstack Hw) as Hw'.
    by destruct c.
  - apply Forall_cons in Hstack as [Hf Hrest]. simpl.
    destruct (cached_resume f c w Hf Hw) as [Hw' Hr].
    pose proof (extends_resume f c w) as He.
    destruct (resume f c w) as [w' [c' | frames]]; cbn [fst snd] in *.
    + apply IH; [| done]. by apply (stack_extends w).
    + apply cached_setStack; [| done]. apply Forall_app. split; [done |].
      by apply (stack_extends w).
Qed.

Lemma cached_deliver target c w : cached w → cached (deliver target c w).
Proof.
  intros Hw. unfold deliver.
  destruct (findWaiter target w) as [[tid stack] |] eqn:E; [| done].
  apply cached_unwind; [| done].
  destruct Hw as (_ & _ & Htasks). rewrite Forall_forall in Htasks.
  apply findWaiter_elem in E. by apply (Htasks (tid, stack)).
Qed.

Lemma cached_spawn x : soundly x → cached (spawn x).
Proof.
  intros [Hw Hr]. destruct x as [w [[| e] | frames]]; simpl in *.
  - done.
  - by apply (cached_fresh (S (fresh w))); [simpl; lia |].
  - assert (cached (set_fresh (S (fresh w)) w)) as Hw1
      by (apply cached_fresh; [lia | done]).
    destruct Hw1 as (Hc & Hi & Ht). split; [done |]. split; [done |]. simpl.
    apply Forall_app. split; [done |]. constructor; [| done]. simpl.
    revert Hr. apply stack_extends. apply extends_same; simpl; [done | lia | done].
Qed.

(** [lightboxPresentImage] enters a buffer into the swap chain only when it
    has just created it for the image. *)
Lemma cached_lightboxPresentImage image w :
  cached w → soundly (lightboxPresentImage image w).
Proof.
  intros Hw. unfold lightboxPresentImage. cbv zeta.
  assert (cached (set_presentedImage (Some image) w)) as Hw1 by done.
  destruct (cached_createAttachedBuffer _ Hw1)
    as (Hw2 & Hid & Hfresh & Hchain & Htasks & Hbuf).
  destruct (swapChain w !! image) as [retrieved |] eqn:Hget.
  - case_bool_decide.
    + destruct (createAttachedBuffer (set_presentedImage (Some image) w))
        as [previewBuffer w2]. cbn [fst snd] in *.
      apply soundly_here; [done |]. constructor; [| done]. intros p [= <-]. subst previewBuffer.
      split; [simpl in *; lia |]. intros image' Hin. rewrite Hchain in Hin. simpl in Hin.
      destruct Hw as (Hc & _ & _). destruct (Hc image' (fresh w) Hin) as [Hlt _]. lia.
    + pose proof (cached_newLoad _ Hw1) as Hw3.
      destruct (newLoad (set_presentedImage (Some image) w)) as [load w3].
      by apply cached_presentRace.
  - pose proof (extends_lightboxPresentImage image w) as He.
    unfold lightboxPresentImage in He. cbv zeta in He. rewrite Hget in He.
    destruct (createAttachedBuffer (set_presentedImage (Some image) w))
      as [imageBuffer w2]. cbn [fst snd] in *. subst imageBuffer.
    apply soundly_here; [| by apply stack_single].
    destruct Hw as (Hc & Hi & Ht). destruct Hw2 as (Hc2 & Hi2 & Ht2).
    simpl in Hchain, Hfresh, Htasks. split; [| split].
    + intros image' id. simpl. rewrite Hchain.
      destruct (decide (image = image')) as [-> | Hne].
      * rewrite lookup_insert_eq. intros [= <-]. split; [lia |].
        eexists. split; [exact Hbuf | by split].
      * rewrite lookup_insert_ne by done. intros Hin. apply (Hc2 image' id).
        by rewrite Hchain.
    + intros i j id. simpl. rewrite Hchain.
      destruct (decide (i = image)) as [Ei | Ei], (decide (j = image)) as [Ej | Ej].
      * congruence.
      * subst i. rewrite lookup_insert_eq, lookup_insert_ne by done.
        intros [= <-] Hin. destruct (Hc j (fresh w) Hin) as [Hlt _]. lia.
      * subst j. rewrite lookup_insert_eq, lookup_insert_ne by done.
        intros Hin [= <-]. destruct (Hc i (fresh w) Hin) as [Hlt _]. lia.
      * rewrite !lookup_insert_ne by done. apply Hi.
    + simpl. rewrite Htasks. revert Ht. apply aparts_extends. exact He.
Qed.

Lemma bufferZoomOut_cached cfg b :
  isPreview b = false → attached b = true →
  isPreview (bufferZoomOut cfg b).1 = false ∧ attached (bufferZoomOut cfg b).1 = true.
Proof.
  intros Hp Ha. destruct (bufferZoomOut_kept cfg b) as (_ & _ & -> & ->). done.
Qed.

Lemma bufferZoomIn_cached cfg lightbox rect b :
  isPreview b = false → attached b = true →
  isPreview (bufferZoomIn cfg lightbox rect b).1 = false
  ∧ attached (bufferZoomIn cfg lightbox rect b).1 = true.
Proof.
  intros Hp Ha. destruct (bufferZoomIn_kept cfg lightbox rect b) as (_ & _ & -> & ->). done.
Qed.

Lemma cached_navigate caller link w :
  previewOf caller = None → cached w → soundly (navigate caller link w).
Proof.
  intros Hcaller Hw. unfold navigate. case_match; [| by apply soundly_here].
  assert (cached (zoomOutBuffer (frontBuffer w) w).1) as Hz
    by (apply cached_updBuffer; [| done]; intros b; apply bufferZoomOut_cached).
  destruct (zoomOutBuffer (frontBuffer w) w) as [w1 [| e]]; [| by apply soundly_here].
  cbv zeta. apply await_soundly; [done | |].
  - by apply cached_lightboxPresentImage, cached_setVisibility.
  - intros w' Hw'. apply soundly_here; [by apply cached_setVisibility | done].
Qed.

Lemma cached_lightboxOpenHandler w : cached w → soundly (lightboxOpenHandler w).
Proof.
  intros Hw. unfold lightboxOpenHandler. cbv zeta.
  destruct (closeOnScroll (config (set_lightboxState Opening w)));
    (case_match; [| by apply soundly_here]);
    (apply await_soundly;
       [done | by apply cached_lightboxPresentImage
       | apply cached_lightboxOpenHandler_presented]).
Qed.

Lemma cached_lightboxCloseHandler w : cached w → soundly (lightboxCloseHandler w).
Proof.
  intros Hw. unfold lightboxCloseHandler. cbv zeta. case_match.
  - match goal with |- context [zoomOutBuffer ?id ?w1] =>
      assert (cached (zoomOutBuffer id w1).1) as Hz
        by (apply (cached_updBuffer id _ w); [| done]; intros b; apply bufferZoomOut_cached);
      destruct (zoomOutBuffer id w1) as [w2 [| e]] end; [| by apply soundly_here].
    apply soundly_here; [| by apply stack_single]. by apply cached_newTimeout.
  - by apply cached_lightboxCloseHandler_measured.
Qed.

Lemma cached_settleRace load c w : cached w → cached (settleRace load c w).
Proof.
  intros Hw. unfold settleRace. destruct (races w !! load) as [r |]; [| done].
  cbv zeta. destruct (race_promise r); [by apply cached_deliver | done..].
Qed.

Lemma cached_handle ev w : cached w → cached (handle ev w).
Proof.
  intros Hw. destruct ev; simpl.
  - by apply cached_spawn, cached_lightboxOpenHandler.
  - by apply cached_spawn, cached_navigate.
  - by apply cached_spawn, cached_navigate.
  - by apply cached_spawn, cached_lightboxCloseHandler.
  - unfold pictureClick. repeat case_match; try done.
    + apply cached_updBuffer; [| done]. intros b0. apply bufferZoomIn_cached.
    + apply cached_updBuffer; [| done]. intros b0. apply bufferZoomOut_cached.
  - apply cached_updBuffer; [| done]. intros b Hp Ha. unfold panMove. by case_match.
  - case_match; [| done]. unfold lightboxScrollHandler. repeat case_match; try done.
    by apply cached_spawn, cached_lightboxCloseHandler.
  - unfold lightboxResizeHandler. case_match; [| done].
    by apply cached_spawn, cached_lightboxCloseHandler.
  - unfold repaint. repeat case_match; try done. apply cached_unwind; [| done].
    destruct Hw as (_ & _ & Htasks). rewrite Forall_forall in Htasks.
    match goal with H : List.find _ _ = Some _ |- _ => apply find_some in H as [Hin Hid] end.
    apply bool_decide_eq_true in Hid. simpl in Hid. subst.
    match goal with H : In (?t, ?l) _ |- _ =>
      by apply (Htasks (t, l)), list_elem_of_In end.
  - unfold loadSettled. destruct (loads w !! load) as [[] |]; try done.
    cbv zeta. by apply cached_settleRace, cached_deliver.
  - unfold timerElapsed. repeat case_match; try done. by apply cached_deliver.
  - unfold raceTimer. repeat case_match; try done. by apply cached_deliver.
Qed.

Lemma cached_drain w : cached w → cached (drain w).
Proof.
  intros Hw. unfold drain.
  assert (H : ∀ ts w0, cached w0 →
            cached (foldl (λ w t, deliver (WTimeout t) Normal w) w0 ts)).
  { induction ts as [| t ts IH]; intros w0 Hw0; [done |]. simpl.
    by apply IH, cached_deliver. }
  by apply H.
Qed.

Lemma cached_run w evs : cached w → cached (run w evs).
Proof.
  revert w. induction evs as [| ev evs IH]; intros w Hw; [done |].
  simpl. apply IH. unfold step. by apply cached_drain, cached_handle.
Qed.

Lemma cached_init cfg measuredLightbox measuredBuffer measuredZoom scan :
  cached (init cfg measuredLightbox measuredBuffer measuredZoom scan).
Proof. split; [done |]. split; [done | constructor]. Qed.

(** ** What holds at any time after [init] *)

Lemma links_reference (l l' : list ImageReference) i :
  reference <$> l' = reference <$> l →
  nextOf l' i = nextOf l i ∧ previousOf l' i = previousOf l i.
Proof.
  intros E. assert (H : reference <$> l' !! i = reference <$> l !! i)
    by (by rewrite <- !list_lookup_fmap, E).
  unfold nextOf, previousOf.
  destruct (l' !! i) as [r' |], (l !! i) as [r |]; simpl in *; try done.
  injection H as _ _ _ _ Hn Hp. by rewrite Hn, Hp.
Qed.

Lemma run_links w evs i :
  nextOf (images (run w evs)) i = nextOf (images w) i
  ∧ previousOf (images (run w evs)) i = previousOf (images w) i.
Proof.
  destruct (extends_run w evs) as (Hb & _). apply links_reference.
  unfold blueprint in Hb. by injection Hb.
Qed.

(** X15: whatever events follow, the configuration, the measured
    durations and every image reference but for the visibility of its image
    stay as they were: the engine treats them as read-only. *)
Theorem references_are_readonly (w : World) (evs : list Event) :
  config (run w evs) = config w
  ∧ lightboxTransitionDuration (run w evs) = lightboxTransitionDuration w
  ∧ bufferTransitionDuration (run w evs) = bufferTransitionDuration w
  ∧ zoomTransitionDuration (run w evs) = zoomTransitionDuration w
  ∧ length (images (run w evs)) = length (images w)
  ∧ ∀ i, nextOf (images (run w evs)) i = nextOf (images w) i
         ∧ previousOf (images (run w evs)) i = previousOf (images w) i
         ∧ tag <$> images (run w evs) !! i = tag <$> images w !! i
         ∧ zoom <$> images (run w evs) !! i = zoom <$> images w !! i.
Proof.
  destruct (extends_run w evs) as (Hb & _). unfold blueprint in Hb.
  injection Hb as Hc Hl Hbd Hz Hr. repeat (split; [done |]). split.
  - by rewrite <- (length_fmap reference), Hr, length_fmap.
  - intros i. destruct (links_reference _ _ i Hr) as [Hn Hp].
    split; [done |]. split; [done |].
    assert (H : reference <$> images (run w evs) !! i = reference <$> images w !! i)
      by (by rewrite <- !list_lookup_fmap, Hr).
    destruct (images (run w evs) !! i) as [r' |], (images w !! i) as [r |];
      simpl in *; try done.
    injection H as Ht Hzoom _ _ _ _. by rewrite Ht, Hzoom.
Qed.

(** X16: the swap chain is a cache that is never emptied: an image
    that has a buffer keeps that buffer, whatever events follow. *)
Theorem swap_chain_keeps_buffers (w : World) (evs : list Event) (image id : nat) :
  swapChain w !! image = Some id → swapChain (run w evs) !! image = Some id.
Proof. destruct (extends_run w evs) as (_ & _ & Hm & _). apply Hm. Qed.

Lemma swap_chain_keeps_buffers_witness :
  swapChain (run (run page openFirst) [ClickNext; Repaint 7; ClickClose; ClickPrevious])
    !! 0 = Some 1.
Proof.
  apply (swap_chain_keeps_buffers (run page openFirst)
           [ClickNext; Repaint 7; ClickClose; ClickPrevious] 0 1).
  vm_compute. reflexivity.
Defined.

(** X17: after [init], whatever events follow, a buffer that is
    Active is the front buffer: there are never two Active buffers. *)
Theorem only_the_front_buffer_is_active (cfg : Config)
    (measuredLightbox measuredBuffer measuredZoom : Q) (scan : list ScannedImage)
    (evs : list Event) (id : nat) :
  stateOf id (run (init cfg measuredLightbox measuredBuffer measuredZoom scan) evs)
  = Some Active →
  id = frontBuffer (run (init cfg measuredLightbox measuredBuffer measuredZoom scan) evs).
Proof. apply active_run, active_init. Qed.

Lemma only_the_front_buffer_is_active_witness :
  1 = frontBuffer (run page openFirst).
Proof.
  apply (only_the_front_buffer_is_active defaultConfig 300 200 100
           [sampleImage; sampleImage; sampleImage] openFirst 1).
  vm_compute. reflexivity.
Defined.

(** X18: after [init], whatever events follow, the buffer that the
    swap chain holds for an image is in the document and holds no preview; it
    is not the placeholder, and no two images share a buffer. *)
Theorem cached_buffers_stay_attached (cfg : Config)
    (measuredLightbox measuredBuffer measuredZoom : Q) (scan : list ScannedImage)
    (evs : list Event) (image id : nat) :
  swapChain (run (init cfg measuredLightbox measuredBuffer measuredZoom scan) evs)
    !! image = Some id →
  id ≠ 0
  ∧ (∃ b, buffers (run (init cfg measuredLightbox measuredBuffer measuredZoom scan) evs)
            !! id = Some b
          ∧ isPreview b = false ∧ attached b = true)
  ∧ ∀ other,
      swapChain (run (init cfg measuredLightbox measuredBuffer measuredZoom scan) evs)
        !! other = Some id → other = image.
Proof.
  intros Hin.
  destruct (cached_run _ evs (cached_init cfg measuredLightbox measuredBuffer
                                measuredZoom scan)) as (Hc & Hi & _).
  destruct (Hc image id Hin) as (_ & b & Hb & Hp & Ha).
  split; [| split; [by exists b |]].
  - intros ->.
    destruct (run_safe _ evs (init_safe cfg measuredLightbox measuredBuffer
                                measuredZoom scan)) as (H0 & _).
    rewrite Hb in H0. simpl in H0. congruence.
  - intros other Hother. by apply (Hi other image id).
Qed.

Lemma cached_buffers_stay_attached_witness :
  1 ≠ 0
  ∧ (∃ b, buffers (run page navigatedWhileClosing) !! 1 = Some b
          ∧ isPreview b = false ∧ attached b = true)
  ∧ ∀ other, swapChain (run page navigatedWhileClosing) !! other = Some 1 → other = 0.
Proof.
  apply (cached_buffers_stay_attached defaultConfig 300 200 100
           [sampleImage; sampleImage; sampleImage] navigatedWhileClosing 0 1).
  vm_compute. reflexivity.
Defined.

(** ** Galleries of any size, at any time *)

(** X19: in gallery mode, whatever the size of a gallery and
    whatever events have followed [init]: consecutive members (in scan order,
    other images may lie between them) are linked both ways; the first and
    the last are linked to each other when looping is enabled and the gallery
    has two members or more, and have null links otherwise. *)
Theorem gallery_links_any_size (cfg : Config)
    (measuredLightbox measuredBuffer measuredZoom : Q) (scan : list ScannedImage)
    (evs : list Event) (g : string) :
  galleryMode cfg = true → g ≠ ""%string →
  (∀ k x y,
     members g scan !! k = Some x → members g scan !! S k = Some y →
     nextOf (images (run (init cfg measuredLightbox measuredBuffer measuredZoom scan)
                       evs)) x = Some y
     ∧ previousOf (images (run (init cfg measuredLightbox measuredBuffer measuredZoom
                                  scan) evs)) y = Some x)
  ∧ (∀ h t,
       head (members g scan) = Some h → last (members g scan) = Some t →
       if galleryLoop cfg && bool_decide (2 ≤ length (members g scan))
       then previousOf (images (run (init cfg measuredLightbox measuredBuffer
                                       measuredZoom scan) evs)) h = Some t
            ∧ nextOf (images (run (init cfg measuredLightbox measuredBuffer
                                     measuredZoom scan) evs)) t = Some h
       else previousOf (images (run (init cfg measuredLightbox measuredBuffer
                                       measuredZoom scan) evs)) h = None
            ∧ nextOf (images (run (init cfg measuredLightbox measuredBuffer
                                     measuredZoom scan) evs)) t = None).
Proof.
  intros Hmode Hg.
  destruct (gathered_links cfg scan Hmode) as (_ & Hchain & Hends & _).
  split.
  - intros k x y Hx Hy.
    destruct (run_links (init cfg measuredLightbox measuredBuffer measuredZoom scan)
                evs x) as [-> _].
    destruct (run_links (init cfg measuredLightbox measuredBuffer measuredZoom scan)
                evs y) as [_ ->].
    by apply (Hchain g k).
  - intros h t Hh Ht.
    destruct (run_links (init cfg measuredLightbox measuredBuffer measuredZoom scan)
                evs h) as [_ ->].
    destruct (run_links (init cfg measuredLightbox measuredBuffer measuredZoom scan)
                evs t) as [-> _].
    specialize (Hends g h t Hg Hh Ht).
    pose proof (head_last_distinct _ h t (members_NoDup g scan) Hh Ht) as Hiff.
    destruct (decide (h = t)) as [-> | Hne].
    + rewrite (bool_decide_eq_false_2 (t ≠ t)) in Hends by (intros E; by apply E).
      rewrite (bool_decide_eq_false_2 (2 ≤ _)); [done |].
      intros Hlen. by apply Hiff in Hlen.
    + rewrite (bool_decide_eq_true_2 (h ≠ t)) in Hends by done.
      rewrite (bool_decide_eq_true_2 (2 ≤ _)); [done |]. by apply Hiff.
Qed.

Lemma gallery_links_any_size_witness :
  nextOf (images (run page openFirst)) 2 = Some 0
  ∧ previousOf (images (run page openFirst)) 0 = Some 2.
Proof.
  destruct (gallery_links_any_size defaultConfig 300 200 100
              [sampleImage; sampleImage; sampleImage] openFirst "g")
    as [_ Hends]; [reflexivity | discriminate |].
  destruct (Hends 0 2) as [Hp Hn]; [reflexivity | reflexivity |].
  split; [exact Hn | exact Hp].
Defined.

(** In gallery mode [next] and [previous] are exactly the successor and the
    predecessor within the gallery. *)
Lemma gathered_follows cfg scan i j :
  galleryMode cfg = true →
  (nextOf (gatherImages cfg scan) i = Some j ↔ follows (galleryLoop cfg) scan i j)
  ∧ (previousOf (gatherImages cfg scan) j = Some i ↔ follows (galleryLoop cfg) scan i j).
Proof.
  intros Hmode.
  destruct (gathered_links cfg scan Hmode) as (Hlen & Hchain & Hends & Hun).
  (* where an image sits *)
  assert (Hplace : ∀ x, x < length scan →
            scanTag <$> scan !! x = Some ""%string
            ∨ ∃ g k, g ≠ ""%string ∧ members g scan !! k = Some x).
  { intros x Hx. destruct (lookup_lt_is_Some_2 scan x Hx) as [s Hs].
    destruct (decide (scanTag s = ""%string)) as [E | E].
    - left. by rewrite Hs, <- E.
    - right. exists (scanTag s).
      assert (x ∈ members (scanTag s) scan) as Hin
        by (apply members_elem; split; [done | by rewrite Hs]).
      apply list_elem_of_lookup_1 in Hin as [k Hk]. by exists k. }
  assert (Hout : ∀ x, length scan ≤ x →
            nextOf (gatherImages cfg scan) x = None
            ∧ previousOf (gatherImages cfg scan) x = None).
  { intros x Hx. unfold nextOf, previousOf.
    by rewrite lookup_ge_None_2 by (rewrite Hlen; lia). }
  assert (Hforward : follows (galleryLoop cfg) scan i j →
            nextOf (gatherImages cfg scan) i = Some j
            ∧ previousOf (gatherImages cfg scan) j = Some i).
  { intros (g & k & Hg & Hi & [Hj | (Hloop & Hk & Hlen2 & Hj)]).
    - by apply (Hchain g k).
    - assert (Hh : head (members g scan) = Some j) by (by rewrite head_lookup).
      assert (Ht : last (members g scan) = Some i)
        by (rewrite last_lookup, <- Hk; done).
      specialize (Hends g j i Hg Hh Ht). rewrite Hloop in Hends.
      rewrite bool_decide_eq_true_2 in Hends; [by destruct Hends |].
      by apply (head_last_distinct _ j i (members_NoDup g scan) Hh Ht). }
  split; (split; [| by intros H; apply Hforward in H as [? ?]]).
  - (* a link forward comes from the gallery *)
    intros Hn.
    destruct (decide (i < length scan)) as [Hi | Hi];
      [| destruct (Hout i) as [E _]; [lia | congruence]].
    destruct (Hplace i Hi) as [Hi0 | (g & k & Hg & Hk)];
      [destruct (Hun i Hi0) as [E _]; congruence |].
    exists g, k. split; [done |]. split; [done |].
    destruct (members g scan !! S k) as [y |] eqn:Hy.
    + left. destruct (Hchain g k i y Hg Hk Hy) as [E _]. congruence.
    + right. apply lookup_ge_None in Hy. pose proof (lookup_lt_Some _ _ _ Hk) as Hklt.
      assert (Hklast : S k = length (members g scan)) by lia.
      assert (Ht : last (members g scan) = Some i)
        by (rewrite last_lookup, <- Hklast; done).
      destruct (head (members g scan)) as [h |] eqn:Hh;
        [| apply head_None in Hh; rewrite Hh in Hk; done].
      specialize (Hends g h i Hg Hh Ht).
      destruct (galleryLoop cfg); cbn [andb] in Hends;
        [| destruct Hends as [_ E]; congruence].
      case_bool_decide as Hne; [| destruct Hends as [_ E]; congruence].
      destruct Hends as [_ E]. split; [done |]. split; [done |]. split.
      * by apply (head_last_distinct _ h i (members_NoDup g scan) Hh Ht).
      * rewrite head_lookup in Hh. congruence.
  - (* a link backward comes from the gallery *)
    intros Hp.
    destruct (decide (j < length scan)) as [Hj | Hj];
      [| destruct (Hout j) as [_ E]; [lia | congruence]].
    destruct (Hplace j Hj) as [Hj0 | (g & k & Hg & Hk)];
      [destruct (Hun j Hj0) as [_ E]; congruence |].
    destruct k as [| k].
    + (* the first of its gallery: only the loop links it back *)
      assert (Hh : head (members g scan) = Some j) by (by rewrite head_lookup).
      destruct (last (members g scan)) as [t |] eqn:Ht;
        [| apply last_None in Ht; rewrite Ht in Hk; done].
      specialize (Hends g j t Hg Hh Ht).
      destruct (galleryLoop cfg); cbn [andb] in Hends;
        [| destruct Hends as [E _]; congruence].
      case_bool_decide as Hne; [| destruct Hends as [E _]; congruence].
      destruct Hends as [E _]. assert (t = i) as -> by congruence.
      rewrite last_lookup in Ht.
      assert (Hlen2 : 2 ≤ length (members g scan)).
      { apply (head_last_distinct _ j i (members_NoDup g scan) Hh);
          [by rewrite last_lookup | done]. }
      exists g, (pred (length (members g scan))). split; [done |]. split; [done |].
      right. split; [done |]. split; [lia |]. by split.
    + pose proof (lookup_lt_Some _ _ _ Hk) as Hklt.
      destruct (lookup_lt_is_Some_2 (members g scan) k) as [x Hx]; [lia |].
      destruct (Hchain g k x j Hg Hx Hk) as [_ E]. assert (x = i) as -> by congruence.
      exists g, k. split; [done |]. split; [done |]. by left.
Qed.

(** X20: in gallery mode the links are those of the galleries and
    nothing else, at any time after [init]: image [i] has [j] as its next
    exactly when [j] follows [i] in a gallery, and exactly then [j] has [i] as
    its previous. Links never leave a gallery, and [next] and [previous] are
    inverse to each other. *)
Theorem gallery_links_are_inverse (cfg : Config)
    (measuredLightbox measuredBuffer measuredZoom : Q) (scan : list ScannedImage)
    (evs : list Event) (i j : nat) :
  galleryMode cfg = true →
  (nextOf (images (run (init cfg measuredLightbox measuredBuffer measuredZoom scan)
                     evs)) i = Some j
   ↔ follows (galleryLoop cfg) scan i j)
  ∧ (previousOf (images (run (init cfg measuredLightbox measuredBuffer measuredZoom
                                scan) evs)) j = Some i
     ↔ follows (galleryLoop cfg) scan i j)
  ∧ (nextOf (images (run (init cfg measuredLightbox measuredBuffer measuredZoom scan)
                       evs)) i = Some j
     ↔ previousOf (images (run (init cfg measuredLightbox measuredBuffer measuredZoom
                                  scan) evs)) j = Some i).
Proof.
  intros Hmode.
  destruct (run_links (init cfg measuredLightbox measuredBuffer measuredZoom scan)
              evs i) as [-> _].
  destruct (run_links (init cfg measuredLightbox measuredBuffer measuredZoom scan)
              evs j) as [_ ->].
  change (images (init cfg measuredLightbox measuredBuffer measuredZoom scan))
    with (gatherImages cfg scan).
  destruct (gathered_follows cfg scan i j Hmode) as [Hn Hp].
  split; [done |]. split; [done |]. by rewrite Hn, Hp.
Qed.

Lemma gallery_links_are_inverse_witness :
  nextOf (images (run page openFirst)) 1 = Some 2
  ↔ previousOf (images (run page openFirst)) 2 = Some 1.
Proof.
  destruct (gallery_links_are_inverse defaultConfig 300 200 100
              [sampleImage; sampleImage; sampleImage] openFirst 1 2) as (_ & _ & H);
    [reflexivity | exact H].
Defined.

Lemma handle_no_neighbour w :
  neighbour next w = None → neighbour previous w = None →
  handle ClickNext w = w ∧ handle ClickPrevious w = w.
Proof.
  intros Hn Hp. simpl. unfold lightboxNextHandler, lightboxPreviousHandler, navigate.
  by rewrite Hn, Hp.
Qed.

(** X21: an image has no neighbours, at any time after [init], when
    gallery mode is off, when it carries no gallery tag, or when it is the only
    image with its tag (also with looping); while such an image is presented,
    clicks on "next" and "previous" change nothing. *)
Theorem images_without_neighbours (cfg : Config)
    (measuredLightbox measuredBuffer measuredZoom : Q) (scan : list ScannedImage)
    (evs : list Event) (i : nat) :
  galleryMode cfg = false
  ∨ scanTag <$> scan !! i = Some ""%string
  ∨ (∃ g, g ≠ ""%string ∧ members g scan = [i]) →
  nextOf (images (run (init cfg measuredLightbox measuredBuffer measuredZoom scan) evs))
    i = None
  ∧ previousOf (images (run (init cfg measuredLightbox measuredBuffer measuredZoom scan)
                          evs)) i = None
  ∧ (presentedImage (run (init cfg measuredLightbox measuredBuffer measuredZoom scan)
                       evs) = Some i →
     handle ClickNext (run (init cfg measuredLightbox measuredBuffer measuredZoom scan)
                         evs)
     = run (init cfg measuredLightbox measuredBuffer measuredZoom scan) evs
     ∧ handle ClickPrevious (run (init cfg measuredLightbox measuredBuffer measuredZoom
                                    scan) evs)
       = run (init cfg measuredLightbox measuredBuffer measuredZoom scan) evs).
Proof.
  intros Hcase.
  assert (H : nextOf (gatherImages cfg scan) i = None
              ∧ previousOf (gatherImages cfg scan) i = None).
  { destruct Hcase as [Hmode | Hcase]; [by apply scan_plain |].
    destruct (galleryMode cfg) eqn:Hmode; [| by apply scan_plain].
    destruct (gathered_links cfg scan Hmode) as (_ & _ & Hends & Hun).
    destruct Hcase as [Htag | (g & Hg & Hms)]; [by apply Hun |].
    specialize (Hends g i i Hg). rewrite Hms in Hends. specialize (Hends eq_refl eq_refl).
    rewrite (bool_decide_eq_false_2 (i ≠ i)) in Hends by (intros E; by apply E).
    rewrite andb_false_r in Hends. by destruct Hends. }
  destruct (run_links (init cfg measuredLightbox measuredBuffer measuredZoom scan)
              evs i) as [Hn Hp].
  change (images (init cfg measuredLightbox measuredBuffer measuredZoom scan))
    with (gatherImages cfg scan) in Hn, Hp.
  destruct H as [Hn0 Hp0]. rewrite Hn0 in Hn. rewrite Hp0 in Hp.
  split; [done |]. split; [done |]. intros Hpresented.
  apply handle_no_neighbour; unfold neighbour; rewrite Hpresented.
  - unfold nextOf in Hn.
    by destruct (images (run (init cfg measuredLightbox measuredBuffer measuredZoom scan)
                           evs) !! i).
  - unfold previousOf in Hp.
    by destruct (images (run (init cfg measuredLightbox measuredBuffer measuredZoom scan)
                           evs) !! i).
Qed.

Lemma images_without_neighbours_witness :
  nextOf (images (run (init defaultConfig 300 200 100
                         [sampleImage;
                          {| scanTag := ""; scanZoom := None; scanSources := 0;
                             scanSrcset := true |};
                          sampleImage])
                    [ClickImage 1])) 1 = None.
Proof.
  destruct (images_without_neighbours defaultConfig 300 200 100
              [sampleImage;
               {| scanTag := ""; scanZoom := None; scanSources := 0; scanSrcset := true |};
               sampleImage] [ClickImage 1] 1) as (H & _).
  - right. left. reflexivity.
  - exact H.
Defined.

Lemma walk_links link (refs refs' : list ImageReference) n i :
  (∀ x, refs' !! x ≫= link = refs !! x ≫= link) → walk link refs' n i = walk link refs n i.
Proof.
  intros H. revert i. induction n as [| n IH]; intros i; [done |].
  simpl. rewrite H. by destruct (refs !! i ≫= link).
Qed.

(** X22: in a looping gallery of n members (two or more), following
    [next] n times from any member leads back to it, and so does following
    [previous] n times. *)
Theorem gallery_round_trip (cfg : Config)
    (measuredLightbox measuredBuffer measuredZoom : Q) (scan : list ScannedImage)
    (evs : list Event) (g : string) (x : nat) :
  galleryMode cfg = true → galleryLoop cfg = true → g ≠ ""%string →
  x ∈ members g scan → 2 ≤ length (members g scan) →
  walk next (images (run (init cfg measuredLightbox measuredBuffer measuredZoom scan)
                       evs)) (length (members g scan)) x = Some x
  ∧ walk previous (images (run (init cfg measuredLightbox measuredBuffer measuredZoom
                                  scan) evs)) (length (members g scan)) x = Some x.
Proof.
  intros Hmode Hloop Hg Hx Hlen.
  rewrite (walk_links next (gatherImages cfg scan))
    by (intros y; apply (run_links (init cfg measuredLightbox measuredBuffer
                                      measuredZoom scan) evs y)).
  rewrite (walk_links previous (gatherImages cfg scan))
    by (intros y; apply (run_links (init cfg measuredLightbox measuredBuffer
                                      measuredZoom scan) evs y)).
  destruct (gathered_links cfg scan Hmode) as (_ & Hchain & Hends & _).
  set (ms := members g scan) in *. set (n := length ms) in *.
  destruct (lookup_lt_is_Some_2 ms 0) as [h Hh]; [unfold n in Hlen; lia |].
  destruct (lookup_lt_is_Some_2 ms (pred n)) as [t Ht]; [unfold n in *; lia |].
  assert (Hhead : head ms = Some h) by (by rewrite head_lookup).
  assert (Hlast : last ms = Some t) by (by rewrite last_lookup).
  specialize (Hends g h t Hg Hhead Hlast). rewrite Hloop in Hends. cbn [andb] in Hends.
  rewrite bool_decide_eq_true_2 in Hends
    by (by apply (head_last_distinct _ h t (members_NoDup g scan) Hhead Hlast)).
  destruct Hends as [Hph Hnt].
  (* one step forward and one step backward, by position *)
  assert (Hnext : ∀ k y, k < n → ms !! k = Some y →
            nextOf (gatherImages cfg scan) y = ms !! (S k mod n)).
  { intros k y Hk Hy. destruct (decide (S k < n)) as [Hin | Hend].
    - rewrite Nat.mod_small by done.
      destruct (lookup_lt_is_Some_2 ms (S k) Hin) as [z Hz].
      destruct (Hchain g k y z Hg Hy Hz) as [E _]. by rewrite E, Hz.
    - assert (S k = n) as E by lia. rewrite E, Nat.Div0.mod_same.
      assert (y = t) as -> by (rewrite <- E in Ht; simpl in Ht; congruence).
      by rewrite Hnt, Hh. }
  assert (Hprev : ∀ k y, k < n → ms !! k = Some y →
            previousOf (gatherImages cfg scan) y = ms !! ((k + pred n) mod n)).
  { intros k y Hk Hy. destruct k as [| k].
    - simpl. rewrite Nat.mod_small by lia.
      assert (y = h) as -> by congruence. by rewrite Hph, Ht.
    - replace (S k + pred n) with (k + 1 * n) by lia.
      rewrite Nat.Div0.mod_add, Nat.mod_small by lia.
      destruct (lookup_lt_is_Some_2 ms k) as [z Hz]; [lia |].
      destruct (Hchain g k z y Hg Hz Hy) as [_ E]. by rewrite E, Hz. }
  apply list_elem_of_lookup_1 in Hx as [k Hk].
  pose proof (lookup_lt_Some _ _ _ Hk) as Hklt. fold n in Hklt.
  assert (Hwalkn : ∀ m k y, k < n → ms !! k = Some y →
            walk next (gatherImages cfg scan) m y = ms !! ((k + m) mod n)).
  { induction m as [| m IH]; intros k' y Hk' Hy.
    - simpl. by rewrite Nat.add_0_r, Nat.mod_small.
    - simpl. fold (nextOf (gatherImages cfg scan) y). rewrite (Hnext k' y Hk' Hy).
      destruct (lookup_lt_is_Some_2 ms (S k' mod n)) as [z Hz];
        [apply Nat.mod_upper_bound; lia |].
      rewrite Hz, (IH (S k' mod n) z); [| apply Nat.mod_upper_bound; lia | done].
      f_equal. rewrite Nat.Div0.add_mod_idemp_l. f_equal. lia. }
  assert (Hwalkp : ∀ m k y, k < n → ms !! k = Some y →
            walk previous (gatherImages cfg scan) m y = ms !! ((k + m * pred n) mod n)).
  { induction m as [| m IH]; intros k' y Hk' Hy.
    - simpl. by rewrite Nat.add_0_r, Nat.mod_small.
    - simpl. fold (previousOf (gatherImages cfg scan) y). rewrite (Hprev k' y Hk' Hy).
      destruct (lookup_lt_is_Some_2 ms ((k' + pred n) mod n)) as [z Hz];
        [apply Nat.mod_upper_bound; lia |].
      rewrite Hz, (IH ((k' + pred n) mod n) z); [| apply Nat.mod_upper_bound; lia | done].
      f_equal. rewrite Nat.Div0.add_mod_idemp_l. f_equal. lia. }
  split.
  - rewrite (Hwalkn n k x Hklt Hk).
    replace (k + n) with (k + 1 * n) by lia.
    by rewrite Nat.Div0.mod_add, Nat.mod_small.
  - rewrite (Hwalkp n k x Hklt Hk).
    replace (k + n * pred n) with (k + pred n * n) by lia.
    by rewrite Nat.Div0.mod_add, Nat.mod_small.
Qed.

Lemma gallery_round_trip_witness :
  walk next (images (run page openFirst)) 3 1 = Some 1
  ∧ walk previous (images (run page openFirst)) 3 1 = Some 1.
Proof.
  apply (gallery_round_trip defaultConfig 300 200 100
           [sampleImage; sampleImage; sampleImage] openFirst "g" 1);
    [reflexivity | reflexivity | discriminate | | vm_compute; lia].
  vm_compute. right. left.
Defined.

(** ** [bufferSwap] never fails *)

Lemma hideTransitionOf_updBuffer id f w b :
  (∀ x, hideTransition (f x) = hideTransition x) →
  hideTransitionOf b (updBuffer id f w) = hideTransitionOf b w.
Proof.
  intros Hf. unfold hideTransitionOf, updBuffer; simpl.
  destruct (decide (id = b)) as [-> | Hne].
  - rewrite lookup_alter_eq. destruct (buffers w !! b); simpl; [apply Hf | done].
  - by rewrite lookup_alter_ne.
Qed.

Lemma hideTransitionOf_updBuffer_ne id f w b :
  b ≠ id → hideTransitionOf b (updBuffer id f w) = hideTransitionOf b w.
Proof. intros Hne. unfold hideTransitionOf, updBuffer; simpl. by rewrite lookup_alter_ne. Qed.

Lemma hideTransitionOf_clear id w :
  hideTransitionOf id (updBuffer id (set_hideTransition None) w) = None.
Proof.
  unfold hideTransitionOf, updBuffer; simpl. rewrite lookup_alter_eq.
  by destruct (buffers w !! id).
Qed.

Lemma hideTransitionOf_set id t w t' :
  hideTransitionOf id (updBuffer id (set_hideTransition (Some t)) w) = Some t' → t' = t.
Proof.
  unfold hideTransitionOf, updBuffer; simpl. rewrite lookup_alter_eq.
  destruct (buffers w !! id); simpl; congruence.
Qed.

(** From one world to a later one in the same stretch of code. *)
Lemma hiding_step tid own own' w w' :
  hiding tid own w →
  (own = None ∨ own' = own) →
  fresh w ≤ fresh w' →
  (∀ t, t < fresh w → pendingTimer t w → pendingTimer t w') →
  (∀ x, x ∈ tasks w → x ∈ tasks w') →
  (∀ b t, hideTransitionOf b w' = Some t →
     hideTransitionOf b w = Some t
     ∨ (own' = Some (SwapHide b t) ∧ t < fresh w' ∧ pendingTimer t w')) →
  hiding tid own' w'.
Proof.
  intros Hw Hown Hfresh Htimers Htasks Hhide b t Hb.
  destruct (Hhide b t Hb) as [Hold | (Hmine & Hlt & Hp)]; [| by auto].
  destruct (Hw b t Hold) as (Hlt & Hp & Hwho). split; [lia |]. split; [by apply Htimers |].
  destruct Hwho as [(tid' & rest & Hne & Hin) | Hmine].
  - left. exists tid', rest. split; [done | by apply Htasks].
  - right. destruct Hown as [-> | ->]; done.
Qed.

Lemma poised_updBuffer id f tid w :
  (∀ x, hideTransition (f x) = hideTransition x) →
  poised tid w → poised tid (updBuffer id f w).
Proof.
  intros Hf (Ho & Hu & Hh). split; [done |]. split; [done |].
  eapply hiding_step; [exact Hh | by left | done | done | done |].
  intros b t. rewrite hideTransitionOf_updBuffer by done. by left.
Qed.

Lemma poised_setVisibility v tid w : poised tid w → poised tid (setVisibility v w).
Proof. unfold setVisibility. by destruct (presentedImage w). Qed.

Lemma pendingTimer_fresh (t : nat) tm w :
  t < fresh w → pendingTimer t w →
  pendingTimer t (set_fresh (S (fresh w)) (set_timeouts (<[fresh w := tm]> (timeouts w)) w)).
Proof.
  intros Hlt (tm' & Ht & Hi). exists tm'. simpl. by rewrite lookup_insert_ne by lia.
Qed.

Lemma orderly_fresh n w :
  fresh w ≤ n → orderly w → orderly (set_fresh n w).
Proof.
  intros Hn (Hnd & Hid & Hb & Hx & Hr). split; [done |].
  split; [| split; [| split; [done |]]].
  - intros x Hin. specialize (Hid x Hin). simpl. lia.
  - intros x t Hin Ht. specialize (Hb x t Hin Ht). simpl. lia.
  - intros load Hl. specialize (Hr load Hl). simpl. lia.
Qed.

(** Nothing waits for an identifier that has not been handed out. *)
Lemma unawaited_fresh target w :
  orderly w → fresh w ≤ waitId target → ∀ y, y ∈ tasks w → awaited y.2 ≠ Some target.
Proof.
  intros (_ & _ & Hb & _) Hge y Hin Hy. specialize (Hb y target Hin Hy). lia.
Qed.

Lemma poised_newTimeout d tid w : poised tid w → poised tid (newTimeout d w).2.
Proof.
  intros (Ho & Hu & Hh). split; [| split; [done |]].
  - by apply (orderly_fresh (S (fresh w))); [simpl; lia |].
  - eapply hiding_step; [exact Hh | by left | simpl; lia | | done | by left].
    intros t Hlt Hp. by apply pendingTimer_fresh.
Qed.

Lemma poised_newLoad tid w : poised tid w → poised tid (newLoad w).2.
Proof.
  intros (Ho & Hu & Hh). split; [| split; [done |]].
  - by apply (orderly_fresh (S (fresh w))); [simpl; lia |].
  - eapply hiding_step; [exact Hh | by left | simpl; lia | done | done | by left].
Qed.

Lemma poised_createAttachedBuffer tid w :
  poised tid w → poised tid (createAttachedBuffer w).2.
Proof.
  intros (Ho & Hu & Hh). split; [| split; [done |]].
  - by apply (orderly_fresh (S (fresh w))); [simpl; lia |].
  - eapply hiding_step; [exact Hh | by left | simpl; lia | done | done |].
    intros b t. unfold hideTransitionOf; simpl.
    destruct (decide (b = fresh w)) as [-> | Hne].
    + by rewrite lookup_insert_eq.
    + rewrite lookup_insert_ne by done. by left.
Qed.

(** [cancel()] on a hide transition in progress returns. *)
Lemma cancelHideTransition_poised buffer tid w :
  poised tid w →
  poised tid (cancelHideTransition buffer w).1 ∧ (cancelHideTransition buffer w).2 = Normal.
Proof.
  intros Hw. pose proof Hw as (Ho & Hu & Hh). unfold cancelHideTransition.
  destruct (buffers w !! buffer ≫= hideTransition) as [t |] eqn:Ht; [| done].
  destruct (Hh buffer t Ht) as (Hlt & (tm & Htm & Hinner) & Hwho).
  rewrite Htm. unfold cancel. simpl. rewrite Hinner. simpl.
  split; [| done]. split; [done |]. split; [done |].
  eapply hiding_step; [exact Hh | by left | done | | done |].
  - intros t' Hlt' (tm' & Htm' & Hinner'). unfold pendingTimer; simpl.
    destruct (decide (t' = t)) as [-> | Hne].
    + rewrite lookup_insert_eq. eexists. split; [done |]. simpl. congruence.
    + rewrite lookup_insert_ne by done. by exists tm'.
  - intros b t'. destruct (decide (b = buffer)) as [-> | Hne].
    + by rewrite hideTransitionOf_clear.
    + rewrite hideTransitionOf_updBuffer_ne by done. by left.
Qed.

Lemma timely_finished tid c w :
  poised tid w → benignCompletion c → timely tid (w, Finished c).
Proof. intros (Ho & Hu & Hh) Hc. split; [done |]. split; [done |]. by split. Qed.

(** Suspending with a frame that waits for no timeout and for no race. *)
Lemma timely_suspend tid f w :
  poised tid w → awaited [f] = None → timely tid (w, Suspended [f]).
Proof.
  intros (Ho & Hu & Hh) Hf. split; [done |]. split; [done |].
  split; [done |]. split.
  - eapply hiding_step; [exact Hh | by left | done | done | done | by left].
  - intros target Ht. change (awaited [f] = Some target) in Ht. congruence.
Qed.

(** Suspending with a frame that waits for a timeout made for it. *)
Lemma timely_wait tid d f w :
  poised tid w → waits f = WTimeout (fresh w) → (∀ b t, f ≠ SwapHide b t) →
  timely tid ((newTimeout d w).2, Suspended [f]).
Proof.
  intros Hw Hf Hswap. pose proof (poised_newTimeout d tid w Hw) as (Ho & Hu & Hh).
  split; [done |]. split; [done |]. simpl. split; [done |]. split.
  - eapply hiding_step; [exact Hh | by left | done | done | done | by left].
  - rewrite Hf. intros target [= <-]. split; [simpl; lia |].
    intros y Hin _. destruct Hw as (Ho' & _). by apply (unawaited_fresh _ w).
Qed.

(** Lines 459-470, also as the continuation of the swap that set
    [backBuffer.hideTransition]. *)
Lemma bufferSwap_cleanup_timely backBuffer tid w :
  orderly w → Forall (λ entry, benign entry.2) (unhandled w) →
  (∀ b t, hideTransitionOf b w = Some t →
     b = backBuffer
     ∨ (t < fresh w ∧ pendingTimer t w
        ∧ ∃ tid' rest, tid' ≠ tid ∧ (tid', SwapHide b t :: rest) ∈ tasks w)) →
  timely tid (bufferSwap_cleanup backBuffer w).
Proof.
  intros Ho Hu Hh.
  assert (poised tid (updBuffer backBuffer (set_hideTransition None) w)) as Hw.
  { split; [done |]. split; [done |]. intros b t Hb.
    destruct (decide (b = backBuffer)) as [-> | Hne].
    - by rewrite hideTransitionOf_clear in Hb.
    - rewrite hideTransitionOf_updBuffer_ne in Hb by done.
      destruct (Hh b t Hb) as [-> | (Hlt & Hp & Hwho)]; [done |]. by auto. }
  unfold bufferSwap_cleanup. repeat case_match;
    apply timely_finished; try done; by repeat (apply poised_updBuffer; [done |]).
Qed.

Lemma bufferSwap_exchange_timely immediate buffer backBuffer tid w :
  poised tid w → timely tid (bufferSwap_exchange immediate buffer backBuffer w).
Proof.
  intros Hw. unfold bufferSwap_exchange.
  set (w2 := updBuffer backBuffer _ (updBuffer buffer _ w)).
  assert (poised tid w2) as Hw2 by by repeat (apply poised_updBuffer; [done |]).
  destruct immediate.
  - destruct Hw2 as (Ho & Hu & Hh). apply bufferSwap_cleanup_timely; [done | done |].
    intros b t Hb. right. destruct (Hh b t Hb) as (Hlt & Hp & [Hwho | Hown]); done.
  - unfold newTimeout.
    pose proof (poised_newTimeout (bufferTransitionDuration w2) tid w2 Hw2) as (Ho & Hu & Hh).
    split; [done |]. split; [done |]. simpl. split; [done |]. split.
    + eapply hiding_step; [exact Hh | by left | done | done | done |].
      intros b t. destruct (decide (b = backBuffer)) as [-> | Hne].
      * intros Ht. apply hideTransitionOf_set in Ht as ->. right.
        split; [done |]. split; [simpl; lia |].
        exists (waitForTimeout (bufferTransitionDuration w2)). simpl.
        by rewrite lookup_insert_eq.
      * rewrite hideTransitionOf_updBuffer_ne by done. by left.
    + intros target [= <-]. split; [simpl; lia |].
      intros y Hin _. destruct Hw2 as (Ho' & _). by apply (unawaited_fresh _ w2).
Qed.

(** The [cancel] of [bufferSwap] always returns. *)
Lemma bufferSwap_timely buffer tid w :
  poised tid w →
  timely tid (bufferSwap buffer w) ∧ ∀ e, (bufferSwap buffer w).2 ≠ Finished (Throw e).
Proof.
  intros Hw. unfold bufferSwap. case_bool_decide.
  { split; [by apply timely_finished | done]. }
  set (w1 := updBuffer (frontBuffer w) _ (updBuffer buffer _ (set_frontBuffer buffer w))).
  assert (poised tid w1) as Hw1 by by repeat (apply poised_updBuffer; [done |]).
  destruct (cancelHideTransition_poised buffer tid w1 Hw1) as [Hw2 Hc].
  destruct (cancelHideTransition buffer w1) as [w2 c]. simpl in Hw2, Hc. subst c.
  destruct (_ || _ || _).
  - split.
    + apply bufferSwap_exchange_timely. by repeat (apply poised_updBuffer; [done |]).
    + intros e. unfold bufferSwap_exchange, bufferSwap_cleanup. by repeat case_match.
  - split; [| done]. apply timely_suspend; [| done].
    by repeat (apply poised_updBuffer; [done |]).
Qed.

Lemma await_timely caller callee k tid :
  timely tid callee → waits caller = WCallee →
  (∀ w, poised tid w → timely tid (k w)) →
  timely tid (await caller callee k).
Proof.
  intros Hc Hcaller Hk. destruct callee as [w [[| e] | frames]]; simpl.
  - apply Hk. destruct Hc as (Ho & Hu & _ & Hh). done.
  - done.
  - destruct Hc as (Ho & Hu & Hne & Hh & Hfresh). simpl in *.
    split; [done |]. split; [done |]. destruct frames as [| f frames]; [done |].
    done.
Qed.

Lemma returns_timely tid w : poised tid w → timely tid (returns w).
Proof. intros Hw. by apply timely_finished. Qed.

Lemma afterLoad_timely image imageBuffer tid w :
  poised tid w → timely tid (afterLoad image imageBuffer w).
Proof.
  intros Hw. unfold afterLoad. case_match.
  - apply await_timely; [by apply bufferSwap_timely | done | apply returns_timely].
  - apply timely_finished; [| done]. by repeat (apply poised_updBuffer; [done |]).
Qed.

(** The race of a load that has just been started: nothing waits for it
    yet. *)
Lemma presentRace_timely image imageBuffer load tid w :
  poised tid w → load < fresh w →
  (∀ y, y ∈ tasks w → awaited y.2 ≠ Some (WRace load)) →
  timely tid (presentRace image imageBuffer load w).
Proof.
  intros (Ho & Hu & Hh) Hload Hnone. unfold presentRace.
  match goal with |- timely _ (?w1, _) => assert (poised tid w1) as (Ho' & Hu' & Hh') end;
    [| split; [done |]; split; [done |]; split; [done |]; split;
       [eapply hiding_step; [exact Hh' | by left | done | done | done | by left] |
        intros target [= <-]; split; [simpl; lia |]; intros y Hin _; simpl in Hin;
        apply elem_of_app in Hin as [Hin | Hin];
          [by apply Hnone | by apply list_elem_of_singleton in Hin as ->]]].
  split; [| split; [done |]].
  - destruct Ho as (Hnd & Hid & Hb & Hx & Hr). split; [| split; [| split; [| split]]]; simpl.
    + rewrite fmap_app. apply NoDup_app. split; [done |]. split; [| apply NoDup_singleton].
      intros i Hi Hi'. apply list_elem_of_singleton in Hi' as ->.
      apply list_elem_of_fmap in Hi as (x & Hx' & Hin). specialize (Hid x Hin). simpl in Hx'. lia.
    + intros x Hin. apply elem_of_app in Hin as [Hin | Hin].
      * specialize (Hid x Hin). lia.
      * apply list_elem_of_singleton in Hin as ->. simpl. lia.
    + intros x t Hin Ht. apply elem_of_app in Hin as [Hin | Hin].
      * specialize (Hb x t Hin Ht). lia.
      * by apply list_elem_of_singleton in Hin as ->.
    + intros x y t Hin Hin' Ht Ht'.
      apply elem_of_app in Hin as [Hin | Hin];
        [| by apply list_elem_of_singleton in Hin as ->].
      apply elem_of_app in Hin' as [Hin' | Hin'];
        [| by apply list_elem_of_singleton in Hin' as ->].
      by apply (Hx x y t).
    + intros l Hl. destruct (decide (l = load)) as [-> | Hne]; [lia |].
      rewrite lookup_insert_ne in Hl by done. specialize (Hr l Hl). lia.
  - eapply hiding_step; [exact Hh | by left | simpl; lia | done | | by left].
    intros x Hin. simpl. apply elem_of_app. by left.
Qed.

Lemma lightboxPresentImage_timely image tid w :
  poised tid w → timely tid (lightboxPresentImage image w).
Proof.
  intros Hw. unfold lightboxPresentImage. case_match.
  - case_bool_decide.
    + apply timely_suspend; [| done].
      by apply (poised_createAttachedBuffer tid (set_presentedImage (Some image) w)).
    + pose proof (poised_newLoad tid (set_presentedImage (Some image) w) Hw) as Hl.
      apply presentRace_timely; [done | simpl; lia |].
      destruct Hw as (Ho & _). by apply (unawaited_fresh _ w).
  - apply timely_suspend; [| done].
    by apply (poised_createAttachedBuffer tid (set_presentedImage (Some image) w)).
Qed.

Lemma presentPreview_timely caller stillWanted previewBuffer tid w :
  waits caller = WCallee → poised tid w →
  timely tid (presentPreview caller stillWanted previewBuffer w).
Proof.
  intros Hcaller Hw. unfold presentPreview. destruct stillWanted.
  - apply await_timely; [by apply bufferSwap_timely | done | apply returns_timely].
  - apply timely_finished; [| done]. by repeat (apply poised_updBuffer; [done |]).
Qed.

Lemma presentCatch_timely image imageBuffer e tid w :
  benign e → poised tid w → timely tid (presentCatch image imageBuffer e w).
Proof.
  intros He Hw. unfold presentCatch. case_match.
  - by apply timely_finished.
  - apply timely_suspend; [| done]. by apply poised_createAttachedBuffer.
Qed.

Lemma navigated_timely tid w : poised tid w → timely tid (navigated w).
Proof. intros Hw. apply timely_finished; [| done]. by apply poised_setVisibility. Qed.

Lemma benign_exception name : benign (JDOMException name).
Proof. by intros ?. Qed.

Lemma benign_timeout e : instanceofTimeoutError e = true → benign e.
Proof. by destruct e. Qed.

Lemma benign_failureReason f : benign (failureReason f).
Proof. destruct f; by intros ?. Qed.

Lemma length_append (s t : string) :
  String.length (s ++ t) = String.length s + String.length t.
Proof. induction s as [| a s IH]; simpl; [done | by rewrite IH]. Qed.

(** The message of [nullDereference] does not end in " is not a function". *)
Lemma benign_nullDereference : benign nullDereference.
Proof.
  intros name [= E].
  assert (String.length name = 30) as Hlen.
  { apply (f_equal String.length) in E. rewrite length_append in E. simpl in E. lia. }
  pose proof (String.append_correct2 name " is not a function" 17) as Hget.
  rewrite <- E, Hlen in Hget. discriminate Hget.
Qed.

Lemma poised_zoomOutBuffer id tid w : poised tid w → poised tid (zoomOutBuffer id w).1.
Proof. intros Hw. apply poised_updBuffer; [| done]. intros b. apply bufferZoomOut_kept. Qed.

Lemma zoomOutBuffer_benign id w w' e : zoomOutBuffer id w = (w', Throw e) → benign e.
Proof. intros [name ->]%zoomOutBuffer_throw. apply benign_exception. Qed.

Lemma navigate_timely caller link tid w :
  waits caller = WCallee → poised tid w → timely tid (navigate caller link w).
Proof.
  intros Hcaller Hw. unfold navigate. case_match; [| by apply timely_finished].
  pose proof (poised_zoomOutBuffer (frontBuffer w) tid w Hw) as Hz.
  destruct (zoomOutBuffer (frontBuffer w) w) as [w1 [| e]] eqn:E.
  - apply await_timely; [| done | apply navigated_timely].
    by apply lightboxPresentImage_timely, poised_setVisibility.
  - apply timely_finished; [done |]. by apply zoomOutBuffer_benign in E.
Qed.

Lemma lightboxOpenHandler_finish_timely tid w :
  poised tid w → timely tid (lightboxOpenHandler_finish w).
Proof. intros Hw. by apply timely_finished. Qed.

Lemma lightboxOpenHandler_repainted_timely tid w :
  poised tid w → timely tid (lightboxOpenHandler_repainted w).
Proof.
  intros Hw. unfold lightboxOpenHandler_repainted.
  set (w1 := updBuffer _ _ (setVisibility true _)).
  assert (poised tid w1) as Hw1.
  { apply poised_updBuffer; [done |]. by apply poised_setVisibility. }
  case_match.
  - by apply timely_wait.
  - by apply lightboxOpenHandler_finish_timely.
Qed.

Lemma lightboxOpenHandler_presented_timely tid w :
  poised tid w → timely tid (lightboxOpenHandler_presented w).
Proof.
  intros Hw. unfold lightboxOpenHandler_presented. simpl. case_match.
  - apply timely_suspend; [| done]. by repeat (apply poised_updBuffer; [done |]).
  - apply timely_finished; [done |]. apply benign_nullDereference.
Qed.

Lemma lightboxOpenHandler_timely tid w :
  poised tid w → timely tid (lightboxOpenHandler w).
Proof.
  intros Hw. unfold lightboxOpenHandler.
  set (w1 := if closeOnScroll _ then _ else _).
  assert (poised tid w1) as Hw1.
  { subst w1. by destruct (closeOnScroll (config (set_lightboxState Opening w))). }
  case_match.
  - apply await_timely; [by apply lightboxPresentImage_timely | done |].
    apply lightboxOpenHandler_presented_timely.
  - apply timely_finished; [done |]. apply benign_nullDereference.
Qed.

Lemma lightboxCloseHandler_finish_timely tid w :
  poised tid w → timely tid (lightboxCloseHandler_finish w).
Proof.
  intros Hw. unfold lightboxCloseHandler_finish. case_match.
  - apply timely_finished; [| done].
    set (w1 := set_lightboxState Closed _).
    assert (poised tid w1) as Hw1.
    { subst w1. apply (poised_updBuffer _ _ tid (setVisibility false w)); [done |].
      by apply poised_setVisibility. }
    by destruct (closeOnScroll (config w1)).
  - apply timely_finished; [done |]. apply benign_nullDereference.
Qed.

Lemma lightboxCloseHandler_measured_timely tid w :
  poised tid w → timely tid (lightboxCloseHandler_measured w).
Proof.
  intros Hw. unfold lightboxCloseHandler_measured. case_match.
  - set (w1 := set_rootClassName _ _).
    assert (poised tid w1) as Hw1 by by apply (poised_updBuffer _ _ tid w).
    case_match.
    + by apply timely_wait.
    + by apply lightboxCloseHandler_finish_timely.
  - apply timely_finished; [done |]. apply benign_nullDereference.
Qed.

Lemma lightboxCloseHandler_timely tid w :
  poised tid w → timely tid (lightboxCloseHandler w).
Proof.
  intros Hw. unfold lightboxCloseHandler. case_match.
  - match goal with |- context [zoomOutBuffer ?id ?w1] =>
      pose proof (poised_zoomOutBuffer id tid w1 Hw) as Hz;
      destruct (zoomOutBuffer id w1) as [w2 [| e]] eqn:E end.
    + by apply timely_wait.
    + apply timely_finished; [done |]. by apply zoomOutBuffer_benign in E.
  - by apply (lightboxCloseHandler_measured_timely tid (set_lightboxState Closing w)).
Qed.

Lemma tasks_bufferSwap buffer w : tasks (bufferSwap buffer w).1 = tasks w.
Proof.
  unfold bufferSwap, bufferSwap_exchange, bufferSwap_cleanup, cancelHideTransition.
  repeat case_match; simplify_eq/=; try done.
Qed.

Lemma tasks_awaitSwap caller buffer w :
  tasks (await caller (bufferSwap buffer w) returns).1 = tasks w.
Proof.
  rewrite <- (tasks_bufferSwap buffer w).
  by destruct (bufferSwap buffer w) as [w' [[| e] | frames]].
Qed.

Lemma resume_tasks f c w y : y ∈ tasks w → y ∈ tasks (resume f c w).1.
Proof.
  intros Hy. destruct c, f; simpl; try done;
    unfold presentCatch, presentPreview, afterLoad, lightboxOpenHandler_presented,
      lightboxOpenHandler_repainted, lightboxOpenHandler_finish,
      lightboxCloseHandler_measured, lightboxCloseHandler_finish, presentRace,
      navigated, setVisibility, bufferSwap_exchange, bufferSwap_cleanup,
      bufferLoadPreview, bufferLoadImage, createAttachedBuffer, allocBuffer,
      newTimeout, newLoad;
    repeat case_match; rewrite ?tasks_awaitSwap; simplify_eq/=;
    rewrite ?elem_of_app; auto.
Qed.

Lemma poised_bufferLoadPreview buffer tid w :
  poised tid w → poised tid (bufferLoadPreview buffer w).2.
Proof. intros Hw. unfold bufferLoadPreview. by apply poised_newLoad, poised_updBuffer. Qed.

Lemma poised_bufferLoadImage buffer from tid w :
  poised tid w → poised tid (bufferLoadImage buffer from w).2.
Proof. intros Hw. unfold bufferLoadImage. by apply poised_newLoad, poised_updBuffer. Qed.

(** The code after an [await]. Only the frame of a swap that waits for the
    hide transition may find the timer of [backBuffer.hideTransition]
    elapsed, and it clears the field first. *)
Lemma resume_timely f c tid w :
  orderly w → Forall (λ entry, benign entry.2) (unhandled w) → benignCompletion c →
  (∀ b t, hideTransitionOf b w = Some t →
     (c = Normal ∧ ∃ t0, f = SwapHide b t0)
     ∨ (t < fresh w ∧ pendingTimer t w
        ∧ ∃ tid' rest, tid' ≠ tid ∧ (tid', SwapHide b t :: rest) ∈ tasks w)) →
  timely tid (resume f c w).
Proof.
  intros Ho Hu Hc Hh.
  assert ((∀ b t0, f ≠ SwapHide b t0) ∨ c ≠ Normal → poised tid w) as Hw.
  { intros Hf. split; [done |]. split; [done |]. intros b t Hb.
    destruct (Hh b t Hb) as [(-> & t0 & ->) | (Hlt & Hp & Hwho)]; [| by auto].
    destruct Hf as [Hf | Hf]; [by destruct (Hf b t0) | done]. }
  destruct c as [| e].
  - destruct f; unfold resume; cbv beta iota;
      try (assert (poised tid w) as Hp by (apply Hw; left; intros ? ?; discriminate);
           clear Hw; rename Hp into Hw).
    + by apply bufferSwap_exchange_timely.
    + apply bufferSwap_cleanup_timely; [done | done |].
      intros b t Hb. destruct (Hh b t Hb) as [(_ & t0 & [= -> _]) | H]; by auto.
    + pose proof (poised_bufferLoadPreview previewBuffer tid w Hw) as H.
      destruct (bufferLoadPreview previewBuffer w) as [load w']. by apply timely_suspend.
    + by apply presentPreview_timely.
    + by apply returns_timely.
    + pose proof (poised_bufferLoadImage imageBuffer image tid w Hw) as H.
      unfold bufferLoadImage in *. cbv zeta in *.
      match goal with |- context [newLoad ?w1] =>
        change (newLoad w1) with (fresh w, (newLoad w1).2) in *;
        assert (∀ y, y ∈ tasks (newLoad w1).2 → awaited y.2 ≠ Some (WRace (fresh w)))
          by (destruct Hw as (Ho' & _); by apply (unawaited_fresh _ w)) end.
      cbv beta iota. apply presentRace_timely; [done | simpl; lia | done].
    + by apply timely_finished.
    + pose proof (poised_bufferLoadPreview previewBuffer tid w Hw) as H.
      destruct (bufferLoadPreview previewBuffer w) as [load w']. by apply timely_suspend.
    + by apply presentPreview_timely.
    + by apply returns_timely.
    + by apply afterLoad_timely.
    + by apply returns_timely.
    + by apply navigated_timely.
    + by apply navigated_timely.
    + by apply lightboxOpenHandler_presented_timely.
    + by apply lightboxOpenHandler_repainted_timely.
    + by apply lightboxOpenHandler_finish_timely.
    + by apply lightboxCloseHandler_measured_timely.
    + by apply lightboxCloseHandler_finish_timely.
  - assert (poised tid w) as Hp by (apply Hw; right; discriminate).
    destruct f; unfold resume; cbv beta iota; try (by apply timely_finished).
    by apply presentCatch_timely.
Qed.

Lemma elem_of_setStack tid f stack w y :
  y ∈ tasks (setStack tid (f :: stack) w)
  ↔ (y = (tid, f :: stack) ∧ tid ∈ (tasks w).*1) ∨ (y ∈ tasks w ∧ y.1 ≠ tid).
Proof.
  unfold setStack; simpl. rewrite list_elem_of_fmap. split.
  - intros (x & -> & Hin). case_bool_decide as Hx.
    + left. split; [done |]. apply list_elem_of_fmap. by exists x.
    + right. done.
  - intros [(-> & Hin) | (Hin & Hne)].
    + apply list_elem_of_fmap in Hin as (x & -> & Hin). exists x.
      by rewrite bool_decide_eq_true_2.
    + exists y. by rewrite bool_decide_eq_false_2.
Qed.

Lemma setStack_ids tid f stack w :
  (tasks (setStack tid (f :: stack) w)).*1 = (tasks w).*1.
Proof.
  unfold setStack; simpl. rewrite <- list_fmap_compose. apply list_fmap_ext.
  intros i x _. simpl. by case_bool_decide.
Qed.

(** A task goes on waiting with a new stack, or ends. *)
Lemma setStack_settled tid stack w :
  orderly w → Forall (λ entry, benign entry.2) (unhandled w) →
  tid ∈ (tasks w).*1 →
  (∀ target, awaited stack = Some target →
     waitId target < fresh w
     ∧ ∀ y, y ∈ tasks w → y.1 ≠ tid → awaited y.2 ≠ Some target) →
  hiding tid (head stack) w →
  settled (setStack tid stack w).
Proof.
  intros (Hnd & Hid & Hb & Hx & Hr) Hu Htid Hfresh Hh. destruct stack as [| f stack].
  - split; [| split; [done |]].
    + split; [| split; [| split; [| split; [| done]]]]; simpl.
      * eapply sublist_NoDup; [exact Hnd |]. apply fmap_sublist, sublist_filter.
      * intros x Hin. apply list_elem_of_filter in Hin as [_ Hin]. by apply Hid.
      * intros x t Hin. apply list_elem_of_filter in Hin as [_ Hin]. by apply Hb.
      * intros x y t Hin Hin'. apply list_elem_of_filter in Hin as [_ Hin].
        apply list_elem_of_filter in Hin' as [_ Hin']. by apply Hx.
    + intros b t Ht. destruct (Hh b t Ht) as (Hlt & Hp & [Hwho | Hown]); [| done].
      split; [done |]. split; [done |]. destruct Hwho as (tid' & rest & Hne & Hin).
      exists tid', rest. simpl. apply list_elem_of_filter. done.
  - split; [| split; [done |]].
    + split; [| split; [| split; [| split; [| done]]]].
      * by rewrite setStack_ids.
      * intros x Hin. apply elem_of_setStack in Hin as [(-> & Hin) | (Hin & _)].
        -- apply list_elem_of_fmap in Hin as (x & -> & Hin). simpl. by apply Hid.
        -- by apply Hid.
      * intros x t Hin Ht. apply elem_of_setStack in Hin as [(-> & Hin) | (Hin & _)].
        -- by apply Hfresh.
        -- by apply (Hb x).
      * intros x y t Hin Hin' Ht Ht'.
        apply elem_of_setStack in Hin as [(-> & Hin) | (Hin & Hne)];
          apply elem_of_setStack in Hin' as [(-> & Hin') | (Hin' & Hne')].
        -- done.
        -- by destruct (Hfresh t Ht) as (_ & Hother); destruct (Hother y Hin' Hne').
        -- by destruct (Hfresh t Ht') as (_ & Hother); destruct (Hother x Hin Hne).
        -- by apply (Hx x y t).
    + intros b t Ht. destruct (Hh b t Ht) as (Hlt & Hp & [Hwho | Hown]).
      * split; [done |]. split; [done |]. destruct Hwho as (tid' & rest & Hne & Hin).
        exists tid', rest. apply elem_of_setStack. by right.
      * split; [done |]. split; [done |]. simpl in Hown. injection Hown as ->.
        exists tid, stack. apply elem_of_setStack. by left.
Qed.

Lemma unwind_settled tid c stack w :
  orderly w → Forall (λ entry, benign entry.2) (unhandled w) → benignCompletion c →
  tid ∈ (tasks w).*1 →
  (∀ b t, hideTransitionOf b w = Some t →
     (c = Normal ∧ ∃ t0, head stack = Some (SwapHide b t0))
     ∨ (t < fresh w ∧ pendingTimer t w
        ∧ ∃ tid' rest, tid' ≠ tid ∧ (tid', SwapHide b t :: rest) ∈ tasks w)) →
  settled (unwind tid c stack w).
Proof.
  revert c w. induction stack as [| f rest IH]; intros c w Ho Hu Hc Htid Hh.
  - assert (settled (setStack tid [] w)) as Hs.
    { apply setStack_settled; try done. intros b t Hb.
      destruct (Hh b t Hb) as [(_ & t0 & [=]) | (Hlt & Hp & Hwho)]. by auto. }
    simpl. destruct c as [| e]; [done |].
    destruct Hs as (Ho' & Hu' & Hh'). split; [done |]. split; [| done].
    simpl. apply Forall_app. split; [done |]. by apply Forall_singleton.
  - simpl. pose proof (resume_timely f c tid w Ho Hu Hc) as Hr.
    assert (tid ∈ (tasks (resume f c w).1).*1) as Htid'.
    { apply list_elem_of_fmap in Htid as (x & -> & Hin).
      apply list_elem_of_fmap. exists x. split; [done | by apply resume_tasks]. }
    destruct (resume f c w) as [w' [c' | frames]].
    + destruct Hr as (Ho' & Hu' & Hc' & Hh').
      { intros b t Hb. destruct (Hh b t Hb) as [(-> & t0 & [= ->]) | H]; [| by auto].
        left. split; [done |]. by exists t0. }
      apply IH; try done. intros b t Hb. right.
      destruct (Hh' b t Hb) as (Hlt & Hp & [Hwho | Hown]); done.
    + destruct Hr as (Ho' & Hu' & Hne & Hh' & Hfresh).
      { intros b t Hb. destruct (Hh b t Hb) as [(-> & t0 & [= ->]) | H]; [| by auto].
        left. split; [done |]. by exists t0. }
      simpl in *. destruct frames as [| f' frames]; [done |].
      by apply setStack_settled.
Qed.

Lemma NoDup_fst_agree {A B} (l : list (A * B)) x y1 y2 :
  NoDup l.*1 → (x, y1) ∈ l → (x, y2) ∈ l → y1 = y2.
Proof.
  induction l as [| [a b] l IH]; simpl; intros Hnd H1 H2; [by apply elem_of_nil in H1 |].
  apply NoDup_cons in Hnd as [Hnot Hnd].
  assert (∀ y, (a, y) ∈ l → False) as Hhead.
  { intros y Hy. apply Hnot, list_elem_of_fmap. by exists (a, y). }
  apply elem_of_cons in H1 as [H1 | H1]; apply elem_of_cons in H2 as [H2 | H2];
    simplify_eq; try done; try (by destruct (Hhead _ H1)); try (by destruct (Hhead _ H2)).
  by apply IH.
Qed.

Lemma waitsFor_top target tid stack :
  waitsFor target (tid, stack) = true → ∃ f rest, stack = f :: rest ∧ waits f = target.
Proof.
  unfold waitsFor; simpl. destruct stack as [| f rest]; [done |].
  intros H. apply bool_decide_eq_true in H. by exists f, rest.
Qed.

(** Resuming a task that waits for [target]. If the target is a timeout its
    timer may have elapsed. *)
Lemma unwind_task_settled target tid stack c w :
  orderly w → Forall (λ entry, benign entry.2) (unhandled w) → benignCompletion c →
  (c = Normal ∨ ∀ t, target ≠ WTimeout t) →
  (tid, stack) ∈ tasks w → waitsFor target (tid, stack) = true →
  (∀ b t, hideTransitionOf b w = Some t →
     t < fresh w ∧ (target = WTimeout t ∨ pendingTimer t w)
     ∧ ∃ tid' rest, (tid', SwapHide b t :: rest) ∈ tasks w) →
  settled (unwind tid c stack w).
Proof.
  intros Ho Hu Hc Hkind Hin Hwaits Hh.
  destruct (waitsFor_top _ _ _ Hwaits) as (f & rest & -> & Hf).
  pose proof Ho as (Hnd & _ & _ & Hx & _).
  apply unwind_settled; try done.
  { apply list_elem_of_fmap. by exists (tid, f :: rest). }
  intros b t Hb. destruct (Hh b t Hb) as (Hlt & Hp & tid' & rest' & Hin').
  destruct (decide (tid' = tid)) as [-> | Hne].
  - pose proof (NoDup_fst_agree _ _ _ _ Hnd Hin Hin') as [= -> ->].
    left. simpl in Hf. subst target. split; [| by exists t].
    destruct Hkind as [-> | Hkind]; [done | by destruct (Hkind t)].
  - right. split; [done |]. split; [| by exists tid', rest'].
    destruct Hp as [-> | Hp]; [| done].
    assert ((tid, f :: rest) = (tid', SwapHide b t :: rest')) as [= -> _ _]; [| done].
    apply (Hx _ _ (WTimeout t)); try done. simpl. by rewrite Hf.
Qed.

Lemma deliver_settled target c w :
  orderly w → Forall (λ entry, benign entry.2) (unhandled w) → benignCompletion c →
  (c = Normal ∨ ∀ t, target ≠ WTimeout t) →
  (∀ b t, hideTransitionOf b w = Some t →
     t < fresh w ∧ (target = WTimeout t ∨ pendingTimer t w)
     ∧ ∃ tid' rest, (tid', SwapHide b t :: rest) ∈ tasks w) →
  settled (deliver target c w).
Proof.
  intros Ho Hu Hc Hkind Hh. unfold deliver.
  destruct (findWaiter target w) as [[tid stack] |] eqn:E.
  - apply (unwind_task_settled target); try done.
    + by apply (findWaiter_elem target).
    + unfold findWaiter in E. by apply find_some in E as [_ E].
  - split; [done |]. split; [done |]. intros b t Hb.
    destruct (Hh b t Hb) as (Hlt & [-> | Hp] & tid' & rest' & Hin'); [| by eauto].
    unfold findWaiter in E. apply list_elem_of_In in Hin'.
    pose proof (find_none _ _ E _ Hin') as Hnone. unfold waitsFor in Hnone; simpl in Hnone.
    by rewrite bool_decide_eq_true_2 in Hnone.
Qed.

Lemma settled_deliver target c w :
  settled w → benignCompletion c → (c = Normal ∨ ∀ t, target ≠ WTimeout t) →
  settled (deliver target c w).
Proof.
  intros (Ho & Hu & Hh) Hc Hkind. apply deliver_settled; try done.
  intros b t Hb. destruct (Hh b t Hb) as (Hlt & Hp & Hwho). by auto.
Qed.

Lemma settled_poised tid w : settled w → fresh w ≤ tid → poised tid w.
Proof.
  intros (Ho & Hu & Hh) Htid. split; [done |]. split; [done |]. intros b t Hb.
  destruct (Hh b t Hb) as (Hlt & Hp & tid' & rest & Hin).
  split; [done |]. split; [done |]. left. exists tid', rest. split; [| done].
  destruct Ho as (_ & Hid & _). specialize (Hid _ Hin). simpl in Hid. lia.
Qed.

(** A handler called from an event listener. *)
Lemma spawn_settled x : timely (fresh x.1) x → settled (spawn x).
Proof.
  destruct x as [w [[| e] | frames]]; simpl.
  - intros (Ho & Hu & _ & Hh). split; [done |]. split; [done |]. intros b t Hb.
    destruct (Hh b t Hb) as (Hlt & Hp & [(tid' & rest & _ & Hin) | Hown]); [| done].
    by eauto.
  - intros (Ho & Hu & He & Hh). simpl in *. split; [| split].
    + by apply (orderly_fresh (S (fresh w))); [lia |].
    + simpl. apply Forall_app. split; [done |]. by apply Forall_singleton.
    + intros b t Hb. destruct (Hh b t Hb) as (Hlt & Hp & [(tid' & rest & _ & Hin) | Hown]);
        [| done].
      split; [simpl; lia |]. split; [done |]. by eauto.
  - intros (Ho & Hu & Hne & Hh & Hfresh). simpl in *.
    destruct Ho as (Hnd & Hid & Hb & Hx & Hr). split; [| split; [done |]].
    + split; [| split; [| split; [| split]]]; simpl.
      * rewrite fmap_app. apply NoDup_app. split; [done |].
        split; [| apply NoDup_singleton].
        intros i Hi Hi'. apply list_elem_of_singleton in Hi' as ->.
        apply list_elem_of_fmap in Hi as (x & Hx' & Hin). specialize (Hid x Hin).
        simpl in Hx'. lia.
      * intros x Hin. apply elem_of_app in Hin as [Hin | Hin].
        -- specialize (Hid x Hin). lia.
        -- apply list_elem_of_singleton in Hin as ->. simpl. lia.
      * intros x t Hin Ht. apply elem_of_app in Hin as [Hin | Hin].
        -- specialize (Hb x t Hin Ht). lia.
        -- apply list_elem_of_singleton in Hin as ->. simpl in Ht.
           destruct (Hfresh t Ht) as [Hlt _]. lia.
      * intros x y t Hin Hin' Ht Ht'.
        assert (∀ z, z ∈ tasks w → z.1 ≠ fresh w) as Hold.
        { intros z Hz. specialize (Hid z Hz). lia. }
        apply elem_of_app in Hin as [Hin | Hin];
          apply elem_of_app in Hin' as [Hin' | Hin'];
          try apply list_elem_of_singleton in Hin as ->;
          try apply list_elem_of_singleton in Hin' as ->; simpl in *.
        -- by apply (Hx x y t).
        -- by destruct (Hfresh t Ht') as (_ & Hother); destruct (Hother x Hin (Hold x Hin)).
        -- by destruct (Hfresh t Ht) as (_ & Hother); destruct (Hother y Hin' (Hold y Hin')).
        -- done.
      * intros l Hl. specialize (Hr l Hl). lia.
    + intros b t Ht. destruct (Hh b t Ht) as (Hlt & Hp & Hwho).
      split; [simpl; lia |]. split; [done |]. simpl.
      destruct Hwho as [(tid' & rest & _ & Hin) | Hown].
      * exists tid', rest. apply elem_of_app. by left.
      * destruct frames as [| f frames]; [done |]. simpl in Hown. injection Hown as ->.
        exists (fresh w), frames. apply elem_of_app. right. by apply list_elem_of_singleton.
Qed.

Lemma settled_updBuffer id f w :
  (∀ x, hideTransition (f x) = hideTransition x) → settled w → settled (updBuffer id f w).
Proof.
  intros Hf (Ho & Hu & Hh). split; [done |]. split; [done |]. intros b t.
  rewrite hideTransitionOf_updBuffer by done. apply Hh.
Qed.

Lemma handler_settled (handler : World → World * Result) w :
  (∀ tid w, poised tid w → timely tid (handler w)) →
  extends w (handler w).1 → settled w → settled (spawn (handler w)).
Proof.
  intros Hhandler (_ & Hfresh & _) Hw. by apply spawn_settled, Hhandler, settled_poised.
Qed.

Lemma lightboxCloseHandler_settled w : settled w → settled (spawn (lightboxCloseHandler w)).
Proof.
  apply handler_settled; [apply lightboxCloseHandler_timely |].
  apply extends_lightboxCloseHandler.
Qed.

Lemma pictureClick_settled buffer rect w : settled w → settled (pictureClick buffer rect w).
Proof.
  intros Hw. unfold pictureClick. repeat case_match; try done.
  - apply settled_updBuffer; [| done]. intros x. apply bufferZoomIn_kept.
  - apply settled_updBuffer; [| done]. intros x. apply bufferZoomOut_kept.
Qed.

Lemma lightboxScrollHandler_settled x y w : settled w → settled (lightboxScrollHandler x y w).
Proof.
  intros Hw. unfold lightboxScrollHandler. repeat case_match; try done.
  by apply (lightboxCloseHandler_settled (set_anchorScrollPosition None w)).
Qed.

Lemma lightboxResizeHandler_settled w : settled w → settled (lightboxResizeHandler w).
Proof.
  intros Hw. unfold lightboxResizeHandler. case_match; [| done].
  by apply lightboxCloseHandler_settled.
Qed.

Lemma repaint_settled tid w : settled w → settled (repaint tid w).
Proof.
  intros Hw. unfold repaint.
  destruct (List.find _ (tasks w)) as [[tid' stack] |] eqn:E; [| done].
  apply find_some in E as [Hin Htid]. apply bool_decide_eq_true in Htid. simpl in Htid.
  subst tid'. apply list_elem_of_In in Hin.
  destruct (waitsFor WRepaint (tid, stack)) eqn:Hwaits; [| done].
  destruct Hw as (Ho & Hu & Hh).
  apply (unwind_task_settled WRepaint); try done; [by left |].
  intros b t Hb. destruct (Hh b t Hb) as (Hlt & Hp & Hwho). by auto.
Qed.

Lemma loadCompletion_benign failure : benignCompletion (loadCompletion failure).
Proof. destruct failure as [f |]; [| done]. apply benign_failureReason. Qed.

(** The race of a load settles: the races are the same. *)
Lemma settled_set_race load r w :
  is_Some (races w !! load) → settled w → settled (set_races (<[load := r]> (races w)) w).
Proof.
  intros Hl ((Hnd & Hid & Hb & Hx & Hr) & Hu & Hh). split; [| by split].
  split; [done |]. split; [done |]. split; [done |]. split; [done |].
  intros l Hl'. simpl in Hl'. destruct (decide (l = load)) as [-> | Hne]; [by apply Hr |].
  rewrite lookup_insert_ne in Hl' by done. by apply Hr.
Qed.

Lemma settleRace_settled load c w :
  benignCompletion c → settled w → settled (settleRace load c w).
Proof.
  intros Hc Hw. unfold settleRace. destruct (races w !! load) as [r |] eqn:E; [| done].
  cbv zeta.
  match goal with |- context [set_races ?m w] => assert (settled (set_races m w)) as Hw'
    by (by apply settled_set_race; [rewrite E |]) end.
  destruct (race_promise r); try done.
  apply settled_deliver; [done | done |]. by right.
Qed.

Lemma loadSettled_settled load failure w : settled w → settled (loadSettled load failure w).
Proof.
  intros Hw. unfold loadSettled. destruct (loads w !! load) as [[| |] |]; try done.
  apply settleRace_settled; [apply loadCompletion_benign |].
  apply settled_deliver; [done | apply loadCompletion_benign |]. by right.
Qed.

Lemma raceTimer_settled load w : settled w → settled (raceTimer load w).
Proof.
  intros Hw. unfold raceTimer.
  destruct (races w !! load) as [r |] eqn:E; [| done].
  destruct (race_scheduled r) eqn:Hs; [| done]. cbv zeta.
  match goal with |- context [set_races ?m w] => assert (settled (set_races m w)) as Hw'
    by (by apply settled_set_race; [rewrite E |]) end.
  destruct (race_promise r) eqn:Hr; try done.
  unfold race_onTimer in *. rewrite Hs, Hr in *. simpl.
  apply settled_deliver; [done | | by right]. by apply benign_timeout.
Qed.

(** The timer of a timeout runs: the task that waits for it goes on; if it
    is a swap, it clears [hideTransition] before anything else. *)
Lemma timerElapsed_settled t w : settled w → settled (timerElapsed t w).
Proof.
  intros Hw. unfold timerElapsed.
  destruct (timeouts w !! t) as [tm |] eqn:Ht; [| done].
  destruct (scheduled tm); [| done].
  destruct Hw as (Ho & Hu & Hh). apply deliver_settled; try done; [by left |].
  intros b t' Hb. destruct (Hh b t' Hb) as (Hlt & (tm' & Htm' & Hinner) & Hwho).
  split; [done |]. split; [| done].
  destruct (decide (t' = t)) as [-> | Hne]; [by left |].
  right. exists tm'. simpl. by rewrite lookup_insert_ne.
Qed.

Lemma handle_settled ev w : settled w → settled (handle ev w).
Proof.
  intros Hw. destruct ev; simpl.
  - apply (handler_settled lightboxOpenHandler (set_presentedImage (Some image) w));
      [apply lightboxOpenHandler_timely | apply extends_lightboxOpenHandler | done].
  - apply handler_settled; [| apply extends_navigate | done].
    intros tid w'. by apply navigate_timely.
  - apply handler_settled; [| apply extends_navigate | done].
    intros tid w'. by apply navigate_timely.
  - by apply lightboxCloseHandler_settled.
  - by apply pictureClick_settled.
  - apply settled_updBuffer; [| done]. intros x. unfold panMove. by case_match.
  - case_match; [by apply lightboxScrollHandler_settled | done].
  - by apply lightboxResizeHandler_settled.
  - by apply repaint_settled.
  - by apply loadSettled_settled.
  - by apply timerElapsed_settled.
  - by apply raceTimer_settled.
Qed.

Lemma drain_settled w : settled w → settled (drain w).
Proof.
  intros Hw. unfold drain.
  assert (settled (set_microtasks [] w)) as H by done.
  revert H. generalize (set_microtasks [] w). clear Hw.
  induction (microtasks w) as [| t ts IH]; intros w0 H0; simpl; [done |].
  apply IH. apply settled_deliver; [done | done | by left].
Qed.

Lemma step_settled w ev : settled w → settled (step w ev).
Proof. intros Hw. by apply drain_settled, handle_settled. Qed.

Lemma run_settled w evs : settled w → settled (run w evs).
Proof.
  revert w. induction evs as [| ev evs IH]; intros w Hw; [done |].
  apply IH. by apply step_settled.
Qed.

Lemma init_settled cfg measuredLightbox measuredBuffer measuredZoom scan :
  settled (init cfg measuredLightbox measuredBuffer measuredZoom scan).
Proof.
  split; [| split; [by constructor |]].
  - split; [by constructor |]. split; [by intros x Hx; apply elem_of_nil in Hx |].
    split; [by intros x t Hx; apply elem_of_nil in Hx |].
    split; [by intros x y t Hx; apply elem_of_nil in Hx |].
    intros load [r Hr]. unfold init in Hr; simpl in Hr. by rewrite lookup_empty in Hr.
  - intros b t. unfold hideTransitionOf, init; simpl.
    destruct (decide (b = 0)) as [-> | Hne].
    + by rewrite lookup_singleton_eq.
    + by rewrite lookup_singleton_ne.
Qed.

(** X23: after [init], whatever events have been handled, a call of
    [bufferSwap] returns or suspends, it never throws: the TypeError that
    [cancel] throws once the timer has elapsed is out of its reach, since the
    continuation of the timer clears [hideTransition] before any other code
    runs. *)
Theorem bufferSwap_never_throws cfg measuredLightbox measuredBuffer measuredZoom scan
    evs buffer :
  (bufferSwap buffer (run (init cfg measuredLightbox measuredBuffer measuredZoom scan) evs)).2
  = Finished Normal
  ∨ ∃ frames,
      (bufferSwap buffer
         (run (init cfg measuredLightbox measuredBuffer measuredZoom scan) evs)).2
      = Suspended frames.
Proof.
  set (w := run _ evs).
  assert (settled w) as Hw by apply run_settled, init_settled.
  destruct (bufferSwap_timely buffer (fresh w) w) as [_ Hthrow];
    [by apply settled_poised |].
  destruct (bufferSwap buffer w).2 as [[| e] | frames]; [by left | | by eauto].
  by destruct (Hthrow e).
Qed.

(** X24: no promise of the lightbox is ever rejected with the TypeError
    of [cancel] (calling [innerResolve] or [innerReject] after the timer has
    cleared them): whatever events are handled after [init], no unhandled
    rejection carries it. *)
Theorem cancel_error_never_surfaces cfg measuredLightbox measuredBuffer measuredZoom
    scan evs tid e :
  (tid, e) ∈ unhandled (run (init cfg measuredLightbox measuredBuffer measuredZoom scan) evs) →
  ∀ name, e ≠ notAFunction name.
Proof.
  set (w := run _ evs). intros Hin.
  assert (settled w) as (_ & Hu & _) by apply run_settled, init_settled.
  rewrite Forall_forall in Hu. apply (Hu _ Hin).
Qed.

Lemma cancel_error_never_surfaces_witness :
  JEvent "error" ≠ notAFunction "innerResolve".
Proof.
  apply (cancel_error_never_surfaces defaultConfig 300 200 100
           [sampleImage; sampleImage; sampleImage] failedAfterTimeout 9).
  vm_compute. apply list_elem_of_here.
Defined.

(** What the class list throws does surface. With a zoom class that holds
    white space the click that zooms in leaves the front buffer zoomed but
    without pan handler ([classList.add] throws in the listener); the close
    handler is then rejected by [classList.remove] and leaves the session
    [Closing], and the next handler is rejected with the session [Open]. *)
Lemma invalid_zoom_class_rejects_handlers :
  (isZoomed <$> buffers (run spacedZoomPage zoomedFirst) !! 1 = Some true
   ∧ onpan <$> buffers (run spacedZoomPage zoomedFirst) !! 1 = Some None)
  ∧ (unhandled (run spacedZoomPage (zoomedFirst ++ [ClickClose]))
     = [(6, JDOMException "InvalidCharacterError")]
     ∧ lightboxState (run spacedZoomPage (zoomedFirst ++ [ClickClose])) = Closing
     ∧ tasks (run spacedZoomPage (zoomedFirst ++ [ClickClose])) = [])
  ∧ (unhandled (run spacedZoomPage (zoomedFirst ++ [ClickNext]))
     = [(6, JDOMException "InvalidCharacterError")]
     ∧ lightboxState (run spacedZoomPage (zoomedFirst ++ [ClickNext])) = Open).
Proof. vm_compute. done. Qed.

(** ** The race of one [lightboxPresentImage] call *)

Lemma reachable_settled w : reachable w → settled w.
Proof.
  intros (cfg & a & b & c & scan & evs & ->). apply run_settled, init_settled.
Qed.


Lemma reachable_run w evs : reachable w → reachable (run w evs).
Proof.
  intros (cfg & a & b & c & scan & evs0 & ->). exists cfg, a, b, c, scan, (evs0 ++ evs).
  unfold run. by rewrite foldl_app.
Qed.

(** *** Tasks that an event does not resume *)

Lemma setStack_other tid stack w y :
  y ∈ tasks w → y.1 ≠ tid → y ∈ tasks (setStack tid stack w).
Proof.
  intros Hin Hne. destruct stack as [| f stack].
  - simpl. by apply list_elem_of_filter.
  - apply elem_of_setStack. by right.
Qed.

Lemma unwind_other tid c stack w y :
  y ∈ tasks w → y.1 ≠ tid → y ∈ tasks (unwind tid c stack w).
Proof.
  revert c w. induction stack as [| f rest IH]; intros c w Hin Hne.
  - simpl. destruct c; simpl; by apply list_elem_of_filter.
  - simpl. pose proof (resume_tasks f c w y Hin) as H.
    destruct (resume f c w) as [w' [c' | frames]]; simpl in H.
    + by apply IH.
    + by apply setStack_other.
Qed.

Lemma deliver_other target c w y :
  orderly w → y ∈ tasks w → waitsFor target y = false → y ∈ tasks (deliver target c w).
Proof.
  intros (Hnd & _) Hin Hy. unfold deliver.
  destruct (findWaiter target w) as [[tid stack] |] eqn:E; [| done].
  apply unwind_other; [done |]. intros Heq.
  pose proof (findWaiter_elem target _ _ _ E) as Hin'.
  unfold findWaiter in E. apply find_some in E as [_ E].
  destruct y as [tid' stack']. simpl in Heq. subst tid'.
  rewrite (NoDup_fst_agree _ _ _ _ Hnd Hin Hin') in Hy. congruence.
Qed.


(** The one task that waits for a timeout or for a race is the task that
    the engine finds. *)
Lemma findWaiter_unique target w x :
  orderly w → x ∈ tasks w → waitsFor target x = true → awaited x.2 = Some target →
  findWaiter target w = Some x.
Proof.
  intros (_ & _ & _ & Hx & _) Hin Hw Ha. unfold findWaiter.
  destruct (List.find (waitsFor target) (tasks w)) as [y |] eqn:E.
  - apply find_some in E as [Hy Hwy]. apply list_elem_of_In in Hy. f_equal.
    apply (Hx y x target); try done.
    destruct y as [tid [| f rest]]; unfold waitsFor in Hwy; simpl in *; [done |].
    apply bool_decide_eq_true in Hwy. rewrite Hwy.
    destruct x as [tid' [| f' rest']]; unfold waitsFor in Hw; simpl in *; [done |].
    apply bool_decide_eq_true in Hw. by rewrite Hw in Ha.
  - apply list_elem_of_In in Hin. by rewrite (find_none _ _ E _ Hin) in Hw.
Qed.

(** *** Rejections that an event leaves *)





(** *** The races that an event leaves alone *)

Lemma races_bufferSwap buffer w : races (bufferSwap buffer w).1 = races w.
Proof.
  unfold bufferSwap, bufferSwap_exchange, bufferSwap_cleanup, cancelHideTransition.
  repeat case_match; simplify_eq/=; try done.
Qed.

Lemma races_awaitSwap caller buffer w :
  races (await caller (bufferSwap buffer w) returns).1 = races w.
Proof.
  rewrite <- (races_bufferSwap buffer w).
  by destruct (bufferSwap buffer w) as [w' [[| e] | frames]].
Qed.

(** A new race is that of a load which has just been started. *)
Lemma resume_races f c w load :
  load < fresh w → races (resume f c w).1 !! load = races w !! load.
Proof.
  intros Hl. destruct c, f; simpl; try done;
    unfold presentCatch, presentPreview, afterLoad, lightboxOpenHandler_presented,
      lightboxOpenHandler_repainted, lightboxOpenHandler_finish,
      lightboxCloseHandler_measured, lightboxCloseHandler_finish, presentRace,
      navigated, setVisibility, bufferSwap_exchange, bufferSwap_cleanup,
      bufferLoadPreview, bufferLoadImage, createAttachedBuffer, allocBuffer,
      newTimeout, newLoad;
    repeat case_match; rewrite ?races_awaitSwap; simplify_eq/=;
    rewrite ?lookup_insert_ne by lia; done.
Qed.

Lemma unwind_races tid c stack w load :
  load < fresh w → races (unwind tid c stack w) !! load = races w !! load.
Proof.
  revert c w. induction stack as [| f rest IH]; intros c w Hl.
  - simpl. by destruct c.
  - simpl. pose proof (resume_races f c w load Hl) as H.
    pose proof (extends_resume f c w) as (_ & Hf & _).
    destruct (resume f c w) as [w' [c' | frames]]; simpl in *; [| done].
    by rewrite IH by lia.
Qed.

Lemma deliver_races target c w load :
  load < fresh w → races (deliver target c w) !! load = races w !! load.
Proof.
  intros Hl. unfold deliver.
  destruct (findWaiter target w) as [[tid stack] |]; [by apply unwind_races | done].
Qed.

Lemma spawn_races x : races (spawn x) = races x.1.
Proof. by destruct x as [w [[| e] | frames]]. Qed.

Lemma races_setVisibility v w : races (setVisibility v w) = races w.
Proof. unfold setVisibility. by case_match. Qed.

Lemma fresh_setVisibility v w : fresh (setVisibility v w) = fresh w.
Proof. unfold setVisibility. by case_match. Qed.

Lemma await_races caller callee k :
  (∀ w, races (k w).1 = races w) → races (await caller callee k).1 = races callee.1.
Proof. intros Hk. destruct callee as [w [[| e] | frames]]; simpl; [apply Hk | done..]. Qed.

Lemma lightboxPresentImage_races image w load :
  load < fresh w → races (lightboxPresentImage image w).1 !! load = races w !! load.
Proof.
  intros Hl.
  unfold lightboxPresentImage, createAttachedBuffer, allocBuffer, presentRace, newLoad.
  cbv beta iota zeta. repeat case_match; simpl; rewrite ?lookup_insert_ne by lia; done.
Qed.

Lemma navigate_races caller link w load :
  load < fresh w → races (navigate caller link w).1 !! load = races w !! load.
Proof.
  intros Hl. unfold navigate. case_match; [| done].
  destruct (zoomOutBuffer (frontBuffer w) w) as [w1 [| e]] eqn:E;
    apply zoomOutBuffer_world in E as ->; [| done].
  cbv zeta. rewrite await_races by (intros; apply races_setVisibility).
  rewrite lightboxPresentImage_races; [by rewrite races_setVisibility |].
  by rewrite fresh_setVisibility.
Qed.

Lemma lightboxOpenHandler_races w load :
  load < fresh w → races (lightboxOpenHandler w).1 !! load = races w !! load.
Proof.
  intros Hl. unfold lightboxOpenHandler. cbv zeta. case_match; [| by case_match].
  rewrite await_races.
  - rewrite lightboxPresentImage_races; by destruct (closeOnScroll _).
  - intros w'. unfold lightboxOpenHandler_presented. simpl.
    by destruct (presentedImage w').
Qed.

Lemma lightboxCloseHandler_races w : races (lightboxCloseHandler w).1 = races w.
Proof.
  unfold lightboxCloseHandler, lightboxCloseHandler_measured, lightboxCloseHandler_finish,
    zoomOutBuffer, newTimeout, setVisibility.
  repeat case_match; simplify_eq/=; done.
Qed.

(** *** A race that is over stays so *)

Lemma raceOver_kept load w w' :
  races w' !! load = races w !! load → raceOver load w → raceOver load w'.
Proof. intros E (r & Hr & H). exists r. by rewrite E. Qed.

Lemma settleRace_over p c w load :
  load < fresh w → raceOver load w → raceOver load (settleRace p c w).
Proof.
  intros Hl Hw. unfold settleRace. destruct (races w !! p) as [r |] eqn:E; [| done].
  cbv zeta.
  match goal with |- context [set_races ?m w] =>
    assert (raceOver load (set_races m w)) as Hw' end.
  { destruct Hw as (r0 & Hr0 & Hs & Hp). destruct (decide (p = load)) as [-> | Hne].
    - simplify_eq. eexists. simpl. rewrite lookup_insert_eq. split; [done |].
      destruct c; simpl; (split; [done |]); by destruct (race_promise r0).
    - exists r0. simpl. by rewrite lookup_insert_ne. }
  destruct (race_promise r); try done.
  eapply raceOver_kept; [| exact Hw']. by apply deliver_races.
Qed.

Lemma raceTimer_over p w load :
  load < fresh w → raceOver load w → raceOver load (raceTimer p w).
Proof.
  intros Hl Hw. unfold raceTimer. destruct (races w !! p) as [r |] eqn:E; [| done].
  destruct (race_scheduled r) eqn:Hs; [| done]. cbv zeta.
  match goal with |- context [set_races ?m w] =>
    assert (raceOver load (set_races m w)) as Hw' end.
  { destruct Hw as (r0 & Hr0 & Hs0 & Hp). destruct (decide (p = load)) as [-> | Hne].
    - simplify_eq. congruence.
    - exists r0. simpl. by rewrite lookup_insert_ne. }
  repeat case_match; try done.
  eapply raceOver_kept; [| exact Hw']. by apply deliver_races.
Qed.

Lemma handle_over ev w load :
  load < fresh w → raceOver load w → raceOver load (handle ev w).
Proof.
  intros Hl Hw. destruct ev; simpl.
  - eapply raceOver_kept; [| exact Hw]. rewrite spawn_races.
    by rewrite lightboxOpenHandler_races.
  - eapply raceOver_kept; [| exact Hw]. rewrite spawn_races. by apply navigate_races.
  - eapply raceOver_kept; [| exact Hw]. rewrite spawn_races. by apply navigate_races.
  - eapply raceOver_kept; [| exact Hw]. by rewrite spawn_races, lightboxCloseHandler_races.
  - unfold pictureClick. by repeat case_match.
  - done.
  - case_match; [| done]. unfold lightboxScrollHandler. repeat case_match; try done.
    eapply raceOver_kept; [| exact Hw]. by rewrite spawn_races, lightboxCloseHandler_races.
  - unfold lightboxResizeHandler. case_match; [| done].
    eapply raceOver_kept; [| exact Hw]. by rewrite spawn_races, lightboxCloseHandler_races.
  - unfold repaint. repeat case_match; try done.
    eapply raceOver_kept; [| exact Hw]. by apply unwind_races.
  - unfold loadSettled. destruct (loads w !! _) as [[| |] |]; try done. cbv zeta.
    match goal with |- context [deliver ?t ?c ?w1] =>
      pose proof (extends_deliver t c w1) as (_ & Hf & _);
      assert (raceOver load (deliver t c w1))
        by (apply (raceOver_kept load w1); [by apply deliver_races | done]) end.
    simpl in Hf. apply settleRace_over; [lia | done].
  - unfold timerElapsed. repeat case_match; try done.
    match goal with |- context [deliver ?t ?c ?w1] =>
      apply (raceOver_kept load w1); [by apply deliver_races | done] end.
  - by apply raceTimer_over.
Qed.

Lemma drain_over w load : load < fresh w → raceOver load w → raceOver load (drain w).
Proof.
  intros Hl Hw. unfold drain.
  assert (load < fresh (set_microtasks [] w)) as Hl' by done.
  assert (raceOver load (set_microtasks [] w)) as H by done.
  revert Hl' H. generalize (set_microtasks [] w). clear Hl Hw.
  induction (microtasks w) as [| t ts IH]; intros w0 Hl0 H0; simpl; [done |].
  apply IH.
  - pose proof (extends_deliver (WTimeout t) Normal w0) as (_ & Hf & _). lia.
  - eapply raceOver_kept; [| exact H0]. by apply deliver_races.
Qed.

Lemma run_over w evs load :
  load < fresh w → raceOver load w → raceOver load (run w evs).
Proof.
  revert w. induction evs as [| ev evs IH]; intros w Hl Hw; [done |].
  simpl. apply IH.
  - pose proof (extends_step w ev) as (_ & Hf & _). lia.
  - apply drain_over; [| by apply handle_over].
    pose proof (extends_handle ev w) as (_ & Hf & _). lia.
Qed.

Lemma reachable_from_init cfg measuredLightbox measuredBuffer measuredZoom scan evs :
  reachable (run (init cfg measuredLightbox measuredBuffer measuredZoom scan) evs).
Proof. by exists cfg, measuredLightbox, measuredBuffer, measuredZoom, scan, evs. Qed.

(** *** The load settles or the timer fires while the race is pending *)

Lemma waitsFor_waits tid f rest : waitsFor (waits f) (tid, f :: rest) = true.
Proof. unfold waitsFor; simpl. by apply bool_decide_eq_true_2. Qed.


(** The load settles first: the race takes its outcome, and
    [lightboxPresentImage] ends with it on the spot, so that its callers are
    resumed with the outcome of the load. *)
Lemma loadSettled_present w tid image imageBuffer load rest r failure :
  settled w →
  (tid, PresentRace image imageBuffer load :: rest) ∈ tasks w →
  races w !! load = Some r → race_promise r = Pending →
  loads w !! load = Some Pending →
  let c := loadCompletion failure in
  let w0 := deliver (WLoad load) c
              (set_loads (<[load := match c with
                                    | Normal => Fulfilled
                                    | Throw e => Rejected e
                                    end]> (loads w)) w) in
  handle (LoadSettled load failure) w
  = unwind tid c rest
      (set_races (<[load := match c with
                            | Normal => race_onFulfilled r
                            | Throw e => race_onRejected e r
                            end]> (races w0)) w0).
Proof.
  intros Hw Hin Hr Hp Hl. simpl. unfold loadSettled. rewrite Hl. cbv zeta.
  assert (isTimeout (loadCompletion failure) = false) as Hc by (by destruct failure as [[] |]).
  pose proof (loadCompletion_benign failure) as Hb.
  assert (load < fresh w) as Hlt.
  { destruct Hw as ((_ & _ & _ & _ & Hraces) & _). apply Hraces. by rewrite Hr. }
  match goal with |- context [deliver (WLoad load) ?c ?w0] =>
    set (wl := w0); set (w0' := deliver (WLoad load) c wl) end.
  assert (settled wl) as Hwl by done.
  assert (settled w0') as Hw0 by (apply settled_deliver; [done | done | by right]).
  assert (races w0' !! load = Some r) as Hr0
    by (unfold w0'; by rewrite deliver_races).
  assert ((tid, PresentRace image imageBuffer load :: rest) ∈ tasks w0') as Hin0.
  { destruct Hwl as (Ho & _). by apply deliver_other. }
  unfold settleRace. rewrite Hr0. cbv zeta. rewrite Hp.
  match goal with |- context [deliver (WRace load) _ ?w1'] => set (w1 := w1') end.
  assert (settled w1) as (Ho1 & _) by (by apply settled_set_race; [rewrite Hr0 |]).
  unfold deliver.
  rewrite (findWaiter_unique (WRace load) w1
             (tid, PresentRace image imageBuffer load :: rest) Ho1 Hin0
             (waitsFor_waits tid (PresentRace image imageBuffer load) rest) eq_refl).
  by destruct failure as [[] |].
Qed.

(** Whatever the race was, once the load has settled it is over. *)
Lemma loadSettled_over w load r failure :
  settled w → races w !! load = Some r → loads w !! load = Some Pending →
  raceOver load (handle (LoadSettled load failure) w).
Proof.
  intros Hw Hr Hl. simpl. unfold loadSettled. rewrite Hl. cbv zeta.
  assert (load < fresh w) as Hlt.
  { destruct Hw as ((_ & _ & _ & _ & Hraces) & _). apply Hraces. by rewrite Hr. }
  match goal with |- context [deliver (WLoad load) ?c ?w0] =>
    set (wl := w0); set (w0' := deliver (WLoad load) c wl);
    pose proof (extends_deliver (WLoad load) c wl) as (_ & Hf & _) end.
  assert (races w0' !! load = Some r) as Hr0 by (unfold w0'; by rewrite deliver_races).
  unfold settleRace. rewrite Hr0. cbv zeta.
  match goal with |- context [set_races ?m w0'] =>
    assert (raceOver load (set_races m w0')) as Hover end.
  { eexists. simpl. rewrite lookup_insert_eq. split; [done |].
    destruct (loadCompletion failure); simpl; (split; [done |]);
      by destruct (race_promise r). }
  destruct (race_promise r); try done.
  eapply raceOver_kept; [| exact Hover]. apply deliver_races.
  unfold w0', wl in *. simpl in *. lia.
Qed.


(** C2: in a world that the page has reached, let [lightboxPresentImage]
    of task [tid] wait for the race of load [load] while neither the load has
    settled nor the timer has fired. When the load then settles (fulfilled or
    failed), the event creates no buffer; once the callback chained with
    [then] has run and the race has taken the outcome of the load, the
    callers of [lightboxPresentImage] go on with that outcome:
    [lightboxPresentImage] has ended with it at once, and the catch block
    that creates the preview is not entered; and from then on, whatever
    events follow, the race stays settled with its timer cleared, the
    timer's callback changes nothing and the event of the timer creates no
    buffer. *)
Theorem full_load_wins w tid image imageBuffer load rest r failure :
  reachable w →
  (tid, PresentRace image imageBuffer load :: rest) ∈ tasks w →
  races w !! load = Some r → race_promise r = Pending →
  loads w !! load = Some Pending →
  dom (buffers (step w (LoadSettled load failure))) = dom (buffers w)
  ∧ (let c := loadCompletion failure in
     let w0 := deliver (WLoad load) c
                 (set_loads (<[load := match c with
                                       | Normal => Fulfilled
                                       | Throw e => Rejected e
                                       end]> (loads w)) w) in
     handle (LoadSettled load failure) w
     = unwind tid c rest
         (set_races (<[load := match c with
                               | Normal => race_onFulfilled r
                               | Throw e => race_onRejected e r
                               end]> (races w0)) w0))
  ∧ ∀ evs,
      raceOver load (run (step w (LoadSettled load failure)) evs)
      ∧ handle (RaceTimer load) (run (step w (LoadSettled load failure)) evs)
        = run (step w (LoadSettled load failure)) evs
      ∧ dom (buffers (step (run (step w (LoadSettled load failure)) evs) (RaceTimer load)))
        = dom (buffers (run (step w (LoadSettled load failure)) evs)).
Proof.
  intros Hw%reachable_settled Hin Hr Hp Hl.
  split; [apply step_loadSettled_buffers |].
  split; [by apply (loadSettled_present w tid image imageBuffer load rest r) |].
  intros evs.
  assert (load < fresh w) as Hlt.
  { destruct Hw as ((_ & _ & _ & _ & Hraces) & _). apply Hraces. by rewrite Hr. }
  assert (raceOver load (run (step w (LoadSettled load failure)) evs)) as Hover.
  { pose proof (extends_handle (LoadSettled load failure) w) as (_ & Hf & _).
    pose proof (extends_step w (LoadSettled load failure)) as (_ & Hf' & _).
    apply run_over; [lia |]. apply drain_over; [lia |].
    by apply (loadSettled_over w load r). }
  assert (handle (RaceTimer load) (run (step w (LoadSettled load failure)) evs)
          = run (step w (LoadSettled load failure)) evs) as Hnone.
  { destruct Hover as (r' & Hr' & Hs & _). simpl. unfold raceTimer. by rewrite Hr', Hs. }
  split; [done |]. split; [done |].
  unfold step at 1. rewrite Hnone. apply drain_quiet.
Qed.

Lemma full_load_wins_witness :
  dom (buffers (step (run page racing) (LoadSettled 8 None))) = dom (buffers (run page racing))
  ∧ raceOver 8 (run (step (run page racing) (LoadSettled 8 None)) [RaceTimer 8]).
Proof.
  destruct (full_load_wins (run page racing) 7 1 6 8 [NextPresent] (promiseWithTimeout 50) None)
    as (Hd & _ & Hever).
  - apply reachable_from_init.
  - vm_compute. apply list_elem_of_here.
  - vm_compute. reflexivity.
  - reflexivity.
  - vm_compute. reflexivity.
  - split; [exact Hd | apply (Hever [RaceTimer 8])].
Defined.


(** After the timeout [present] can still fail: the load of the preview is
    awaited outside the [try], so its failure rejects the handler (task 7). *)
Lemma preview_failure_leaves_present :
  unhandled (run page previewFailed) = [(7, failureReason ErrorEvent)].
Proof. vm_compute. done. Qed.


